(** * Project Scarlet: the client's narration and turn-stream pipeline

    A shallow embedding of [static/app.js]: the sentence segmenter
    ([splitBySentence]), the line protocol and message assembly of
    [sendMessage], and the narration pipeline ([stopTTS], [playTTS]).

    JavaScript strings are sequences of UTF-16 code units; they are modelled
    as lists of [N].  Every character the script tests for lies in the Basic
    Multilingual Plane, so one character is one code unit. *)

From Stdlib Require Import NArith List Bool Lia String Ascii.
From stdpp Require Import base list.
Import ListNotations.

Local Open Scope N_scope.

(** ** JavaScript strings *)

Module JS.

Definition jsstring := list N.

(** An ASCII literal of the script, as code units. *)
Definition lit (s : string) : jsstring :=
  List.map N_of_ascii (list_ascii_of_string s).

(** Truthiness of a string: [if (s)] holds for the non-empty ones. *)
Definition truthy (s : jsstring) : bool :=
  match s with [] => false | _ :: _ => true end.

(** [s.startsWith(p)]. *)
Fixpoint startsWith (s p : jsstring) : bool :=
  match p, s with
  | [], _ => true
  | a :: p', b :: s' => (a =? b) && startsWith s' p'
  | _ :: _, [] => false
  end.

(** [s.includes(sub)]: [sub] occurs somewhere in [s]. *)
Fixpoint includes (s sub : jsstring) : bool :=
  startsWith s sub ||
  match s with
  | [] => false
  | _ :: s' => includes s' sub
  end.

(** [s.slice(n)] for [0 <= n]. *)
Definition slice (s : jsstring) (n : nat) : jsstring := drop n s.

(** ECMAScript WhiteSpace and LineTerminator code points, the ones
    [String.prototype.trim] strips. *)
Definition is_space (c : N) : bool :=
  (c =? 0x09) || (c =? 0x0A) || (c =? 0x0B) || (c =? 0x0C) || (c =? 0x0D) ||
  (c =? 0x20) || (c =? 0xA0) || (c =? 0x1680) ||
  ((0x2000 <=? c) && (c <=? 0x200A)) ||
  (c =? 0x2028) || (c =? 0x2029) || (c =? 0x202F) || (c =? 0x205F) ||
  (c =? 0x3000) || (c =? 0xFEFF).

Fixpoint trimStart (s : jsstring) : jsstring :=
  match s with
  | [] => []
  | c :: s' => if is_space c then trimStart s' else s
  end.

Definition trimEnd (s : jsstring) : jsstring := rev (trimStart (rev s)).

(** [s.trim()]. *)
Definition trim (s : jsstring) : jsstring := trimEnd (trimStart s).

End JS.

Import JS.

(** ** The sentence segmenter *)

Module Segmenter.

(** The literal of line 155: full-width full stop, exclamation and question
    marks, then [!], [?] and the line feed. *)
Definition TERMINATORS : jsstring := [0x3002; 0xFF01; 0xFF1F; 0x21; 0x3F; 0x0A].

(** ['。！？!?\n'.includes(text[i])]. *)
Definition is_terminator (c : N) : bool := includes TERMINATORS [c].

(** [if (trimmed) chunks.push(trimmed)]. *)
Definition push_if (chunks : list jsstring) (s : jsstring) : list jsstring :=
  if truthy s then chunks ++ [s] else chunks.

(** The [for] loop of [splitBySentence], on the code units still to read,
    with the two variables it updates. *)
Fixpoint scan (text : jsstring) (chunks : list jsstring) (current : jsstring)
  : list jsstring * jsstring :=
  match text with
  | [] => (chunks, current)
  | c :: text' =>
      let current := current ++ [c] in
      if is_terminator c
      then scan text' (push_if chunks (trim current)) []
      else scan text' chunks current
  end.

(** [chunks.length > 0]. *)
Definition truthy_chunks (chunks : list jsstring) : bool :=
  (0 <? length chunks)%nat.

Definition splitBySentence (text : jsstring) : list jsstring :=
  let '(chunks, current) := scan text [] [] in
  let rest := trim current in
  let chunks := push_if chunks rest in
  if truthy_chunks chunks then chunks else [text].

(** The two sample texts of the specification. *)
Definition hello_version : jsstring := lit "Hello world. Version 2.0 is out".

(** 元気ですか？うん！ *)
Definition genki_un : jsstring :=
  [0x5143; 0x6C17; 0x3067; 0x3059; 0x304B; 0xFF1F; 0x3046; 0x3093; 0xFF01].
Definition genki : jsstring := [0x5143; 0x6C17; 0x3067; 0x3059; 0x304B; 0xFF1F].
Definition un : jsstring := [0x3046; 0x3093; 0xFF01].

(** A segment the loop closes: it ends with a terminator and holds no other. *)
Definition closed_segment (seg : jsstring) : Prop :=
  exists body t, seg = body ++ [t] /\ is_terminator t = true /\
                 Forall (fun c => is_terminator c = false) body.

(** The chunks kept from a list of trimmed segments: the non-empty ones. *)
Definition kept (segs : list jsstring) : list jsstring :=
  List.filter truthy segs.

End Segmenter.

(** ** The byte decoder of the turn stream

    [new TextDecoder()] is the platform's UTF-8 decoder.  With
    [{stream: true}] it keeps its state between calls; the script never
    flushes it.  The automaton below is the UTF-8 decoder of the WHATWG
    Encoding Standard with replacement error mode, followed by the byte order
    mark rule of [TextDecoder] and the UTF-16 encoding of code points. *)

Module TextDecoder.

Record state := mk {
  code_point : N;
  bytes_seen : N;
  bytes_needed : N;
  lower : N;
  upper : N;
  bom_seen : bool
}.

Definition init : state := mk 0 0 0 0x80 0xBF false.

Definition between (lo b hi : N) : bool := (lo <=? b) && (b <=? hi).

(** A byte met while no sequence is open. *)
Definition lead (bom : bool) (b : N) : state * list N :=
  if b <=? 0x7F then (mk 0 0 0 0x80 0xBF bom, [b])
  else if between 0xC2 b 0xDF then (mk (N.land b 0x1F) 0 1 0x80 0xBF bom, [])
  else if between 0xE0 b 0xEF then
    (mk (N.land b 0xF) 0 2 (if b =? 0xE0 then 0xA0 else 0x80)
        (if b =? 0xED then 0x9F else 0xBF) bom, [])
  else if between 0xF0 b 0xF4 then
    (mk (N.land b 0x7) 0 3 (if b =? 0xF0 then 0x90 else 0x80)
        (if b =? 0xF4 then 0x8F else 0xBF) bom, [])
  else (mk 0 0 0 0x80 0xBF bom, [0xFFFD]).

(** One byte through the decoder: the code points it completes. *)
Definition handler (st : state) (b : N) : state * list N :=
  if bytes_needed st =? 0 then lead (bom_seen st) b
  else if negb (between (lower st) b (upper st)) then
    let '(st', out) := lead (bom_seen st) b in (st', 0xFFFD :: out)
  else
    let cp := N.lor (N.shiftl (code_point st) 6) (N.land b 0x3F) in
    if bytes_seen st + 1 =? bytes_needed st
    then (mk 0 0 0 0x80 0xBF (bom_seen st), [cp])
    else (mk cp (bytes_seen st + 1) (bytes_needed st) 0x80 0xBF (bom_seen st), []).

(** A code point as UTF-16 code units. *)
Definition utf16 (cp : N) : jsstring :=
  if cp <? 0x10000 then [cp]
  else let c := cp - 0x10000 in
       [0xD800 + N.shiftr c 10; 0xDC00 + N.land c 0x3FF].

(** Serialisation of one decoded code point: the first one of the stream
    is dropped when it is the byte order mark. *)
Definition emit (st : state) (cp : N) : state * jsstring :=
  if bom_seen st then (st, utf16 cp)
  else
    let st' := mk (code_point st) (bytes_seen st) (bytes_needed st)
                  (lower st) (upper st) true in
    if cp =? 0xFEFF then (st', []) else (st', utf16 cp).

Fixpoint emit_all (st : state) (cps : list N) : state * jsstring :=
  match cps with
  | [] => (st, [])
  | cp :: cps' =>
      let '(st1, o1) := emit st cp in
      let '(st2, o2) := emit_all st1 cps' in
      (st2, o1 ++ o2)
  end.

Definition step (st : state) (b : N) : state * jsstring :=
  let '(st1, cps) := handler st b in emit_all st1 cps.

(** [decoder.decode(value, { stream: true })]. *)
Fixpoint decode (st : state) (value : list N) : state * jsstring :=
  match value with
  | [] => (st, [])
  | b :: value' =>
      let '(st1, o1) := step st b in
      let '(st2, o2) := decode st1 value' in
      (st2, o1 ++ o2)
  end.

End TextDecoder.

(** ** Payloads

    What [JSON.parse] returns.  A number is kept as the text that string
    conversion gives it: the script only interpolates and concatenates the
    payload fields it reads.  The value [undefined] is [None]. *)

Module Json.

#[warnings="-register-all"]
Inductive json :=
| JNull
| JBool (b : bool)
| JNum (text : jsstring)
| JStr (s : jsstring)
| JArr (items : list json)
| JObj (fields : list (jsstring * json)).

Definition value := option json.

Fixpoint eqb (a b : jsstring) : bool :=
  match a, b with
  | [], [] => true
  | x :: a', y :: b' => (x =? y) && eqb a' b'
  | _, _ => false
  end.

Fixpoint assoc (fields : list (jsstring * json)) (key : jsstring) : value :=
  match fields with
  | [] => None
  | (k, v) :: fields' => if eqb k key then Some v else assoc fields' key
  end.

(** [data.key] for one of the field names the script reads ([token],
    [error], [mode], ...), none of which is inherited from a prototype.
    The outer [None] is the [TypeError] of reading a property of [null]. *)
Definition prop (data : json) (key : jsstring) : option value :=
  match data with
  | JNull => None
  | JObj fields => Some (assoc fields key)
  | _ => Some None
  end.

(** String conversion of a payload value, as string concatenation, template
    literals and property keys perform it; [None] is the [TypeError] it
    throws.  An object made by [JSON.parse] inherits [toString] unless it
    has a field of that name, whose value is never a function: then neither
    [toString] nor the inherited [valueOf] yields a primitive value.  An
    array joins the conversions of its elements, with the empty string for
    [null]. *)
Fixpoint to_string (v : json) : option jsstring :=
  match v with
  | JNull => Some (lit "null")
  | JBool true => Some (lit "true")
  | JBool false => Some (lit "false")
  | JNum text => Some text
  | JStr s => Some s
  | JArr items =>
      (fix join (l : list json) : option jsstring :=
         match l with
         | [] => Some []
         | x :: l' =>
             match (match x with JNull => Some [] | _ => to_string x end) with
             | Some t =>
                 match l' with
                 | [] => Some t
                 | _ :: _ =>
                     match join l' with
                     | Some r => Some (t ++ lit "," ++ r)
                     | None => None
                     end
                 end
             | None => None
             end
         end) items
  | JObj fields =>
      match assoc fields (lit "toString") with
      | Some _ => None
      | None => Some (lit "[object Object]")
      end
  end.

Definition string_of (v : value) : option jsstring :=
  match v with
  | None => Some (lit "undefined")
  | Some j => to_string j
  end.

End Json.

Import Json.

(** ** The turn stream: [sendMessage] from the first read to the clean-up *)

Module Stream.

(** The [innerHTML] of a message body: markup written by the script, or
    the output of [marked.parse] on a source text, kept symbolic. *)
Inductive html :=
| Markup (s : jsstring)
| Marked (src : jsstring).

(** *** Markup that brings elements of its own

    What is assigned to [innerHTML] is parsed, and
    [document.getElementById] also finds the elements the parser made.  The
    parser does not decode the name of an attribute: markup that gives an
    element an id holds the letters [i] and [d], in either case, next to
    each other.  [marked.parse] passes the HTML of its source through, and
    can give a heading an id made from its text; the source of a heading
    holds a [#], or a line of [=] or of [-]. *)

Definition is_i (c : N) : bool := (c =? 0x69) || (c =? 0x49).
Definition is_d (c : N) : bool := (c =? 0x64) || (c =? 0x44).

Fixpoint spells_id (s : jsstring) : bool :=
  match s with
  | [] => false
  | c :: s' =>
      (is_i c && match s' with c' :: _ => is_d c' | [] => false end) ||
      spells_id s'
  end.

Definition heading_mark (c : N) : bool :=
  (c =? 0x23) || (c =? 0x3D) || (c =? 0x2D).

(** The markup may bring an element that carries an id. *)
Definition brings (h : html) : bool :=
  match h with
  | Markup s => spells_id s
  | Marked src => spells_id src || existsb heading_mark src
  end.

(** A [.msg] element of the chat, with what the script reads and writes of
    it: the id [streaming-msg], the value interpolated into its class (which
    has a string conversion), the narration buttons of its header (by their
    text), and its body. *)
Record message := mkMessage {
  has_id : bool;
  mode_class : value;
  buttons : list jsstring;
  body : html;
  cursor : bool
}.

(** Calls into the rest of the page, recorded in program order when they
    are made.  The tool rows, the retry row, the mode chip and the narration
    pipeline are not part of the message list.  The elements that [setMode]
    and [setExpression] look up ([chip-mode], [expr-label],
    [chip-expression]) belong to the markup of the page itself and are taken
    to be there. *)
Inductive call :=
| AddToolStart (tool call_id : value)
| AddToolDone (tool call_id summary : value)
| ShowConfirmAction (data : json)
| ShowLLMRetryStatus (data : json)
| ClearLLMRetryStatus
| ClearToolStatus
| SetMode (mode : value)
| SetExpression (expression : value)
| PlayTTS (text : jsstring) (msg : nat).

(** A value that a call may write into markup, in whole or in part.  What
    is written of a value that has no string conversion is not followed
    here: it counts as wild. *)
Definition wild (v : value) : bool :=
  match string_of v with
  | Some t => spells_id t
  | None => true
  end.

Definition wild_field (data : json) (key : string) : bool :=
  match prop data (lit key) with
  | Some v => wild v
  | None => false
  end.

(** The markup that the call writes may bring an element that carries an
    id: the label and the summary of a tool row, the title and the time of a
    card, the counts of the retry notice.  [setMode] and [setExpression]
    write text and attributes, [playTTS] the drawings of the script. *)
Definition call_brings (c : call) : bool :=
  match c with
  | AddToolStart tool _ => wild tool
  | AddToolDone tool _ summary => wild tool || wild summary
  | ShowConfirmAction data => wild_field data "title" || wild_field data "time"
  | ShowLLMRetryStatus data =>
      wild_field data "attempt" || wild_field data "max_retries"
  | _ => false
  end.

(** The variables of [sendMessage] and what it reads and writes of the
    page: [dom] lists the messages of the chat in document order.
    [dispatched] is the record of the payloads delivered to the handlers.
    [astray] tells that markup which may bring an element with an id is in
    the page, in a message or elsewhere: [dom] tells what
    [document.getElementById] finds as long as [astray] is [false]. *)
Record state := mkState {
  dom : list message;
  currentMode : value;
  calls : list call;
  streamBody : option nat;
  rawText : jsstring;
  decoder : TextDecoder.state;
  buffer : jsstring;
  currentEvent : jsstring;
  dispatched : list (jsstring * json);
  astray : bool
}.

Definition with_dom (f : list message -> list message) (s : state) : state :=
  mkState (f (dom s)) (currentMode s) (calls s) (streamBody s) (rawText s)
          (decoder s) (buffer s) (currentEvent s) (dispatched s) (astray s).
Definition set_currentMode (m : value) (s : state) : state :=
  mkState (dom s) m (calls s) (streamBody s) (rawText s)
          (decoder s) (buffer s) (currentEvent s) (dispatched s) (astray s).
Definition mark (b : bool) (s : state) : state :=
  mkState (dom s) (currentMode s) (calls s) (streamBody s) (rawText s)
          (decoder s) (buffer s) (currentEvent s) (dispatched s) (astray s || b).
Definition do_call (c : call) (s : state) : state :=
  mkState (dom s) (currentMode s) (calls s ++ [c]) (streamBody s) (rawText s)
          (decoder s) (buffer s) (currentEvent s) (dispatched s)
          (astray s || call_brings c).
Definition set_streamBody (b : option nat) (s : state) : state :=
  mkState (dom s) (currentMode s) (calls s) b (rawText s)
          (decoder s) (buffer s) (currentEvent s) (dispatched s) (astray s).
Definition set_rawText (t : jsstring) (s : state) : state :=
  mkState (dom s) (currentMode s) (calls s) (streamBody s) t
          (decoder s) (buffer s) (currentEvent s) (dispatched s) (astray s).
Definition set_decoder (d : TextDecoder.state) (s : state) : state :=
  mkState (dom s) (currentMode s) (calls s) (streamBody s) (rawText s)
          d (buffer s) (currentEvent s) (dispatched s) (astray s).
Definition set_buffer (b : jsstring) (s : state) : state :=
  mkState (dom s) (currentMode s) (calls s) (streamBody s) (rawText s)
          (decoder s) b (currentEvent s) (dispatched s) (astray s).
Definition set_currentEvent (e : jsstring) (s : state) : state :=
  mkState (dom s) (currentMode s) (calls s) (streamBody s) (rawText s)
          (decoder s) (buffer s) e (dispatched s) (astray s).
Definition deliver (e : jsstring) (data : json) (s : state) : state :=
  mkState (dom s) (currentMode s) (calls s) (streamBody s) (rawText s)
          (decoder s) (buffer s) (currentEvent s) (dispatched s ++ [(e, data)])
          (astray s).

(** *** Statements that may throw

    The body of the [try] block runs statement by statement; a statement that
    throws leaves the effects of the earlier ones in place. *)

Definition M (A : Type) : Type := state -> option A * state.

Definition ret {A} (a : A) : M A := fun s => (Some a, s).
Definition throw {A} : M A := fun s => (None, s).
Definition bind {A B} (m : M A) (k : A -> M B) : M B :=
  fun s => match m s with
           | (Some a, s') => k a s'
           | (None, s') => (None, s')
           end.
Definition exec (f : state -> state) : M unit := fun s => (Some tt, f s).
Definition read {A} (f : state -> A) : M A := fun s => (Some (f s), s).

(** [try { m } catch (e) {}]. *)
Definition try_catch (m : M unit) (s : state) : state := snd (m s).

Declare Scope js_scope.
Delimit Scope js_scope with js.
Notation "x <- m ;; k" := (bind m (fun x => k))
  (at level 100, m at next level, right associativity) : js_scope.
Notation "m ;; k" := (bind m (fun _ => k))
  (at level 100, right associativity) : js_scope.
Local Open Scope js_scope.

(** [data.key]. *)
Definition field (data : json) (key : string) : M value :=
  match prop data (lit key) with
  | Some v => ret v
  | None => throw
  end.

(** The string conversion of [v] in a template literal or a
    concatenation. *)
Definition convert (v : value) : M jsstring :=
  match string_of v with
  | Some t => ret t
  | None => throw
  end.

(** *** The message list *)

(** [document.getElementById('streaming-msg')]: the first element in
    document order that carries the id, among those of [dom]. *)
Fixpoint getStreamingMsg_from (i : nat) (d : list message) : option nat :=
  match d with
  | [] => None
  | m :: d' => if has_id m then Some i else getStreamingMsg_from (S i) d'
  end.
Definition getStreamingMsg (s : state) : option nat :=
  getStreamingMsg_from 0 (dom s).

(** A write to an element that is no longer in the list is not seen. *)
Definition update (i : nat) (f : message -> message) (d : list message)
  : list message :=
  match d !! i with
  | Some m => <[i := f m]> d
  | None => d
  end.

Definition set_body (h : html) (m : message) : message :=
  mkMessage (has_id m) (mode_class m) (buttons m) h (cursor m).
Definition remove_cursor (m : message) : message :=
  mkMessage (has_id m) (mode_class m) (buttons m) (body m) false.
Definition remove_id (m : message) : message :=
  mkMessage false (mode_class m) (buttons m) (body m) (cursor m).
Definition set_mode_class (v : value) (m : message) : message :=
  mkMessage (has_id m) v (buttons m) (body m) (cursor m).
Definition add_button (text : jsstring) (m : message) : message :=
  mkMessage (has_id m) (mode_class m) (buttons m ++ [text]) (body m) (cursor m).

(** [streamBody.innerHTML = h]. *)
Definition set_innerHTML (i : nat) (h : html) (s : state) : state :=
  mark (brings h) (with_dom (update i (set_body h)) s).

(** [createStreamingMessage()]: a new element at the end of the chat, with
    the id, an empty header and an empty body showing the cursor; the
    reference returned is the one to its body.  The template of its class
    converts [currentMode] before anything is appended. *)
Definition createStreamingMessage : M nat :=
  mode <- read currentMode ;;
  _ <- convert mode ;;
  fun s =>
    (Some (length (dom s)),
     with_dom (fun d => d ++ [mkMessage true mode [] (Markup []) true]) s).

(** [if (!streamBody) streamBody = createStreamingMessage()]. *)
Definition ensureStreamBody : M nat :=
  b <- read streamBody ;;
  match b with
  | Some i => ret i
  | None => i <- createStreamingMessage ;; exec (set_streamBody (Some i)) ;; ret i
  end.

(** The state once [streamBody] holds a message just created. *)
Definition new_message (s : state) : state :=
  set_streamBody (Some (length (dom s)))
    (with_dom (fun d => d ++ [mkMessage true (currentMode s) [] (Markup []) true]) s).

Definition QUOTE : jsstring := [0x22].

Definition error_span (label : string) (msg : jsstring) : html :=
  Markup (lit "<span style=" ++ QUOTE ++ lit "color:var(--red)" ++ QUOTE ++
          lit ">" ++ lit label ++ msg ++ lit "</span>").

Definition truthy_list {A} (l : list A) : bool :=
  match l with [] => false | _ :: _ => true end.

(** [makeTTSButton(rawText)], [hdr.appendChild(ttsBtn)] and
    [playTTS(rawText, ttsBtn)] on the header of message [i]. *)
Definition addButtonAndPlay (i : nat) (text : jsstring) : M unit :=
  exec (with_dom (update i (add_button text))) ;;
  exec (do_call (PlayTTS text i)).

(** *** The handlers of a data line, by event type *)

Definition on_tool_start (data : json) : M unit :=
  tool <- field data "tool" ;;
  call_id <- field data "call_id" ;;
  exec (do_call (AddToolStart tool call_id)).

Definition on_tool_done (data : json) : M unit :=
  tool <- field data "tool" ;;
  call_id <- field data "call_id" ;;
  summary <- field data "summary" ;;
  exec (do_call (AddToolDone tool call_id summary)).

(** [rawText += data.token] throws on a token without a string
    conversion, after the message was created. *)
Definition on_token (data : json) : M unit :=
  i <- ensureStreamBody ;;
  exec (do_call ClearLLMRetryStatus) ;;
  token <- field data "token" ;;
  t <- convert token ;;
  exec (fun s => set_rawText (rawText s ++ t) s) ;;
  exec (fun s => set_innerHTML i (Marked (rawText s)) s).

(** [setExpression] is called and throws in its first statement, the
    template of the image path, on an expression without a string
    conversion; the template of the class throws on such a mode, before
    the id is removed. *)
Definition on_done (data : json) : M unit :=
  exec (do_call ClearLLMRetryStatus) ;;
  mode <- field data "mode" ;;
  exec (do_call (SetMode mode)) ;;
  exec (set_currentMode mode) ;;
  expression <- field data "expression" ;;
  exec (do_call (SetExpression expression)) ;;
  _ <- convert expression ;;
  b <- read streamBody ;;
  match b with
  | Some i => exec (with_dom (update i remove_cursor))
  | None => ret tt
  end ;;
  streamMsg <- read getStreamingMsg ;;
  match streamMsg with
  | Some j =>
      mode' <- field data "mode" ;;
      _ <- convert mode' ;;
      exec (with_dom (update j (set_mode_class mode'))) ;;
      exec (with_dom (update j remove_id)) ;;
      text <- read rawText ;;
      if truthy text then addButtonAndPlay j text else ret tt
  | None => ret tt
  end ;;
  match b with
  | Some i => exec (fun s => set_innerHTML i (Marked (rawText s)) s)
  | None => ret tt
  end.

(** The template is evaluated before the body is assigned: an error
    value without a string conversion leaves the body and the cursor. *)
Definition on_error (data : json) : M unit :=
  exec (do_call ClearLLMRetryStatus) ;;
  i <- ensureStreamBody ;;
  err <- field data "error" ;;
  t <- convert err ;;
  exec (set_innerHTML i (error_span "Error: " t)) ;;
  exec (with_dom (update i remove_cursor)).

Definition is_event (e : jsstring) (name : string) : bool := eqb e (lit name).

(** The [if ... else if] chain on [currentEvent]. *)
Definition dispatch (e : jsstring) (data : json) : M unit :=
  if is_event e "tool_start" then on_tool_start data
  else if is_event e "tool_done" then on_tool_done data
  else if is_event e "token" then on_token data
  else if is_event e "confirm_action" then exec (do_call (ShowConfirmAction data))
  else if is_event e "llm_retry" then exec (do_call (ShowLLMRetryStatus data))
  else if is_event e "done" then on_done data
  else if is_event e "error" then on_error data
  else ret tt.

(** Pre- and postconditions of a computation: [Q] on return, [E] on throw. *)
Definition triple {A} (P : state -> Prop) (m : M A)
    (Q : A -> state -> Prop) (E : state -> Prop) : Prop :=
  forall s, P s ->
    match m s with
    | (Some a, s') => Q a s'
    | (None, s') => E s'
    end.

(** *** The read loop *)

Section Consumer.

(** [JSON.parse], with [None] for the [SyntaxError] it throws. *)
Variable JSON_parse : jsstring -> option json.

(** A line that starts with ["data: "]: the [try] block, then the reset
    of [currentEvent]. *)
Definition on_data (line : jsstring) (s : state) : state :=
  let e := currentEvent s in
  let s' :=
    try_catch
      (match JSON_parse (slice line 6) with
       | Some data => exec (deliver e data) ;; dispatch e data
       | None => throw
       end) s in
  set_currentEvent (lit "message") s'.

(** A line the loop body skips: it passes neither [startsWith] test. *)
Definition skipped (line : jsstring) : Prop :=
  startsWith line (lit "event: ") = false /\
  startsWith line (lit "data: ") = false.

(** The body of [for (const line of lines)]. *)
Definition on_line (s : state) (line : jsstring) : state :=
  if startsWith line (lit "event: ") then set_currentEvent (trim (slice line 7)) s
  else if startsWith line (lit "data: ") then on_data line s
  else s.

Definition LF : N := 0x0A.

(** [buffer.split('\n')]: never empty. *)
Fixpoint split_lf (s : jsstring) : list jsstring :=
  match s with
  | [] => [[]]
  | c :: s' =>
      if c =? LF then [] :: split_lf s'
      else match split_lf s' with
           | l :: ls => (c :: l) :: ls
           | [] => [[c]]
           end
  end.

(** The two assignments of the reader: [decoder]'s state and [buffer]. *)
Definition set_input (d : TextDecoder.state) (b : jsstring) (s : state) : state :=
  set_buffer b (set_decoder d s).

(** A computation that neither reads nor writes [decoder] and [buffer]. *)
Definition frames {A} (m : M A) : Prop :=
  forall d b s, m (set_input d b s) = ((m s).1, set_input d b (m s).2).

(** One iteration of [while (true)] on a read that is not [done]. *)
Definition on_chunk (s : state) (value : list N) : state :=
  let '(d, text) := TextDecoder.decode (decoder s) value in
  let lines := split_lf (buffer s ++ text) in
  let s := set_input d (List.last lines []) s in
  fold_left on_line (removelast lines) s.

Definition reads (s : state) (chunks : list (list N)) : state :=
  fold_left on_chunk chunks s.

(** How the loop is left: the reader reports [done], or the request or a
    read fails with an error whose [message] is given. *)
Inductive ending :=
| Closed
| Failed (message : value).

(** The [catch (err)] block of [sendMessage]. *)
Definition on_failure (message : value) : M unit :=
  exec (do_call ClearLLMRetryStatus) ;;
  i <- ensureStreamBody ;;
  t <- convert message ;;
  exec (set_innerHTML i (error_span "Connection error: " t)) ;;
  exec (with_dom (update i remove_cursor)).

(** From the end of the loop to the end of the [try] statement. *)
Definition leave (e : ending) : M unit :=
  match e with
  | Closed => ret tt
  | Failed message => on_failure message
  end.

Definition finish (e : ending) (s : state) : state := snd (leave e s).

(** Lines 511 to 522: the fallback after the loop. *)
Definition fallback_body : M unit :=
  streamMsg <- read getStreamingMsg ;;
  text <- read rawText ;;
  match streamMsg with
  | Some j =>
      if truthy text then
        exec (with_dom (update j remove_id)) ;;
        b <- read streamBody ;;
        match b with
        | Some i => exec (with_dom (update i remove_cursor))
        | None => ret tt
        end ;;
        m <- read (fun s => dom s !! j) ;;
        match m with
        | Some m => if truthy_list (buttons m) then ret tt
                    else addButtonAndPlay j text
        | None => ret tt
        end
      else ret tt
  | None => ret tt
  end.

Definition fallback (s : state) : state := snd (fallback_body s).

(** Lines 524 to 526. *)
Definition cleanup (s : state) : state :=
  do_call ClearToolStatus (do_call ClearLLMRetryStatus s).

(** What follows the loop: the fallback and the clean-up, unless the
    [catch] block itself threw, which ends [sendMessage] there. *)
Definition settle (e : ending) (s : state) : state :=
  match leave e s with
  | (Some _, s') => cleanup (fallback s')
  | (None, s') => s'
  end.

(** The state in which the loop is entered, in a page that holds the
    messages [d] in its chat and, in its other elements (the rows and cards
    of the chat, the memory panel), the markup [page]. *)
Definition enter (page : list html) (d : list message) (mode : value) : state :=
  mkState d mode [] None [] TextDecoder.init [] (lit "message") []
          (existsb brings (page ++ List.map body d)).

(** The same, when the other elements hold no markup. *)
Definition start (d : list message) (mode : value) : state := enter [] d mode.

(** A whole turn: the reads, the way the loop is left, the fallback and the
    clean-up. *)
Definition turn (d : list message) (mode : value)
    (chunks : list (list N)) (e : ending) : state :=
  settle e (reads (start d mode) chunks).

(** *** What else happens while the stream is read

    [sendMessage] gives way at each [await]: between two reads another
    handler of the page can run.  A click on a card or a refresh of the
    memory panel writes markup into the page; [resetMemory], which is not
    held back while a turn streams, empties the chat, puts the greeting
    back and calls [setMode('angel')], after which the message of the turn
    is no longer in the document. *)

Definition ANGEL : value := Some (JStr (lit "angel")).

(** [resetMemory] from the assignments to [chatMessages.innerHTML] on:
    no element of the chat is left in the document, and the greeting that is
    put back is markup of the script. *)
Definition resetMemory (s : state) : state :=
  set_currentMode ANGEL (do_call (SetMode ANGEL) (with_dom (fun _ => []) s)).

(** The stream delivers bytes; another handler assigns the markup [h] to
    the [innerHTML] of an element outside the messages; the chat is
    reset. *)
Inductive happening :=
| Read (value : list N)
| Written (h : html)
| ChatReset.

Definition happen (s : state) (h : happening) : state :=
  match h with
  | Read value => on_chunk s value
  | Written h => mark (brings h) s
  | ChatReset => resetMemory s
  end.

Definition is_reset (h : happening) : bool :=
  match h with ChatReset => true | _ => false end.

(** The chat is not reset. *)
Definition calm (hs : list happening) : Prop :=
  existsb is_reset hs = false.

Definition turn_amid (page : list html) (d : list message) (mode : value)
    (hs : list happening) (e : ending) : state :=
  settle e (fold_left happen hs (enter page d mode)).

(** The steps of the loop, one assignment group at a time: the reader's two
    variables are assigned, a line is handled, another handler writes
    markup into the page, or the [catch] block runs. *)
Inductive step : state -> state -> Prop :=
| step_input s d b : step s (set_input d b s)
| step_line s line : step s (on_line s line)
| step_written s h : step s (mark (brings h) s)
| step_failure s message : step s (on_failure message s).2.

Inductive steps : state -> state -> Prop :=
| steps_refl s : steps s s
| steps_snoc s s' s'' : steps s s' -> step s' s'' -> steps s s''.

(** No element of the document carries the id [streaming-msg]. *)
Definition fresh (d : list message) : Prop :=
  forall j m, d !! j = Some m -> has_id m = false.

(** No [done] event was delivered. *)
Definition no_done (s : state) : Prop :=
  forall e data, In (e, data) (dispatched s) -> e <> lit "done".

(** No narration was started. *)
Definition no_play (s : state) : Prop :=
  forall text i, ~ In (PlayTTS text i) (calls s).

(** The message of the turn exists and has lost the id. *)
Definition finalized (s : state) : Prop :=
  exists i m, streamBody s = Some i /\ dom s !! i = Some m /\ has_id m = false.

(** What holds of the message list throughout a turn that started in a
    fresh document: only the turn's message can carry the id, [streamBody]
    points into the document, and text was only accumulated once the message
    existed. *)
Record consistent (s : state) : Prop := mkConsistent {
  only_streamBody_has_id :
    forall j m, dom s !! j = Some m -> has_id m = true -> streamBody s = Some j;
  streamBody_in_document :
    forall i, streamBody s = Some i -> (i < length (dom s))%nat;
  text_needs_message :
    rawText s <> [] -> streamBody s <> None
}.

(** The turn's message, if any, is still in progress and has no button,
    and no narration was started. *)
Record in_progress (s : state) : Prop := mkInProgress {
  message_untouched :
    forall i, streamBody s = Some i ->
      exists m, dom s !! i = Some m /\ has_id m = true /\ buttons m = [];
  nothing_played : no_play s
}.

(** The element at position [i] of the document satisfies [phi]. *)
Definition at_msg (i : nat) (phi : message -> Prop) (s : state) : Prop :=
  exists m, dom s !! i = Some m /\ phi m.

(** The turn's message is element [i] and no longer carries the id. *)
Definition finalized_at (i : nat) (s : state) : Prop :=
  streamBody s = Some i /\ at_msg i (fun m => has_id m = false) s.

(** [streamBody], when set, refers to an element of the document. *)
Definition attached (s : state) : Prop :=
  forall i, streamBody s = Some i -> (i < length (dom s))%nat.

(** The invariant of a turn, with the condition [X] under which the
    message is still in progress. *)
Definition sound (X : Prop) (s : state) : Prop :=
  consistent s /\ (X -> in_progress s).

(** A payload that the [done] handler takes to its end: reading its
    fields does not throw, and its mode and its expression have a string
    conversion. *)
Definition completes (data : json) : Prop :=
  exists mode expression,
    prop data (lit "mode") = Some mode /\
    prop data (lit "expression") = Some expression /\
    string_of mode <> None /\ string_of expression <> None.

(** A call that starts no narration. *)
Definition quiet (c : call) : Prop :=
  match c with PlayTTS _ _ => False | _ => True end.

(** The bytes of a stream cut after each line feed: every line arrives
    whole, in a read of its own. *)
Fixpoint whole_lines_from (acc : list N) (bytes : list N) : list (list N) :=
  match bytes with
  | [] => match acc with [] => [] | _ :: _ => [acc] end
  | b :: bytes' =>
      if b =? LF then (acc ++ [b]) :: whole_lines_from [] bytes'
      else whole_lines_from (acc ++ [b]) bytes'
  end.
Definition whole_lines (bytes : list N) : list (list N) :=
  whole_lines_from [] bytes.

End Consumer.

(** [JSON.parse] on the payload texts of the examples below. *)
Definition parse_table (table : list (jsstring * json)) (text : jsstring)
  : option json := assoc table text.

Definition quoted (s : string) : jsstring := QUOTE ++ lit s ++ QUOTE.

(** *** Sample streams *)

Definition token_key : jsstring := lit "token".

(** [{"token":"hi"}], [{"token":""}], [{"token":"元気"}],
    [{"mode":"angel","expression":"smile"}], [{"error":"busy"}],
    [{"error":{"toString":1}}] and
    [{"mode":{"toString":1},"expression":"smile"}]. *)
Definition text_hi : jsstring :=
  lit "{" ++ quoted "token" ++ lit ":" ++ quoted "hi" ++ lit "}".
Definition text_empty : jsstring :=
  lit "{" ++ quoted "token" ++ lit ":" ++ quoted "" ++ lit "}".
Definition text_genki : jsstring :=
  lit "{" ++ quoted "token" ++ lit ":" ++ QUOTE ++ [0x5143; 0x6C17] ++ QUOTE ++ lit "}".
Definition text_done : jsstring :=
  lit "{" ++ quoted "mode" ++ lit ":" ++ quoted "angel" ++ lit "," ++
  quoted "expression" ++ lit ":" ++ quoted "smile" ++ lit "}".
Definition text_error : jsstring :=
  lit "{" ++ quoted "error" ++ lit ":" ++ quoted "busy" ++ lit "}".
Definition text_error_object : jsstring :=
  lit "{" ++ quoted "error" ++ lit ":{" ++ quoted "toString" ++ lit ":1}}".
Definition text_done_object : jsstring :=
  lit "{" ++ quoted "mode" ++ lit ":{" ++ quoted "toString" ++ lit ":1}," ++
  quoted "expression" ++ lit ":" ++ quoted "smile" ++ lit "}".

Definition payload_hi : json := JObj [(token_key, JStr (lit "hi"))].
Definition payload_empty : json := JObj [(token_key, JStr [])].
Definition payload_genki : json := JObj [(token_key, JStr [0x5143; 0x6C17])].
Definition payload_done : json :=
  JObj [(lit "mode", JStr (lit "angel")); (lit "expression", JStr (lit "smile"))].
Definition payload_error : json := JObj [(lit "error", JStr (lit "busy"))].
Definition payload_error_object : json :=
  JObj [(lit "error", JObj [(lit "toString", JNum (lit "1"))])].
Definition payload_done_object : json :=
  JObj [(lit "mode", JObj [(lit "toString", JNum (lit "1"))]);
        (lit "expression", JStr (lit "smile"))].

Definition sample_parse : jsstring -> option json :=
  parse_table [(text_hi, payload_hi); (text_empty, payload_empty);
               (text_genki, payload_genki); (text_done, payload_done);
               (text_error, payload_error);
               (text_error_object, payload_error_object);
               (text_done_object, payload_done_object)].

(** The bytes of an event: its two lines and the blank line. *)
Definition event_bytes (name : string) (payload : list N) : list N :=
  lit "event: " ++ lit name ++ [LF] ++ lit "data: " ++ payload ++ [LF; LF].

(** The payload [{"token":"元気"}] in UTF-8: three bytes per character. *)
Definition bytes_genki : list N :=
  lit "{" ++ quoted "token" ++ lit ":" ++ QUOTE ++
  [0xE5; 0x85; 0x83; 0xE6; 0xB0; 0x97] ++ QUOTE ++ lit "}".

Definition stream_genki : list N := event_bytes "token" bytes_genki.

(** [stream_genki] read in three pieces: the first ends inside the line
    of the event type, the second inside the character 元. *)
Definition cuts_genki : list (list N) :=
  [take 5 stream_genki; take 24 (drop 5 stream_genki); drop 29 stream_genki].

(** A turn whose only token is the empty string. *)
Definition stream_empty_token : list N := event_bytes "token" text_empty.

(** A turn that fails before any token, then a turn with a token and
    a [done] event. *)
Definition stream_error : list N := event_bytes "error" text_error.
Definition stream_hi_done : list N :=
  event_bytes "token" text_hi ++ event_bytes "done" text_done.
Definition stream_hi : list N := event_bytes "token" text_hi.

Definition first_turn : state := turn sample_parse [] None [stream_error] Closed.
Definition second_turn : state :=
  turn sample_parse (dom first_turn) (currentMode first_turn) [stream_hi_done] Closed.

(** A turn in which the chat is reset after the first token. *)
Definition reset_turn : state :=
  turn_amid sample_parse [] [] ANGEL [Read stream_hi; ChatReset] Closed.

End Stream.

(** ** The narration pipeline: [stopTTS], [resetTTSBtn] and [playTTS]

    [playTTS] is an [async] function: it runs until its next [await] and
    is resumed when the awaited promise settles.  A step of the model is one
    task of the event loop: a call from the page ([playTTS], [stopTTS]), or
    an event of the network or of an [Audio] element, with the continuation it
    resumes, followed by the continuations that an [abort()] made ready.

    Each invocation keeps the promises it created, in creation order: the
    requests ([fetched], the last one being the variable [nextResp]) and the
    [Audio] elements with their object URL ([audios]). *)

Module Narration.
Import Segmenter.

Inductive icon := SVG_PLAY | SVG_STOP | SVG_LOADING.

(** The [onclick] of a narration button: [() => playTTS(text, btn)] or
    [() => stopTTS()]. *)
Inductive handler :=
| Play (text : jsstring)
| Stop.

Record button := mkButton {
  in_document : bool;
  disabled : bool;
  playing : bool;
  loading : bool;
  innerHTML : icon;
  title : jsstring;
  onclick : handler;
  ttsText : jsstring
}.

(** An [Audio] element and its object URL: what the element is doing,
    whether the promise of [play()] is still unsettled, and how many times
    [URL.revokeObjectURL] was called on the URL. *)
Inductive playback := Playing | Paused | Ended | Failed.

Record audio := mkAudio {
  a_chunk : nat;
  a_state : playback;
  play_pending : bool;
  revoked : nat
}.

(** A request to [/api/tts]: no response yet, a response ([ok] or not)
    whose body is not read to the end, a body read to the end, a failed
    request, a body that failed, or a request cancelled through the signal. *)
Inductive transfer :=
| Pending
| Responded (ok : bool)
| Complete (ok : bool)
| Rejected
| BodyFailed
| Cancelled.

Record fetch := mkFetch {
  f_chunk : nat;
  f_state : transfer
}.

(** The [await] at which an invocation is suspended. *)
Inductive point :=
| AwaitFetch (i : nat)
| AwaitErrorBody (i : nat)
| AwaitBlob (i : nat)
| AwaitPlayback (i j : nat)
| Returned.

Record invocation := mkInvocation {
  text : jsstring;
  chunks : list jsstring;
  btn : nat;
  aborted : bool;
  at_await : point;
  fetched : list fetch;
  resp : nat;
  audios : list audio
}.

(** The calls of the pipeline on the page and the platform, in order.
    An [Audio] element is named by its invocation and its position. *)
Inductive event :=
| EAbort (k : nat)
| EPause (k j : nat)
| ERevoke (k j : nat)
| EReset (b : nat)
| ELoading (b : nat)
| EPlaying (b : nat)
| EFetch (k i : nat)
| EBlob (k i : nat)
| EPlay (k i j : nat)
| EConsoleError (k : nat).

Record state := mkState {
  ttsAbort : option nat;
  currentAudio : option (nat * nat);
  buttons : list button;
  invocations : list invocation;
  microtasks : list nat;
  trace : list event
}.

Definition init : state := mkState None None [] [] [] [].

(** *** Assignments *)

Definition set_ttsAbort (v : option nat) (s : state) : state :=
  mkState v (currentAudio s) (buttons s) (invocations s) (microtasks s) (trace s).
Definition set_currentAudio (v : option (nat * nat)) (s : state) : state :=
  mkState (ttsAbort s) v (buttons s) (invocations s) (microtasks s) (trace s).
Definition with_buttons (f : list button -> list button) (s : state) : state :=
  mkState (ttsAbort s) (currentAudio s) (f (buttons s)) (invocations s)
          (microtasks s) (trace s).
Definition with_invocations (f : list invocation -> list invocation) (s : state)
  : state :=
  mkState (ttsAbort s) (currentAudio s) (buttons s) (f (invocations s))
          (microtasks s) (trace s).
Definition set_microtasks (q : list nat) (s : state) : state :=
  mkState (ttsAbort s) (currentAudio s) (buttons s) (invocations s) q (trace s).
Definition log (es : list event) (s : state) : state :=
  mkState (ttsAbort s) (currentAudio s) (buttons s) (invocations s)
          (microtasks s) (trace s ++ es).

Definition with_inv (k : nat) (f : invocation -> invocation) (s : state) : state :=
  with_invocations (alter f k) s.

Definition set_aborted (v : invocation) : invocation :=
  mkInvocation (text v) (chunks v) (btn v) true (at_await v) (fetched v)
               (resp v) (audios v).
Definition set_at (p : point) (v : invocation) : invocation :=
  mkInvocation (text v) (chunks v) (btn v) (aborted v) p (fetched v)
               (resp v) (audios v).
Definition with_fetched (f : list fetch -> list fetch) (v : invocation) : invocation :=
  mkInvocation (text v) (chunks v) (btn v) (aborted v) (at_await v) (f (fetched v))
               (resp v) (audios v).
Definition set_resp (r : nat) (v : invocation) : invocation :=
  mkInvocation (text v) (chunks v) (btn v) (aborted v) (at_await v) (fetched v)
               r (audios v).
Definition with_audios (f : list audio -> list audio) (v : invocation) : invocation :=
  mkInvocation (text v) (chunks v) (btn v) (aborted v) (at_await v) (fetched v)
               (resp v) (f (audios v)).

Definition set_f_state (t : transfer) (f : fetch) : fetch := mkFetch (f_chunk f) t.
Definition set_a_state (p : playback) (a : audio) : audio :=
  mkAudio (a_chunk a) p (play_pending a) (revoked a).
Definition settle_play (a : audio) : audio :=
  mkAudio (a_chunk a) (a_state a) false (revoked a).
Definition count_revoke (a : audio) : audio :=
  mkAudio (a_chunk a) (a_state a) (play_pending a) (S (revoked a)).
Definition stop_playing (a : audio) : audio :=
  match a_state a with
  | Playing => set_a_state Paused a
  | _ => a
  end.

Definition with_fetch (k j : nat) (f : fetch -> fetch) : state -> state :=
  with_inv k (with_fetched (alter f j)).
Definition with_audio (k j : nat) (f : audio -> audio) : state -> state :=
  with_inv k (with_audios (alter f j)).

(** The variable [nextResp]: the request created last. *)
Definition nextResp (v : invocation) : nat := pred (length (fetched v)).

(** *** Buttons *)

(** The idle look of a button whose click starts the narration of [t]. *)
Definition idle (t : jsstring) (b : button) : button :=
  mkButton (in_document b) false false false SVG_PLAY (lit "Play") (Play t) (ttsText b).

Definition now_loading (b : button) : button :=
  mkButton (in_document b) true (playing b) true SVG_LOADING (lit "Loading...")
           (onclick b) (ttsText b).

Definition now_playing (b : button) : button :=
  mkButton (in_document b) false true false SVG_STOP (lit "Stop") Stop (ttsText b).

Definition resetTTSBtn (b : nat) (t : jsstring) (s : state) : state :=
  log [EReset b] (with_buttons (alter (idle t) b) s).

(** [document.querySelectorAll('.tts-btn.playing, .tts-btn.loading')]. *)
Definition selected (b : button) : bool :=
  in_document b && (playing b || loading b).

(** The [forEach] of [stopTTS], from position [i] on. *)
Fixpoint reset_from (i : nat) (bs : list button) : list button * list event :=
  match bs with
  | [] => ([], [])
  | b :: bs' =>
      let '(bs'', es) := reset_from (S i) bs' in
      if selected b then (idle (ttsText b) b :: bs'', EReset i :: es)
      else (b :: bs'', es)
  end.

Definition reset_selected (s : state) : state :=
  let '(bs, es) := reset_from 0 (buttons s) in
  log es (with_buttons (fun _ => bs) s).

(** *** Audio elements and URLs *)

(** [audio.pause()]. *)
Definition pause (k j : nat) (s : state) : state :=
  log [EPause k j] (with_audio k j stop_playing s).

(** [URL.revokeObjectURL(url)]. *)
Definition revoke (k j : nat) (s : state) : state :=
  log [ERevoke k j] (with_audio k j count_revoke s).

(** The URL is still in the store of the page. *)
Definition live (a : audio) : bool := (revoked a =? 0)%nat.

(** *** [AbortController.abort()] *)

Definition in_flight (f : fetch) : bool :=
  match f_state f with
  | Pending | Responded _ => true
  | _ => false
  end.

Definition cancel (f : fetch) : fetch :=
  if in_flight f then set_f_state Cancelled f else f.

(** The listener that iteration [j] added to the signal:
    [audio.pause(); URL.revokeObjectURL(url); resolve()].  The resolved
    promise resumes the invocation later, from the queue. *)
Definition abort_listener (k : nat) (s : state) (j : nat) : state :=
  revoke k j (pause k j s).

Definition abort (k : nat) (s : state) : state :=
  match invocations s !! k with
  | Some v =>
      if aborted v then s
      else
        let s := log [EAbort k] (with_inv k set_aborted s) in
        let s := with_inv k (with_fetched (List.map cancel)) s in
        let s := fold_left (abort_listener k) (seq 0 (length (audios v))) s in
        set_microtasks (microtasks s ++ [k]) s
  | None => s
  end.

Definition stopTTS (s : state) : state :=
  let s := match ttsAbort s with
           | Some k => set_ttsAbort None (abort k s)
           | None => s
           end in
  let s := match currentAudio s with
           | Some (k, j) => set_currentAudio None (pause k j s)
           | None => s
           end in
  reset_selected s.

(** *** The body of [playTTS], from one [await] to the next *)

(** After the loop: lines 251 to 254. *)
Definition after_loop (k : nat) (s : state) : state :=
  match invocations s !! k with
  | Some v =>
      let s := if aborted v then s
               else resetTTSBtn (btn v) (text v) (set_currentAudio None s) in
      with_inv k (set_at Returned) s
  | None => s
  end.

(** The [catch] block: lines 255 to 258.  [abort_error] tells whether the
    name of the exception is [AbortError]. *)
Definition catch_block (k : nat) (abort_error : bool) (s : state) : state :=
  match invocations s !! k with
  | Some v =>
      let s := if abort_error then s else log [EConsoleError k] s in
      let s := if aborted v then s else resetTTSBtn (btn v) (text v) s in
      with_inv k (set_at Returned) s
  | None => s
  end.

(** [nextResp = fetch('/api/tts', { ..., signal: ac.signal })] for chunk
    [i]; a request on an aborted signal is rejected at once. *)
Definition issue_fetch (k i : nat) (s : state) : state :=
  log [EFetch k i]
    (with_inv k (fun v =>
       with_fetched (fun l => l ++ [mkFetch i (if aborted v then Cancelled else Pending)]) v)
       s).

(** Lines 217 to 227, once [resp.ok] holds: the next request, then
    [await resp.blob()]. *)
Definition on_response (k i : nat) (s : state) : state :=
  match invocations s !! k with
  | Some v =>
      let s := with_inv k (set_resp (nextResp v)) s in
      let s := if (S i <? length (chunks v))%nat then issue_fetch k (S i) s else s in
      log [EBlob k i] (with_inv k (set_at (AwaitBlob i)) s)
  | None => s
  end.

(** [const resp = await nextResp] and the test of [resp.ok]. *)
Definition await_next (k i : nat) (s : state) : state :=
  match invocations s !! k with
  | Some v =>
      match f_state <$> fetched v !! nextResp v with
      | Some Pending => with_inv k (set_at (AwaitFetch i)) s
      | Some (Responded true) => on_response k i s
      | Some (Responded false) =>
          with_inv k (set_at (AwaitErrorBody i)) (with_inv k (set_resp (nextResp v)) s)
      | Some Rejected => catch_block k false s
      | Some Cancelled => catch_block k true s
      | Some (Complete _) | Some BodyFailed | None => s
      end
  | None => s
  end.

(** The head of the loop for index [i]: the bound and line 209. *)
Definition loop_top (k i : nat) (s : state) : state :=
  match invocations s !! k with
  | Some v =>
      if (i <? length (chunks v))%nat
      then if aborted v then after_loop k s else await_next k i s
      else after_loop k s
  | None => s
  end.

(** Lines 228 to 248, once the body is there: the element is created and
    played, and the invocation waits for the end of the playback. *)
Definition after_blob (k i : nat) (s : state) : state :=
  match invocations s !! k with
  | Some v =>
      if aborted v then after_loop k s
      else
        let j := length (audios v) in
        let s := with_inv k (with_audios (fun l => l ++ [mkAudio i Playing true 0])) s in
        let s := set_currentAudio (Some (k, j)) s in
        let s := if (i =? 0)%nat
                 then log [EPlaying (btn v)] (with_buttons (alter now_playing (btn v)) s)
                 else s in
        log [EPlay k i j] (with_inv k (set_at (AwaitPlayback i j)) s)
  | None => s
  end.

(** [resolve()] from a handler of the element [j]: the invocation goes on
    with the next index if it was waiting for that element. *)
Definition resolve (k j : nat) (s : state) : state :=
  match at_await <$> invocations s !! k with
  | Some (AwaitPlayback i j') => if (j =? j')%nat then loop_top k (S i) s else s
  | _ => s
  end.

(** An invocation resumed after its signal was aborted: the awaited request
    or body rejects with an [AbortError]; the error body comes back empty
    and line 214 throws an [Error]; the playback promise was resolved by
    the listener. *)
Definition resume_aborted (s : state) (k : nat) : state :=
  match at_await <$> invocations s !! k with
  | Some (AwaitFetch _) | Some (AwaitBlob _) => catch_block k true s
  | Some (AwaitErrorBody _) => catch_block k false s
  | Some (AwaitPlayback i _) => loop_top k (S i) s
  | Some Returned | None => s
  end.

Definition drain (s : state) : state :=
  set_microtasks [] (fold_left resume_aborted (microtasks s) s).

(** [playTTS(text, btn)] up to its first [await]. *)
Definition playTTS (t : jsstring) (b : nat) (s : state) : state :=
  let s := stopTTS s in
  let k := length (invocations s) in
  let s := with_invocations
             (fun l => l ++ [mkInvocation t (splitBySentence t) b false
                                          (AwaitFetch 0) [] 0 []]) s in
  let s := set_ttsAbort (Some k) s in
  let s := log [ELoading b] (with_buttons (alter now_loading b) s) in
  let s := issue_fetch k 0 s in
  loop_top k 0 s.

(** [makeTTSButton(text)], appended to the header of a message. *)
Definition makeTTSButton (t : jsstring) (s : state) : state :=
  with_buttons (fun l => l ++ [mkButton true false false false SVG_PLAY
                                        (lit "Play") (Play t) t]) s.

Definition detach (b : button) : button :=
  mkButton false (disabled b) (playing b) (loading b) (innerHTML b) (title b)
           (onclick b) (ttsText b).

(** *** Tasks *)

(** The tasks: a button is added to a message ([makeTTSButton]); a click
    or [sendMessage] calls [playTTS]; a click on a playing button calls
    [stopTTS]; [resetMemory] empties the chat; a request gets its response
    or fails; the body of a response arrives or fails; the body of an error
    response is read, or not; an element fires [ended] or [error]; the
    promise of [play()] is fulfilled or rejected. *)
Inductive label :=
| MakeButton (t : jsstring)
| PlayTTS (t : jsstring) (b : nat)
| StopTTS
| ClearChat
| FetchResponds (k j : nat) (ok : bool)
| FetchFails (k j : nat)
| BodyArrives (k : nat)
| BodyFails (k : nat)
| ErrorBodyRead (k : nat)
| AudioEnded (k j : nat)
| AudioError (k j : nat)
| PlayStarted (k j : nat)
| PlayRejected (k j : nat).

Definition fetch_state (k j : nat) (s : state) : option transfer :=
  v ← invocations s !! k; f ← fetched v !! j; Some (f_state f).

Definition audio_at (k j : nat) (s : state) : option audio :=
  v ← invocations s !! k; audios v !! j.

Definition is_pending (k j : nat) (s : state) : bool :=
  match fetch_state k j s with Some Pending => true | _ => false end.

Definition is_playing (k j : nat) (s : state) : bool :=
  match a_state <$> audio_at k j s with Some Playing => true | _ => false end.

Definition reading_body (k : nat) (s : state) : bool :=
  match invocations s !! k with
  | Some v =>
      match at_await v, f_state <$> fetched v !! resp v with
      | AwaitBlob _, Some (Responded true) => true
      | _, _ => false
      end
  | None => false
  end.

Definition reading_error (k : nat) (s : state) : bool :=
  match at_await <$> invocations s !! k with
  | Some (AwaitErrorBody _) => true
  | _ => false
  end.

(** When a task can happen. *)
Definition enabled (l : label) (s : state) : bool :=
  match l with
  | MakeButton _ | StopTTS | ClearChat => true
  | PlayTTS _ b => (b <? length (buttons s))%nat
  | FetchResponds k j _ | FetchFails k j => is_pending k j s
  | BodyArrives k | BodyFails k => reading_body k s
  | ErrorBodyRead k => reading_error k s
  | AudioEnded k j | AudioError k j => is_playing k j s
  | PlayStarted k j =>
      is_playing k j s &&
      match play_pending <$> audio_at k j s with Some true => true | _ => false end
  | PlayRejected k j =>
      match play_pending <$> audio_at k j s with Some true => true | _ => false end
  end.

(** The invocation [k] is suspended on the request [j]. *)
Definition awaits_fetch (k j : nat) (s : state) : option nat :=
  match invocations s !! k with
  | Some v =>
      match at_await v with
      | AwaitFetch i => if (nextResp v =? j)%nat then Some i else None
      | _ => None
      end
  | None => None
  end.

Definition chunk_at (k : nat) (s : state) : option nat :=
  match at_await <$> invocations s !! k with
  | Some (AwaitFetch i) | Some (AwaitErrorBody i) | Some (AwaitBlob i)
  | Some (AwaitPlayback i _) => Some i
  | _ => None
  end.

Definition resp_of (k : nat) (s : state) : nat :=
  match invocations s !! k with Some v => resp v | None => 0%nat end.

(** What a task does, before the queue is drained. *)
Definition handle (l : label) (s : state) : state :=
  match l with
  | MakeButton t => makeTTSButton t s
  | PlayTTS t b => playTTS t b s
  | StopTTS => stopTTS s
  | ClearChat => with_buttons (List.map detach) s
  | FetchResponds k j ok =>
      let waiting := awaits_fetch k j s in
      let s := with_fetch k j (set_f_state (Responded ok)) s in
      match waiting with
      | Some i => await_next k i s
      | None => s
      end
  | FetchFails k j =>
      let waiting := awaits_fetch k j s in
      let s := with_fetch k j (set_f_state Rejected) s in
      match waiting with
      | Some i => await_next k i s
      | None => s
      end
  | BodyArrives k =>
      match chunk_at k s with
      | Some i => after_blob k i (with_fetch k (resp_of k s) (set_f_state (Complete true)) s)
      | None => s
      end
  | BodyFails k =>
      catch_block k false (with_fetch k (resp_of k s) (set_f_state BodyFailed) s)
  | ErrorBodyRead k =>
      catch_block k false (with_fetch k (resp_of k s) (set_f_state (Complete false)) s)
  | AudioEnded k j =>
      resolve k j (revoke k j (with_audio k j (set_a_state Ended) s))
  | AudioError k j =>
      resolve k j (revoke k j (with_audio k j (set_a_state Failed) s))
  | PlayStarted k j => with_audio k j settle_play s
  | PlayRejected k j =>
      resolve k j (revoke k j (with_audio k j (fun a => stop_playing (settle_play a)) s))
  end.

Definition run (l : label) (s : state) : state := drain (handle l s).

(** *** What each piece does to its own invocation record *)

Definition issue_local (i : nat) (v : invocation) : invocation :=
  with_fetched (fun l => l ++ [mkFetch i (if aborted v then Cancelled else Pending)]) v.

Definition on_response_local (i : nat) (v : invocation) : invocation :=
  let v1 := set_resp (nextResp v) v in
  set_at (AwaitBlob i)
    (if (S i <? length (chunks v))%nat then issue_local (S i) v1 else v1).

Definition await_next_local (i : nat) (v : invocation) : invocation :=
  match f_state <$> fetched v !! nextResp v with
  | Some Pending => set_at (AwaitFetch i) v
  | Some (Responded true) => on_response_local i v
  | Some (Responded false) => set_at (AwaitErrorBody i) (set_resp (nextResp v) v)
  | Some Rejected | Some Cancelled => set_at Returned v
  | Some (Complete _) | Some BodyFailed | None => v
  end.

Definition loop_top_local (i : nat) (v : invocation) : invocation :=
  if (i <? length (chunks v))%nat
  then if aborted v then set_at Returned v else await_next_local i v
  else set_at Returned v.

Definition after_blob_local (i : nat) (v : invocation) : invocation :=
  if aborted v then set_at Returned v
  else set_at (AwaitPlayback i (length (audios v)))
         (with_audios (fun l => l ++ [mkAudio i Playing true 0]) v).

Definition resolve_local (j : nat) (v : invocation) : invocation :=
  match at_await v with
  | AwaitPlayback i j' => if (j =? j')%nat then loop_top_local (S i) v else v
  | _ => v
  end.

Definition listener_local (v : invocation) (j : nat) : invocation :=
  with_audios (alter count_revoke j) (with_audios (alter stop_playing j) v).

Definition abort_local (v : invocation) : invocation :=
  if aborted v then v
  else fold_left listener_local (seq 0 (length (audios v)))
         (with_fetched (List.map cancel) (set_aborted v)).

Definition resume_local (v : invocation) : invocation :=
  match at_await v with
  | AwaitFetch _ | AwaitBlob _ | AwaitErrorBody _ => set_at Returned v
  | AwaitPlayback i _ => loop_top_local (S i) v
  | Returned => v
  end.

(** *** What holds of each invocation between two tasks *)

Definition state_at (v : invocation) (j : nat) : option transfer :=
  f_state <$> fetched v !! j.

(** The response to a request was [ok]. *)
Definition had_ok_response (t : transfer) : Prop :=
  match t with
  | Responded true | Complete true | BodyFailed | Cancelled => True
  | _ => False
  end.

(** A request failed: it was rejected, or its response was not [ok]. *)
Definition fetch_failed (t : transfer) : Prop :=
  match t with
  | Rejected | Responded false | Complete false => True
  | _ => False
  end.

(** Where the lists of an invocation stand at each [await]. *)
Definition at_shape (v : invocation) : Prop :=
  let n := length (chunks v) in
  let ahead i := if (S i <? n)%nat then S (S i) else S i in
  match at_await v with
  | AwaitFetch i =>
      (i < n)%nat /\ length (fetched v) = S i /\ length (audios v) = i /\
      state_at v i = Some Pending
  | AwaitErrorBody i =>
      (i < n)%nat /\ length (fetched v) = S i /\ length (audios v) = i /\
      resp v = i /\ state_at v i = Some (Responded false)
  | AwaitBlob i =>
      (i < n)%nat /\ length (fetched v) = ahead i /\ length (audios v) = i /\
      resp v = i /\ state_at v i = Some (Responded true)
  | AwaitPlayback i j =>
      (i < n)%nat /\ j = i /\ length (fetched v) = ahead i /\
      length (audios v) = S i
  | Returned => True
  end.

(** The lists of an invocation: every request but the last had an [ok]
    response; a chunk was played only once its body was read to the end; a
    request is cancelled only through the signal; request and element [j]
    are those of chunk [j]. *)
Record lists_ok (v : invocation) : Prop := mkListsOk {
  ok_earlier :
    forall j f, fetched v !! j = Some f -> (S j < length (fetched v))%nat ->
      had_ok_response (f_state f);
  ok_played :
    forall j, (j < length (audios v))%nat -> state_at v j = Some (Complete true);
  ok_cancelled :
    forall j f, fetched v !! j = Some f -> f_state f = Cancelled -> aborted v = true;
  ok_fetch_chunk : forall j f, fetched v !! j = Some f -> f_chunk f = j;
  ok_audio_chunk : forall j a, audios v !! j = Some a -> a_chunk a = j;
  ok_first : (1 <= length (fetched v))%nat;
  ok_chunks : (1 <= length (chunks v))%nat
}.

(** At most the last request, and the one before it while its body is
    read, are under way. *)
Definition in_flight_ok (v : invocation) : Prop :=
  forall j f, fetched v !! j = Some f -> in_flight f = true ->
    S j = length (fetched v) \/
    (S (S j) = length (fetched v) /\ at_await v = AwaitBlob j).

(** The invocation runs only while its signal is not aborted. *)
Definition running_ok (v : invocation) : Prop :=
  at_await v <> Returned -> aborted v = false.

Record wf_requests (v : invocation) : Prop := mkWf {
  wf_lists : lists_ok v;
  wf_running : running_ok v;
  wf_shape : at_shape v;
  wf_in_flight : in_flight_ok v
}.

(** An element that plays, or whose URL was never revoked, is the one the
    invocation is waiting for. *)
Definition waited (v : invocation) : Prop :=
  forall j a, audios v !! j = Some a ->
    a_state a = Playing \/ revoked a = 0%nat ->
    exists i, at_await v = AwaitPlayback i j.

Definition wf (v : invocation) : Prop := wf_requests v /\ waited v.

(** Every element of the invocation is stopped and its URL revoked. *)
Definition all_released (v : invocation) : Prop :=
  forall j a, audios v !! j = Some a ->
    a_state a <> Playing /\ revoked a <> 0%nat.

(** The record of a request: [set_f_state] at position [j]. *)
Definition mark (j : nat) (t : transfer) (v : invocation) : invocation :=
  with_fetched (alter (set_f_state t) j) v.

(** The record of a new invocation, at its first [await]. *)
Definition started (t : jsstring) (b : nat) : invocation :=
  loop_top_local 0
    (issue_local 0 (mkInvocation t (splitBySentence t) b false (AwaitFetch 0) [] 0 [])).

(** [F] changes the records of the invocations only through [g], applied
    to invocation [k]. *)
Definition acts_on (F : state -> state) (k : nat) (g : invocation -> invocation)
  : Prop :=
  forall s, invocations (F s) = alter g k (invocations s).

(** [F] leaves the variable [_ttsAbort] and the queue alone. *)
Definition quiet (F : state -> state) : Prop :=
  forall s, ttsAbort (F s) = ttsAbort s /\ microtasks (F s) = microtasks s.

(** What holds between two tasks: no continuation is left in the queue,
    every invocation is well formed, and an invocation that has not returned
    is the one [_ttsAbort] refers to. *)
Record invariant (s : state) : Prop := mkInvariant {
  inv_queue : microtasks s = [];
  inv_wf : forall k v, invocations s !! k = Some v -> wf v;
  inv_current :
    forall k v, invocations s !! k = Some v -> at_await v <> Returned ->
      ttsAbort s = Some k
}.

(** What a task other than [playTTS] and [stopTTS] does to the record of
    the invocation it concerns. *)
Definition local_effect (l : label) (v : invocation) : invocation :=
  match l with
  | FetchResponds _ j ok =>
      let v' := mark j (Responded ok) v in
      match at_await v with
      | AwaitFetch i => if (nextResp v =? j)%nat then await_next_local i v' else v'
      | _ => v'
      end
  | FetchFails _ j =>
      let v' := mark j Rejected v in
      match at_await v with
      | AwaitFetch i => if (nextResp v =? j)%nat then await_next_local i v' else v'
      | _ => v'
      end
  | BodyArrives _ =>
      match at_await v with
      | AwaitFetch i | AwaitErrorBody i | AwaitBlob i | AwaitPlayback i _ =>
          after_blob_local i (mark (resp v) (Complete true) v)
      | Returned => v
      end
  | BodyFails _ => set_at Returned (mark (resp v) BodyFailed v)
  | ErrorBodyRead _ => set_at Returned (mark (resp v) (Complete false) v)
  | AudioEnded _ j =>
      resolve_local j (with_audios (alter (count_revoke ∘ set_a_state Ended) j) v)
  | AudioError _ j =>
      resolve_local j (with_audios (alter (count_revoke ∘ set_a_state Failed) j) v)
  | PlayStarted _ j => with_audios (alter settle_play j) v
  | PlayRejected _ j =>
      resolve_local j
        (with_audios (alter (count_revoke ∘ (fun a => stop_playing (settle_play a))) j) v)
  | MakeButton _ | PlayTTS _ _ | StopTTS | ClearChat => v
  end.

(** The invocation a task concerns. *)
Definition subject (l : label) : nat :=
  match l with
  | FetchResponds k _ _ | FetchFails k _ | BodyArrives k | BodyFails k
  | ErrorBodyRead k | AudioEnded k _ | AudioError k _ | PlayStarted k _
  | PlayRejected k _ => k
  | MakeButton _ | PlayTTS _ _ | StopTTS | ClearChat => 0%nat
  end.

Definition is_call (l : label) : bool :=
  match l with
  | PlayTTS _ _ | StopTTS => true
  | _ => false
  end.

(** *** The calls each piece makes, from the record of its invocation *)

Definition after_loop_events (v : invocation) : list event :=
  if aborted v then [] else [EReset (btn v)].

Definition catch_events (k : nat) (abort_error : bool) (v : invocation) : list event :=
  (if abort_error then [] else [EConsoleError k]) ++
  (if aborted v then [] else [EReset (btn v)]).

Definition on_response_events (k i : nat) (v : invocation) : list event :=
  (if (S i <? length (chunks v))%nat then [EFetch k (S i)] else []) ++ [EBlob k i].

Definition await_next_events (k i : nat) (v : invocation) : list event :=
  match f_state <$> fetched v !! nextResp v with
  | Some (Responded true) => on_response_events k i v
  | Some Rejected => catch_events k false v
  | Some Cancelled => catch_events k true v
  | _ => []
  end.

Definition loop_top_events (k i : nat) (v : invocation) : list event :=
  if (i <? length (chunks v))%nat
  then if aborted v then after_loop_events v else await_next_events k i v
  else after_loop_events v.

Definition after_blob_events (k i : nat) (v : invocation) : list event :=
  if aborted v then after_loop_events v
  else (if (i =? 0)%nat then [EPlaying (btn v)] else []) ++
       [EPlay k i (length (audios v))].

Definition resolve_events (k j : nat) (v : invocation) : list event :=
  match at_await v with
  | AwaitPlayback i j' => if (j =? j')%nat then loop_top_events k (S i) v else []
  | _ => []
  end.

Definition abort_events (k : nat) (v : invocation) : list event :=
  if aborted v then []
  else EAbort k ::
       flat_map (fun j => [EPause k j; ERevoke k j]) (seq 0 (length (audios v))).

Definition resume_events (k : nat) (v : invocation) : list event :=
  match at_await v with
  | AwaitFetch _ | AwaitBlob _ => catch_events k true v
  | AwaitErrorBody _ => catch_events k false v
  | AwaitPlayback i _ => loop_top_events k (S i) v
  | Returned => []
  end.

(** The calls of a task other than [playTTS] and [stopTTS]. *)
Definition label_events (l : label) (v : invocation) : list event :=
  match l with
  | FetchResponds k j ok =>
      match at_await v with
      | AwaitFetch i =>
          if (nextResp v =? j)%nat
          then await_next_events k i (mark j (Responded ok) v) else []
      | _ => []
      end
  | FetchFails k j =>
      match at_await v with
      | AwaitFetch i =>
          if (nextResp v =? j)%nat
          then await_next_events k i (mark j Rejected v) else []
      | _ => []
      end
  | BodyArrives k =>
      match at_await v with
      | AwaitFetch i | AwaitErrorBody i | AwaitBlob i | AwaitPlayback i _ =>
          after_blob_events k i (mark (resp v) (Complete true) v)
      | Returned => []
      end
  | BodyFails k | ErrorBodyRead k => catch_events k false v
  | AudioEnded k j | AudioError k j | PlayRejected k j =>
      ERevoke k j :: resolve_events k j v
  | PlayStarted _ _ | MakeButton _ | PlayTTS _ _ | StopTTS | ClearChat => []
  end.

(** The calls of [stopTTS]: the abort with its listeners, the pause of the
    current element, the buttons put back. *)
Definition stop_events (s : state) : list event :=
  match ttsAbort s with
  | Some a =>
      match invocations s !! a with
      | Some v => abort_events a v
      | None => []
      end
  | None => []
  end ++
  match currentAudio s with
  | Some (k, j) => [EPause k j]
  | None => []
  end ++
  (reset_from 0 (buttons s)).2.

(** The continuations that [stopTTS] makes ready. *)
Definition made_ready (s : state) : list nat :=
  match ttsAbort s with
  | Some a =>
      match invocations s !! a with
      | Some v => if aborted v then [] else [a]
      | None => []
      end
  | None => []
  end.

(** What [stopTTS] does to the records: the abort, then the pause of the
    current element. *)
Definition stopped (s : state) : list invocation :=
  let l := match ttsAbort s with
           | Some a => alter abort_local a (invocations s)
           | None => invocations s
           end in
  match currentAudio s with
  | Some (k, j) => alter (with_audios (alter stop_playing j)) k l
  | None => l
  end.

(** The records once the continuations made ready have run. *)
Definition settled (s : state) : list invocation :=
  fold_left (fun l a => alter resume_local a l) (made_ready s) (stopped s).

Inductive step : state -> state -> Prop :=
| step_run l s : enabled l s = true -> step s (run l s).

Inductive reachable : state -> Prop :=
| reachable_init : reachable init
| reachable_step s s' : reachable s -> step s s' -> reachable s'.

(** A run from the start, task by task. *)
Definition runs (ls : list label) : state := fold_left (fun s l => run l s) ls init.

Fixpoint all_enabled (ls : list label) (s : state) : bool :=
  match ls with
  | [] => true
  | l :: ls' => enabled l s && all_enabled ls' (run l s)
  end.

(** *** Sample runs *)

Definition one_sentence : jsstring := lit "Hi!".
Definition two_sentences : jsstring := lit "Hi! Yo!".

(** The first of two chunks plays while the second is requested. *)
Definition first_plays : list label :=
  [MakeButton two_sentences; PlayTTS two_sentences 0;
   FetchResponds 0 0 true; BodyArrives 0].

(** The first chunk is being read and the second is requested. *)
Definition first_is_read : list label :=
  [MakeButton two_sentences; PlayTTS two_sentences 0; FetchResponds 0 0 true].

(** The request for the second chunk fails while the first plays. *)
Definition second_fails : list label := first_plays ++ [FetchFails 0 1].

(** A narration of one chunk plays to its end; the button is clicked
    again. *)
Definition played_then_replayed : list label :=
  [MakeButton one_sentence; PlayTTS one_sentence 0; FetchResponds 0 0 true;
   BodyArrives 0; PlayStarted 0 0; AudioEnded 0 0; PlayTTS one_sentence 0].

(** *** The calls of a whole task *)

(** The calls of the continuations that [stopTTS] made ready. *)
Definition resumed_events (s : state) : list event :=
  flat_map (fun a => from_option (resume_events a) [] (stopped s !! a)) (made_ready s).

Definition task_events (l : label) (s : state) : list event :=
  match l with
  | PlayTTS t b =>
      stop_events s ++ [ELoading b; EFetch (length (invocations s)) 0] ++ resumed_events s
  | StopTTS => stop_events s ++ resumed_events s
  | _ => from_option (label_events l) [] (invocations s !! subject l)
  end.

(** *** How one invocation moves *)

(** A request that is neither read to its end nor cancelled. *)
Definition unsettled (t : transfer) : Prop :=
  match t with
  | Pending | Responded _ | Rejected => True
  | _ => False
  end.

(** The requests for which no element exists yet. *)
Definition unread (v : invocation) : Prop :=
  forall j t, state_at v j = Some t -> at_await v <> Returned ->
    (length (audios v) <= j)%nat -> unsettled t.

(** The head of the loop for index [i], on a signal that is not aborted:
    the record and the calls that result. *)
Inductive resumes (k : nat) (v : invocation) (i : nat)
  : invocation -> list event -> Prop :=
| resumes_done :
    (length (chunks v) <= i)%nat ->
    resumes k v i (set_at Returned v) [EReset (btn v)]
| resumes_wait :
    (i < length (chunks v))%nat -> state_at v i = Some Pending ->
    resumes k v i (set_at (AwaitFetch i) v) []
| resumes_ok :
    (i < length (chunks v))%nat -> state_at v i = Some (Responded true) ->
    resumes k v i (on_response_local i v) (on_response_events k i v)
| resumes_refused :
    (i < length (chunks v))%nat -> state_at v i = Some (Responded false) ->
    resumes k v i (set_at (AwaitErrorBody i) (set_resp i v)) []
| resumes_rejected :
    (i < length (chunks v))%nat -> state_at v i = Some Rejected ->
    resumes k v i (set_at Returned v) [EConsoleError k; EReset (btn v)].

(** What a task of the network or of an element does to the invocation
    [k] it concerns: the record after it and the calls made. *)
Inductive moves (k : nat) (v : invocation) : invocation -> list event -> Prop :=
| moves_noted j t :
    state_at v j = Some Pending -> (forall i, at_await v <> AwaitFetch i) ->
    unsettled t ->
    moves k v (mark j t v) []
| moves_settled i t v' es :
    at_await v = AwaitFetch i -> unsettled t -> t <> Pending ->
    resumes k (mark i t v) i v' es ->
    moves k v v' es
| moves_body i :
    at_await v = AwaitBlob i ->
    moves k v
      (set_at (AwaitPlayback i i)
         (with_audios (fun l => l ++ [mkAudio i Playing true 0])
            (mark i (Complete true) v)))
      ((if (i =? 0)%nat then [EPlaying (btn v)] else []) ++ [EPlay k i i])
| moves_failed i t :
    (at_await v = AwaitBlob i /\ t = BodyFailed) \/
    (at_await v = AwaitErrorBody i /\ t = Complete false) ->
    moves k v (set_at Returned (mark i t v)) [EConsoleError k; EReset (btn v)]
| moves_over i j g v' es :
    at_await v = AwaitPlayback i j ->
    resumes k (with_audios (alter g j) v) (S i) v' es ->
    moves k v v' (ERevoke k j :: es)
| moves_element g j es :
    es = [] \/ es = [ERevoke k j] ->
    moves k v (with_audios (alter g j) v) es
| moves_none : moves k v v [].

(** *** What the calls made so far tell about an invocation *)

(** Every [e2] in the list comes after some [e1]. *)
Definition before (e1 e2 : event) (tr : list event) : Prop :=
  forall p, tr !! p = Some e2 -> exists q, (q < p)%nat /\ tr !! q = Some e1.

(** A call that is not a request, a body read or a playback of
    invocation [k]. *)
Definition foreign (k : nat) (e : event) : Prop :=
  match e with
  | EFetch k' _ | EBlob k' _ | EPlay k' _ _ => k' <> k
  | _ => True
  end.

(** A request, a body read or a playback belongs to one of the first [n]
    invocations. *)
Definition owned (n : nat) (e : event) : Prop :=
  match e with
  | EFetch k _ | EBlob k _ | EPlay k _ _ => (k < n)%nat
  | _ => True
  end.

(** The calls of invocation [k] and its record agree: the chunks requested
    are those of the list [fetched]; a chunk was played only when its
    element exists; the request for chunk [i + 1] comes before chunk [i]
    is read and played; an invocation that returned on its own had all its
    chunks read to the end, or reported an error; the request for chunk 0
    comes first. *)
Record chronicled (k : nat) (v : invocation) (tr : list event) : Prop :=
  mkChronicled {
  chr_fetch : forall i, In (EFetch k i) tr <-> (i < length (fetched v))%nat;
  chr_play : forall i j, In (EPlay k i j) tr -> (i < length (audios v))%nat;
  chr_ahead :
    forall i, (S i < length (chunks v))%nat ->
      before (EFetch k (S i)) (EBlob k i) tr /\
      forall j, before (EFetch k (S i)) (EPlay k i j) tr;
  chr_reported :
    at_await v = Returned -> aborted v = false ->
    (forall j t, state_at v j = Some t -> t = Complete true) \/
    In (EConsoleError k) tr;
  chr_first :
    In (EFetch k 0) tr /\
    forall i, before (EFetch k 0) (EFetch k (S i)) tr /\
              before (EFetch k 0) (EBlob k i) tr /\
              forall j, before (EFetch k 0) (EPlay k i j) tr
}.

(** The chunks of an invocation are the sentences of its text. *)
Definition segmented (v : invocation) : Prop := chunks v = splitBySentence (text v).

(** What holds of the calls between two tasks. *)
Record history (s : state) : Prop := mkHistory {
  hist_owned : Forall (owned (length (invocations s))) (trace s);
  hist_each :
    forall k v, invocations s !! k = Some v -> chronicled k v (trace s) /\ unread v;
  hist_current :
    forall a, ttsAbort s = Some a ->
      exists v, invocations s !! a = Some v /\ aborted v = false;
  hist_text : forall k v, invocations s !! k = Some v -> segmented v
}.

End Narration.

(** ** Notions about the chunks of [splitBySentence] *)

Module Sentences.
Import Segmenter.

(** The code units of a text that are not white space. *)
Definition ink (s : jsstring) : jsstring :=
  List.filter (fun c => negb (is_space c)) s.

(** A text with something to read in it. *)
Definition blank (s : jsstring) : Prop := Forall (fun c => is_space c = true) s.

(** A chunk that is not empty, has no white space at either end, and
    holds a terminator at most as its last code unit. *)
Definition well_cut (c : jsstring) : Prop :=
  c <> [] /\ trim c = c /\ Forall (fun x => is_terminator x = false) (removelast c).

(** The number of terminators of a text. *)
Definition terminators (s : jsstring) : nat := length (List.filter is_terminator s).

End Sentences.

(** ** Notions about a turn *)

Module StreamNotions.
Import Stream.

(** What a delivered event adds to [rawText] when the message of the turn
    is there or can be created: the string conversion of the field [token]
    of a [token] event; nothing for an event of another type, for the payload
    [null], on which reading the field throws, and for a token without a
    string conversion, on which the addition throws. *)
Definition token_text (ev : jsstring * json) : jsstring :=
  if is_event ev.1 "token" then
    match prop ev.2 (lit "token") with
    | Some v => match string_of v with Some t => t | None => [] end
    | None => []
    end
  else [].

(** The mode that a delivered [done] event sets has a string conversion. *)
Definition sets_a_proper_mode (ev : jsstring * json) : Prop :=
  is_event ev.1 "done" = true ->
  forall v, prop ev.2 (lit "mode") = Some v -> string_of v <> None.

Definition spoken (evs : list (jsstring * json)) : jsstring :=
  flat_map token_text evs.

(** As long as the modes set are proper, the current mode has a string
    conversion and the accumulated text is that of the tokens. *)
Definition in_tune (s : state) : Prop :=
  Forall sets_a_proper_mode (dispatched s) ->
  string_of (currentMode s) <> None /\ rawText s = spoken (dispatched s).

(** Two states that differ at most in what the reader holds. *)
Definition same_page (s s' : state) : Prop :=
  exists d b, s' = set_input d b s.

(** The messages of [d] without the id [streaming-msg] are still there,
    unchanged, and at most one element was added. *)
Definition extends (d : list message) (s : state) : Prop :=
  (forall j m, d !! j = Some m -> has_id m = false -> dom s !! j = Some m) /\
  length (dom s) = (length d + match streamBody s with Some _ => 1 | None => 0 end)%nat /\
  (forall i, streamBody s = Some i -> i = length d).

(** A state of the decoder in which the sequence that is open, if any,
    cannot end in a code point below 16: the lead byte left bits in
    [code_point], or the bounds of the next byte exclude an overlong form. *)
Definition not_overlong (st : TextDecoder.state) : Prop :=
  TextDecoder.bytes_needed st = 0 \/ 1 <= TextDecoder.code_point st \/
  (0x90 <= TextDecoder.lower st /\ TextDecoder.upper st <= 0xBF).

(** The event types whose handler creates the message of the turn. *)
Definition makes_message (e : jsstring) : bool :=
  is_event e "token" || is_event e "error".

(** Nothing of the turn shows in the chat [d]: no message was created, no
    text accumulated, no narration started. *)
Definition silent (d : list message) (s : state) : Prop :=
  dom s = d /\ streamBody s = None /\ rawText s = [] /\ no_play s.

(** A position that holds no message of [d] without the id. *)
Definition free (d : list message) (i : nat) : Prop :=
  forall m, d !! i = Some m -> has_id m = true.

End StreamNotions.

(** ** The order of the calls of a narration *)

Module Schedule.
Import Narration.

(** The requests, the body reads and the playbacks of invocation [k]. *)
Definition is_fetch (k : nat) (e : event) : bool :=
  match e with EFetch k' _ => (k' =? k)%nat | _ => false end.
Definition is_blob (k : nat) (e : event) : bool :=
  match e with EBlob k' _ => (k' =? k)%nat | _ => false end.
Definition is_play (k : nat) (e : event) : bool :=
  match e with EPlay k' _ _ => (k' =? k)%nat | _ => false end.

(** The calls [tr] hold, for invocation [k], the requests for the chunks
    [0] to [f - 1], the body reads of the chunks [0] to [b - 1] and the
    playbacks of the chunks [0] to [p - 1], each kind in this order and
    each call once; chunk [i] is played by element [i]. *)
Definition logged (k f b p : nat) (tr : list event) : Prop :=
  List.filter (is_fetch k) tr = List.map (EFetch k) (seq 0 f) /\
  List.filter (is_blob k) tr = List.map (EBlob k) (seq 0 b) /\
  List.filter (is_play k) tr = List.map (fun i => EPlay k i i) (seq 0 p).

(** The number [b] of bodies an invocation has asked for: that of its
    elements, and one more while a body is read. *)
Definition body_reads (v : invocation) (b : nat) : Prop :=
  (length (audios v) <= b <= S (length (audios v)))%nat /\
  (b <= length (fetched v))%nat /\
  match at_await v with
  | AwaitBlob i => b = S i
  | Returned => True
  | _ => b = length (audios v)
  end.

(** The calls of invocation [k] follow its record. *)
Definition ordered (k : nat) (v : invocation) (tr : list event) : Prop :=
  (exists b, logged k (length (fetched v)) b (length (audios v)) tr /\
             body_reads v b) /\
  (length (audios v) <= length (fetched v) <= length (chunks v))%nat.

Definition annals (s : state) : Prop :=
  forall k v, invocations s !! k = Some v -> ordered k v (trace s).

End Schedule.

(** ** The look of the buttons *)

Module Buttons.
Import Narration.

(** What a call does to the buttons of the page. *)
Definition paints (e : event) (bs bs' : list button) : Prop :=
  match e with
  | EReset b => exists t, bs' = alter (idle t) b bs
  | ELoading b => bs' = alter now_loading b bs
  | EPlaying b => bs' = alter now_playing b bs
  | _ => bs' = bs
  end.

Fixpoint painted (es : list event) (bs bs' : list button) : Prop :=
  match es with
  | [] => bs' = bs
  | e :: es' => exists bs1, paints e bs bs1 /\ painted es' bs1 bs'
  end.

(** Button [i] is in the document and shown as loading or playing. *)
Definition busy (s : state) (i : nat) : Prop :=
  exists b, buttons s !! i = Some b /\ selected b = true.

(** Button [i] is that of the invocation [_ttsAbort] refers to, which
    has not returned. *)
Definition narrating (s : state) (i : nat) : Prop :=
  exists k v, ttsAbort s = Some k /\ invocations s !! k = Some v /\
              btn v = i /\ at_await v <> Returned.

Definition buttons_ok (s : state) : Prop := forall i, busy s i -> narrating s i.

End Buttons.

(** ** The tool status panel: [getToolStatusContainer], [addToolStart],
    [addToolDone], [clearToolStatus], [showLLMRetryStatus] and
    [clearLLMRetryStatus] *)

Module Panel.

(** The elements that carry the ids these functions look up: the container
    and the items appended to it.  [document.getElementById] searches the
    whole document: the panel tells what it finds as long as no markup of
    the page brings an element with an id of its own, which [Stream.astray]
    records through a turn. *)

(** The [innerHTML] these functions write, by its template.  The label
    [TOOL_LABELS[tool] || tool] is kept by its argument, and
    [Number(wait).toFixed(1)] by its argument. *)
Inductive content :=
| Blank
| Running (tool : value)
| Finished (tool : value) (detail : jsstring)
| Retrying (attempt max_retries : jsstring) (wait : json).

Record item := mkItem {
  item_id : jsstring;
  is_running : bool;
  is_done : bool;
  inner : content
}.

(** The container: whether it has the class [done], the markup assigned
    to its [innerHTML] if any, and the items appended since. *)
Record container := mkContainer {
  c_done : bool;
  c_inner : option content;
  items : list item
}.

Definition panel := option container.

Definition CONTAINER_ID : jsstring := lit "tool-status-container".
Definition RETRY_ID : jsstring := lit "llm-retry-status".

(** The template [tool-${callId}]; [None] when the conversion throws. *)
Definition tool_id (callId : value) : option jsstring :=
  match string_of callId with
  | Some t => Some (lit "tool-" ++ t)
  | None => None
  end.

(** [TOOL_LABELS[tool] || tool] in a template: the property key is the
    string conversion of [tool], which may throw; what is found there (a
    label, an inherited member of the object, or else [tool] itself) has a
    string conversion. *)
Definition labelled (tool : value) : bool :=
  match string_of tool with Some _ => true | None => false end.

Inductive element := TheContainer | TheItem (n : nat).

Fixpoint find_item (id : jsstring) (n : nat) (l : list item) : option nat :=
  match l with
  | [] => None
  | r :: l' => if eqb (item_id r) id then Some n else find_item id (S n) l'
  end.

(** [document.getElementById(id)]: the first element in document order;
    the container comes before its items. *)
Definition getElementById (id : jsstring) (p : panel) : option element :=
  match p with
  | None => None
  | Some c =>
      if eqb CONTAINER_ID id then Some TheContainer
      else TheItem <$> find_item id 0 (items c)
  end.

Definition new_container : container := mkContainer false None [].

Definition getToolStatusContainer (p : panel) : container :=
  match getElementById CONTAINER_ID p, p with
  | Some _, Some c => c
  | _, _ => new_container
  end.

Definition append (r : item) (c : container) : container :=
  mkContainer (c_done c) (c_inner c) (items c ++ [r]).

(** The container is looked up, and created if need be, first; the item
    is appended last, after the templates of its id and of its markup:
    when one of them throws, the container is left without the item. *)
Definition addToolStart (tool callId : value) (p : panel) : panel :=
  let c := getToolStatusContainer p in
  match tool_id callId with
  | Some id =>
      if labelled tool then Some (append (mkItem id true false (Running tool)) c)
      else Some c
  | None => Some c
  end.

(** Truthiness of a payload value; the number [0] is kept as the text
    of its string conversion. *)
Definition truthy_value (v : value) : bool :=
  match v with
  | None | Some JNull => false
  | Some (JBool b) => b
  | Some (JNum t) => negb (eqb t (lit "0"))
  | Some (JStr s) => truthy s
  | Some (JArr _) | Some (JObj _) => true
  end.

(** [v || d]. *)
Definition or_default (v : value) (d : json) : json :=
  match v with
  | Some j => if truthy_value v then j else d
  | None => d
  end.

(** [Number(v)] returns: the conversion of an array or of an object to a
    number goes through its string conversion. *)
Definition numeric (v : json) : bool :=
  match v with
  | JArr _ | JObj _ =>
      match to_string v with Some _ => true | None => false end
  | _ => true
  end.

Section Rendering.

(** Whether a number, given by its string conversion, is above 60, and
    whether the number that a string converts to is. *)
Variable number_exceeds60 : jsstring -> bool.
Variable string_exceeds60 : jsstring -> bool.

(** The comparison [v > 60] on a payload value; [None] when the conversion
    of [v] to a number throws.  [undefined] converts to [NaN], [null] to 0,
    a boolean to 0 or 1, an array and an object through their string. *)
Definition exceeds60 (v : value) : option bool :=
  match v with
  | None | Some JNull | Some (JBool _) => Some false
  | Some (JNum text) => Some (number_exceeds60 text)
  | Some (JStr s) => Some (string_exceeds60 s)
  | Some (JArr l) =>
      match to_string (JArr l) with
      | Some t => Some (string_exceeds60 t)
      | None => None
      end
  | Some (JObj fields) =>
      match to_string (JObj fields) with
      | Some _ => Some false
      | None => None
      end
  end.

(** [summary && summary.length > 60 ? summary.slice(0, 60) + '...' :
    (summary || 'done')], as the template prints it; [None] when computing
    or printing it throws.  A number and [true] have no [length].  An object
    has the field [length] of its payload, and no [slice] to call. *)
Definition short (summary : value) : option jsstring :=
  match summary with
  | Some (JStr s) =>
      if truthy s
      then Some (if (60 <? length s)%nat then take 60 s ++ lit "..." else s)
      else Some (lit "done")
  | Some (JArr l) =>
      if (60 <? length l)%nat
      then match to_string (JArr (take 60 l)) with
           | Some t => Some (t ++ lit "...")
           | None => None
           end
      else to_string (JArr l)
  | Some (JObj fields) =>
      match exceeds60 (assoc fields (lit "length")) with
      | Some false => to_string (JObj fields)
      | _ => None
      end
  | Some j => if truthy_value summary then to_string j else Some (lit "done")
  | None => Some (lit "done")
  end.

(** The markup that [addToolDone] assigns, when neither [short] nor the
    template throws. *)
Definition detail (tool summary : value) : option content :=
  match short summary with
  | Some d => if labelled tool then Some (Finished tool d) else None
  | None => None
  end.

(** The classes are changed first; the markup stays when something
    throws. *)
Definition finish (tool summary : value) (r : item) : item :=
  mkItem (item_id r) false true
         match detail tool summary with
         | Some h => h
         | None => inner r
         end.

Definition addToolDone (tool callId summary : value) (p : panel) : panel :=
  match tool_id callId with
  | None => p
  | Some id =>
      match getElementById id p, p with
      | Some TheContainer, Some c =>
          Some match detail tool summary with
               | Some h => mkContainer true (Some h) []
               | None => mkContainer true (c_inner c) (items c)
               end
      | Some (TheItem n), Some c =>
          Some (mkContainer (c_done c) (c_inner c)
                  (alter (finish tool summary) n (items c)))
      | _, _ => p
      end
  end.

Definition clearToolStatus (p : panel) : panel :=
  match getElementById CONTAINER_ID p with
  | Some _ => None
  | None => p
  end.

Definition set_inner (h : content) (r : item) : item :=
  mkItem (item_id r) (is_running r) (is_done r) h.

(** The markup of the notice: reading a field of [null] throws, as do
    [Number] and the template on a value without conversion. *)
Definition notice (data : json) : option content :=
  match prop data (lit "attempt"), prop data (lit "max_retries"),
        prop data (lit "wait_seconds") with
  | Some a, Some m, Some w =>
      if numeric (or_default w (JNum (lit "0"))) then
        match to_string (or_default a (JNum (lit "1"))),
              to_string (or_default m (JNum (lit "5"))) with
        | Some ta, Some tm => Some (Retrying ta tm (or_default w (JNum (lit "0"))))
        | _, _ => None
        end
      else None
  | _, _, _ => None
  end.

(** The item is looked up, and created if need be, before the fields
    of [data] are read. *)
Definition showLLMRetryStatus (data : json) (p : panel) : panel :=
  let c := getToolStatusContainer p in
  let '(c, n) :=
    match getElementById RETRY_ID (Some c) with
    | Some (TheItem n) => (c, n)
    | _ => (append (mkItem RETRY_ID true false Blank) c, length (items c))
    end in
  Some match notice data with
       | Some h => mkContainer (c_done c) (c_inner c) (alter (set_inner h) n (items c))
       | None => c
       end.

Definition clearLLMRetryStatus (p : panel) : panel :=
  match getElementById RETRY_ID p, p with
  | Some (TheItem n), Some c =>
      Some (mkContainer (c_done c) (c_inner c) (delete n (items c)))
  | Some TheContainer, Some _ => None
  | _, _ => p
  end.

(** What a call of the read loop does to the panel. *)
Definition perform (p : panel) (c : Stream.call) : panel :=
  match c with
  | Stream.AddToolStart tool callId => addToolStart tool callId p
  | Stream.AddToolDone tool callId summary => addToolDone tool callId summary p
  | Stream.ShowLLMRetryStatus data => showLLMRetryStatus data p
  | Stream.ClearLLMRetryStatus => clearLLMRetryStatus p
  | Stream.ClearToolStatus => clearToolStatus p
  | _ => p
  end.

Definition after (cs : list Stream.call) (p : panel) : panel :=
  fold_left perform cs p.

End Rendering.

Definition carries (id : jsstring) (r : item) : bool := eqb (item_id r) id.

(** The items of the panel that carry the id [id]. *)
Definition carrying (id : jsstring) (p : panel) : list item :=
  match p with
  | Some c => List.filter (carries id) (items c)
  | None => []
  end.

Definition items_of (p : panel) : list item :=
  match p with Some c => items c | None => [] end.

(** The number of retry items. *)
Definition retries (p : panel) : nat := length (carrying RETRY_ID p).

(** The items of the container once the retry item is there, and its
    position. *)
Definition with_retry (c : container) : list item * nat :=
  match find_item RETRY_ID 0 (items c) with
  | Some n => (items c, n)
  | None => (items c ++ [mkItem RETRY_ID true false Blank], length (items c))
  end.

(** A call that leaves the panel alone. *)
Definition inert (c : Stream.call) : Prop :=
  match c with
  | Stream.AddToolStart _ _ | Stream.AddToolDone _ _ _
  | Stream.ShowLLMRetryStatus _ | Stream.ClearLLMRetryStatus
  | Stream.ClearToolStatus => False
  | _ => True
  end.

(** Since the state [s0] the retry notice was cleared, and no call on the
    panel followed. *)
Definition cleared_since (s0 s : Stream.state) : Prop :=
  exists rest, Stream.calls s = Stream.calls s0 ++ Stream.ClearLLMRetryStatus :: rest /\
               Forall inert rest.

(** An array or an object. *)
Definition compound (v : value) : Prop :=
  match v with
  | Some (JArr _) | Some (JObj _) => True
  | _ => False
  end.

(** [{"attempt":2,"max_retries":5,"wait_seconds":1.5}],
    [{"tool":"calculate","call_id":"c1"}] and
    [{"tool":"calculate","call_id":"c1","summary":"42"}]. *)
Definition text_retry : jsstring :=
  lit "{" ++ Stream.quoted "attempt" ++ lit ":2," ++ Stream.quoted "max_retries" ++
  lit ":5," ++ Stream.quoted "wait_seconds" ++ lit ":1.5}".
Definition text_tool_start : jsstring :=
  lit "{" ++ Stream.quoted "tool" ++ lit ":" ++ Stream.quoted "calculate" ++ lit "," ++
  Stream.quoted "call_id" ++ lit ":" ++ Stream.quoted "c1" ++ lit "}".
Definition text_tool_done : jsstring :=
  lit "{" ++ Stream.quoted "tool" ++ lit ":" ++ Stream.quoted "calculate" ++ lit "," ++
  Stream.quoted "call_id" ++ lit ":" ++ Stream.quoted "c1" ++ lit "," ++
  Stream.quoted "summary" ++ lit ":" ++ Stream.quoted "42" ++ lit "}".

Definition payload_retry : json :=
  JObj [(lit "attempt", JNum (lit "2")); (lit "max_retries", JNum (lit "5"));
        (lit "wait_seconds", JNum (lit "1.5"))].
Definition payload_tool_start : json :=
  JObj [(lit "tool", JStr (lit "calculate")); (lit "call_id", JStr (lit "c1"))].
Definition payload_tool_done : json :=
  JObj [(lit "tool", JStr (lit "calculate")); (lit "call_id", JStr (lit "c1"));
        (lit "summary", JStr (lit "42"))].

Definition sample_tools : jsstring -> option json :=
  Stream.parse_table [(text_retry, payload_retry);
                      (text_tool_start, payload_tool_start);
                      (text_tool_done, payload_tool_done)].

(** The two comparisons on the texts of the examples, which are empty or
    natural numbers in decimal digits. *)
Fixpoint digits_value (acc : N) (s : jsstring) : option N :=
  match s with
  | [] => Some acc
  | c :: s' =>
      if (0x30 <=? c) && (c <=? 0x39)
      then digits_value (acc * 10 + (c - 0x30)) s'
      else None
  end.

Definition sample_exceeds60 (s : jsstring) : bool :=
  match digits_value 0 s with
  | Some n => 60 <? n
  | None => false
  end.

End Panel.

(** ** The confirmation card: [showConfirmAction] *)

Module Confirm.

(** The markup of the card: the question with its two buttons; the
    question with the buttons replaced by the loading text; one of the three
    results; the cancellation.  The message of an error is kept by its
    origin: a [TypeError] of the handler itself, or the failure of the
    request or of reading its body, whose message is a string. *)
Inductive message :=
| OfTypeError
| OfFailure (m : jsstring).

Inductive view :=
| Asking (title time : jsstring)
| Loading (title time : jsstring)
| Completed (m : jsstring)
| Refused (m : jsstring)
| Broken (m : message)
| Cancelled.

Inductive request :=
| ConfirmAction (id : jsstring)
| CancelAction (id : jsstring).

(** A card: the text that the template of a request makes of the
    [action_id] of its payload ([None] when that conversion throws), its
    markup, the requests sent and those that have not come back.  [stray]
    tells that the title or the time holds a [<]: the markup of the question
    may then hold elements of its own, and what [querySelector] finds for
    the classes [confirm-yes], [confirm-no] and [confirm-buttons] is not
    followed. *)
Record card := mkCard {
  action : option jsstring;
  shown : view;
  sent : list request;
  confirm_pending : bool;
  cancels_pending : nat;
  stray : bool
}.

Definition has_lt (s : jsstring) : bool := existsb (fun c => c =? 0x3C) s.

(** [showConfirmAction(data)]: no card when the template of the question
    throws, on the payload [null] or on a title or a time without string
    conversion. *)
Definition showConfirmAction (data : json) : option card :=
  match prop data (lit "title"), prop data (lit "time"), prop data (lit "action_id") with
  | Some title, Some time, Some id =>
      match to_string (Panel.or_default title (JStr [])),
            to_string (Panel.or_default time (JStr [])) with
      | Some t1, Some t2 =>
          Some (mkCard (string_of id) (Asking t1 t2) [] false 0
                       (has_lt t1 || has_lt t2))
      | _, _ => None
      end
  | _, _, _ => None
  end.

(** How the request of the confirmation ends: a body that parses to
    [result], or a failure with the message of its error. *)
Inductive outcome :=
| Answered (result : json)
| Failed (m : jsstring).

(** A click on one of the two buttons, which are in the document while the
    question is shown; the end of the confirmation request; the end of a
    cancellation request, successful or not. *)
Inductive task :=
| ClickYes
| ClickNo
| ConfirmSettles (o : outcome)
| CancelSettles.

Definition asking (c : card) : bool :=
  match shown c with Asking _ _ => true | _ => false end.

Definition enabled (t : task) (c : card) : bool :=
  match t with
  | ClickYes | ClickNo => asking c
  | ConfirmSettles _ => confirm_pending c
  | CancelSettles => (0 <? cancels_pending c)%nat
  end.

(** The lines after [await resp.json()] and the [catch] block: reading a
    field of [null] and the template on a message without conversion throw
    inside the [try]. *)
Definition result_view (o : outcome) : view :=
  match o with
  | Answered result =>
      match prop result (lit "status"), prop result (lit "message") with
      | Some status, Some m =>
          match string_of m with
          | Some t =>
              match status with
              | Some (JStr s) =>
                  if eqb s (lit "completed") then Completed t else Refused t
              | _ => Refused t
              end
          | None => Broken OfTypeError
          end
      | _, _ => Broken OfTypeError
      end
  | Failed m => Broken (OfFailure m)
  end.

(** The handlers.  The template of the URL is inside the [try]: when it
    throws no request is sent, and the [catch] block runs in the same
    task. *)
Definition handle (t : task) (c : card) : card :=
  match t with
  | ClickYes =>
      match action c with
      | Some a =>
          mkCard (action c)
                 match shown c with
                 | Asking title time => Loading title time
                 | v => v
                 end
                 (sent c ++ [ConfirmAction a]) true (cancels_pending c) (stray c)
      | None =>
          mkCard (action c) (Broken OfTypeError) (sent c) (confirm_pending c)
                 (cancels_pending c) (stray c)
      end
  | ClickNo =>
      match action c with
      | Some a =>
          mkCard (action c) (shown c) (sent c ++ [CancelAction a])
                 (confirm_pending c) (S (cancels_pending c)) (stray c)
      | None =>
          mkCard (action c) Cancelled (sent c) (confirm_pending c)
                 (cancels_pending c) (stray c)
      end
  | ConfirmSettles o =>
      mkCard (action c) (result_view o) (sent c) false (cancels_pending c) (stray c)
  | CancelSettles =>
      mkCard (action c) Cancelled (sent c) (confirm_pending c)
             (pred (cancels_pending c)) (stray c)
  end.

Fixpoint run (ts : list task) (c : card) : option card :=
  match ts with
  | [] => Some c
  | t :: ts' => if enabled t c then run ts' (handle t c) else None
  end.

Definition is_confirmation (r : request) : bool :=
  match r with ConfirmAction _ => true | CancelAction _ => false end.

Definition confirmations (c : card) : nat :=
  length (List.filter is_confirmation (sent c)).

(** The requests of a card: cancellations, then at most one confirmation,
    after which the question is no longer shown, all for its action; none
    when the action has no text. *)
Definition tidy (a : option jsstring) (c : card) : Prop :=
  action c = a /\
  match a with
  | Some a =>
      exists n, sent c = replicate n (CancelAction a) \/
                (sent c = replicate n (CancelAction a) ++ [ConfirmAction a] /\
                 asking c = false)
  | None => sent c = []
  end.

(** [{"action_id":"a1","title":"Lunch","time":"noon"}], and a result
    [{"status":"completed","message":"ok"}]. *)
Definition sample_action : json :=
  JObj [(lit "action_id", JStr (lit "a1")); (lit "title", JStr (lit "Lunch"));
        (lit "time", JStr (lit "noon"))].
Definition sample_result : json :=
  JObj [(lit "status", JStr (lit "completed")); (lit "message", JStr (lit "ok"))].

(** The user cancels, then confirms before the cancellation has come
    back. *)
Definition cancel_then_confirm : list task :=
  [ClickNo; ClickYes; ConfirmSettles (Answered sample_result); CancelSettles].

End Confirm.

(** * Properties *)

(** ** The sentence segmenter *)

Module SegmenterProofs.
Import Segmenter.

Lemma is_terminator_iff c :
  is_terminator c = true <-> In c TERMINATORS.
Proof.
  unfold is_terminator, TERMINATORS; simpl.
  rewrite !andb_true_r, !orb_false_r, !orb_true_iff, !N.eqb_eq.
  intuition congruence.
Qed.

Lemma trimStart_spaces s : Forall (fun c => is_space c = true) s -> trimStart s = [].
Proof.
  induction 1 as [|c s Hc _ IH]; simpl; [reflexivity|].
  rewrite Hc; exact IH.
Qed.

Lemma trim_spaces s : Forall (fun c => is_space c = true) s -> trim s = [].
Proof.
  intros H. unfold trim, trimEnd. rewrite (trimStart_spaces s H). reflexivity.
Qed.

Lemma scan_plain text chunks current :
  Forall (fun c => is_terminator c = false) text ->
  scan text chunks current = (chunks, current ++ text).
Proof.
  intros H; revert current.
  induction H as [|c text Hc _ IH]; intros current; simpl.
  - now rewrite app_nil_r.
  - rewrite Hc, IH, <- app_assoc. reflexivity.
Qed.

Lemma scan_spaces text : forall chunks current,
  Forall (fun c => is_space c = true) text ->
  Forall (fun c => is_space c = true) current ->
  exists current', scan text chunks current = (chunks, current') /\
                   Forall (fun c => is_space c = true) current'.
Proof.
  induction text as [|c text IH]; intros chunks current Ht Hc; simpl.
  - eauto.
  - inversion Ht as [|? ? Hsp Ht']; subst.
    assert (Hcur : Forall (fun c => is_space c = true) (current ++ [c])).
    { apply Forall_app; split; [assumption | constructor; [assumption | constructor]]. }
    destruct (is_terminator c).
    + unfold push_if. rewrite (trim_spaces _ Hcur). simpl.
      apply IH; [assumption | constructor].
    + apply IH; assumption.
Qed.

Lemma kept_app a b : kept (a ++ b) = kept a ++ kept b.
Proof. unfold kept. apply List.filter_app. Qed.

Lemma push_if_kept chunks s : push_if chunks s = chunks ++ kept [s].
Proof.
  unfold push_if, kept; simpl. destruct (truthy s); [reflexivity|].
  now rewrite app_nil_r.
Qed.

(** The loop cuts what it reads after each terminator and nowhere else. *)
Lemma scan_segments text : forall chunks current,
  Forall (fun c => is_terminator c = false) current ->
  exists segs rest,
    current ++ text = concat segs ++ rest /\
    Forall closed_segment segs /\
    Forall (fun c => is_terminator c = false) rest /\
    scan text chunks current = (chunks ++ kept (List.map trim segs), rest).
Proof.
  induction text as [|c text IH]; intros chunks current Hcur; simpl.
  - exists [], current. simpl. rewrite !app_nil_r. repeat split; auto.
  - destruct (is_terminator c) eqn:Hc.
    + destruct (IH (push_if chunks (trim (current ++ [c]))) [] ltac:(constructor))
        as (segs & rest & Heq & Hsegs & Hrest & Hscan).
      exists ((current ++ [c]) :: segs), rest. simpl in *.
      repeat split; auto.
      * rewrite <- !app_assoc. simpl. now rewrite <- Heq.
      * constructor; [|assumption]. exists current, c. auto.
      * rewrite Hscan, push_if_kept, <- app_assoc. f_equal. f_equal.
        apply (eq_sym (kept_app [trim (current ++ [c])] (List.map trim segs))).
    + destruct (IH chunks (current ++ [c])) as (segs & rest & Heq & Hsegs & Hrest & Hscan).
      { apply Forall_app; split; [assumption | constructor; [assumption | constructor]]. }
      exists segs, rest. rewrite <- app_assoc in Heq. simpl in Heq. auto.
Qed.

Lemma kept_last segs s : truthy s = true -> List.last (kept (segs ++ [s])) [] = s.
Proof.
  intros H. rewrite kept_app. unfold kept at 2. simpl. rewrite H.
  apply List.last_last.
Qed.

(** C7: [splitBySentence] closes a chunk at each of 。！？, [!], [?] and the
    line feed and at no other character, the full stop [.] included: the
    text is the concatenation of segments that each end with their only
    terminator, followed by a rest without terminator; the chunks are those
    segments and that rest, trimmed, the empty ones dropped; a rest that is
    not blank is the last chunk.  "Hello world. Version 2.0 is out" gives one
    chunk, and 元気ですか？うん！ gives 元気ですか？ then うん！. *)
Theorem splitBySentence_cuts_at_terminators :
  (forall c, is_terminator c = true <->
             In c [0x3002; 0xFF01; 0xFF1F; 0x21; 0x3F; 0x0A]) /\
  is_terminator 0x2E = false /\
  (forall text, exists segs rest,
      text = concat segs ++ rest /\
      Forall closed_segment segs /\
      Forall (fun c => is_terminator c = false) rest /\
      splitBySentence text =
        (if truthy_chunks (kept (List.map trim (segs ++ [rest])))
         then kept (List.map trim (segs ++ [rest])) else [text]) /\
      (truthy (trim rest) = true ->
       List.last (splitBySentence text) [] = trim rest)) /\
  splitBySentence hello_version = [hello_version] /\
  splitBySentence genki_un = [genki; un].
Proof.
  split; [exact is_terminator_iff|].
  split; [reflexivity|].
  split; [|split; vm_compute; reflexivity].
  intros text.
  destruct (scan_segments text [] [] ltac:(constructor))
    as (segs & rest & Heq & Hsegs & Hrest & Hscan).
  exists segs, rest. simpl in Heq, Hscan.
  assert (Hsplit : splitBySentence text =
    (if truthy_chunks (kept (List.map trim (segs ++ [rest])))
     then kept (List.map trim (segs ++ [rest])) else [text])).
  { unfold splitBySentence. rewrite Hscan, push_if_kept.
    rewrite List.map_app, kept_app. reflexivity. }
  repeat split; auto.
  intros Hne. rewrite Hsplit, List.map_app. simpl List.map.
  rewrite kept_app. unfold kept at 2 4. simpl. rewrite Hne.
  match goal with |- context [truthy_chunks ?l] =>
    assert (Hlen : truthy_chunks l = true)
  end.
  { unfold truthy_chunks. rewrite length_app. simpl. apply Nat.ltb_lt. lia. }
  rewrite Hlen. apply List.last_last.
Qed.

Lemma splitBySentence_cuts_witness :
  is_terminator 0xFF1F = true /\ splitBySentence genki_un = [genki; un].
Proof.
  destruct splitBySentence_cuts_at_terminators as (Hterm & _ & _ & _ & Hgenki).
  split; [apply Hterm; simpl; tauto | exact Hgenki].
Defined.

Lemma splitBySentence_nonempty text : splitBySentence text <> [].
Proof.
  unfold splitBySentence. destruct (scan text [] []) as [chunks current].
  unfold truthy_chunks.
  destruct (push_if chunks (trim current)); simpl; discriminate.
Qed.

(** C8: a text without terminator that is not blank comes back as one
    chunk, the trimmed text; an empty or blank text comes back as one chunk,
    the text as it was given; the result is never the empty list. *)
Theorem splitBySentence_single_chunk :
  (forall text,
      Forall (fun c => is_terminator c = false) text ->
      trim text <> [] ->
      splitBySentence text = [trim text]) /\
  (forall text,
      Forall (fun c => is_space c = true) text ->
      splitBySentence text = [text]) /\
  (forall text, splitBySentence text <> []).
Proof.
  split; [|split; [|exact splitBySentence_nonempty]].
  - intros text Hplain Hne. unfold splitBySentence.
    rewrite (scan_plain text [] [] Hplain). simpl.
    unfold push_if. destruct (trim text); [congruence | reflexivity].
  - intros text Hblank. unfold splitBySentence.
    destruct (scan_spaces text [] [] Hblank ltac:(constructor))
      as (current & Hscan & Hcur).
    rewrite Hscan. unfold push_if. rewrite (trim_spaces _ Hcur). reflexivity.
Qed.

Lemma splitBySentence_single_chunk_witness :
  splitBySentence hello_version = [trim hello_version] /\
  splitBySentence (lit "  ") = [lit "  "].
Proof.
  destruct splitBySentence_single_chunk as (Hplain & Hblank & _).
  split.
  - apply Hplain; [|vm_compute; discriminate].
    repeat constructor.
  - apply Hblank. repeat constructor.
Defined.

End SegmenterProofs.

(** ** The turn stream *)

Module StreamProofs.
Import Stream.
Local Open Scope js_scope.

Section Lines.

Variable JSON_parse : jsstring -> option json.

Local Abbreviation on_line := (on_line JSON_parse).
Local Abbreviation on_data := (on_data JSON_parse).

Lemma data_line_not_event line :
  startsWith line (lit "data: ") = true ->
  startsWith line (lit "event: ") = false.
Proof.
  destruct line as [|c line]; [discriminate|].
  cbn [startsWith lit List.map list_ascii_of_string].
  change (N_of_ascii "d") with 100. change (N_of_ascii "e") with 101.
  destruct (N.eqb_spec 100 c) as [<-|]; [reflexivity | discriminate].
Qed.

Lemma on_line_skipped s line : skipped line -> on_line s line = s.
Proof. intros [He Hd]. unfold Stream.on_line. now rewrite He, Hd. Qed.

Lemma on_lines_skipped s lines :
  Forall skipped lines -> fold_left on_line lines s = s.
Proof.
  induction 1 as [|line lines H _ IH]; simpl; [reflexivity|].
  now rewrite on_line_skipped.
Qed.

Lemma currentEvent_on_data s line :
  currentEvent (on_data line s) = lit "message".
Proof. reflexivity. Qed.

(** C10: a line that starts neither with "event: " nor with "data: " is
    skipped and the state stays as it is; so are the empty line, a comment
    line and an event line without the space after the colon.  Skipped
    lines between an event line and a data line change nothing, the event
    type still applies; the event type only changes on an event line, which
    sets it, and on a data line, which resets it to "message". *)
Theorem other_lines_are_skipped :
  (forall s line, skipped line -> on_line s line = s) /\
  (skipped [] /\
   (forall rest, skipped (lit ":" ++ rest)) /\
   (forall rest, startsWith rest (lit " ") = false ->
                 skipped (lit "event:" ++ rest))) /\
  (forall s event_line others data_line,
      Forall skipped others ->
      fold_left on_line ([event_line] ++ others ++ [data_line]) s =
      fold_left on_line [event_line; data_line] s) /\
  (forall s line,
      currentEvent (on_line s line) <> currentEvent s ->
      startsWith line (lit "event: ") = true \/
      startsWith line (lit "data: ") = true) /\
  (forall s line,
      startsWith line (lit "event: ") = true ->
      on_line s line = set_currentEvent (trim (slice line 7)) s) /\
  (forall s line,
      startsWith line (lit "data: ") = true ->
      currentEvent (on_line s line) = lit "message").
Proof.
  split; [exact on_line_skipped|].
  split.
  { split; [split; reflexivity|].
    split; [intros rest; split; reflexivity|].
    intros rest Hsp. split; [|reflexivity].
    vm_compute in Hsp. vm_compute. exact Hsp. }
  split.
  { intros s event_line others data_line Hothers.
    rewrite !fold_left_app. simpl.
    now rewrite on_lines_skipped. }
  split.
  { intros s line Hchg.
    destruct (startsWith line (lit "event: ")) eqn:He; [now left|].
    destruct (startsWith line (lit "data: ")) eqn:Hd; [now right|].
    exfalso. apply Hchg. rewrite on_line_skipped; [reflexivity | now split]. }
  split.
  { intros s line He. unfold Stream.on_line. now rewrite He. }
  intros s line Hd. unfold Stream.on_line.
  rewrite (data_line_not_event _ Hd), Hd. apply currentEvent_on_data.
Qed.

(** *** Reads that cut the stream anywhere *)

Lemma decode_app st a b :
  TextDecoder.decode st (a ++ b) =
  let '(st1, o1) := TextDecoder.decode st a in
  let '(st2, o2) := TextDecoder.decode st1 b in
  (st2, o1 ++ o2).
Proof.
  revert st. induction a as [|x a IH]; intros st; simpl.
  - now destruct (TextDecoder.decode st b).
  - destruct (TextDecoder.step st x) as [st1 o1]. rewrite IH.
    destruct (TextDecoder.decode st1 a) as [st2 o2].
    destruct (TextDecoder.decode st2 b) as [st3 o3].
    now rewrite app_assoc.
Qed.

Lemma split_lf_nonempty s : split_lf s <> [].
Proof.
  destruct s as [|c s]; simpl; [discriminate|].
  destruct (c =? LF); [discriminate|].
  destruct (split_lf s); discriminate.
Qed.

Lemma split_lf_cons c s :
  split_lf (c :: s) =
  if c =? LF then [] :: split_lf s
  else (c :: hd [] (split_lf s)) :: tl (split_lf s).
Proof.
  simpl. destruct (c =? LF); [reflexivity|].
  pose proof (split_lf_nonempty s). destruct (split_lf s); [congruence | reflexivity].
Qed.

Lemma split_lf_app x y :
  split_lf (x ++ y) =
  removelast (split_lf x) ++ split_lf (List.last (split_lf x) [] ++ y).
Proof.
  induction x as [|c x IH].
  - reflexivity.
  - rewrite <- app_comm_cons, !split_lf_cons, IH.
    pose proof (split_lf_nonempty x) as Hne.
    destruct (split_lf x) as [|l ls] eqn:E; [congruence|].
    destruct (c =? LF) eqn:Hc; [reflexivity|].
    destruct ls as [|l' ls']; [|reflexivity].
    cbn [removelast List.last hd tl app].
    change ((c :: l) ++ y) with (c :: (l ++ y)).
    now rewrite split_lf_cons, Hc.
Qed.

(** The handlers neither read nor write the two variables of the reader,
    [buffer] and [decoder]: they commute with any assignment to them. *)

Lemma frames_ret {A} (a : A) : frames (ret a).
Proof. intros d b s; reflexivity. Qed.

Lemma frames_throw {A} : frames (@throw A).
Proof. intros d b s; reflexivity. Qed.

Lemma frames_bind {A B} (m : M A) (k : A -> M B) :
  frames m -> (forall a, frames (k a)) -> frames (bind m k).
Proof.
  intros Hm Hk d b s. unfold bind. rewrite Hm.
  destruct (m s) as [[a|] s']; simpl; [apply Hk | reflexivity].
Qed.

Lemma frames_exec (f : state -> state) :
  (forall d b s, f (set_input d b s) = set_input d b (f s)) -> frames (exec f).
Proof. intros H d b s. unfold exec. simpl. now rewrite H. Qed.

Lemma frames_read {A} (f : state -> A) :
  (forall d b s, f (set_input d b s) = f s) -> frames (read f).
Proof. intros H d b s. unfold read. simpl. now rewrite H. Qed.

Lemma frames_field data key : frames (field data key).
Proof. unfold field. destruct (prop data (lit key)); [apply frames_ret | apply frames_throw]. Qed.

Lemma frames_convert v : frames (convert v).
Proof.
  unfold convert. destruct (string_of v); [apply frames_ret | apply frames_throw].
Qed.

Lemma frames_create : frames createStreamingMessage.
Proof.
  unfold createStreamingMessage.
  apply frames_bind; [apply frames_read; reflexivity|]. intros mode.
  apply frames_bind; [apply frames_convert|]. intros _ d b s. reflexivity.
Qed.

Ltac frame_step :=
  first
    [ apply frames_create
    | apply frames_convert
    | apply frames_bind; [|intros ?]
    | apply frames_ret
    | apply frames_throw
    | apply frames_field
    | apply frames_exec; intros; reflexivity
    | apply frames_read; intros; reflexivity
    | match goal with |- frames (match ?x with _ => _ end) => destruct x end
    | match goal with |- frames (if ?x then _ else _) => destruct x end ].

Lemma frames_dispatch e data : frames (dispatch e data).
Proof.
  unfold dispatch, on_tool_start, on_tool_done, on_token, on_done, on_error,
    ensureStreamBody, addButtonAndPlay.
  repeat frame_step.
Qed.

Lemma on_line_set_input d b s line :
  on_line (set_input d b s) line = set_input d b (on_line s line).
Proof.
  unfold Stream.on_line.
  destruct (startsWith line (lit "event: ")); [reflexivity|].
  destruct (startsWith line (lit "data: ")); [|reflexivity].
  unfold Stream.on_data, try_catch.
  change (currentEvent (set_input d b s)) with (currentEvent s).
  assert (H : frames (match JSON_parse (slice line 6) with
                      | Some data => exec (deliver (currentEvent s) data) ;;
                                     dispatch (currentEvent s) data
                      | None => throw
                      end)).
  { destruct (JSON_parse (slice line 6)); [|apply frames_throw].
    apply frames_bind; [apply frames_exec; reflexivity|].
    intros _. apply frames_dispatch. }
  rewrite H. reflexivity.
Qed.

Lemma on_lines_set_input d b lines : forall s,
  fold_left on_line lines (set_input d b s) =
  set_input d b (fold_left on_line lines s).
Proof.
  induction lines as [|line lines IH]; intros s; simpl; [reflexivity|].
  now rewrite on_line_set_input, IH.
Qed.

Lemma last_app_nonempty {A} (l1 l2 : list A) d :
  l2 <> [] -> List.last (l1 ++ l2) d = List.last l2 d.
Proof.
  intros H. destruct l2 as [|x l2]; [congruence|].
  induction l1 as [|y l1 IH]; [reflexivity|].
  simpl. destruct (l1 ++ x :: l2) eqn:E; [destruct l1; discriminate | exact IH].
Qed.

Lemma on_chunk_app s a b :
  on_chunk JSON_parse (on_chunk JSON_parse s a) b = on_chunk JSON_parse s (a ++ b).
Proof.
  unfold on_chunk at 2 3. rewrite decode_app.
  destruct (TextDecoder.decode (decoder s) a) as [d1 ta].
  destruct (TextDecoder.decode d1 b) as [d2 tb] eqn:Hb.
  rewrite app_assoc, (split_lf_app (buffer s ++ ta) tb).
  set (la := split_lf (buffer s ++ ta)).
  set (lb := split_lf (List.last la [] ++ tb)).
  assert (Hlb : lb <> []) by apply split_lf_nonempty.
  rewrite (removelast_app _ Hlb), (last_app_nonempty _ _ _ Hlb), fold_left_app.
  rewrite (on_lines_set_input d2 (List.last lb []) (removelast la) s).
  unfold on_chunk.
  rewrite (on_lines_set_input d1 (List.last la []) (removelast la) s).
  cbn [decoder buffer set_input set_buffer set_decoder]. rewrite Hb.
  fold lb. f_equal.
Qed.

Lemma on_chunk_start_nil d mode :
  on_chunk JSON_parse (start d mode) [] = start d mode.
Proof. reflexivity. Qed.

Lemma reads_concat chunks : forall s,
  on_chunk JSON_parse s [] = s ->
  reads JSON_parse s chunks = on_chunk JSON_parse s (concat chunks).
Proof.
  induction chunks as [|c chunks IH]; intros s Hs; simpl.
  - now rewrite Hs.
  - unfold reads in *. simpl. rewrite IH.
    + apply on_chunk_app.
    + rewrite on_chunk_app. now rewrite app_nil_r.
Qed.

Lemma concat_whole_lines_from bytes : forall acc,
  concat (whole_lines_from acc bytes) = acc ++ bytes.
Proof.
  induction bytes as [|b bytes IH]; intros acc; simpl.
  - destruct acc; simpl; [reflexivity | now rewrite !app_nil_r].
  - destruct (b =? LF); simpl; rewrite IH, <- ?app_assoc; reflexivity.
Qed.

Lemma concat_whole_lines bytes : concat (whole_lines bytes) = bytes.
Proof. apply concat_whole_lines_from. Qed.

Lemma last_split_lf_plain s : Forall (fun c => c <> LF) (List.last (split_lf s) []).
Proof.
  induction s as [|c s IH]; [constructor|].
  rewrite split_lf_cons. pose proof (split_lf_nonempty s) as Hne.
  destruct (N.eqb_spec c LF) as [->|Hc].
  - destruct (split_lf s); [congruence | exact IH].
  - destruct (split_lf s) as [|l [|l' ls]]; [congruence| |exact IH].
    simpl in *. now constructor.
Qed.

(** What the reader holds after the reads: the decoder's state and the text
    after the last line feed of all that was decoded. *)
Lemma on_chunk_input s value :
  let '(d, text) := TextDecoder.decode (decoder s) value in
  decoder (on_chunk JSON_parse s value) = d /\
  buffer (on_chunk JSON_parse s value) = List.last (split_lf (buffer s ++ text)) [].
Proof.
  unfold on_chunk. destruct (TextDecoder.decode (decoder s) value) as [d text].
  rewrite on_lines_set_input. split; reflexivity.
Qed.

(** C5: however the bytes of a stream are cut into reads, in the middle of
    a line or of a character, the consumer ends in the same state as when
    each read brings one whole line: the same pairs of event type and payload
    were delivered in the same order and the same calls were made.  The
    text after the last line feed stays in [buffer] for the next read. *)
Theorem reads_do_not_depend_on_cuts :
  forall d mode (stream : list N) (chunks : list (list N)),
    concat chunks = stream ->
    reads JSON_parse (start d mode) chunks =
      reads JSON_parse (start d mode) (whole_lines stream) /\
    dispatched (reads JSON_parse (start d mode) chunks) =
      dispatched (reads JSON_parse (start d mode) (whole_lines stream)) /\
    buffer (reads JSON_parse (start d mode) chunks) =
      List.last (split_lf (TextDecoder.decode TextDecoder.init stream).2) [] /\
    Forall (fun c => c <> LF) (buffer (reads JSON_parse (start d mode) chunks)).
Proof.
  intros d mode stream chunks Hcat.
  assert (Heq : reads JSON_parse (start d mode) chunks =
                reads JSON_parse (start d mode) (whole_lines stream)).
  { rewrite !reads_concat by apply on_chunk_start_nil.
    now rewrite concat_whole_lines, Hcat. }
  assert (Hbuf : buffer (reads JSON_parse (start d mode) chunks) =
    List.last (split_lf (TextDecoder.decode TextDecoder.init stream).2) []).
  { rewrite reads_concat by apply on_chunk_start_nil. rewrite Hcat.
    pose proof (on_chunk_input (start d mode) stream) as H.
    cbn [decoder buffer start enter] in H.
    destruct (TextDecoder.decode TextDecoder.init stream) as [d' text].
    destruct H as [_ H]. exact H. }
  split; [exact Heq|]. split; [now rewrite Heq|]. split; [exact Hbuf|].
  rewrite Hbuf. apply last_split_lf_plain.
Qed.

(** *** Rules for computations that may throw *)

Lemma triple_ret {A} P (a : A) (Q : A -> state -> Prop) E :
  (forall s, P s -> Q a s) -> triple P (ret a) Q E.
Proof. intros H s Hs. simpl. auto. Qed.

Lemma triple_bind {A B} P (m : M A) (k : A -> M B) R Q E :
  triple P m R E -> (forall a, triple (R a) (k a) Q E) ->
  triple P (bind m k) Q E.
Proof.
  intros Hm Hk s Hs. unfold bind. specialize (Hm s Hs).
  destruct (m s) as [[a|] s']; [apply Hk; exact Hm | exact Hm].
Qed.

Lemma triple_exec P (f : state -> state) (Q : unit -> state -> Prop) E :
  (forall s, P s -> Q tt (f s)) -> triple P (exec f) Q E.
Proof. intros H s Hs. simpl. auto. Qed.

Lemma triple_read {A} P (f : state -> A) (Q : A -> state -> Prop) E :
  (forall s, P s -> Q (f s) s) -> triple P (read f) Q E.
Proof. intros H s Hs. simpl. auto. Qed.

Lemma triple_field P data key (Q : value -> state -> Prop) (E : state -> Prop) :
  (forall s v, P s -> Q v s) -> (forall s, P s -> E s) ->
  triple P (field data key) Q E.
Proof.
  intros HQ HE s Hs. unfold field.
  destruct (prop data (lit key)); simpl; auto.
Qed.

Lemma triple_weaken {A} (P P' : state -> Prop) (m : M A) Q E :
  (forall s, P' s -> P s) -> triple P m Q E -> triple P' m Q E.
Proof. intros H Hm s Hs. apply Hm. auto. Qed.

Lemma triple_convert P v (Q : jsstring -> state -> Prop) (E : state -> Prop) :
  (forall s t, P s -> Q t s) -> (forall s, P s -> E s) ->
  triple P (convert v) Q E.
Proof.
  intros HQ HE s Hs. unfold convert.
  destruct (string_of v); simpl; auto.
Qed.

(** What [ensureStreamBody] does: the message is there, or it cannot be
    created, or it is created at the end of the document. *)
Lemma ensure_cases s :
  (exists i, streamBody s = Some i /\ ensureStreamBody s = (Some i, s)) \/
  (streamBody s = None /\ string_of (currentMode s) = None /\
   ensureStreamBody s = (None, s)) \/
  (streamBody s = None /\ string_of (currentMode s) <> None /\
   ensureStreamBody s = (Some (length (dom s)), new_message s)).
Proof.
  unfold ensureStreamBody, createStreamingMessage, convert, bind, read, new_message.
  destruct (streamBody s) as [i|] eqn:Hb; [left; eauto|]. right.
  destruct (string_of (currentMode s)) eqn:Hm; [right | left]; auto.
Qed.

(** *** The message list under [update] *)

Lemma length_update i f (d : list message) : length (update i f d) = length d.
Proof. unfold update. destruct (d !! i); [apply length_insert | reflexivity]. Qed.

Lemma lookup_update_eq i f (d : list message) :
  update i f d !! i = f <$> d !! i.
Proof.
  unfold update. destruct (d !! i) as [m|] eqn:E; [|now rewrite E].
  apply list_lookup_insert_eq. apply lookup_lt_is_Some. eauto.
Qed.

Lemma lookup_update_ne i j f (d : list message) :
  i <> j -> update i f d !! j = d !! j.
Proof.
  intros H. unfold update. destruct (d !! i); [|reflexivity].
  now apply list_lookup_insert_ne.
Qed.

Lemma lookup_update_inv i j f (d : list message) m' :
  update i f d !! j = Some m' ->
  (i <> j /\ d !! j = Some m') \/ (i = j /\ exists m, d !! j = Some m /\ m' = f m).
Proof.
  destruct (decide (i = j)) as [->|Hne].
  - rewrite lookup_update_eq. destruct (d !! j) as [m|]; [|discriminate].
    intros [= <-]. right. eauto.
  - rewrite lookup_update_ne by assumption. auto.
Qed.

(** *** What the handlers keep *)

Lemma consistent_update i f s :
  (forall m, has_id (f m) = true -> has_id m = true) ->
  consistent s -> consistent (with_dom (update i f) s).
Proof.
  intros Hf [H1 H2 H3]. split; cbn [dom streamBody rawText with_dom].
  - intros j m' Hj Hid. destruct (lookup_update_inv _ _ _ _ _ Hj) as [[_ Hj']|[-> (m & Hj' & ->)]].
    + eauto.
    + eauto.
  - intros k Hk. rewrite length_update. auto.
  - exact H3.
Qed.

Lemma in_progress_update i f s :
  (forall m, has_id (f m) = has_id m /\ buttons (f m) = buttons m) ->
  in_progress s -> in_progress (with_dom (update i f) s).
Proof.
  intros Hf [H1 H2]. split; [|exact H2]. cbn [dom streamBody with_dom].
  intros k Hk. destruct (H1 k Hk) as (m & Hm & Hid & Hb).
  destruct (decide (i = k)) as [->|Hne].
  - exists (f m). rewrite lookup_update_eq, Hm. destruct (Hf m) as [-> ->]. auto.
  - exists m. rewrite lookup_update_ne by assumption. auto.
Qed.

Lemma sound_update X i f s :
  (forall m, has_id (f m) = has_id m /\ buttons (f m) = buttons m) ->
  sound X s -> sound X (with_dom (update i f) s).
Proof.
  intros Hf [Hc Hp]. split.
  - apply consistent_update; [|assumption]. intros m. destruct (Hf m) as [-> _]. auto.
  - intros HX. apply in_progress_update; auto.
Qed.

Lemma consistent_call c s : consistent s -> consistent (do_call c s).
Proof. intros [H1 H2 H3]. split; assumption. Qed.

Lemma sound_call X c s : quiet c -> sound X s -> sound X (do_call c s).
Proof.
  intros Hq [Hc Hp]. split; [now apply consistent_call|].
  intros HX. destruct (Hp HX) as [H1 H2]. split; [exact H1|].
  intros text i Hin. cbn [calls do_call] in Hin.
  apply in_app_or in Hin. destruct Hin as [Hin|[->|[]]]; [exact (H2 _ _ Hin) | exact Hq].
Qed.

Lemma consistent_mark b s : consistent s -> consistent (mark b s).
Proof. intros [H1 H2 H3]. split; assumption. Qed.

Lemma consistent_new s :
  consistent s -> streamBody s = None -> consistent (new_message s).
Proof.
  intros [H1 H2 H3] Hb.
  split; cbn [dom streamBody rawText with_dom set_streamBody new_message].
  - intros j m Hj Hid. apply lookup_app_Some in Hj.
    destruct Hj as [Hj|[Hlen Hj]].
    + specialize (H1 j m Hj Hid). congruence.
    + destruct (j - length (dom s))%nat eqn:E; [|discriminate].
      f_equal. lia.
  - intros i [= <-]. rewrite length_app. simpl. lia.
  - discriminate.
Qed.

Lemma consistent_ensure :
  triple consistent ensureStreamBody
    (fun i s => consistent s /\ streamBody s = Some i) consistent.
Proof.
  intros s Hs.
  destruct (ensure_cases s) as [(i & Hb & ->)|[(Hb & _ & ->)|(Hb & _ & ->)]].
  - auto.
  - exact Hs.
  - split; [now apply consistent_new | reflexivity].
Qed.

Lemma sound_ensure X :
  triple (sound X) ensureStreamBody
    (fun i s => sound X s /\ streamBody s = Some i) (sound X).
Proof.
  intros s [Hc Hp].
  destruct (ensure_cases s) as [(i & Hb & ->)|[(Hb & _ & ->)|(Hb & _ & ->)]].
  - split; [split|]; auto.
  - split; auto.
  - split; [split|reflexivity]; [now apply consistent_new|].
    intros HX. split.
    + cbn [dom streamBody with_dom set_streamBody new_message].
      intros i [= <-]. rewrite lookup_app_r by lia.
      rewrite Nat.sub_diag. simpl. eauto.
    + exact (nothing_played _ (Hp HX)).
Qed.

Lemma triple_post {A} P (m : M A) (Q Q' : A -> state -> Prop) (E E' : state -> Prop) :
  (forall a s, Q a s -> Q' a s) -> (forall s, E s -> E' s) ->
  triple P m Q E -> triple P m Q' E'.
Proof.
  intros HQ HE Hm s Hs. specialize (Hm s Hs).
  destruct (m s) as [[a|] s']; auto.
Qed.

Lemma consistent_mode v s : consistent s -> consistent (set_currentMode v s).
Proof. intros [H1 H2 H3]. split; assumption. Qed.

Lemma sound_text X t s :
  streamBody s <> None -> sound X s -> sound X (set_rawText t s).
Proof.
  intros Hb [[H1 H2 H3] Hp]. split; [split; auto|].
  intros HX. destruct (Hp HX) as [K1 K2]. split; assumption.
Qed.

Lemma sound_deliver X e data s : sound X s -> sound X (deliver e data s).
Proof.
  intros [[H1 H2 H3] Hp]. split; [split; auto|].
  intros HX. destruct (Hp HX) as [K1 K2]. split; assumption.
Qed.

Lemma sound_input X d b s : sound X s -> sound X (set_input d b s).
Proof.
  intros [[H1 H2 H3] Hp]. split; [split; auto|].
  intros HX. destruct (Hp HX) as [K1 K2]. split; assumption.
Qed.

Lemma sound_event X e s : sound X s -> sound X (set_currentEvent e s).
Proof.
  intros [[H1 H2 H3] Hp]. split; [split; auto|].
  intros HX. destruct (Hp HX) as [K1 K2]. split; assumption.
Qed.

Ltac keeps_message := intros [? ? ? ? ?]; split; reflexivity.

Lemma sound_mark X b s : sound X s -> sound X (mark b s).
Proof.
  intros [[H1 H2 H3] Hp]. split; [split; auto|].
  intros HX. destruct (Hp HX) as [K1 K2]. split; assumption.
Qed.

Lemma sound_write X i h s : sound X s -> sound X (set_innerHTML i h s).
Proof.
  intros Hs. apply sound_mark, sound_update; [keeps_message | exact Hs].
Qed.

Lemma sound_on_token X data :
  triple (sound X) (on_token data) (fun _ => sound X) (sound X).
Proof.
  unfold on_token.
  eapply triple_bind; [eapply triple_post; [| |apply sound_ensure]; simpl; [intros a s H; exact H | tauto]|].
  intros i.
  eapply triple_bind with (R := fun _ s => sound X s /\ streamBody s = Some i).
  { apply triple_exec. intros s [Hs Hb]. split; [now apply sound_call | exact Hb]. }
  intros _.
  eapply triple_bind with (R := fun _ s => sound X s /\ streamBody s = Some i).
  { apply triple_field; [intros s v H; exact H | tauto]. }
  intros token.
  eapply triple_bind with (R := fun _ s => sound X s /\ streamBody s = Some i).
  { apply triple_convert; [intros s v H; exact H | tauto]. }
  intros t.
  eapply triple_bind with (R := fun _ s => sound X s).
  { apply triple_exec. intros s [Hs Hb]. apply sound_text; [congruence | exact Hs]. }
  intros _. apply triple_exec. intros s Hs. now apply sound_write.
Qed.

Lemma sound_on_error X data :
  triple (sound X) (on_error data) (fun _ => sound X) (sound X).
Proof.
  unfold on_error.
  eapply triple_bind with (R := fun _ s => sound X s).
  { apply triple_exec. intros s Hs. now apply sound_call. }
  intros _.
  eapply triple_bind with (R := fun _ s => sound X s).
  { eapply triple_post; [| |apply sound_ensure]; simpl; tauto. }
  intros i.
  eapply triple_bind with (R := fun _ s => sound X s).
  { apply triple_field; auto. }
  intros err.
  eapply triple_bind with (R := fun _ s => sound X s).
  { apply triple_convert; auto. }
  intros t.
  eapply triple_bind with (R := fun _ s => sound X s).
  { apply triple_exec. intros s Hs. now apply sound_write. }
  intros _. apply triple_exec. intros s Hs.
  apply sound_update; [keeps_message | exact Hs].
Qed.

Lemma sound_on_failure X message :
  triple (sound X) (on_failure message) (fun _ => sound X) (sound X).
Proof.
  unfold on_failure.
  eapply triple_bind with (R := fun _ s => sound X s).
  { apply triple_exec. intros s Hs. now apply sound_call. }
  intros _.
  eapply triple_bind with (R := fun _ s => sound X s).
  { eapply triple_post; [| |apply sound_ensure]; simpl; tauto. }
  intros i.
  eapply triple_bind with (R := fun _ s => sound X s).
  { apply triple_convert; auto. }
  intros t.
  eapply triple_bind with (R := fun _ s => sound X s).
  { apply triple_exec. intros s Hs. now apply sound_write. }
  intros _. apply triple_exec. intros s Hs.
  apply sound_update; [keeps_message | exact Hs].
Qed.

Lemma sound_on_tool_start X data :
  triple (sound X) (on_tool_start data) (fun _ => sound X) (sound X).
Proof.
  unfold on_tool_start.
  eapply triple_bind with (R := fun _ s => sound X s); [apply triple_field; auto|].
  intros tool.
  eapply triple_bind with (R := fun _ s => sound X s); [apply triple_field; auto|].
  intros call_id. apply triple_exec. intros s Hs. now apply sound_call.
Qed.

Lemma sound_on_tool_done X data :
  triple (sound X) (on_tool_done data) (fun _ => sound X) (sound X).
Proof.
  unfold on_tool_done.
  eapply triple_bind with (R := fun _ s => sound X s); [apply triple_field; auto|].
  intros tool.
  eapply triple_bind with (R := fun _ s => sound X s); [apply triple_field; auto|].
  intros call_id.
  eapply triple_bind with (R := fun _ s => sound X s); [apply triple_field; auto|].
  intros summary. apply triple_exec. intros s Hs. now apply sound_call.
Qed.

Ltac consistent_step :=
  first
    [ eapply triple_bind with (R := fun _ s => consistent s); [|intros ?]
    | apply triple_ret; intros; assumption
    | apply triple_field; intros; assumption
    | apply triple_convert; intros; assumption
    | apply triple_read; intros; assumption
    | apply triple_exec; intros;
      first [ apply consistent_call; assumption
            | apply consistent_mode; assumption
            | apply consistent_update; [intros [? ? ? ? ?]; simpl; congruence | assumption]
            | apply consistent_mark, consistent_update;
              [intros [? ? ? ? ?]; simpl; congruence | assumption] ]
    | match goal with |- triple _ (match ?x with _ => _ end) _ _ => destruct x end
    | match goal with |- triple _ (if ?x then _ else _) _ _ => destruct x end ].

Lemma consistent_on_done data :
  triple consistent (on_done data) (fun _ => consistent) consistent.
Proof.
  unfold on_done, addButtonAndPlay. repeat consistent_step.
Qed.

Lemma sound_dispatch X e data :
  is_event e "done" = false ->
  triple (sound X) (dispatch e data) (fun _ => sound X) (sound X).
Proof.
  intros Hd. unfold dispatch. rewrite Hd.
  destruct (is_event e "tool_start"); [apply sound_on_tool_start|].
  destruct (is_event e "tool_done"); [apply sound_on_tool_done|].
  destruct (is_event e "token"); [apply sound_on_token|].
  destruct (is_event e "confirm_action").
  { apply triple_exec. intros s Hs. now apply sound_call. }
  destruct (is_event e "llm_retry").
  { apply triple_exec. intros s Hs. now apply sound_call. }
  destruct (is_event e "error"); [apply sound_on_error|].
  apply triple_ret. auto.
Qed.

(** The handlers leave the record of delivered events alone. *)
Ltac same_field_step P :=
  first
    [ eapply triple_bind with (R := fun _ s => P s); [|intros ?]
    | apply triple_ret; intros; assumption
    | apply triple_field; intros; assumption
    | apply triple_convert; intros; assumption
    | apply triple_read; intros; assumption
    | apply triple_exec; intros ? H; exact H
    | (intros ? H; exact H)
    | match goal with |- triple _ (match ?x with _ => _ end) _ _ => destruct x end
    | match goal with |- triple _ (if ?x then _ else _) _ _ => destruct x end ].

Lemma dispatched_dispatch D e data :
  triple (fun s => dispatched s = D) (dispatch e data)
         (fun _ s => dispatched s = D) (fun s => dispatched s = D).
Proof.
  unfold dispatch, on_tool_start, on_tool_done, on_token, on_done, on_error,
    ensureStreamBody, addButtonAndPlay.
  repeat same_field_step (fun s => dispatched s = D).
Qed.

Lemma dispatched_on_failure message s :
  dispatched (on_failure message s).2 = dispatched s.
Proof.
  assert (H : triple (fun s' => dispatched s' = dispatched s) (on_failure message)
                (fun _ s' => dispatched s' = dispatched s)
                (fun s' => dispatched s' = dispatched s)).
  { unfold on_failure, ensureStreamBody.
    repeat same_field_step (fun s' => dispatched s' = dispatched s). }
  specialize (H s eq_refl). destruct (on_failure message s) as [[a|] s']; exact H.
Qed.

Lemma eqb_eq a : forall b, Json.eqb a b = true -> a = b.
Proof.
  induction a as [|x a IH]; intros [|y b]; simpl; try discriminate; [reflexivity|].
  intros H. apply andb_true_iff in H. destruct H as [Hx Hab].
  apply N.eqb_eq in Hx. f_equal; auto.
Qed.

(** What a data line does to the record of delivered events. *)
Lemma dispatched_on_line s line :
  dispatched (on_line s line) = dispatched s \/
  exists data, dispatched (on_line s line) = dispatched s ++ [(currentEvent s, data)].
Proof.
  unfold Stream.on_line.
  destruct (startsWith line (lit "event: ")); [now left|].
  destruct (startsWith line (lit "data: ")); [|now left].
  unfold Stream.on_data, try_catch.
  destruct (JSON_parse (slice line 6)) as [data|]; [|now left].
  right. exists data. unfold bind, exec.
  pose proof (dispatched_dispatch (dispatched s ++ [(currentEvent s, data)])
                (currentEvent s) data (deliver (currentEvent s) data s) eq_refl) as H.
  destruct (dispatch (currentEvent s) data (deliver (currentEvent s) data s))
    as [[a|] s']; exact H.
Qed.

Lemma no_done_on_line s line : no_done (on_line s line) -> no_done s.
Proof.
  intros H e data Hin.
  destruct (dispatched_on_line s line) as [Heq|[data' Heq]];
    apply (H e data); rewrite Heq; [assumption | apply in_or_app; now left].
Qed.

Lemma sound_on_line s line :
  sound (no_done s) s -> sound (no_done (on_line s line)) (on_line s line).
Proof.
  intros Hs.
  assert (Hweak : forall s', sound (no_done s) s' ->
            sound (no_done (on_line s line)) s').
  { intros s' [Hc Hp]. split; [exact Hc|]. intros Hnd. apply Hp.
    exact (no_done_on_line _ _ Hnd). }
  pose proof (dispatched_on_line s line) as Hdisp. revert Hweak Hdisp.
  unfold Stream.on_line.
  destruct (startsWith line (lit "event: ")).
  { intros Hweak _. apply Hweak. now apply sound_event. }
  destruct (startsWith line (lit "data: ")); [|intros Hweak _; now apply Hweak].
  unfold Stream.on_data, try_catch.
  destruct (JSON_parse (slice line 6)) as [data|].
  2:{ intros Hweak _. apply Hweak. now apply sound_event. }
  destruct (is_event (currentEvent s) "done") eqn:Hd.
  - intros _ [Heq|[data' Heq]].
    + (* the record did not grow: impossible *)
      exfalso. revert Heq. unfold bind, exec.
      pose proof (dispatched_dispatch (dispatched s ++ [(currentEvent s, data)])
                (currentEvent s) data (deliver (currentEvent s) data s) eq_refl) as H.
      destruct (dispatch (currentEvent s) data (deliver (currentEvent s) data s))
        as [[a|] s']; cbn [snd dispatched set_currentEvent]; rewrite H;
        intros Heq; apply (f_equal (@length _)) in Heq;
        rewrite length_app in Heq; simpl in Heq; lia.
    + split.
      * destruct Hs as [Hc _].
        assert (Hc' : consistent (deliver (currentEvent s) data s)).
        { destruct Hc as [H1 H2 H3]. split; assumption. }
        unfold bind, exec. apply eqb_eq in Hd. rewrite Hd in Hc' |- *.
        change (dispatch (lit "done") data) with (on_done data).
        pose proof (consistent_on_done data _ Hc') as H.
        destruct (on_done data (deliver (lit "done") data s)) as [[a|] s'];
          destruct H as [H1 H2 H3]; split; assumption.
      * intros Hnd. exfalso. apply eqb_eq in Hd.
        apply (Hnd (currentEvent s) data'); [|exact Hd].
        rewrite Heq. apply in_or_app. right. now left.
  - intros Hweak _. apply Hweak. apply sound_event.
    unfold bind, exec.
    pose proof (sound_dispatch (no_done s) (currentEvent s) data Hd
                  (deliver (currentEvent s) data s) (sound_deliver _ _ _ _ Hs)) as H.
    destruct (dispatch (currentEvent s) data (deliver (currentEvent s) data s))
      as [[a|] s']; exact H.
Qed.

(** *** Every state of a turn is sound *)

Lemma steps_trans s1 s2 s3 :
  steps JSON_parse s1 s2 -> steps JSON_parse s2 s3 -> steps JSON_parse s1 s3.
Proof.
  intros H12 H23. induction H23 as [|s2 s3 s4 _ IH Hstep]; [assumption|].
  eapply steps_snoc; [apply IH; assumption | exact Hstep].
Qed.

Lemma steps_lines lines : forall s, steps JSON_parse s (fold_left on_line lines s).
Proof.
  induction lines as [|line lines IH]; intros s; simpl; [constructor|].
  eapply steps_trans; [|apply IH].
  eapply steps_snoc; [constructor | apply step_line].
Qed.

Lemma steps_chunk s value : steps JSON_parse s (on_chunk JSON_parse s value).
Proof.
  unfold on_chunk. destruct (TextDecoder.decode (decoder s) value) as [d text].
  eapply steps_trans; [|apply steps_lines].
  eapply steps_snoc; [constructor | apply step_input].
Qed.

Lemma steps_reads chunks : forall s, steps JSON_parse s (reads JSON_parse s chunks).
Proof.
  induction chunks as [|c chunks IH]; intros s; [constructor|].
  eapply steps_trans; [apply steps_chunk | apply IH].
Qed.

Lemma steps_finish e s : steps JSON_parse s (finish e s).
Proof.
  destruct e as [|message]; [constructor|].
  eapply steps_snoc; [constructor | apply step_failure].
Qed.

Lemma steps_turn d mode chunks e :
  steps JSON_parse (start d mode) (finish e (reads JSON_parse (start d mode) chunks)).
Proof. eapply steps_trans; [apply steps_reads | apply steps_finish]. Qed.

Lemma sound_enter page d mode :
  fresh d -> sound (no_done (enter page d mode)) (enter page d mode).
Proof.
  intros Hd. split; [split|]; cbn [dom streamBody rawText enter].
  - intros j m Hj Hid. rewrite (Hd j m Hj) in Hid. discriminate.
  - discriminate.
  - congruence.
  - intros _. split; [discriminate|]. intros text i [].
Qed.

Lemma sound_step s s' :
  step JSON_parse s s' -> sound (no_done s) s -> sound (no_done s') s'.
Proof.
  intros Hstep Hs. destruct Hstep as [s d b|s line|s h|s message].
  - now apply sound_input.
  - now apply sound_on_line.
  - now apply sound_mark.
  - assert (Hnd : no_done (on_failure message s).2 -> no_done s).
    { unfold no_done. now rewrite dispatched_on_failure. }
    pose proof (sound_on_failure (no_done s) message s Hs) as H.
    destruct (on_failure message s) as [[a|] s']; simpl in *;
      (split; [exact (proj1 H) | intros Hn; exact (proj2 H (Hnd Hn))]).
Qed.

Lemma sound_steps page d mode s :
  fresh d -> steps JSON_parse (enter page d mode) s -> sound (no_done s) s.
Proof.
  intros Hd Hsteps. remember (enter page d mode) as s0 eqn:E.
  induction Hsteps as [s|s s' s'' _ IH Hstep]; subst.
  - now apply sound_enter.
  - eapply sound_step; [exact Hstep | now apply IH].
Qed.

(** *** The element found by id *)

Lemma getStreamingMsg_from_None d : forall k,
  getStreamingMsg_from k d = None <->
  (forall j m, d !! j = Some m -> has_id m = false).
Proof.
  induction d as [|m0 d IH]; intros k; simpl.
  - split; [intros _ j m; rewrite lookup_nil; discriminate | reflexivity].
  - destruct (has_id m0) eqn:H0.
    + split; [discriminate|]. intros H. specialize (H 0%nat m0 eq_refl). congruence.
    + rewrite IH. split.
      * intros H [|j] m; simpl; [intros [= <-]; exact H0 | apply H].
      * intros H j m Hj. exact (H (S j) m Hj).
Qed.

Lemma getStreamingMsg_from_Some d : forall k j,
  getStreamingMsg_from k d = Some j ->
  exists m, (k <= j)%nat /\ d !! (j - k)%nat = Some m /\ has_id m = true.
Proof.
  induction d as [|m0 d IH]; intros k j; simpl; [discriminate|].
  destruct (has_id m0) eqn:H0.
  - intros [= <-]. exists m0. rewrite Nat.sub_diag. auto.
  - intros H. destruct (IH _ _ H) as (m & Hle & Hj & Hid).
    exists m. split; [lia|]. split; [|exact Hid].
    replace (j - k)%nat with (S (j - S k)) by lia. exact Hj.
Qed.

Lemma getStreamingMsg_Some s j :
  getStreamingMsg s = Some j -> exists m, dom s !! j = Some m /\ has_id m = true.
Proof.
  intros H. destruct (getStreamingMsg_from_Some _ _ _ H) as (m & _ & Hj & Hid).
  rewrite Nat.sub_0_r in Hj. eauto.
Qed.

Lemma getStreamingMsg_consistent s i m :
  consistent s -> streamBody s = Some i -> dom s !! i = Some m ->
  getStreamingMsg s = if has_id m then Some i else None.
Proof.
  intros Hc Hb Hi. destruct (getStreamingMsg s) as [j|] eqn:Hg.
  - destruct (getStreamingMsg_Some _ _ Hg) as (m' & Hj & Hid).
    pose proof (only_streamBody_has_id _ Hc j m' Hj Hid) as Hbj.
    assert (j = i) by congruence. subst j.
    assert (m' = m) by congruence. subst m'. now rewrite Hid.
  - pose proof (proj1 (getStreamingMsg_from_None _ _) Hg i m Hi) as ->. reflexivity.
Qed.

(** *** The fallback *)

Lemma truthy_nonempty (t : jsstring) : t <> [] -> truthy t = true.
Proof. destruct t; [congruence | reflexivity]. Qed.

Lemma fallback_no_id s : getStreamingMsg s = None -> fallback s = s.
Proof.
  intros H. unfold fallback, fallback_body, bind, read. simpl. now rewrite H.
Qed.

Lemma fallback_in_progress s i m :
  consistent s -> streamBody s = Some i -> dom s !! i = Some m ->
  has_id m = true -> buttons m = [] -> rawText s <> [] ->
  fallback s =
    do_call (PlayTTS (rawText s) i)
      (with_dom (update i (add_button (rawText s)))
         (with_dom (update i remove_cursor)
            (with_dom (update i remove_id) s))).
Proof.
  intros Hc Hb Hi Hid Hbt Ht.
  pose proof (getStreamingMsg_consistent s i m Hc Hb Hi) as Hg. rewrite Hid in Hg.
  unfold fallback, fallback_body, bind, read, exec, addButtonAndPlay, bind, exec.
  cbn [fst snd]. rewrite Hg, (truthy_nonempty _ Ht).
  cbn [streamBody with_dom]. rewrite Hb.
  cbn [dom with_dom].
  rewrite !lookup_update_eq, Hi. cbn [fmap option_fmap option_map buttons remove_cursor remove_id].
  rewrite Hbt. reflexivity.
Qed.

Lemma at_msg_update_same i f (phi psi : message -> Prop) s :
  (forall m, phi m -> psi (f m)) ->
  at_msg i phi s -> at_msg i psi (with_dom (update i f) s).
Proof.
  intros Hf (m & Hm & Hphi). exists (f m). cbn [dom with_dom].
  rewrite lookup_update_eq, Hm. auto.
Qed.

Lemma at_msg_update i j f (phi : message -> Prop) s :
  (forall m, phi m -> phi (f m)) ->
  at_msg i phi s -> at_msg i phi (with_dom (update j f) s).
Proof.
  intros Hf H. destruct (decide (j = i)) as [->|Hne].
  - now apply at_msg_update_same with (phi := phi).
  - destruct H as (m & Hm & Hphi). exists m. cbn [dom with_dom].
    rewrite lookup_update_ne by assumption. auto.
Qed.

Lemma finalized_update i j f s :
  (forall m, has_id m = false -> has_id (f m) = false) ->
  finalized_at i s -> finalized_at i (with_dom (update j f) s).
Proof.
  intros Hf [Hb Hm]. split; [exact Hb|]. now apply at_msg_update.
Qed.

Lemma finalized_ensure i :
  triple (finalized_at i) ensureStreamBody
         (fun _ => finalized_at i) (finalized_at i).
Proof.
  intros s [Hb Hm].
  destruct (ensure_cases s) as [(i' & _ & ->)|[(Hn & _)|(Hn & _)]];
    [split; assumption | congruence | congruence].
Qed.

Lemma finalized_mark i b s : finalized_at i s -> finalized_at i (mark b s).
Proof. intros H. exact H. Qed.

Ltac finalized_step i :=
  first
    [ apply finalized_ensure
    | eapply triple_bind with (R := fun _ s => finalized_at i s); [|intros ?]
    | apply triple_ret; intros; assumption
    | apply triple_field; intros; assumption
    | apply triple_convert; intros; assumption
    | apply triple_read; intros; assumption
    | apply triple_exec; intros ? H; cbv beta;
      first [ apply finalized_update; [intros [? ? ? ? ?]; simpl; congruence | exact H]
            | apply finalized_mark, finalized_update;
              [intros [? ? ? ? ?]; simpl; congruence | exact H]
            | exact H ]
    | match goal with |- triple _ (match ?x with _ => _ end) _ _ => destruct x end
    | match goal with |- triple _ (if ?x then _ else _) _ _ => destruct x end ].

Lemma finalized_dispatch i e data :
  triple (finalized_at i) (dispatch e data)
         (fun _ => finalized_at i) (finalized_at i).
Proof.
  unfold dispatch, on_tool_start, on_tool_done, on_token, on_done, on_error,
    addButtonAndPlay.
  repeat finalized_step i.
Qed.

Lemma finalized_on_failure i message :
  triple (finalized_at i) (on_failure message)
         (fun _ => finalized_at i) (finalized_at i).
Proof. unfold on_failure. repeat finalized_step i. Qed.

Lemma finalized_step_stable i s s' :
  step JSON_parse s s' -> finalized_at i s -> finalized_at i s'.
Proof.
  intros Hstep Hs. destruct Hstep as [s d b|s line|s h|s message].
  - exact Hs.
  - unfold Stream.on_line.
    destruct (startsWith line (lit "event: ")); [exact Hs|].
    destruct (startsWith line (lit "data: ")); [|exact Hs].
    unfold Stream.on_data, try_catch.
    destruct (JSON_parse (slice line 6)) as [data|]; [|exact Hs].
    unfold bind, exec.
    pose proof (finalized_dispatch i (currentEvent s) data
                  (deliver (currentEvent s) data s) Hs) as H.
    destruct (dispatch (currentEvent s) data (deliver (currentEvent s) data s))
      as [[a|] s']; exact H.
  - exact Hs.
  - pose proof (finalized_on_failure i message s Hs) as H.
    destruct (on_failure message s) as [[a|] s']; exact H.
Qed.

Lemma finalized_steps_stable i s s' :
  steps JSON_parse s s' -> finalized_at i s -> finalized_at i s'.
Proof.
  induction 1 as [|s s' s'' _ IH Hstep]; [auto|].
  intros Hs. eapply finalized_step_stable; eauto.
Qed.

Lemma finalized_fallback s :
  consistent s -> finalized s -> fallback s = s.
Proof.
  intros Hc (i & m & Hb & Hi & Hid). apply fallback_no_id.
  rewrite (getStreamingMsg_consistent s i m Hc Hb Hi), Hid. reflexivity.
Qed.

(** *** What a [done] event does to the message in progress *)

Lemma triple_field_object P data key (Q : value -> state -> Prop) (E : state -> Prop) :
  data <> JNull -> (forall s v, P s -> Q v s) -> triple P (field data key) Q E.
Proof.
  intros Hd HQ s Hs. unfold field.
  destruct data; simpl; auto. congruence.
Qed.

Lemma triple_pure {A} (P : state -> Prop) (phi : Prop) (m : M A) Q E :
  (forall s, P s -> phi) -> (phi -> triple P m Q E) -> triple P m Q E.
Proof. intros H Hm s Hs. exact (Hm (H s Hs) s Hs). Qed.

Lemma triple_bind_field {B} P data key v (k : value -> M B) Q E :
  prop data (lit key) = Some v -> triple P (k v) Q E ->
  triple P (bind (field data key) k) Q E.
Proof.
  intros H Hk s Hs. unfold bind, field. rewrite H. simpl. exact (Hk s Hs).
Qed.

Lemma triple_bind_convert {B} P v t (k : jsstring -> M B) Q E :
  string_of v = Some t -> triple P (k t) Q E ->
  triple P (bind (convert v) k) Q E.
Proof.
  intros H Hk s Hs. unfold bind, convert. rewrite H. simpl. exact (Hk s Hs).
Qed.

Lemma on_done_finalizes data i :
  completes data ->
  triple (fun s => consistent s /\ streamBody s = Some i) (on_done data)
    (fun _ s => finalized_at i s /\ at_msg i (fun m => cursor m = false) s)
    (fun _ => False).
Proof.
  intros (mode & expression & Hmode & Hexpr & Hmc & Hec). unfold on_done.
  destruct (string_of mode) as [tm|] eqn:Etm; [|congruence].
  destruct (string_of expression) as [te|] eqn:Ete; [|congruence].
  set (P0 := fun s => consistent s /\ streamBody s = Some i).
  set (P1 := fun s => P0 s /\ at_msg i (fun m => cursor m = false) s).
  set (P2 := fun s => streamBody s = Some i /\
              at_msg i (fun m => cursor m = false /\ has_id m = false) s).
  assert (Hcall : forall c s, P0 s -> P0 (do_call c s)).
  { intros c s [Hc Hb]. split; [now apply consistent_call | exact Hb]. }
  eapply triple_bind with (R := fun _ => P0); [apply triple_exec; intros; now apply Hcall|].
  intros _.
  apply (triple_bind_field _ _ _ mode); [exact Hmode|].
  eapply triple_bind with (R := fun _ => P0); [apply triple_exec; intros; now apply Hcall|].
  intros _.
  eapply triple_bind with (R := fun _ => P0).
  { apply triple_exec. intros s [Hc Hb]. split; [now apply consistent_mode | exact Hb]. }
  intros _.
  apply (triple_bind_field _ _ _ expression); [exact Hexpr|].
  eapply triple_bind with (R := fun _ => P0); [apply triple_exec; intros; now apply Hcall|].
  intros _.
  apply (triple_bind_convert _ _ te); [exact Ete|].
  eapply triple_bind with (R := fun b s => P0 s /\ b = Some i).
  { apply triple_read. intros s Hs. split; [exact Hs | exact (proj2 Hs)]. }
  intros b. apply triple_pure with (phi := b = Some i); [tauto|]. intros ->.
  eapply triple_bind with (R := fun _ => P1).
  { apply triple_exec. intros s [[Hc Hb] _]. split; [split|].
    - apply consistent_update; [intros [? ? ? ? ?]; simpl; congruence | exact Hc].
    - exact Hb.
    - pose proof (streamBody_in_document _ Hc i Hb) as Hlt.
      apply lookup_lt_is_Some in Hlt. destruct Hlt as [m Hm].
      apply at_msg_update_same with (phi := fun _ => True); [reflexivity|].
      exists m. auto. }
  intros _.
  eapply triple_bind with (R := fun sm s => P1 s /\ sm = getStreamingMsg s).
  { apply triple_read. auto. }
  intros sm.
  eapply triple_bind with (R := fun _ => P2).
  { destruct sm as [j|].
    - apply triple_pure with (phi := j = i).
      { intros s [[[Hc Hb] _] Hg]. symmetry in Hg.
        destruct (getStreamingMsg_Some _ _ Hg) as (m & Hj & Hid).
        pose proof (only_streamBody_has_id _ Hc j m Hj Hid). congruence. }
      intros ->.
      apply triple_weaken with (P := P1); [intros s H; exact (proj1 H)|].
      apply (triple_bind_field _ _ _ mode); [exact Hmode|].
      apply (triple_bind_convert _ _ tm); [exact Etm|].
      eapply triple_bind with (R := fun _ s => streamBody s = Some i /\
                                  at_msg i (fun m => cursor m = false) s).
      { apply triple_exec. intros s [[_ Hb] Hm]. split; [exact Hb|].
        apply at_msg_update; [intros [? ? ? ? ?]; simpl; congruence | exact Hm]. }
      intros _.
      eapply triple_bind with (R := fun _ => P2).
      { apply triple_exec. intros s [Hb Hm]. split; [exact Hb|].
        apply at_msg_update_same with (phi := fun m => cursor m = false); [|exact Hm].
        intros [? ? ? ? ?]; simpl; auto. }
      intros _.
      eapply triple_bind with (R := fun _ => P2); [apply triple_read; auto|].
      intros text. destruct (truthy text); [|apply triple_ret; auto].
      unfold addButtonAndPlay.
      eapply triple_bind with (R := fun _ => P2).
      { apply triple_exec. intros s [Hb Hm]. split; [exact Hb|].
        apply at_msg_update; [intros [? ? ? ? ?]; simpl; auto | exact Hm]. }
      intros _. apply triple_exec. intros s H. exact H.
    - apply triple_ret. intros s [[[Hc Hb] (m & Hm & Hcur)] Hg]. split; [exact Hb|].
      exists m. split; [exact Hm|]. split; [exact Hcur|].
      symmetry in Hg. exact (proj1 (getStreamingMsg_from_None _ _) Hg i m Hm). }
  intros _. apply triple_exec. intros s [Hb Hm].
  assert (H2 : P2 (with_dom (update i (set_body (Marked (rawText s)))) s)).
  { split; [exact Hb|].
    apply at_msg_update; [intros [? ? ? ? ?]; simpl; auto | exact Hm]. }
  destruct H2 as [Hb' (m & Hm' & Hcur & Hid)].
  split; [split; [exact Hb'|]|]; exists m; auto.
Qed.

(** *** [streamBody] stays in the document, whatever the document was *)

Lemma attached_update j f s : attached s -> attached (with_dom (update j f) s).
Proof.
  intros H i Hi. cbn [dom with_dom]. rewrite length_update. exact (H i Hi).
Qed.

Lemma attached_ensure :
  triple attached ensureStreamBody (fun _ => attached) attached.
Proof.
  intros s Hs.
  destruct (ensure_cases s) as [(i' & _ & ->)|[(_ & _ & ->)|(_ & _ & ->)]];
    [exact Hs | exact Hs |].
  intros i [= <-]. cbn [dom with_dom set_streamBody new_message].
  rewrite length_app. simpl. lia.
Qed.

Lemma attached_mark b s : attached s -> attached (mark b s).
Proof. intros H. exact H. Qed.

Ltac attached_step :=
  first
    [ apply attached_ensure
    | eapply triple_bind with (R := fun _ s => attached s); [|intros ?]
    | apply triple_ret; intros; assumption
    | apply triple_field; intros; assumption
    | apply triple_convert; intros; assumption
    | apply triple_read; intros; assumption
    | apply triple_exec; intros ? H; cbv beta;
      first [ apply attached_update; exact H
            | apply attached_mark, attached_update; exact H
            | exact H ]
    | match goal with |- triple _ (match ?x with _ => _ end) _ _ => destruct x end
    | match goal with |- triple _ (if ?x then _ else _) _ _ => destruct x end ].

Lemma attached_dispatch e data :
  triple attached (dispatch e data) (fun _ => attached) attached.
Proof.
  unfold dispatch, on_tool_start, on_tool_done, on_token, on_done, on_error,
    addButtonAndPlay.
  repeat attached_step.
Qed.

Lemma attached_on_failure message :
  triple attached (on_failure message) (fun _ => attached) attached.
Proof. unfold on_failure. repeat attached_step. Qed.

Lemma attached_step_stable s s' :
  step JSON_parse s s' -> attached s -> attached s'.
Proof.
  intros Hstep Hs. destruct Hstep as [s d b|s line|s h|s message].
  - exact Hs.
  - unfold Stream.on_line.
    destruct (startsWith line (lit "event: ")); [exact Hs|].
    destruct (startsWith line (lit "data: ")); [|exact Hs].
    unfold Stream.on_data, try_catch.
    destruct (JSON_parse (slice line 6)) as [data|]; [|exact Hs].
    unfold bind, exec.
    pose proof (attached_dispatch (currentEvent s) data
                  (deliver (currentEvent s) data s) Hs) as H.
    destruct (dispatch (currentEvent s) data (deliver (currentEvent s) data s))
      as [[a|] s']; exact H.
  - exact Hs.
  - pose proof (attached_on_failure message s Hs) as H.
    destruct (on_failure message s) as [[a|] s']; exact H.
Qed.

Lemma attached_steps page d mode s :
  steps JSON_parse (enter page d mode) s -> attached s.
Proof.
  intros Hsteps. remember (enter page d mode) as s0 eqn:E.
  induction Hsteps as [s|s s' s'' _ IH Hstep]; subst.
  - intros i. discriminate.
  - eapply attached_step_stable; eauto.
Qed.

(** What an [error] event does when its error value has a string
    conversion and the message is there or can be created. *)
Lemma on_error_result data err t s :
  attached s -> prop data (lit "error") = Some err -> string_of err = Some t ->
  (streamBody s = None -> string_of (currentMode s) <> None) ->
  exists i m,
    streamBody (on_error data s).2 = Some i /\
    (forall i0, streamBody s = Some i0 -> i0 = i) /\
    dom (on_error data s).2 !! i = Some m /\
    body m = error_span "Error: " t /\
    cursor m = false /\
    rawText (on_error data s).2 = rawText s.
Proof.
  intros Hs Herr Ht Hmode. unfold on_error, bind, exec.
  destruct (ensure_cases (do_call ClearLLMRetryStatus s))
    as [(i & Hb & ->)|[(Hb & Hn & _)|(Hb & _ & ->)]].
  - unfold field, convert. rewrite Herr. cbn [ret]. rewrite Ht. cbn [ret snd].
    destruct (lookup_lt_is_Some_2 (dom s) i (Hs i Hb)) as [m Hm].
    exists i, (remove_cursor (set_body (error_span "Error: " t) m)).
    cbn [streamBody rawText dom with_dom do_call set_innerHTML mark].
    cbn [streamBody do_call] in Hb.
    rewrite Hb, !lookup_update_eq, Hm.
    repeat split; auto. intros i0 [= ->]. reflexivity.
  - exfalso. exact (Hmode Hb Hn).
  - unfold field, convert. rewrite Herr. cbn [ret]. rewrite Ht. cbn [ret snd].
    exists (length (dom s)),
      (remove_cursor (set_body (error_span "Error: " t)
         (mkMessage true (currentMode s) [] (Markup []) true))).
    cbn [streamBody rawText dom with_dom do_call set_streamBody currentMode
         set_innerHTML mark new_message].
    cbn [streamBody do_call] in Hb.
    rewrite !lookup_update_eq, lookup_app_r by lia. rewrite Nat.sub_diag.
    repeat split; auto. rewrite Hb. discriminate.
Qed.


Lemma no_id_remove (d : list message) i :
  (forall j m, d !! j = Some m -> has_id m = true -> j = i) ->
  forall j m, update i remove_id d !! j = Some m -> has_id m = false.
Proof.
  intros H j m Hj.
  destruct (lookup_update_inv _ _ _ _ _ Hj) as [[Hne Hj']|[<- (m0 & _ & ->)]];
    [|reflexivity].
  destruct (has_id m) eqn:Hid; [|reflexivity].
  specialize (H j m Hj' Hid). congruence.
Qed.

Lemma no_id_update (d : list message) i f :
  (forall m, has_id m = false -> has_id (f m) = false) ->
  (forall j m, d !! j = Some m -> has_id m = false) ->
  forall j m, update i f d !! j = Some m -> has_id m = false.
Proof.
  intros Hf H j m Hj.
  destruct (lookup_update_inv _ _ _ _ _ Hj) as [[_ Hj']|[<- (m0 & Hj' & ->)]]; eauto.
Qed.

(** *** The end of the turn *)

Lemma rawText_on_failure message s : rawText (on_failure message s).2 = rawText s.
Proof.
  assert (H : triple (fun s' => rawText s' = rawText s) (on_failure message)
                (fun _ s' => rawText s' = rawText s)
                (fun s' => rawText s' = rawText s)).
  { unfold on_failure, ensureStreamBody, createStreamingMessage.
    repeat same_field_step (fun s' => rawText s' = rawText s). }
  specialize (H s eq_refl). destruct (on_failure message s) as [[a|] s']; exact H.
Qed.

Lemma fallback_keeps s :
  rawText (fallback s) = rawText s /\ dispatched (fallback s) = dispatched s.
Proof.
  assert (H : triple (fun s' => rawText s' = rawText s /\ dispatched s' = dispatched s)
                fallback_body
                (fun _ s' => rawText s' = rawText s /\ dispatched s' = dispatched s)
                (fun s' => rawText s' = rawText s /\ dispatched s' = dispatched s)).
  { unfold fallback_body, addButtonAndPlay.
    repeat same_field_step
      (fun s' => rawText s' = rawText s /\ dispatched s' = dispatched s). }
  specialize (H s (conj eq_refl eq_refl)). unfold fallback.
  destruct (fallback_body s) as [[a|] s']; exact H.
Qed.

Lemma finish_keeps e s :
  rawText (finish e s) = rawText s /\ dispatched (finish e s) = dispatched s.
Proof.
  destruct e as [|message]; [split; reflexivity|].
  split; [apply rawText_on_failure | apply dispatched_on_failure].
Qed.

(** The accumulated text and the record of the events are those of the
    end of the loop, whether the [catch] block throws or not. *)
Lemma settle_keeps e s :
  rawText (settle e s) = rawText s /\ dispatched (settle e s) = dispatched s.
Proof.
  destruct (finish_keeps e s) as [Hr Hd]. unfold settle, finish in *.
  destruct (leave e s) as [[[]|] s']; cbn [snd] in Hr, Hd; [|auto].
  unfold cleanup. cbn [rawText dispatched do_call].
  destruct (fallback_keeps s') as [-> ->]. auto.
Qed.

Lemma settle_returns e s :
  (leave e s).1 <> None -> settle e s = cleanup (fallback (finish e s)).
Proof.
  unfold settle, finish. destruct (leave e s) as [[[]|] s']; simpl; congruence.
Qed.

(** The [catch] block returns when the message of the turn is there and
    the message of the error has a string conversion. *)
Lemma leave_returns e s :
  streamBody s <> None ->
  (forall message, e = Failed message -> string_of message <> None) ->
  (leave e s).1 <> None.
Proof.
  intros Hb He. destruct e as [|message]; [discriminate|].
  specialize (He message eq_refl). unfold leave, on_failure, bind, exec.
  destruct (ensure_cases (do_call ClearLLMRetryStatus s))
    as [(i & _ & ->)|[(Hn & _)|(Hn & _)]]; [|contradiction|contradiction].
  unfold convert. destruct (string_of message); [discriminate | congruence].
Qed.

Lemma steps_happen hs :
  calm hs -> forall s, steps JSON_parse s (fold_left (happen JSON_parse) hs s).
Proof.
  unfold calm. induction hs as [|h hs IH]; intros Hc s; [constructor|].
  cbn [existsb] in Hc. apply orb_false_iff in Hc. destruct Hc as [Hh Hc].
  cbn [fold_left]. eapply steps_trans; [|apply IH; exact Hc].
  destruct h as [value|h|]; [apply steps_chunk | | discriminate].
  eapply steps_snoc; [constructor | apply step_written].
Qed.

(** *** The flag stays *)

Ltac astray_step :=
  first
    [ eapply triple_bind with (R := fun _ s => astray s = true); [|intros ?]
    | apply triple_ret; intros; assumption
    | apply triple_field; intros; assumption
    | apply triple_convert; intros; assumption
    | apply triple_read; intros; assumption
    | apply triple_exec; intros ? H;
      cbn [astray do_call mark set_innerHTML with_dom set_currentMode
           set_streamBody set_rawText];
      rewrite ?H; reflexivity
    | (intros ? H; exact H)
    | match goal with |- triple _ (match ?x with _ => _ end) _ _ => destruct x end
    | match goal with |- triple _ (if ?x then _ else _) _ _ => destruct x end ].

Lemma astray_dispatch e data :
  triple (fun s => astray s = true) (dispatch e data)
         (fun _ s => astray s = true) (fun s => astray s = true).
Proof.
  unfold dispatch, on_tool_start, on_tool_done, on_token, on_done, on_error,
    ensureStreamBody, createStreamingMessage, addButtonAndPlay.
  repeat astray_step.
Qed.

Lemma astray_on_failure message :
  triple (fun s => astray s = true) (on_failure message)
         (fun _ s => astray s = true) (fun s => astray s = true).
Proof.
  unfold on_failure, ensureStreamBody, createStreamingMessage.
  repeat astray_step.
Qed.

Lemma astray_step_stable s s' :
  step JSON_parse s s' -> astray s = true -> astray s' = true.
Proof.
  intros Hstep Hs. destruct Hstep as [s d b|s line|s h|s message].
  - exact Hs.
  - unfold Stream.on_line.
    destruct (startsWith line (lit "event: ")); [exact Hs|].
    destruct (startsWith line (lit "data: ")); [|exact Hs].
    unfold Stream.on_data, try_catch.
    destruct (JSON_parse (slice line 6)) as [data|]; [|exact Hs].
    unfold bind, exec.
    pose proof (astray_dispatch (currentEvent s) data
                  (deliver (currentEvent s) data s) Hs) as H.
    destruct (dispatch (currentEvent s) data (deliver (currentEvent s) data s))
      as [[a|] s']; exact H.
  - cbn [astray mark]. now rewrite Hs.
  - pose proof (astray_on_failure message s Hs) as H.
    destruct (on_failure message s) as [[a|] s']; exact H.
Qed.

(** Markup that may bring an element with an id stays in the record: a
    state that is not astray follows states that were not. *)
Lemma astray_steps s s' :
  steps JSON_parse s s' -> astray s' = false -> astray s = false.
Proof.
  induction 1 as [|s s' s'' _ IH Hstep]; [auto|].
  intros H. apply IH. destruct (astray s') eqn:E; [|reflexivity].
  rewrite (astray_step_stable _ _ Hstep E) in H. discriminate.
Qed.

Lemma reads_happen chunks : forall s,
  fold_left (happen JSON_parse) (List.map Read chunks) s = reads JSON_parse s chunks.
Proof.
  induction chunks as [|c chunks IH]; intros s; [reflexivity|]. apply IH.
Qed.

(** A turn in which nothing else happens. *)
Lemma turn_amid_reads d mode chunks e :
  turn_amid JSON_parse [] d mode (List.map Read chunks) e =
  turn JSON_parse d mode chunks e.
Proof. unfold turn_amid, turn. now rewrite reads_happen. Qed.


End Lines.

(** *** The sample streams *)

Example cuts_genki_stream : concat cuts_genki = stream_genki.
Proof. reflexivity. Qed.

Example cuts_genki_delivers :
  dispatched (reads sample_parse (start [] None) cuts_genki) =
    [(lit "token", payload_genki)] /\
  rawText (reads sample_parse (start [] None) cuts_genki) = [0x5143; 0x6C17].
Proof. split; vm_compute; reflexivity. Qed.

Lemma reads_do_not_depend_on_cuts_witness :
  concat cuts_genki = stream_genki /\
  reads sample_parse (start [] None) cuts_genki =
    reads sample_parse (start [] None) (whole_lines stream_genki).
Proof.
  split; [reflexivity|].
  apply (reads_do_not_depend_on_cuts sample_parse [] None stream_genki cuts_genki).
  reflexivity.
Defined.

Lemma other_lines_are_skipped_witness :
  skipped (lit ": keep-alive") /\
  on_line sample_parse (start [] None) (lit ": keep-alive") = start [] None.
Proof.
  assert (H : skipped (lit ": keep-alive")) by (split; reflexivity).
  split; [exact H|].
  exact (proj1 (other_lines_are_skipped sample_parse) (start [] None) _ H).
Defined.

Lemma fresh_nil : fresh [].
Proof. intros j m H. rewrite lookup_nil in H. discriminate. Qed.





End StreamProofs.

(** ** The narration pipeline *)

Module NarrationProofs.
Import Segmenter Narration.

(** *** Each piece of [playTTS] touches one invocation record *)

Lemma alter_absent {A} (f : A -> A) (l : list A) k :
  l !! k = None -> alter f k l = l.
Proof.
  revert k. induction l as [|x l IH]; intros [|k]; simpl; try reflexivity.
  - discriminate.
  - intros H. f_equal. now apply IH.
Qed.

Lemma alter_at {A} (f g : A -> A) (l : list A) k x :
  l !! k = Some x -> f x = g x -> alter f k l = alter g k l.
Proof.
  intros Hk Hfg. apply list_alter_ext; [|reflexivity].
  intros y Hy. congruence.
Qed.

Lemma acts_on_compose F G k f g :
  acts_on F k f -> acts_on G k g -> acts_on (fun s => G (F s)) k (g ∘ f).
Proof.
  intros HF HG s. rewrite HG, HF. apply list_alter_alter_eq.
Qed.

Lemma acts_on_with_inv k f : acts_on (with_inv k f) k f.
Proof. intros s. reflexivity. Qed.

Lemma acts_on_id F k :
  (forall s, invocations (F s) = invocations s) -> acts_on F k id.
Proof. intros H s. rewrite H. symmetry. now apply list_alter_id. Qed.

Lemma acts_on_ext F k f g :
  (forall v, f v = g v) -> acts_on F k f -> acts_on F k g.
Proof.
  intros H HF s. rewrite HF. apply list_alter_ext; [|reflexivity].
  intros; apply H.
Qed.

(** A piece that first reads the record of invocation [k]. *)
Lemma acts_on_lookup (F : invocation -> state -> state) k g :
  (forall v, acts_on (F v) k (fun _ => g v)) ->
  acts_on (fun s => match invocations s !! k with
                    | Some v => F v s
                    | None => s
                    end) k g.
Proof.
  intros H s. destruct (invocations s !! k) as [v|] eqn:E.
  - rewrite H. now apply alter_at with (x := v).
  - symmetry. now apply alter_absent.
Qed.

Lemma acts_on_const F k f (v : invocation) :
  acts_on F k f -> forall s, invocations s !! k = Some v ->
  invocations (F s) = alter (fun _ => f v) k (invocations s).
Proof. intros H s Hs. rewrite H. now apply alter_at with (x := v). Qed.

Lemma acts_on_after_loop k : acts_on (after_loop k) k (set_at Returned).
Proof.
  intros s. unfold after_loop. destruct (invocations s !! k) as [v|] eqn:E.
  - destruct (aborted v); reflexivity.
  - symmetry. now apply alter_absent.
Qed.

Lemma acts_on_catch_block k e : acts_on (catch_block k e) k (set_at Returned).
Proof.
  intros s. unfold catch_block. destruct (invocations s !! k) as [v|] eqn:E.
  - destruct e, (aborted v); reflexivity.
  - symmetry. now apply alter_absent.
Qed.

Lemma acts_on_issue_fetch k i : acts_on (issue_fetch k i) k (issue_local i).
Proof. intros s. reflexivity. Qed.

Lemma acts_on_on_response k i : acts_on (on_response k i) k (on_response_local i).
Proof.
  intros s. unfold on_response. destruct (invocations s !! k) as [v|] eqn:E.
  - unfold on_response_local.
    destruct (S i <? length (chunks v))%nat eqn:Hn; cbn [invocations log with_inv with_invocations issue_fetch].
    + rewrite !list_alter_alter_eq. apply alter_at with (x := v); [assumption|].
      simpl. now rewrite Hn.
    + rewrite !list_alter_alter_eq. apply alter_at with (x := v); [assumption|].
      simpl. now rewrite Hn.
  - symmetry. now apply alter_absent.
Qed.

Lemma alter_self {A} (g : A -> A) (l : list A) k x :
  l !! k = Some x -> g x = x -> alter g k l = l.
Proof.
  intros Hk Hg. rewrite <- (list_alter_id id l k) at 2 by reflexivity.
  now apply alter_at with (x := x).
Qed.

Lemma acts_on_await_next k i : acts_on (await_next k i) k (await_next_local i).
Proof.
  intros s. unfold await_next. destruct (invocations s !! k) as [v|] eqn:E.
  - assert (Hat : forall g, g v = await_next_local i v ->
              alter g k (invocations s) = alter (await_next_local i) k (invocations s)).
    { intros g Hg. now apply alter_at with (x := v). }
    unfold await_next_local in Hat |- *.
    destruct (f_state <$> fetched v !! nextResp v) as [st|] eqn:Hf;
      [destruct st as [|[|]|ok| | |]|].
    + apply Hat. reflexivity.
    + rewrite acts_on_on_response. apply Hat. reflexivity.
    + cbn. rewrite list_alter_alter_eq. apply Hat. reflexivity.
    + symmetry. apply alter_self with (x := v); [assumption|]. now rewrite Hf.
    + rewrite acts_on_catch_block. apply Hat. reflexivity.
    + symmetry. apply alter_self with (x := v); [assumption|]. now rewrite Hf.
    + rewrite acts_on_catch_block. apply Hat. reflexivity.
    + symmetry. apply alter_self with (x := v); [assumption|]. now rewrite Hf.
  - symmetry. now apply alter_absent.
Qed.

Lemma acts_on_loop_top k i : acts_on (loop_top k i) k (loop_top_local i).
Proof.
  intros s. unfold loop_top. destruct (invocations s !! k) as [v|] eqn:E.
  - unfold loop_top_local.
    destruct (i <? length (chunks v))%nat eqn:Hn; [destruct (aborted v) eqn:Ha|].
    + rewrite acts_on_after_loop. apply alter_at with (x := v); [assumption|].
      now rewrite Hn, Ha.
    + rewrite acts_on_await_next. apply alter_at with (x := v); [assumption|].
      now rewrite Hn, Ha.
    + rewrite acts_on_after_loop. apply alter_at with (x := v); [assumption|].
      now rewrite Hn.
  - symmetry. now apply alter_absent.
Qed.

Lemma acts_on_after_blob k i : acts_on (after_blob k i) k (after_blob_local i).
Proof.
  intros s. unfold after_blob. destruct (invocations s !! k) as [v|] eqn:E.
  - unfold after_blob_local. destruct (aborted v) eqn:Ha.
    + rewrite acts_on_after_loop. apply alter_at with (x := v); [assumption|].
      now rewrite Ha.
    + destruct (i =? 0)%nat; cbn [invocations log with_inv with_invocations
        with_buttons set_currentAudio];
      rewrite list_alter_alter_eq; apply alter_at with (x := v); try assumption;
      simpl; now rewrite Ha.
  - symmetry. now apply alter_absent.
Qed.

(** *** The invariant of one invocation, piece by piece *)

Lemma state_at_mark_eq j t v :
  (j < length (fetched v))%nat -> state_at (mark j t v) j = Some t.
Proof.
  intros H. unfold state_at, mark. cbn [fetched with_fetched].
  rewrite list_lookup_alter_eq.
  destruct (lookup_lt_is_Some_2 _ _ H) as [f ->]. reflexivity.
Qed.

Lemma state_at_mark_ne j j' t v :
  j <> j' -> state_at (mark j t v) j' = state_at v j'.
Proof.
  intros H. unfold state_at, mark. cbn [fetched with_fetched].
  now rewrite list_lookup_alter_ne.
Qed.

Lemma state_at_Some v j t :
  state_at v j = Some t <-> exists f, fetched v !! j = Some f /\ f_state f = t.
Proof.
  unfold state_at. destruct (fetched v !! j) as [f|]; simpl; split.
  - intros [= <-]. eauto.
  - intros (f' & [= <-] & <-). reflexivity.
  - discriminate.
  - intros (f' & ? & _). discriminate.
Qed.

Lemma length_chunks_started t : (1 <= length (splitBySentence t))%nat.
Proof.
  pose proof (SegmenterProofs.splitBySentence_nonempty t) as H.
  destruct (splitBySentence t); [congruence | simpl; lia].
Qed.

Lemma started_eq t b :
  started t b =
  mkInvocation t (splitBySentence t) b false (AwaitFetch 0) [mkFetch 0 Pending] 0 [].
Proof.
  unfold started, loop_top_local, issue_local. cbn.
  pose proof (length_chunks_started t) as H.
  destruct (splitBySentence t) as [|c cs]; [simpl in H; lia|]. reflexivity.
Qed.

Lemma wf_started t b : wf (started t b).
Proof.
  rewrite started_eq. pose proof (length_chunks_started t) as Hn.
  split; [split; [split| | |]|]; cbn [at_await aborted fetched audios chunks resp].
  - intros j f _ H. simpl in H. lia.
  - intros j H. simpl in H. lia.
  - intros [|j] f H; simpl in H; [injection H as <-; discriminate|].
    rewrite lookup_nil in H. discriminate.
  - intros [|j] f H; simpl in H; [now injection H as <-|].
    rewrite lookup_nil in H. discriminate.
  - intros j a H. rewrite lookup_nil in H. discriminate.
  - simpl. lia.
  - exact Hn.
  - intros _. reflexivity.
  - unfold at_shape, state_at. cbn. repeat split; auto.
  - intros [|j] f H _; [now left|]. simpl in H. rewrite lookup_nil in H. discriminate.
  - intros j a H. cbn in H. rewrite lookup_nil in H. discriminate.
Qed.

Lemma lookup_alter_inv {A} (g : A -> A) (l : list A) i j y :
  alter g i l !! j = Some y ->
  (i <> j /\ l !! j = Some y) \/ (i = j /\ exists x, l !! j = Some x /\ y = g x).
Proof.
  destruct (decide (i = j)) as [->|Hne].
  - rewrite list_lookup_alter_eq. destruct (l !! j) as [x|]; [|discriminate].
    intros [= <-]. right. eauto.
  - rewrite list_lookup_alter_ne by assumption. auto.
Qed.

Lemma state_at_length v j t : state_at v j = Some t -> (j < length (fetched v))%nat.
Proof.
  intros H. apply state_at_Some in H. destruct H as (f & Hf & _).
  apply lookup_lt_is_Some. eauto.
Qed.

Lemma state_at_mark j j' t v :
  state_at (mark j t v) j' =
  if decide (j = j') then (fun _ => t) <$> state_at v j' else state_at v j'.
Proof.
  unfold state_at, mark. cbn [fetched with_fetched].
  destruct (decide (j = j')) as [->|Hne].
  - rewrite list_lookup_alter_eq. now destruct (fetched v !! j').
  - now rewrite list_lookup_alter_ne.
Qed.

(** The lists after the state of request [j] is recorded. *)
Lemma lists_ok_mark v j t :
  lists_ok v ->
  ((S j < length (fetched v))%nat -> had_ok_response t) ->
  ((j < length (audios v))%nat -> t = Complete true) ->
  (t = Cancelled -> aborted v = true) ->
  lists_ok (mark j t v).
Proof.
  intros [Hearly Hplayed Hcanc Hfc Hac Hfirst Hn] H1 H2 H3.
  split; cbn [at_await aborted fetched audios chunks resp mark with_fetched];
    rewrite ?length_alter; try assumption.
  - intros j' f' Hj' Hlt.
    destruct (lookup_alter_inv _ _ _ _ _ Hj') as [[_ H]|[<- (x & _ & ->)]]; [eauto|].
    simpl. auto.
  - intros j' Hj'. rewrite state_at_mark. destruct (decide (j = j')) as [<-|]; [|auto].
    rewrite (Hplayed j Hj'). simpl. f_equal. auto.
  - intros j' f' Hj' Hc.
    destruct (lookup_alter_inv _ _ _ _ _ Hj') as [[_ H]|[<- (x & _ & ->)]]; [eauto|].
    simpl in Hc. auto.
  - intros j' f' Hj'.
    destruct (lookup_alter_inv _ _ _ _ _ Hj') as [[_ H]|[<- (x & Hx & ->)]]; [eauto|].
    simpl. eauto.
Qed.

Lemma lists_ok_set_at p v : lists_ok v -> lists_ok (set_at p v).
Proof. intros [H1 H2 H3 H4 H5 H6 H7]. split; assumption. Qed.

Lemma lists_ok_set_resp r v : lists_ok v -> lists_ok (set_resp r v).
Proof. intros [H1 H2 H3 H4 H5 H6 H7]. split; assumption. Qed.

(** The lists after the request for the next chunk is issued. *)
Lemma lists_ok_issue v i :
  lists_ok v -> aborted v = false -> i = length (fetched v) ->
  (forall t, state_at v (pred i) = Some t -> had_ok_response t) ->
  lists_ok (issue_local i v).
Proof.
  intros [Hearly Hplayed Hcanc Hfc Hac Hfirst Hn] Hab -> Hlast.
  unfold issue_local. rewrite Hab.
  split; cbn [at_await aborted fetched audios chunks resp with_fetched];
    rewrite ?length_app; cbn [length]; try assumption.
  - intros j f Hj Hlt. apply lookup_app_Some in Hj.
    destruct Hj as [Hj|[Hge Hj]].
    + destruct (decide (S j < length (fetched v))%nat) as [Hs|Hs]; [eauto|].
      apply Hlast. apply state_at_Some. exists f. split; [|reflexivity].
      pose proof (lookup_lt_Some _ _ _ Hj).
      replace (pred (length (fetched v))) with j by lia. exact Hj.
    + lia.
  - intros j Hj. specialize (Hplayed j Hj).
    apply state_at_Some in Hplayed. destruct Hplayed as (f & Hf & Hst).
    apply state_at_Some. exists f. split; [|exact Hst].
    cbn [fetched with_fetched]. apply lookup_app_Some. now left.
  - intros j f Hj Hc. apply lookup_app_Some in Hj.
    destruct Hj as [Hj|[_ Hj]]; [eauto|].
    destruct (j - length (fetched v))%nat; simpl in Hj; [|rewrite lookup_nil in Hj; discriminate].
    injection Hj as <-. discriminate.
  - intros j f Hj. apply lookup_app_Some in Hj.
    destruct Hj as [Hj|[Hge Hj]]; [eauto|].
    destruct (j - length (fetched v))%nat eqn:E; simpl in Hj;
      [|rewrite lookup_nil in Hj; discriminate].
    injection Hj as <-. simpl. lia.
  - lia.
Qed.

(** The lists after the element of chunk [i] is created. *)
Lemma lists_ok_audio v i a :
  lists_ok v -> i = length (audios v) -> a_chunk a = i ->
  state_at v i = Some (Complete true) ->
  lists_ok (with_audios (fun l => l ++ [a]) v).
Proof.
  intros [Hearly Hplayed Hcanc Hfc Hac Hfirst Hn] -> Hchunk Hst.
  split; cbn [at_await aborted fetched audios chunks resp with_audios];
    rewrite ?length_app; cbn [length]; try assumption.
  - intros j Hj. unfold state_at in *. cbn [fetched with_audios].
    destruct (decide (j = length (audios v))) as [->|Hne]; [exact Hst|].
    apply Hplayed. lia.
  - intros j a' Hj. apply lookup_app_Some in Hj.
    destruct Hj as [Hj|[Hge Hj]]; [eauto|].
    destruct (j - length (audios v))%nat eqn:E; simpl in Hj;
      [|rewrite lookup_nil in Hj; discriminate].
    injection Hj as <-. lia.
Qed.

Lemma pending_is_last v j :
  wf_requests v -> state_at v j = Some Pending -> S j = length (fetched v).
Proof.
  intros [Hl _ _ Hfly] Hj. apply state_at_Some in Hj. destruct Hj as (f & Hf & Hst).
  destruct (Hfly j f Hf) as [H|[H _]]; [unfold in_flight; now rewrite Hst | exact H |].
  exfalso. pose proof (ok_earlier _ Hl j f Hf ltac:(lia)) as Hok.
  rewrite Hst in Hok. exact Hok.
Qed.

Lemma pending_not_played v j :
  wf_requests v -> state_at v j = Some Pending -> ~ (j < length (audios v))%nat.
Proof.
  intros [Hl _ _ _] Hj Hlt. rewrite (ok_played _ Hl j Hlt) in Hj. discriminate.
Qed.

(** A response or a failure recorded for a request that is not awaited. *)
Lemma wf_requests_mark_ahead v j t :
  wf_requests v -> state_at v j = Some Pending ->
  (forall i, at_await v <> AwaitFetch i) ->
  t <> Cancelled ->
  wf_requests (mark j t v).
Proof.
  intros Hwf Hj Hat Ht.
  pose proof (pending_is_last v j Hwf Hj) as Hlast.
  pose proof (pending_not_played v j Hwf Hj) as Hnp.
  destruct Hwf as [Hl Hrun Hshape Hfly].
  split.
  - apply lists_ok_mark; [assumption | lia | intros; lia | congruence].
  - exact Hrun.
  - unfold at_shape in *.
    cbn [at_await aborted fetched audios chunks resp mark with_fetched].
    rewrite ?length_alter.
    assert (Hother : forall i t', state_at v i = Some t' -> t' <> Pending ->
              state_at (mark j t v) i = Some t').
    { intros i t' Hi Hne. rewrite state_at_mark.
      destruct (decide (j = i)) as [<-|]; [congruence | assumption]. }
    destruct (at_await v) as [i|i|i|i j'|].
    + exfalso. apply (Hat i). reflexivity.
    + destruct Hshape as (H1 & H2 & H3 & H4 & H5).
      repeat split; try assumption. apply (Hother i _ H5). discriminate.
    + destruct Hshape as (H1 & H2 & H3 & H4 & H5).
      repeat split; try assumption. apply (Hother i _ H5). discriminate.
    + exact Hshape.
    + exact I.
  - intros j' f' Hj' Hfl.
    cbn [at_await aborted fetched audios chunks resp mark with_fetched] in *.
    rewrite length_alter.
    destruct (lookup_alter_inv _ _ _ _ _ Hj') as [[_ H]|[<- _]]; [eauto|].
    now left.
Qed.

(** The awaited response arrives and is [ok]: the next request goes out
    and the body is read. *)
Lemma wf_requests_on_response v i :
  lists_ok v -> aborted v = false -> (i < length (chunks v))%nat ->
  length (fetched v) = S i -> length (audios v) = i ->
  state_at v i = Some (Responded true) ->
  (forall j f, fetched v !! j = Some f -> in_flight f = true -> j = i) ->
  wf_requests (on_response_local i v).
Proof.
  intros Hl Hab Hi HF HA Hst Hfly. unfold on_response_local, nextResp.
  rewrite HF. cbn [pred].
  destruct (S i <? length (chunks v))%nat eqn:Hn.
  - assert (Hl' : lists_ok (issue_local (S i) (set_resp i v))).
    { apply lists_ok_issue; [now apply lists_ok_set_resp | exact Hab | now rewrite <- HF|].
      cbn [pred]. intros t Ht. change (state_at (set_resp i v) i) with (state_at v i) in Ht.
      rewrite Hst in Ht. injection Ht as <-. exact I. }
    split.
    + now apply lists_ok_set_at.
    + intros _. unfold issue_local. cbn. exact Hab.
    + unfold at_shape, issue_local, state_at.
      cbn [at_await aborted fetched audios chunks resp set_at set_resp with_fetched].
      rewrite Hn, length_app, HF. cbn [length].
      repeat split; try assumption; try lia.
      rewrite lookup_app_l by lia. exact Hst.
    + intros j f Hj Hfl. unfold issue_local in *.
      cbn [at_await aborted fetched audios chunks resp set_at set_resp with_fetched] in *.
      rewrite length_app, HF. cbn [length].
      apply lookup_app_Some in Hj. destruct Hj as [Hj|[Hge Hj]].
      * right. rewrite (Hfly j f Hj Hfl). split; [lia | reflexivity].
      * left. pose proof (lookup_lt_Some _ _ _ Hj) as Hlt. simpl in Hlt. lia.
  - split.
    + now apply lists_ok_set_at, lists_ok_set_resp.
    + intros _. exact Hab.
    + unfold at_shape, state_at.
      cbn [at_await aborted fetched audios chunks resp set_at set_resp].
      rewrite Hn. repeat split; assumption.
    + intros j f Hj Hfl.
      cbn [at_await aborted fetched audios chunks resp set_at set_resp] in *.
      left. rewrite (Hfly j f Hj Hfl). lia.
Qed.

Lemma wf_requests_returned v :
  lists_ok v ->
  (forall j f, fetched v !! j = Some f -> in_flight f = true ->
               S j = length (fetched v)) ->
  wf_requests (set_at Returned v).
Proof.
  intros Hl Hfly. split.
  - now apply lists_ok_set_at.
  - intros H. now contradiction H.
  - exact I.
  - intros j f Hj Hfl. left. exact (Hfly j f Hj Hfl).
Qed.

(** The requests under way once request [i] is settled. *)
Lemma in_flight_after_mark v i t j f :
  in_flight_ok v -> in_flight (mkFetch i t) = false ->
  (at_await v = AwaitBlob i \/ forall j', at_await v <> AwaitBlob j') ->
  fetched (mark i t v) !! j = Some f -> in_flight f = true ->
  S j = length (fetched v).
Proof.
  intros Hfly Ht Hat Hj Hfl. unfold mark in Hj. cbn [fetched with_fetched] in Hj.
  destruct (lookup_alter_inv _ _ _ _ _ Hj) as [[Hne H]|[<- (x & _ & ->)]].
  - destruct (Hfly j f H Hfl) as [?|[_ Hb]]; [assumption|].
    destruct Hat as [Hat|Hat]; [congruence | now destruct (Hat j)].
  - unfold in_flight in *. simpl in *. congruence.
Qed.

Lemma wf_requests_awaited_ok v i :
  wf_requests v -> at_await v = AwaitFetch i ->
  wf_requests (on_response_local i (mark i (Responded true) v)).
Proof.
  intros [Hl Hrun Hshape Hfly] Hat. unfold at_shape in Hshape. rewrite Hat in Hshape.
  destruct Hshape as (Hi & HF & HA & Hst).
  apply wf_requests_on_response;
    cbn [chunks aborted fetched audios mark with_fetched]; rewrite ?length_alter;
    try assumption.
  - apply lists_ok_mark; [assumption | lia | lia | discriminate].
  - apply Hrun. rewrite Hat. discriminate.
  - rewrite state_at_mark, decide_True by reflexivity. now rewrite Hst.
  - intros j f Hj Hfl.
    destruct (lookup_alter_inv _ _ _ _ _ Hj) as [[Hne H]|[<- _]]; [|reflexivity].
    destruct (Hfly j f H Hfl) as [?|[_ Hb]]; [lia | congruence].
Qed.

Lemma wf_requests_awaited_bad v i :
  wf_requests v -> at_await v = AwaitFetch i ->
  wf_requests (set_at (AwaitErrorBody i) (set_resp i (mark i (Responded false) v))).
Proof.
  intros [Hl Hrun Hshape Hfly] Hat. unfold at_shape in Hshape. rewrite Hat in Hshape.
  destruct Hshape as (Hi & HF & HA & Hst).
  split.
  - apply lists_ok_set_at, lists_ok_set_resp, lists_ok_mark;
      [assumption | lia | lia | discriminate].
  - intros _. apply Hrun. rewrite Hat. discriminate.
  - unfold at_shape.
    cbn [at_await chunks aborted fetched audios resp set_at set_resp mark with_fetched].
    rewrite length_alter. repeat split; try assumption.
    change (state_at (mark i (Responded false) v) i = Some (Responded false)).
    rewrite state_at_mark, decide_True by reflexivity. now rewrite Hst.
  - intros j f Hj Hfl. left.
    cbn [at_await chunks aborted fetched audios resp set_at set_resp mark with_fetched] in *.
    rewrite length_alter.
    destruct (lookup_alter_inv _ _ _ _ _ Hj) as [[Hne H]|[<- _]]; [|lia].
    destruct (Hfly j f H Hfl) as [?|[_ Hb]]; [lia | congruence].
Qed.

Lemma wf_requests_settled v i t :
  wf_requests v -> in_flight (mkFetch i t) = false -> t <> Cancelled ->
  (at_await v = AwaitFetch i \/ at_await v = AwaitErrorBody i \/
   (at_await v = AwaitBlob i /\ had_ok_response t)) ->
  wf_requests (set_at Returned (mark i t v)).
Proof.
  intros [Hl Hrun Hshape Hfly] Ht Hc Hat. unfold at_shape in Hshape.
  apply wf_requests_returned.
  - apply lists_ok_mark; try assumption.
    + destruct Hat as [Hat|[Hat|[Hat Hok]]]; rewrite Hat in Hshape;
        [lia | lia | auto].
    + destruct Hat as [Hat|[Hat|[Hat Hok]]]; rewrite Hat in Hshape; lia.
    + congruence.
  - intros j f Hj Hfl.
    cbn [fetched mark with_fetched]. rewrite length_alter.
    apply (in_flight_after_mark v i t j f); try assumption.
    destruct Hat as [Hat|[Hat|[Hat Hok]]]; [right|right|left; assumption];
      intros j'; rewrite Hat; discriminate.
Qed.

Lemma wf_requests_body v i a :
  wf_requests v -> at_await v = AwaitBlob i -> a_chunk a = i ->
  wf_requests
    (set_at (AwaitPlayback i (length (audios v)))
       (with_audios (fun l => l ++ [a]) (mark i (Complete true) v))).
Proof.
  intros [Hl Hrun Hshape Hfly] Hat Ha. unfold at_shape in Hshape. rewrite Hat in Hshape.
  destruct Hshape as (Hi & HF & HA & Hr & Hst).
  split.
  - apply lists_ok_set_at. apply (lists_ok_audio _ i a).
    + apply lists_ok_mark; [assumption | intros; exact I | lia | discriminate].
    + now symmetry.
    + assumption.
    + rewrite state_at_mark, decide_True by reflexivity. now rewrite Hst.
  - intros _. apply Hrun. rewrite Hat. discriminate.
  - unfold at_shape.
    cbn [at_await chunks aborted fetched audios resp set_at with_audios mark with_fetched].
    rewrite length_alter, length_app. cbn [length]. repeat split; try assumption; lia.
  - intros j f Hj Hfl. left.
    cbn [at_await chunks aborted fetched audios resp set_at with_audios] in *.
    change (length (fetched (mark i (Complete true) v))) with
      (length (alter (set_f_state (Complete true)) i (fetched v))).
    rewrite length_alter.
    apply (in_flight_after_mark v i (Complete true) j f); auto.
Qed.

(** The head of the loop after the playback of chunk [i]. *)
Lemma wf_requests_loop_top v i j :
  wf_requests v -> at_await v = AwaitPlayback i j ->
  wf_requests (loop_top_local (S i) v).
Proof.
  intros Hwf Hat. pose proof Hwf as [Hl Hrun Hshape Hfly].
  unfold at_shape in Hshape. rewrite Hat in Hshape.
  destruct Hshape as (Hi & -> & HF & HA).
  assert (Hab : aborted v = false) by (apply Hrun; rewrite Hat; discriminate).
  assert (Hlast : forall j f, fetched v !! j = Some f -> in_flight f = true ->
            S j = length (fetched v)).
  { intros j f Hj Hfl. destruct (Hfly j f Hj Hfl) as [?|[_ Hb]]; [assumption | congruence]. }
  unfold loop_top_local. rewrite Hab.
  destruct (S i <? length (chunks v))%nat eqn:Hn; [|now apply wf_requests_returned].
  apply Nat.ltb_lt in Hn.
  unfold await_next_local, nextResp. rewrite HF. cbn [pred].
  fold (state_at v (S i)).
  destruct (state_at v (S i)) as [st|] eqn:Hst; [|exact Hwf].
  destruct st as [|[|]|ok| | |]; try exact Hwf; try now apply wf_requests_returned.
  - split.
    + now apply lists_ok_set_at.
    + intros _. exact Hab.
    + unfold at_shape. cbn [at_await chunks aborted fetched audios resp set_at].
      repeat split; assumption.
    + intros j f Hj Hfl. left. exact (Hlast j f Hj Hfl).
  - apply wf_requests_on_response; try assumption.
    intros j f Hj Hfl. specialize (Hlast j f Hj Hfl). lia.
  - split.
    + now apply lists_ok_set_at, lists_ok_set_resp.
    + intros _. exact Hab.
    + unfold at_shape. cbn [at_await chunks aborted fetched audios resp set_at set_resp].
      repeat split; assumption.
    + intros j f Hj Hfl. left. exact (Hlast j f Hj Hfl).
Qed.

(** *** Elements and URLs *)

Lemma wf_requests_audios v g j :
  (forall a, a_chunk (g a) = a_chunk a) ->
  wf_requests v -> wf_requests (with_audios (alter g j) v).
Proof.
  intros Hg [[H1 H2 H3 H4 H5 H6 H7] Hrun Hshape Hfly].
  split; [split|..]; try assumption.
  - cbn [audios with_audios]. rewrite length_alter. exact H2.
  - cbn [audios with_audios]. intros j' a' Hj'.
    destruct (lookup_alter_inv _ _ _ _ _ Hj') as [[_ H]|[<- (x & Hx & ->)]]; [eauto|].
    rewrite Hg. eauto.
  - unfold at_shape in *. cbn [at_await chunks fetched audios resp with_audios].
    rewrite length_alter. exact Hshape.
Qed.

Lemma waited_released v : all_released v -> waited v.
Proof.
  intros H j a Hj [Hp|Hr]; destruct (H j a Hj); contradiction.
Qed.

Lemma audios_loop_top i v : audios (loop_top_local i v) = audios v.
Proof.
  unfold loop_top_local, await_next_local, on_response_local, issue_local.
  repeat match goal with
         | |- context [if ?b then _ else _] => destruct b
         | |- context [match ?x with _ => _ end] => destruct x
         end; reflexivity.
Qed.

(** A handler of element [j] that stops it and revokes its URL, then
    resolves the promise. *)
Lemma wf_resolved v g j :
  (forall a, a_chunk (g a) = a_chunk a) ->
  (forall a, a_state (g a) <> Playing /\ revoked (g a) <> 0%nat) ->
  wf v -> wf (resolve_local j (with_audios (alter g j) v)).
Proof.
  intros Hchunk Hg [Hreq Hwait].
  pose proof (wf_requests_audios v g j Hchunk Hreq) as Hreq'.
  unfold resolve_local. cbn [at_await with_audios].
  assert (Hrel : forall i, at_await v = AwaitPlayback i j ->
            all_released (with_audios (alter g j) v)).
  { intros i Hat j' a' Hj'. cbn [audios with_audios] in Hj'.
    destruct (lookup_alter_inv _ _ _ _ _ Hj') as [[Hne H]|[<- (x & Hx & ->)]]; [|apply Hg].
    destruct (a_state a') eqn:Hst; destruct (revoked a') eqn:Hrv;
      try (split; [discriminate | lia]);
      (destruct (Hwait j' a' H) as [i' Hi']; [auto | congruence]). }
  assert (Hsame : waited (with_audios (alter g j) v)).
  { intros j' a' Hj' Hor. cbn [audios with_audios at_await] in *.
    destruct (lookup_alter_inv _ _ _ _ _ Hj') as [[Hne H]|[<- (x & Hx & ->)]]; [eauto|].
    destruct (Hg x) as [H1 H2]. destruct Hor; contradiction. }
  destruct (at_await v) as [i|i|i|i j'|] eqn:Hat; try (split; assumption).
  destruct (j =? j')%nat eqn:Hjj; [|split; assumption].
  apply Nat.eqb_eq in Hjj. subst j'. split.
  - apply wf_requests_loop_top with (j := j); [assumption|]. exact Hat.
  - apply waited_released. intros j' a' Hj'. rewrite audios_loop_top in Hj'.
    exact (Hrel i eq_refl j' a' Hj').
Qed.

(** The promise of [play()] settles without a handler. *)
Lemma wf_play_started v j : wf v -> wf (with_audios (alter settle_play j) v).
Proof.
  intros [Hreq Hwait]. split.
  - apply wf_requests_audios; [reflexivity | assumption].
  - intros j' a' Hj' Hor. cbn [audios with_audios at_await] in *.
    destruct (lookup_alter_inv _ _ _ _ _ Hj') as [[Hne H]|[<- (x & Hx & ->)]]; eauto.
Qed.

(** The element created once the body of chunk [i] is there. *)
Lemma wf_after_blob v i :
  wf v -> at_await v = AwaitBlob i ->
  wf (after_blob_local i (mark i (Complete true) v)).
Proof.
  intros [Hreq Hwait] Hat.
  assert (Hab : aborted v = false).
  { apply (wf_running _ Hreq). rewrite Hat. discriminate. }
  unfold after_blob_local. cbn [aborted mark with_fetched]. rewrite Hab.
  split.
  - apply (wf_requests_body v i (mkAudio i Playing true 0)); auto.
  - intros j a Hj Hor. cbn [audios at_await set_at with_audios mark with_fetched] in *.
    apply lookup_app_Some in Hj. destruct Hj as [Hj|[Hge Hj]].
    + destruct (Hwait j a Hj Hor) as [i' Hi']. congruence.
    + exists i. f_equal. pose proof (lookup_lt_Some _ _ _ Hj) as Hlt. simpl in Hlt. lia.
Qed.

Lemma waited_elsewhere v v' :
  waited v -> (forall i j, at_await v <> AwaitPlayback i j) ->
  audios v' = audios v -> waited v'.
Proof.
  intros Hwait Hat Heq j a Hj Hor. rewrite Heq in Hj.
  destruct (Hwait j a Hj Hor) as [i Hi]. now destruct (Hat i j).
Qed.

Lemma waited_same v v' :
  waited v -> at_await v' = at_await v -> audios v' = audios v -> waited v'.
Proof.
  intros Hwait Hat Heq j a Hj Hor. rewrite Heq in Hj. rewrite Hat. eauto.
Qed.

(** *** [abort()] and the resumption that follows *)

Lemma fold_alter_seq {A} (g : A -> A) (l : list A) m :
  (m <= length l)%nat ->
  fold_left (fun l j => alter g j l) (seq 0 m) l = (g <$> take m l) ++ drop m l.
Proof.
  induction m as [|m IH]; intros Hm.
  - simpl. now rewrite drop_0.
  - rewrite seq_S, fold_left_app, IH by lia. simpl.
    destruct (lookup_lt_is_Some_2 l m ltac:(lia)) as [x Hx].
    rewrite (take_S_r _ _ _ Hx), (drop_S _ _ _ Hx), fmap_app. simpl.
    rewrite <- app_assoc. simpl.
    replace m with (length (g <$> take m l) + 0)%nat at 1
      by (rewrite length_fmap, length_take; lia).
    now rewrite alter_app_r.
Qed.

Lemma fold_alter_all {A} (g : A -> A) (l : list A) :
  fold_left (fun l j => alter g j l) (seq 0 (length l)) l = g <$> l.
Proof.
  rewrite fold_alter_seq by lia. now rewrite firstn_all, drop_all, app_nil_r.
Qed.

Lemma fold_listener_local js : forall v,
  fold_left listener_local js v =
  with_audios (fun l => fold_left (fun l j => alter (count_revoke ∘ stop_playing) j l) js l) v.
Proof.
  induction js as [|j js IH]; intros v; simpl.
  - now destruct v.
  - rewrite IH. unfold listener_local, with_audios. destruct v; cbn [audios].
    now rewrite list_alter_alter_eq.
Qed.

Lemma abort_local_eq v :
  aborted v = false ->
  abort_local v =
  mkInvocation (text v) (chunks v) (btn v) true (at_await v)
    (List.map cancel (fetched v)) (resp v)
    ((count_revoke ∘ stop_playing) <$> audios v).
Proof.
  intros Hab. unfold abort_local. rewrite Hab, fold_listener_local.
  unfold with_audios, with_fetched, set_aborted.
  cbn [text chunks btn aborted at_await fetched resp audios].
  now rewrite fold_alter_all.
Qed.

Lemma set_at_same v : at_await v = Returned -> set_at Returned v = v.
Proof. destruct v; simpl. now intros ->. Qed.

Lemma resume_abort_eq v :
  aborted v = false ->
  resume_local (abort_local v) = set_at Returned (abort_local v).
Proof.
  intros Hab. rewrite abort_local_eq by assumption.
  unfold resume_local. cbn [at_await].
  destruct (at_await v) as [i|i|i|i j|] eqn:Hat; try reflexivity.
  unfold loop_top_local. cbn [chunks aborted].
  now destruct (S i <? length (chunks v))%nat.
Qed.

Lemma not_in_flight_cancel f : in_flight (cancel f) = false.
Proof. unfold cancel. destruct f as [c []]; reflexivity. Qed.

Lemma cancel_keeps f : in_flight f = false -> cancel f = f.
Proof. unfold cancel. now intros ->. Qed.

Lemma wf_aborted v :
  wf v -> wf (resume_local (abort_local v)).
Proof.
  intros Hwf. destruct (aborted v) eqn:Hab.
  - assert (Hret : at_await v = Returned).
    { destruct (at_await v) eqn:Hat; try reflexivity;
        pose proof (wf_running _ (proj1 Hwf)) as Hrun; unfold running_ok in Hrun;
        rewrite Hat in Hrun; specialize (Hrun ltac:(discriminate)); congruence. }
    unfold abort_local. rewrite Hab. unfold resume_local. now rewrite Hret.
  - rewrite resume_abort_eq, abort_local_eq by assumption.
    destruct Hwf as [[[H1 H2 H3 H4 H5 H6 H7] Hrun Hshape Hfly] Hwait].
    split; [apply wf_requests_returned; [split|]|apply waited_released];
      cbn [at_await aborted fetched audios chunks resp set_at].
    + intros j f Hj Hlt. rewrite length_map in Hlt.
      rewrite list_lookup_fmap in Hj.
      destruct (fetched v !! j) as [f0|] eqn:Hf0; [|discriminate].
      injection Hj as <-. specialize (H1 j f0 Hf0 Hlt).
      unfold cancel. destruct (in_flight f0); [exact I | exact H1].
    + intros j Hj. rewrite length_fmap in Hj. specialize (H2 j Hj).
      apply state_at_Some in H2. destruct H2 as (f0 & Hf0 & Hst).
      apply state_at_Some. exists f0. split; [|exact Hst].
      cbn [fetched]. rewrite list_lookup_fmap, Hf0. simpl. f_equal.
      apply cancel_keeps. unfold in_flight. now rewrite Hst.
    + reflexivity.
    + intros j f Hj. rewrite list_lookup_fmap in Hj.
      destruct (fetched v !! j) as [f0|] eqn:Hf0; [|discriminate].
      injection Hj as <-. rewrite <- (H4 j f0 Hf0).
      unfold cancel. now destruct (in_flight f0).
    + intros j a Hj. rewrite list_lookup_fmap in Hj.
      destruct (audios v !! j) as [a0|] eqn:Ha0; [|discriminate].
      injection Hj as <-. rewrite <- (H5 j a0 Ha0).
      unfold stop_playing. now destruct (a_state a0).
    + now rewrite length_map.
    + exact H7.
    + intros j f Hj Hfl. rewrite list_lookup_fmap in Hj.
      destruct (fetched v !! j) as [f0|]; [|discriminate].
      injection Hj as <-. rewrite not_in_flight_cancel in Hfl. discriminate.
    + intros j a Hj. cbn [audios set_at] in Hj. rewrite list_lookup_fmap in Hj.
      destruct (audios v !! j) as [a0|]; [|discriminate].
      injection Hj as <-. split; [|simpl; lia].
      unfold stop_playing. simpl.
      destruct (a_state a0) eqn:E; simpl; rewrite ?E; discriminate.
Qed.

(** *** The pieces on the whole state *)

Lemma quiet_compose F G : quiet F -> quiet G -> quiet (fun s => G (F s)).
Proof.
  intros HF HG s. destruct (HG (F s)) as [-> ->]. apply HF.
Qed.

Lemma quiet_with_inv k f : quiet (with_inv k f).
Proof. intros s. split; reflexivity. Qed.

Lemma quiet_log es : quiet (log es).
Proof. intros s. split; reflexivity. Qed.

Lemma quiet_after_loop k : quiet (after_loop k).
Proof.
  intros s. unfold after_loop. destruct (invocations s !! k) as [v|]; [|auto].
  destruct (aborted v); split; reflexivity.
Qed.

Lemma quiet_catch_block k e : quiet (catch_block k e).
Proof.
  intros s. unfold catch_block. destruct (invocations s !! k) as [v|]; [|auto].
  destruct e, (aborted v); split; reflexivity.
Qed.

Lemma quiet_on_response k i : quiet (on_response k i).
Proof.
  intros s. unfold on_response. destruct (invocations s !! k) as [v|]; [|auto].
  destruct (S i <? length (chunks v))%nat; split; reflexivity.
Qed.

Lemma quiet_await_next k i : quiet (await_next k i).
Proof.
  intros s. unfold await_next. destruct (invocations s !! k) as [v|]; [|auto].
  destruct (f_state <$> fetched v !! nextResp v) as [[|[|]|ok| | |]|]; auto;
    first [ apply quiet_on_response | apply quiet_catch_block | split; reflexivity ].
Qed.

Lemma quiet_loop_top k i : quiet (loop_top k i).
Proof.
  intros s. unfold loop_top. destruct (invocations s !! k) as [v|]; [|auto].
  destruct (i <? length (chunks v))%nat; [destruct (aborted v)|];
    first [ apply quiet_after_loop | apply quiet_await_next ].
Qed.

Lemma quiet_after_blob k i : quiet (after_blob k i).
Proof.
  intros s. unfold after_blob. destruct (invocations s !! k) as [v|]; [|auto].
  destruct (aborted v); [apply quiet_after_loop|].
  destruct (i =? 0)%nat; split; reflexivity.
Qed.

Lemma quiet_resolve k j : quiet (resolve k j).
Proof.
  intros s. unfold resolve.
  destruct (at_await <$> invocations s !! k) as [[i|i|i|i j'|]|]; auto.
  destruct (j =? j')%nat; [apply quiet_loop_top | auto].
Qed.

Lemma acts_on_resolve k j : acts_on (resolve k j) k (resolve_local j).
Proof.
  intros s. unfold resolve. destruct (invocations s !! k) as [v|] eqn:E; simpl.
  - assert (Hself : resolve_local j v = v ->
              invocations s = alter (resolve_local j) k (invocations s)).
    { intros H. symmetry. now apply alter_self with (x := v). }
    assert (Hat : forall g, g v = resolve_local j v ->
              alter g k (invocations s) = alter (resolve_local j) k (invocations s)).
    { intros g Hg. now apply alter_at with (x := v). }
    unfold resolve_local in Hself, Hat.
    destruct (at_await v) as [i|i|i|i j'|]; auto.
    destruct (j =? j')%nat; [|auto].
    rewrite acts_on_loop_top. now apply Hat.
  - symmetry. now apply alter_absent.
Qed.

Lemma acts_on_resume k : acts_on (fun s => resume_aborted s k) k resume_local.
Proof.
  intros s. unfold resume_aborted. destruct (invocations s !! k) as [v|] eqn:E; simpl.
  - assert (Hself : resume_local v = v ->
              invocations s = alter resume_local k (invocations s)).
    { intros H. symmetry. now apply alter_self with (x := v). }
    assert (Hat : forall g, g v = resume_local v ->
              alter g k (invocations s) = alter resume_local k (invocations s)).
    { intros g Hg. now apply alter_at with (x := v). }
    unfold resume_local in Hself, Hat.
    destruct (at_await v) as [i|i|i|i j'|].
    + rewrite acts_on_catch_block. now apply Hat.
    + rewrite acts_on_catch_block. now apply Hat.
    + rewrite acts_on_catch_block. now apply Hat.
    + rewrite acts_on_loop_top. now apply Hat.
    + now apply Hself.
  - symmetry. now apply alter_absent.
Qed.

Lemma quiet_resume k : quiet (fun s => resume_aborted s k).
Proof.
  intros s. unfold resume_aborted.
  destruct (at_await <$> invocations s !! k) as [[i|i|i|i j'|]|]; auto;
    first [ apply quiet_catch_block | apply quiet_loop_top ].
Qed.

Lemma acts_on_listeners k js :
  acts_on (fun s => fold_left (abort_listener k) js s) k
          (fun v => fold_left listener_local js v).
Proof.
  induction js as [|j js IH]; intros s; simpl.
  - symmetry. now apply list_alter_id.
  - rewrite IH. unfold abort_listener, revoke, pause, with_audio, listener_local.
    cbn [invocations log with_inv with_invocations].
    now rewrite !list_alter_alter_eq.
Qed.

Lemma quiet_listeners k js : quiet (fun s => fold_left (abort_listener k) js s).
Proof.
  induction js as [|j js IH]; intros s; simpl; [auto|].
  destruct (IH (abort_listener k s j)) as [-> ->]. split; reflexivity.
Qed.

Lemma acts_on_abort k : acts_on (abort k) k abort_local.
Proof.
  intros s. unfold abort. destruct (invocations s !! k) as [v|] eqn:E.
  - destruct (aborted v) eqn:Hab.
    + symmetry. apply alter_self with (x := v); [assumption|].
      unfold abort_local. now rewrite Hab.
    + cbn [invocations set_microtasks]. rewrite acts_on_listeners.
      cbn [invocations log with_inv with_invocations].
      rewrite !list_alter_alter_eq. apply alter_at with (x := v); [assumption|].
      unfold abort_local. now rewrite Hab.
  - symmetry. now apply alter_absent.
Qed.

(** *** A task of the network or of an element concerns one invocation *)

Lemma with_audios_twice f g j v :
  with_audios (alter f j) (with_audios (alter g j) v) =
  with_audios (alter (f ∘ g) j) v.
Proof.
  destruct v; unfold with_audios.
  cbn [text chunks btn aborted at_await fetched resp audios].
  now rewrite list_alter_alter_eq.
Qed.

Lemma handle_invocations l s :
  is_call l = false ->
  invocations (handle l s) = alter (local_effect l) (subject l) (invocations s).
Proof.
  intros Hl.
  assert (Hat : forall k v g, invocations s !! k = Some v ->
            forall h, g v = h v ->
            alter g k (invocations s) = alter h k (invocations s)).
  { intros k v g Hk h Hgh. now apply alter_at with (x := v). }
  destruct l as [t|t b| | |k j ok|k j|k|k|k|k j|k j|k j|k j];
    try discriminate; cbn [handle subject].
  - symmetry. now apply list_alter_id.
  - cbn. symmetry. now apply list_alter_id.
  - unfold awaits_fetch. destruct (invocations s !! k) as [v|] eqn:E.
    + destruct (at_await v) as [i|i|i|i j'|] eqn:Hv;
        try (cbn; apply (Hat k v _ E); cbn [local_effect]; now rewrite Hv).
      destruct (nextResp v =? j)%nat eqn:Hj.
      * rewrite acts_on_await_next. cbn [invocations with_fetch with_inv with_invocations].
        rewrite list_alter_alter_eq. apply (Hat k v _ E).
        cbn [local_effect]. now rewrite Hv, Hj.
      * cbn. apply (Hat k v _ E). cbn [local_effect]. now rewrite Hv, Hj.
    + cbn. now rewrite !alter_absent.
  - unfold awaits_fetch. destruct (invocations s !! k) as [v|] eqn:E.
    + destruct (at_await v) as [i|i|i|i j'|] eqn:Hv;
        try (cbn; apply (Hat k v _ E); cbn [local_effect]; now rewrite Hv).
      destruct (nextResp v =? j)%nat eqn:Hj.
      * rewrite acts_on_await_next. cbn [invocations with_fetch with_inv with_invocations].
        rewrite list_alter_alter_eq. apply (Hat k v _ E).
        cbn [local_effect]. now rewrite Hv, Hj.
      * cbn. apply (Hat k v _ E). cbn [local_effect]. now rewrite Hv, Hj.
    + cbn. now rewrite !alter_absent.
  - unfold chunk_at, resp_of. destruct (invocations s !! k) as [v|] eqn:E.
    + cbn [fmap option_fmap option_map].
      destruct (at_await v) as [i|i|i|i j'|] eqn:Hv;
        try (rewrite acts_on_after_blob;
             cbn [invocations with_fetch with_inv with_invocations];
             rewrite list_alter_alter_eq; apply (Hat k v _ E);
             cbn [local_effect]; now rewrite Hv).
      symmetry. apply alter_self with (x := v); [assumption|].
      cbn [local_effect]. now rewrite Hv.
    + cbn. symmetry. now apply alter_absent.
  - rewrite acts_on_catch_block. cbn [invocations with_fetch with_inv with_invocations].
    rewrite list_alter_alter_eq. unfold resp_of.
    destruct (invocations s !! k) as [v|] eqn:E.
    + now apply (Hat k v _ E).
    + now rewrite !alter_absent.
  - rewrite acts_on_catch_block. cbn [invocations with_fetch with_inv with_invocations].
    rewrite list_alter_alter_eq. unfold resp_of.
    destruct (invocations s !! k) as [v|] eqn:E.
    + now apply (Hat k v _ E).
    + now rewrite !alter_absent.
  - rewrite acts_on_resolve. cbn [invocations revoke log with_audio with_inv with_invocations].
    rewrite !list_alter_alter_eq. apply list_alter_ext; [|reflexivity].
    intros v _. cbn. now rewrite with_audios_twice.
  - rewrite acts_on_resolve. cbn [invocations revoke log with_audio with_inv with_invocations].
    rewrite !list_alter_alter_eq. apply list_alter_ext; [|reflexivity].
    intros v _. cbn. now rewrite with_audios_twice.
  - reflexivity.
  - rewrite acts_on_resolve. cbn [invocations revoke log with_audio with_inv with_invocations].
    rewrite !list_alter_alter_eq. apply list_alter_ext; [|reflexivity].
    intros v _. cbn. now rewrite with_audios_twice.
Qed.

Lemma handle_quiet l : is_call l = false -> quiet (handle l).
Proof.
  intros Hl s.
  destruct l as [t|t b| | |k j ok|k j|k|k|k|k j|k j|k j|k j];
    try discriminate; cbn [handle]; try (split; reflexivity).
  - destruct (awaits_fetch k j s); [|split; reflexivity].
    apply (quiet_compose (with_fetch k j _) (await_next k n));
      [apply quiet_with_inv | apply quiet_await_next].
  - destruct (awaits_fetch k j s); [|split; reflexivity].
    apply (quiet_compose (with_fetch k j _) (await_next k n));
      [apply quiet_with_inv | apply quiet_await_next].
  - destruct (chunk_at k s); [|split; reflexivity].
    destruct (quiet_after_blob k n
      (with_fetch k (resp_of k s) (set_f_state (Complete true)) s)) as [-> ->].
    split; reflexivity.
  - destruct (quiet_catch_block k false
      (with_fetch k (resp_of k s) (set_f_state BodyFailed) s)) as [-> ->].
    split; reflexivity.
  - destruct (quiet_catch_block k false
      (with_fetch k (resp_of k s) (set_f_state (Complete false)) s)) as [-> ->].
    split; reflexivity.
  - destruct (quiet_resolve k j
      (revoke k j (with_audio k j (set_a_state Ended) s))) as [-> ->].
    split; reflexivity.
  - destruct (quiet_resolve k j
      (revoke k j (with_audio k j (set_a_state Failed) s))) as [-> ->].
    split; reflexivity.
  - destruct (quiet_resolve k j
      (revoke k j (with_audio k j (fun a => stop_playing (settle_play a)) s))) as [-> ->].
    split; reflexivity.
Qed.

Lemma is_pending_state k j s v :
  invocations s !! k = Some v -> is_pending k j s = true ->
  state_at v j = Some Pending.
Proof.
  intros E H. unfold is_pending, fetch_state in H. rewrite E in H. simpl in H.
  unfold state_at. destruct (fetched v !! j) as [f|]; simpl in *; [|discriminate].
  destruct (f_state f); try discriminate. reflexivity.
Qed.

Lemma reading_body_at k s v :
  invocations s !! k = Some v -> reading_body k s = true ->
  exists i, at_await v = AwaitBlob i.
Proof.
  intros E H. unfold reading_body in H. rewrite E in H.
  destruct (at_await v); try discriminate. eauto.
Qed.

Lemma reading_error_at k s v :
  invocations s !! k = Some v -> reading_error k s = true ->
  exists i, at_await v = AwaitErrorBody i.
Proof.
  intros E H. unfold reading_error in H. rewrite E in H. simpl in H.
  destruct (at_await v); try discriminate. eauto.
Qed.

Lemma audios_on_response i v : audios (on_response_local i v) = audios v.
Proof.
  unfold on_response_local, issue_local.
  now destruct (S i <? length (chunks v))%nat.
Qed.

(** The awaited request settles. *)
Lemma wf_awaited v i t :
  wf v -> at_await v = AwaitFetch i -> t = Responded true \/ t = Responded false \/ t = Rejected ->
  wf (await_next_local i (mark i t v)).
Proof.
  intros [Hreq Hwait] Hat Ht.
  pose proof (wf_shape _ Hreq) as Hshape. unfold at_shape in Hshape.
  rewrite Hat in Hshape. destruct Hshape as (Hi & HF & HA & Hst).
  assert (Hnot : forall i' j', at_await v <> AwaitPlayback i' j')
    by (intros i' j'; rewrite Hat; discriminate).
  unfold await_next_local.
  replace (nextResp (mark i t v)) with i
    by (unfold nextResp, mark; cbn [fetched with_fetched]; rewrite length_alter, HF; reflexivity).
  fold (state_at (mark i t v) i).
  rewrite state_at_mark, decide_True, Hst by reflexivity. cbn [fmap option_fmap option_map].
  destruct Ht as [->|[->| ->]].
  - split; [now apply wf_requests_awaited_ok|].
    apply (waited_elsewhere v); [assumption..|]. now rewrite audios_on_response.
  - replace (nextResp (mark i (Responded false) v)) with i
      by (unfold nextResp, mark; cbn [fetched with_fetched]; rewrite length_alter, HF; reflexivity).
    split; [now apply wf_requests_awaited_bad|].
    now apply (waited_elsewhere v).
  - split; [apply wf_requests_settled; [assumption | reflexivity | discriminate | auto]|].
    now apply (waited_elsewhere v).
Qed.

Lemma local_effect_wf l s v :
  is_call l = false -> enabled l s = true ->
  invocations s !! subject l = Some v -> wf v ->
  wf (local_effect l v).
Proof.
  intros Hl Hen E Hwf. pose proof Hwf as [Hreq Hwait].
  destruct l as [t|t b| | |k j ok|k j|k|k|k|k j|k j|k j|k j];
    try discriminate; cbn [local_effect subject enabled] in *; try assumption.
  - pose proof (is_pending_state _ _ _ _ E Hen) as Hp.
    pose proof (pending_is_last _ _ Hreq Hp) as Hlast.
    destruct (at_await v) as [i|i|i|i j'|] eqn:Hat;
      try (split; [apply wf_requests_mark_ahead; try assumption;
                     [intros i'; rewrite Hat|]; discriminate
                  | now apply (waited_same v)]).
    pose proof (wf_shape _ Hreq) as Hshape. unfold at_shape in Hshape.
    rewrite Hat in Hshape. destruct Hshape as (Hi & HF & HA & Hst).
    assert (j = i) by lia. subst j.
    replace (nextResp v =? i)%nat with true
      by (symmetry; apply Nat.eqb_eq; unfold nextResp; rewrite HF; reflexivity).
    apply wf_awaited; [assumption..|]. destruct ok; auto.
  - pose proof (is_pending_state _ _ _ _ E Hen) as Hp.
    pose proof (pending_is_last _ _ Hreq Hp) as Hlast.
    destruct (at_await v) as [i|i|i|i j'|] eqn:Hat;
      try (split; [apply wf_requests_mark_ahead; try assumption;
                     [intros i'; rewrite Hat|]; discriminate
                  | now apply (waited_same v)]).
    pose proof (wf_shape _ Hreq) as Hshape. unfold at_shape in Hshape.
    rewrite Hat in Hshape. destruct Hshape as (Hi & HF & HA & Hst).
    assert (j = i) by lia. subst j.
    replace (nextResp v =? i)%nat with true
      by (symmetry; apply Nat.eqb_eq; unfold nextResp; rewrite HF; reflexivity).
    apply wf_awaited; auto.
  - destruct (reading_body_at _ _ _ E Hen) as [i Hat]. rewrite Hat.
    pose proof (wf_shape _ Hreq) as Hshape. unfold at_shape in Hshape.
    rewrite Hat in Hshape. destruct Hshape as (Hi & HF & HA & Hr & Hst).
    rewrite Hr. now apply wf_after_blob.
  - destruct (reading_body_at _ _ _ E Hen) as [i Hat].
    pose proof (wf_shape _ Hreq) as Hshape. unfold at_shape in Hshape.
    rewrite Hat in Hshape. destruct Hshape as (Hi & HF & HA & Hr & Hst).
    rewrite Hr. split.
    + apply wf_requests_settled; [assumption | reflexivity | discriminate |].
      right. right. split; [assumption | exact I].
    + apply (waited_elsewhere v); [assumption| |reflexivity].
      intros i' j'. rewrite Hat. discriminate.
  - destruct (reading_error_at _ _ _ E Hen) as [i Hat].
    pose proof (wf_shape _ Hreq) as Hshape. unfold at_shape in Hshape.
    rewrite Hat in Hshape. destruct Hshape as (Hi & HF & HA & Hr & Hst).
    rewrite Hr. split.
    + apply wf_requests_settled; [assumption | reflexivity | discriminate | auto].
    + apply (waited_elsewhere v); [assumption| |reflexivity].
      intros i' j'. rewrite Hat. discriminate.
  - apply wf_resolved; [reflexivity| |assumption].
    intros a. split; [discriminate | simpl; lia].
  - apply wf_resolved; [reflexivity| |assumption].
    intros a. split; [discriminate | simpl; lia].
  - now apply wf_play_started.
  - apply wf_resolved; [|  |assumption].
    + intros a. unfold stop_playing. simpl. now destruct (a_state a).
    + intros a. split; [|simpl; lia].
      unfold stop_playing. simpl. destruct (a_state a) eqn:Ea; simpl; rewrite ?Ea; discriminate.
Qed.

Lemma local_effect_returned l v :
  at_await v = Returned -> at_await (local_effect l v) = Returned.
Proof.
  intros Hat.
  destruct l as [t|t b| | |k j ok|k j|k|k|k|k j|k j|k j|k j];
    cbn [local_effect]; rewrite ?Hat; try assumption; try reflexivity.
  - unfold resolve_local. cbn [at_await with_audios]. now rewrite Hat.
  - unfold resolve_local. cbn [at_await with_audios]. now rewrite Hat.
  - unfold resolve_local. cbn [at_await with_audios]. now rewrite Hat.
Qed.

(** *** The invariant under the tasks of the network and of the elements *)

Lemma invocations_drain_from q : forall s,
  invocations (fold_left resume_aborted q s) =
  fold_left (fun l a => alter resume_local a l) q (invocations s).
Proof.
  induction q as [|a q IH]; intros s; simpl; [reflexivity|].
  rewrite IH. f_equal. apply acts_on_resume.
Qed.

Lemma invocations_drain s :
  invocations (drain s) =
  fold_left (fun l a => alter resume_local a l) (microtasks s) (invocations s).
Proof. unfold drain. cbn [invocations set_microtasks]. apply invocations_drain_from. Qed.

Lemma ttsAbort_drain_from q : forall s,
  ttsAbort (fold_left resume_aborted q s) = ttsAbort s.
Proof.
  induction q as [|a q IH]; intros s; simpl; [reflexivity|].
  rewrite IH. apply (quiet_resume a s).
Qed.

Lemma ttsAbort_drain s : ttsAbort (drain s) = ttsAbort s.
Proof. unfold drain. cbn [ttsAbort set_microtasks]. apply ttsAbort_drain_from. Qed.

Lemma microtasks_drain s : microtasks (drain s) = [].
Proof. reflexivity. Qed.

Lemma invariant_local l s :
  invariant s -> is_call l = false -> enabled l s = true -> invariant (run l s).
Proof.
  intros [Hq Hwf Hcur] Hl Hen. unfold run.
  destruct (handle_quiet l Hl s) as [Htts Hmicro].
  pose proof (handle_invocations l s Hl) as Hinv.
  split.
  - apply microtasks_drain.
  - intros k v. rewrite invocations_drain, Hmicro, Hq. simpl. rewrite Hinv.
    intros Hk. destruct (lookup_alter_inv _ _ _ _ _ Hk) as [[_ H]|[<- (x & Hx & ->)]];
      [eauto|].
    apply (local_effect_wf l s x); auto.
    exact (Hwf _ _ Hx).
  - intros k v. rewrite invocations_drain, Hmicro, Hq, ttsAbort_drain, Htts. simpl.
    rewrite Hinv.
    intros Hk Hat. destruct (lookup_alter_inv _ _ _ _ _ Hk) as [[_ H]|[<- (x & Hx & ->)]];
      [eauto|].
    apply (Hcur _ x Hx). intros Hret. apply Hat. now apply local_effect_returned.
Qed.

(** *** [stopTTS] and [playTTS] on the whole state *)

Lemma currentAudio_listeners k js : forall s,
  currentAudio (fold_left (abort_listener k) js s) = currentAudio s.
Proof. induction js as [|j js IH]; intros s; simpl; [reflexivity|]. now rewrite IH. Qed.

Lemma buttons_listeners k js : forall s,
  buttons (fold_left (abort_listener k) js s) = buttons s.
Proof. induction js as [|j js IH]; intros s; simpl; [reflexivity|]. now rewrite IH. Qed.

Lemma currentAudio_abort k s : currentAudio (abort k s) = currentAudio s.
Proof.
  unfold abort. destruct (invocations s !! k) as [v|]; [|reflexivity].
  destruct (aborted v); [reflexivity|].
  cbn [currentAudio set_microtasks]. now rewrite currentAudio_listeners.
Qed.

Lemma buttons_abort k s : buttons (abort k s) = buttons s.
Proof.
  unfold abort. destruct (invocations s !! k) as [v|]; [|reflexivity].
  destruct (aborted v); [reflexivity|].
  cbn [buttons set_microtasks]. now rewrite buttons_listeners.
Qed.

Lemma ttsAbort_abort k s : ttsAbort (abort k s) = ttsAbort s.
Proof.
  unfold abort. destruct (invocations s !! k) as [v|]; [|reflexivity].
  destruct (aborted v); [reflexivity|].
  cbn [ttsAbort set_microtasks]. now destruct (quiet_listeners k (seq 0 (length (audios v)))
    (with_inv k (with_fetched (List.map cancel)) (log [EAbort k] (with_inv k set_aborted s)))) as [-> _].
Qed.

Lemma microtasks_abort k s :
  microtasks (abort k s) =
  microtasks s ++ match invocations s !! k with
                  | Some v => if aborted v then [] else [k]
                  | None => []
                  end.
Proof.
  unfold abort. destruct (invocations s !! k) as [v|]; [|now rewrite app_nil_r].
  destruct (aborted v); [now rewrite app_nil_r|].
  cbn [microtasks set_microtasks]. now destruct (quiet_listeners k (seq 0 (length (audios v)))
    (with_inv k (with_fetched (List.map cancel)) (log [EAbort k] (with_inv k set_aborted s)))) as [_ ->].
Qed.

Lemma invocations_reset_selected s : invocations (reset_selected s) = invocations s.
Proof. unfold reset_selected. now destruct (reset_from 0 (buttons s)). Qed.

Lemma microtasks_reset_selected s : microtasks (reset_selected s) = microtasks s.
Proof. unfold reset_selected. now destruct (reset_from 0 (buttons s)). Qed.

Lemma ttsAbort_reset_selected s : ttsAbort (reset_selected s) = ttsAbort s.
Proof. unfold reset_selected. now destruct (reset_from 0 (buttons s)). Qed.

Lemma currentAudio_reset_selected s : currentAudio (reset_selected s) = currentAudio s.
Proof. unfold reset_selected. now destruct (reset_from 0 (buttons s)). Qed.

Lemma stopTTS_invocations s : invocations (stopTTS s) = stopped s.
Proof.
  unfold stopTTS, stopped. rewrite invocations_reset_selected.
  destruct (ttsAbort s) as [a|].
  - cbn [currentAudio set_ttsAbort]. rewrite currentAudio_abort.
    destruct (currentAudio s) as [[k j]|]; cbn; now rewrite acts_on_abort.
  - destruct (currentAudio s) as [[k j]|]; reflexivity.
Qed.

Lemma stopTTS_microtasks s : microtasks (stopTTS s) = microtasks s ++ made_ready s.
Proof.
  unfold stopTTS, made_ready. rewrite microtasks_reset_selected.
  destruct (ttsAbort s) as [a|].
  - cbn [currentAudio set_ttsAbort]. rewrite currentAudio_abort.
    destruct (currentAudio s) as [[k j]|]; cbn; now rewrite microtasks_abort.
  - destruct (currentAudio s) as [[k j]|]; cbn; now rewrite app_nil_r.
Qed.

Lemma stopTTS_ttsAbort s : ttsAbort (stopTTS s) = None.
Proof.
  unfold stopTTS. rewrite ttsAbort_reset_selected.
  destruct (ttsAbort s) as [a|] eqn:E.
  - cbn [currentAudio set_ttsAbort]. rewrite currentAudio_abort.
    destruct (currentAudio s) as [[k j]|]; reflexivity.
  - destruct (currentAudio s) as [[k j]|]; cbn; exact E.
Qed.

Lemma stopTTS_currentAudio s : currentAudio (stopTTS s) = None.
Proof.
  unfold stopTTS. rewrite currentAudio_reset_selected.
  destruct (ttsAbort s) as [a|].
  - cbn [currentAudio set_ttsAbort]. rewrite currentAudio_abort.
    destruct (currentAudio s) as [[k j]|] eqn:E; [reflexivity|].
    cbn. now rewrite currentAudio_abort.
  - destruct (currentAudio s) as [[k j]|] eqn:E; [reflexivity | exact E].
Qed.

Lemma wf_paused v j : wf v -> wf (with_audios (alter stop_playing j) v).
Proof.
  intros [Hreq Hwait]. split.
  - apply wf_requests_audios; [|assumption].
    intros a. unfold stop_playing. now destruct (a_state a).
  - intros j' a' Hj' Hor. cbn [audios with_audios at_await] in *.
    destruct (lookup_alter_inv _ _ _ _ _ Hj') as [[Hne H]|[<- (x & Hx & ->)]]; [eauto|].
    apply (Hwait j x Hx). unfold stop_playing in Hor.
    destruct (a_state x) eqn:Ex; simpl in Hor; rewrite ?Ex in Hor;
      try (destruct Hor; [discriminate | auto]); auto.
Qed.

Lemma paused_aborted v j :
  aborted v = false ->
  with_audios (alter stop_playing j) (abort_local v) = abort_local v.
Proof.
  intros Hab. rewrite abort_local_eq by assumption.
  unfold with_audios. cbn [text chunks btn aborted at_await fetched resp audios].
  f_equal. apply list_eq. intros i.
  destruct (decide (j = i)) as [->|Hne];
    [rewrite list_lookup_alter_eq | now rewrite list_lookup_alter_ne].
  rewrite list_lookup_fmap. destruct (audios v !! i) as [a|]; [|reflexivity].
  simpl. f_equal. unfold stop_playing. simpl.
  destruct (a_state a) eqn:Ea; simpl; rewrite ?Ea; reflexivity.
Qed.

Lemma returned_unless_current s k v :
  invariant s -> invocations s !! k = Some v -> ttsAbort s <> Some k ->
  at_await v = Returned.
Proof.
  intros Hinv Hk Hne. destruct (at_await v) eqn:Hat; try reflexivity;
    exfalso; apply Hne; apply (inv_current _ Hinv k v Hk); rewrite Hat; discriminate.
Qed.

Lemma lookup_paused (o : option (nat * nat)) (l : list invocation) k v' :
  match o with
  | Some (kc, j) => alter (with_audios (alter stop_playing j)) kc l
  | None => l
  end !! k = Some v' ->
  exists v, l !! k = Some v /\
    (v' = v \/ exists j, v' = with_audios (alter stop_playing j) v).
Proof.
  destruct o as [[kc j]|]; [|eauto].
  intros H. destruct (lookup_alter_inv _ _ _ _ _ H) as [[_ H']|[<- (x & Hx & ->)]]; eauto.
Qed.

(** After the teardown every record is well formed and has returned. *)
Lemma settled_returned s k v' :
  invariant s -> settled s !! k = Some v' ->
  wf v' /\ at_await v' = Returned.
Proof.
  intros Hinv Hk. unfold settled, made_ready, stopped in Hk.
  assert (Hplain : forall v, invocations s !! k = Some v -> at_await v = Returned ->
            forall v', (v' = v \/ exists j, v' = with_audios (alter stop_playing j) v) ->
            wf v' /\ at_await v' = Returned).
  { intros v Hv Hret v0 [->|[j ->]].
    - split; [exact (inv_wf _ Hinv _ _ Hv) | exact Hret].
    - split; [apply wf_paused; exact (inv_wf _ Hinv _ _ Hv) | exact Hret]. }
  destruct (ttsAbort s) as [a|] eqn:Ha.
  2:{ simpl in Hk. destruct (lookup_paused _ _ _ _ Hk) as (v & Hv & Hor).
      apply (Hplain v Hv); [|exact Hor].
      apply (returned_unless_current s k v Hinv Hv). rewrite Ha. discriminate. }
  destruct (invocations s !! a) as [va|] eqn:Hva.
  2:{ simpl in Hk. rewrite (alter_absent _ _ _ Hva) in Hk.
      destruct (lookup_paused _ _ _ _ Hk) as (v & Hv & Hor).
      apply (Hplain v Hv); [|exact Hor].
      apply (returned_unless_current s k v Hinv Hv). rewrite Ha. intros [= <-]. congruence. }
  destruct (aborted va) eqn:Hab.
  - simpl in Hk.
    rewrite (alter_self abort_local _ _ va Hva) in Hk
      by (unfold abort_local; now rewrite Hab).
    destruct (lookup_paused _ _ _ _ Hk) as (v & Hv & Hor).
    apply (Hplain v Hv); [|exact Hor].
    destruct (decide (k = a)) as [->|Hne].
    + assert (v = va) by congruence. subst v.
      destruct (at_await va) eqn:Hat; try reflexivity;
        pose proof (wf_running _ (proj1 (inv_wf _ Hinv _ _ Hva))) as Hrun;
        unfold running_ok in Hrun; rewrite Hat in Hrun;
        specialize (Hrun ltac:(discriminate)); congruence.
    + apply (returned_unless_current s k v Hinv Hv). rewrite Ha. congruence.
  - simpl in Hk.
    destruct (lookup_alter_inv _ _ _ _ _ Hk) as [[Hne Hk']|[<- (x & Hx & ->)]].
    + destruct (lookup_paused _ _ _ _ Hk') as (v & Hv & Hor).
      rewrite list_lookup_alter_ne in Hv by assumption.
      apply (Hplain v Hv); [|exact Hor].
      apply (returned_unless_current s k v Hinv Hv). rewrite Ha. congruence.
    + destruct (lookup_paused _ _ _ _ Hx) as (v & Hv & Hor).
      rewrite list_lookup_alter_eq, Hva in Hv. injection Hv as <-.
      assert (x = abort_local va) as ->.
      { destruct Hor as [->|[j ->]]; [reflexivity | now apply paused_aborted]. }
      split; [apply wf_aborted; exact (inv_wf _ Hinv _ _ Hva)|].
      now rewrite resume_abort_eq.
Qed.

Lemma length_settled s : length (settled s) = length (invocations s).
Proof.
  unfold settled, made_ready, stopped.
  destruct (ttsAbort s) as [a|];
    [destruct (invocations s !! a) as [va|]; [destruct (aborted va)|]|];
    destruct (currentAudio s) as [[k j]|]; simpl;
    rewrite ?length_alter; reflexivity.
Qed.

Lemma invariant_stop s : invariant s -> invariant (run StopTTS s).
Proof.
  intros Hinv. pose proof (inv_queue _ Hinv) as Hq.
  assert (Hrec : invocations (run StopTTS s) = settled s).
  { unfold run. cbn [handle]. rewrite invocations_drain, stopTTS_microtasks,
      stopTTS_invocations, Hq. reflexivity. }
  split.
  - apply microtasks_drain.
  - intros k v Hk. rewrite Hrec in Hk. exact (proj1 (settled_returned s k v Hinv Hk)).
  - intros k v Hk Hat. rewrite Hrec in Hk.
    destruct (settled_returned s k v Hinv Hk) as [_ Hret]. contradiction.
Qed.

Lemma length_stopped s : length (stopped s) = length (invocations s).
Proof.
  unfold stopped.
  destruct (ttsAbort s) as [a|]; destruct (currentAudio s) as [[k j]|]; simpl;
    rewrite ?length_alter; reflexivity.
Qed.

Lemma alter_last {A} (g : A -> A) (l : list A) x :
  alter g (length l) (l ++ [x]) = l ++ [g x].
Proof.
  replace (length l) with (length l + 0)%nat at 1 by lia.
  now rewrite alter_app_r.
Qed.

Lemma playTTS_invocations t b s :
  invocations (playTTS t b s) = stopped s ++ [started t b].
Proof.
  unfold playTTS. rewrite acts_on_loop_top, acts_on_issue_fetch.
  cbn [invocations log with_buttons set_ttsAbort with_invocations].
  rewrite stopTTS_invocations, !alter_last. reflexivity.
Qed.

Lemma playTTS_microtasks t b s :
  microtasks (playTTS t b s) = microtasks s ++ made_ready s.
Proof.
  unfold playTTS.
  rewrite (proj2 (quiet_loop_top _ _ _)).
  cbn [microtasks issue_fetch log with_inv with_buttons set_ttsAbort with_invocations].
  apply stopTTS_microtasks.
Qed.

Lemma playTTS_ttsAbort t b s :
  ttsAbort (playTTS t b s) = Some (length (invocations s)).
Proof.
  unfold playTTS.
  rewrite (proj1 (quiet_loop_top _ _ _)).
  cbn [ttsAbort issue_fetch log with_inv with_buttons set_ttsAbort with_invocations].
  now rewrite stopTTS_invocations, length_stopped.
Qed.

Lemma made_ready_lt s a : In a (made_ready s) -> (a < length (invocations s))%nat.
Proof.
  unfold made_ready. destruct (ttsAbort s) as [a'|]; [|intros []].
  destruct (invocations s !! a') as [v|] eqn:E; [|intros []].
  destruct (aborted v); [intros []|]. intros [<-|[]].
  apply lookup_lt_is_Some. eauto.
Qed.

Lemma run_play_invocations t b s :
  microtasks s = [] ->
  invocations (run (PlayTTS t b) s) = settled s ++ [started t b].
Proof.
  intros Hq. unfold run. cbn [handle].
  rewrite invocations_drain, playTTS_microtasks, playTTS_invocations, Hq.
  cbn [app]. unfold settled.
  pose proof (made_ready_lt s) as Hlt. rewrite <- length_stopped in Hlt.
  revert Hlt. generalize (stopped s) as l. generalize (made_ready s) as q.
  induction q as [|a q IH]; intros l Hlt; [reflexivity|].
  simpl. rewrite alter_app_l by (apply Hlt; now left).
  apply IH. intros a' Ha'. rewrite length_alter. apply Hlt. now right.
Qed.

Lemma invariant_play t b s : invariant s -> invariant (run (PlayTTS t b) s).
Proof.
  intros Hinv. pose proof (inv_queue _ Hinv) as Hq.
  pose proof (run_play_invocations t b s Hq) as Hrec.
  assert (Htts : ttsAbort (run (PlayTTS t b) s) = Some (length (settled s))).
  { unfold run. cbn [handle]. rewrite ttsAbort_drain, playTTS_ttsAbort.
    now rewrite length_settled. }
  split.
  - apply microtasks_drain.
  - intros k v Hk. rewrite Hrec in Hk. apply lookup_app_Some in Hk.
    destruct Hk as [Hk|[_ Hk]].
    + exact (proj1 (settled_returned s k v Hinv Hk)).
    + destruct (k - length (settled s))%nat; simpl in Hk;
        [|rewrite lookup_nil in Hk; discriminate].
      injection Hk as <-. apply wf_started.
  - intros k v Hk Hat. rewrite Hrec in Hk. rewrite Htts.
    apply lookup_app_Some in Hk. destruct Hk as [Hk|[Hge Hk]].
    + destruct (settled_returned s k v Hinv Hk) as [_ Hret]. contradiction.
    + pose proof (lookup_lt_Some _ _ _ Hk) as Hlt. simpl in Hlt. f_equal. lia.
Qed.

Lemma invariant_init : invariant init.
Proof.
  split; [reflexivity|..]; intros k v H; cbn in H; rewrite lookup_nil in H; discriminate.
Qed.

Lemma invariant_step s s' : invariant s -> step s s' -> invariant s'.
Proof.
  intros Hinv Hstep. destruct Hstep as [l s Hen].
  destruct (is_call l) eqn:Hl; [|apply invariant_local; assumption].
  destruct l; try discriminate; [now apply invariant_play | now apply invariant_stop].
Qed.

Lemma reachable_invariant s : reachable s -> invariant s.
Proof.
  induction 1 as [|s s' _ IH Hstep]; [apply invariant_init|].
  eapply invariant_step; eauto.
Qed.

(** *** The calls of each piece *)

Lemma trace_after_loop k s :
  trace (after_loop k s) =
  trace s ++ from_option after_loop_events [] (invocations s !! k).
Proof.
  unfold after_loop, after_loop_events.
  destruct (invocations s !! k) as [v|]; simpl; [|now rewrite app_nil_r].
  destruct (aborted v); simpl; [now rewrite app_nil_r | reflexivity].
Qed.

Lemma trace_catch_block k e s :
  trace (catch_block k e s) =
  trace s ++ from_option (catch_events k e) [] (invocations s !! k).
Proof.
  unfold catch_block, catch_events.
  destruct (invocations s !! k) as [v|]; simpl; [|now rewrite app_nil_r].
  destruct e, (aborted v); simpl; rewrite ?app_nil_r, <- ?app_assoc; reflexivity.
Qed.

Lemma trace_on_response k i s :
  trace (on_response k i s) =
  trace s ++ from_option (on_response_events k i) [] (invocations s !! k).
Proof.
  unfold on_response, on_response_events.
  destruct (invocations s !! k) as [v|]; simpl; [|now rewrite app_nil_r].
  destruct (S i <? length (chunks v))%nat; simpl; rewrite <- ?app_assoc; reflexivity.
Qed.

Lemma trace_await_next k i s :
  trace (await_next k i s) =
  trace s ++ from_option (await_next_events k i) [] (invocations s !! k).
Proof.
  unfold await_next, await_next_events.
  destruct (invocations s !! k) as [v|] eqn:E; simpl; [|now rewrite app_nil_r].
  destruct (f_state <$> fetched v !! nextResp v) as [[|[|]|ok| | |]|];
    rewrite ?trace_on_response, ?trace_catch_block, ?E; simpl;
    rewrite ?app_nil_r; reflexivity.
Qed.

Lemma trace_loop_top k i s :
  trace (loop_top k i s) =
  trace s ++ from_option (loop_top_events k i) [] (invocations s !! k).
Proof.
  unfold loop_top, loop_top_events.
  destruct (invocations s !! k) as [v|] eqn:E; simpl; [|now rewrite app_nil_r].
  destruct (i <? length (chunks v))%nat; [destruct (aborted v)|];
    rewrite ?trace_after_loop, ?trace_await_next, E; reflexivity.
Qed.

Lemma trace_after_blob k i s :
  trace (after_blob k i s) =
  trace s ++ from_option (after_blob_events k i) [] (invocations s !! k).
Proof.
  unfold after_blob, after_blob_events.
  destruct (invocations s !! k) as [v|] eqn:E; simpl; [|now rewrite app_nil_r].
  destruct (aborted v); [now rewrite trace_after_loop, E|].
  destruct (i =? 0)%nat; simpl; rewrite <- ?app_assoc; reflexivity.
Qed.

Lemma trace_resolve k j s :
  trace (resolve k j s) =
  trace s ++ from_option (resolve_events k j) [] (invocations s !! k).
Proof.
  unfold resolve, resolve_events.
  destruct (invocations s !! k) as [v|] eqn:E; simpl; [|now rewrite app_nil_r].
  destruct (at_await v) as [i|i|i|i j'|]; rewrite ?app_nil_r; try reflexivity.
  destruct (j =? j')%nat; [|now rewrite app_nil_r].
  now rewrite trace_loop_top, E.
Qed.

Lemma trace_resume k s :
  trace (resume_aborted s k) =
  trace s ++ from_option (resume_events k) [] (invocations s !! k).
Proof.
  unfold resume_aborted, resume_events.
  destruct (invocations s !! k) as [v|] eqn:E; simpl; [|now rewrite app_nil_r].
  destruct (at_await v) as [i|i|i|i j'|];
    rewrite ?trace_catch_block, ?trace_loop_top, ?E, ?app_nil_r; reflexivity.
Qed.

Lemma trace_listeners k js : forall s,
  trace (fold_left (abort_listener k) js s) =
  trace s ++ flat_map (fun j => [EPause k j; ERevoke k j]) js.
Proof.
  induction js as [|j js IH]; intros s; simpl; [now rewrite app_nil_r|].
  rewrite IH. cbn [trace abort_listener revoke pause log with_audio with_inv with_invocations].
  now rewrite <- !app_assoc.
Qed.

Lemma trace_abort k s :
  trace (abort k s) = trace s ++ from_option (abort_events k) [] (invocations s !! k).
Proof.
  unfold abort, abort_events.
  destruct (invocations s !! k) as [v|]; simpl; [|now rewrite app_nil_r].
  destruct (aborted v); [now rewrite app_nil_r|].
  cbn [trace set_microtasks]. rewrite trace_listeners.
  cbn [trace log with_inv with_invocations].
  now rewrite <- app_assoc.
Qed.

Lemma trace_reset_selected s :
  trace (reset_selected s) = trace s ++ (reset_from 0 (buttons s)).2.
Proof. unfold reset_selected. now destruct (reset_from 0 (buttons s)). Qed.

Lemma trace_stopTTS s : trace (stopTTS s) = trace s ++ stop_events s.
Proof.
  unfold stopTTS, stop_events. rewrite trace_reset_selected.
  destruct (ttsAbort s) as [a|].
  - cbn [currentAudio set_ttsAbort]. rewrite currentAudio_abort.
    destruct (currentAudio s) as [[k j]|];
      cbn [trace buttons set_currentAudio set_ttsAbort pause log with_audio with_inv
           with_invocations];
      rewrite buttons_abort, trace_abort, <- !app_assoc; reflexivity.
  - destruct (currentAudio s) as [[k j]|];
      cbn [trace buttons set_currentAudio pause log with_audio with_inv with_invocations app];
      rewrite <- ?app_assoc; reflexivity.
Qed.

Lemma audio_at_lookup k j s a :
  audio_at k j s = Some a -> exists v, invocations s !! k = Some v /\ audios v !! j = Some a.
Proof.
  unfold audio_at. destruct (invocations s !! k) as [v|]; simpl; [eauto | discriminate].
Qed.

Lemma is_playing_lookup k j s :
  is_playing k j s = true ->
  exists v a, invocations s !! k = Some v /\ audios v !! j = Some a /\ a_state a = Playing.
Proof.
  unfold is_playing. destruct (audio_at k j s) as [a|] eqn:E; simpl; [|discriminate].
  destruct (audio_at_lookup _ _ _ _ E) as (v & Hv & Ha).
  destruct (a_state a) eqn:Es; try discriminate. eauto.
Qed.

Lemma play_pending_lookup k j s :
  match play_pending <$> audio_at k j s with Some true => true | _ => false end = true ->
  exists v a, invocations s !! k = Some v /\ audios v !! j = Some a /\ play_pending a = true.
Proof.
  destruct (audio_at k j s) as [a|] eqn:E; simpl; [|discriminate].
  destruct (audio_at_lookup _ _ _ _ E) as (v & Hv & Ha).
  destruct (play_pending a) eqn:Es; try discriminate. eauto.
Qed.

Lemma trace_revoke_resolve k j g s v :
  invocations s !! k = Some v ->
  trace (resolve k j (revoke k j (with_audio k j g s))) =
  trace s ++ ERevoke k j :: resolve_events k j v.
Proof.
  intros E. rewrite trace_resolve.
  cbn [trace invocations revoke log with_audio with_inv with_invocations].
  rewrite !list_lookup_alter_eq, E. simpl. now rewrite <- app_assoc.
Qed.

Lemma trace_handle l s :
  is_call l = false -> enabled l s = true ->
  trace (handle l s) =
  trace s ++ from_option (label_events l) [] (invocations s !! subject l).
Proof.
  intros Hl Hen.
  destruct l as [t|t b| | |k j ok|k j|k|k|k|k j|k j|k j|k j];
    try discriminate; cbn [handle subject label_events].
  - cbn. destruct (invocations s !! 0%nat); now rewrite app_nil_r.
  - cbn. destruct (invocations s !! 0%nat); now rewrite app_nil_r.
  - unfold awaits_fetch. destruct (invocations s !! k) as [v|] eqn:E; simpl;
      [|now rewrite app_nil_r].
    destruct (at_await v) as [i|i|i|i j'|]; try (cbn; now rewrite app_nil_r).
    destruct (nextResp v =? j)%nat; [|cbn; now rewrite app_nil_r].
    rewrite trace_await_next. cbn [trace invocations with_fetch with_inv with_invocations].
    now rewrite list_lookup_alter_eq, E.
  - unfold awaits_fetch. destruct (invocations s !! k) as [v|] eqn:E; simpl;
      [|now rewrite app_nil_r].
    destruct (at_await v) as [i|i|i|i j'|]; try (cbn; now rewrite app_nil_r).
    destruct (nextResp v =? j)%nat; [|cbn; now rewrite app_nil_r].
    rewrite trace_await_next. cbn [trace invocations with_fetch with_inv with_invocations].
    now rewrite list_lookup_alter_eq, E.
  - unfold chunk_at, resp_of. destruct (invocations s !! k) as [v|] eqn:E; simpl;
      [|now rewrite app_nil_r].
    destruct (at_await v) as [i|i|i|i j'|]; try (now rewrite app_nil_r);
      rewrite trace_after_blob; cbn [trace invocations with_fetch with_inv with_invocations];
      now rewrite list_lookup_alter_eq, E.
  - rewrite trace_catch_block. cbn [trace invocations with_fetch with_inv with_invocations].
    rewrite list_lookup_alter_eq. now destruct (invocations s !! k).
  - rewrite trace_catch_block. cbn [trace invocations with_fetch with_inv with_invocations].
    rewrite list_lookup_alter_eq. now destruct (invocations s !! k).
  - destruct (is_playing_lookup _ _ _ Hen) as (v & a & E & _).
    rewrite (trace_revoke_resolve _ _ _ _ _ E), E. reflexivity.
  - destruct (is_playing_lookup _ _ _ Hen) as (v & a & E & _).
    rewrite (trace_revoke_resolve _ _ _ _ _ E), E. reflexivity.
  - cbn. destruct (invocations s !! k); now rewrite app_nil_r.
  - destruct (play_pending_lookup _ _ _ Hen) as (v & a & E & _).
    rewrite (trace_revoke_resolve _ _ _ _ _ E), E. reflexivity.
Qed.

Lemma stopped_current s a v :
  ttsAbort s = Some a -> invocations s !! a = Some v -> aborted v = false ->
  stopped s !! a = Some (abort_local v).
Proof.
  intros Ha Hv Hab. unfold stopped. rewrite Ha.
  destruct (currentAudio s) as [[k j]|].
  - destruct (decide (k = a)) as [->|Hne].
    + rewrite !list_lookup_alter_eq, Hv. simpl. now rewrite paused_aborted.
    + rewrite list_lookup_alter_ne by assumption.
      now rewrite list_lookup_alter_eq, Hv.
  - now rewrite list_lookup_alter_eq, Hv.
Qed.

Lemma made_ready_cases s :
  made_ready s = [] \/
  exists a v, made_ready s = [a] /\ ttsAbort s = Some a /\
              invocations s !! a = Some v /\ aborted v = false.
Proof.
  unfold made_ready. destruct (ttsAbort s) as [a|]; [|now left].
  destruct (invocations s !! a) as [v|] eqn:E; [|now left].
  destruct (aborted v) eqn:Hab; [now left|]. right. eauto 6.
Qed.

Lemma trace_playTTS t b s :
  trace (playTTS t b s) =
  trace (stopTTS s) ++ [ELoading b; EFetch (length (invocations s)) 0].
Proof.
  unfold playTTS. rewrite trace_loop_top, acts_on_issue_fetch.
  cbn [invocations trace issue_fetch log with_inv with_buttons set_ttsAbort with_invocations].
  rewrite alter_last, stopTTS_invocations, length_stopped.
  rewrite lookup_app_r by (rewrite length_stopped; lia).
  rewrite length_stopped, Nat.sub_diag. cbn [lookup list_lookup from_option].
  unfold loop_top_events, issue_local.
  cbn [chunks aborted fetched with_fetched app].
  pose proof (length_chunks_started t) as Hn.
  destruct (0 <? length (splitBySentence t))%nat eqn:E;
    [|apply Nat.ltb_ge in E; lia].
  cbn. now rewrite app_nil_r, <- app_assoc.
Qed.

Lemma trace_drain_nil s : microtasks s = [] -> trace (drain s) = trace s.
Proof. intros H. unfold drain. now rewrite H. Qed.

Lemma trace_run l s :
  invariant s -> is_call l = true \/ enabled l s = true ->
  trace (run l s) = trace s ++ task_events l s.
Proof.
  intros Hinv Hen. pose proof (inv_queue _ Hinv) as Hq.
  destruct (is_call l) eqn:Hl.
  - destruct l; try discriminate; unfold run, drain; cbn [handle task_events trace set_microtasks].
    + rewrite playTTS_microtasks, Hq. cbn [app]. unfold resumed_events.
      destruct (made_ready_cases s) as [->|(a & v & -> & Ha & Hv & Hab)].
      * cbn. rewrite trace_playTTS, trace_stopTTS. now rewrite <- !app_assoc.
      * cbn [fold_left flat_map]. rewrite trace_resume, playTTS_invocations.
        rewrite trace_playTTS, trace_stopTTS.
        rewrite lookup_app_l
          by (rewrite length_stopped; apply lookup_lt_is_Some; eauto).
        rewrite app_nil_r, <- !app_assoc. reflexivity.
    + rewrite stopTTS_microtasks, Hq. cbn [app]. unfold resumed_events.
      destruct (made_ready_cases s) as [->|(a & v & -> & Ha & Hv & Hab)].
      * cbn. now rewrite trace_stopTTS, app_nil_r.
      * cbn [fold_left flat_map]. rewrite trace_resume, stopTTS_invocations.
        rewrite trace_stopTTS, app_nil_r, <- !app_assoc. reflexivity.
  - unfold run. rewrite trace_drain_nil
      by (rewrite (proj2 (handle_quiet l Hl s)); exact Hq).
    rewrite trace_handle by (destruct Hen; [congruence | assumption]).
    destruct l; try discriminate; reflexivity.
Qed.

(** *** One invocation, task by task *)

Lemma resumes_await k v i t :
  aborted v = false -> length (fetched v) = S i -> (i < length (chunks v))%nat ->
  state_at v i = Some t -> unsettled t ->
  resumes k v i (await_next_local i v) (await_next_events k i v).
Proof.
  intros Hab HF Hi Hst Ht.
  unfold await_next_local, await_next_events, nextResp. rewrite HF. cbn [pred].
  fold (state_at v i). rewrite Hst.
  destruct t as [|[|]|ok| | |]; try contradiction.
  - now apply resumes_wait.
  - now apply resumes_ok.
  - now apply resumes_refused.
  - unfold catch_events. rewrite Hab. now apply resumes_rejected.
Qed.

Lemma resumes_loop_top k v i :
  aborted v = false ->
  ((i < length (chunks v))%nat ->
   length (fetched v) = S i /\ exists t, state_at v i = Some t /\ unsettled t) ->
  resumes k v i (loop_top_local i v) (loop_top_events k i v).
Proof.
  intros Hab Hpre. unfold loop_top_local, loop_top_events. rewrite Hab.
  destruct (i <? length (chunks v))%nat eqn:Hn.
  - apply Nat.ltb_lt in Hn. destruct (Hpre Hn) as (HF & t & Hst & Ht).
    now apply (resumes_await k v i t).
  - apply Nat.ltb_ge in Hn. unfold after_loop_events. rewrite Hab.
    now apply resumes_done.
Qed.

(** The end of a playback, as seen from the invocation that waits for it. *)
Lemma moves_resolved k v g i j :
  wf v -> unread v -> at_await v = AwaitPlayback i j ->
  moves k v (resolve_local j (with_audios (alter g j) v))
        (ERevoke k j :: resolve_events k j v).
Proof.
  intros [Hreq Hwait] Hunread Hat.
  pose proof (wf_shape _ Hreq) as Hshape. unfold at_shape in Hshape.
  rewrite Hat in Hshape. destruct Hshape as (Hi & -> & HF & HA).
  assert (Hab : aborted v = false)
    by (apply (wf_running _ Hreq); rewrite Hat; discriminate).
  unfold resolve_local, resolve_events. cbn [at_await with_audios]. rewrite Hat.
  rewrite Nat.eqb_refl.
  apply (moves_over k v i i g); [assumption|].
  change (loop_top_events k (S i) v)
    with (loop_top_events k (S i) (with_audios (alter g i) v)).
  apply resumes_loop_top; [exact Hab|].
  cbn [chunks fetched with_audios]. intros Hn.
  assert (HF' : length (fetched v) = S (S i)).
  { rewrite HF. destruct (S i <? length (chunks v))%nat eqn:E; [reflexivity|].
    apply Nat.ltb_ge in E. lia. }
  split; [exact HF'|].
  destruct (lookup_lt_is_Some_2 (fetched v) (S i) ltac:(lia)) as [f Hf].
  exists (f_state f). split.
  - unfold state_at. cbn [fetched with_audios]. now rewrite Hf.
  - apply (Hunread (S i) (f_state f)).
    + unfold state_at. now rewrite Hf.
    + rewrite Hat. discriminate.
    + lia.
Qed.

Lemma label_moves l s v :
  is_call l = false -> enabled l s = true ->
  invocations s !! subject l = Some v -> wf v -> unread v ->
  moves (subject l) v (local_effect l v) (label_events l v).
Proof.
  intros Hl Hen E Hwf Hunread. pose proof Hwf as [Hreq Hwait].
  assert (Hrun : at_await v <> Returned -> aborted v = false)
    by exact (wf_running _ Hreq).
  pose proof (wf_shape _ Hreq) as Hshape. unfold at_shape in Hshape.
  assert (Hsettled : forall k j t, state_at v j = Some Pending ->
            unsettled t -> t <> Pending ->
            moves k v
              match at_await v with
              | AwaitFetch i =>
                  if (nextResp v =? j)%nat then await_next_local i (mark j t v)
                  else mark j t v
              | _ => mark j t v
              end
              match at_await v with
              | AwaitFetch i =>
                  if (nextResp v =? j)%nat then await_next_events k i (mark j t v)
                  else []
              | _ => []
              end).
  { intros k j t Hp Ht Hne.
    pose proof (pending_is_last _ _ Hreq Hp) as Hlast.
    destruct (at_await v) as [i|i|i|i j'|] eqn:Hat;
      try (apply moves_noted; [assumption | rewrite Hat; discriminate | assumption]).
    destruct Hshape as (Hi & HF & HA & Hst).
    assert (j = i) by lia. subst j.
    replace (nextResp v =? i)%nat with true
      by (symmetry; apply Nat.eqb_eq; unfold nextResp; rewrite HF; reflexivity).
    apply (moves_settled k v i t); [assumption..|].
    apply (resumes_await k (mark i t v) i t); try assumption.
    - apply Hrun. discriminate.
    - unfold mark. cbn [fetched with_fetched]. now rewrite length_alter.
    - rewrite state_at_mark, decide_True, Hst by reflexivity. reflexivity. }
  destruct l as [t|t b| | |k j ok|k j|k|k|k|k j|k j|k j|k j];
    try discriminate; cbn [local_effect label_events subject enabled] in *.
  - apply moves_none.
  - apply moves_none.
  - apply Hsettled; [exact (is_pending_state _ _ _ _ E Hen) | exact I | discriminate].
  - apply Hsettled; [exact (is_pending_state _ _ _ _ E Hen) | exact I | discriminate].
  - destruct (reading_body_at _ _ _ E Hen) as [i Hat]. rewrite Hat in *.
    destruct Hshape as (Hi & HF & HA & Hr & Hst).
    rewrite Hr. unfold after_blob_local, after_blob_events, mark.
    cbn [aborted btn audios with_fetched]. rewrite Hrun, HA by discriminate.
    apply moves_body. assumption.
  - destruct (reading_body_at _ _ _ E Hen) as [i Hat]. rewrite Hat in *.
    destruct Hshape as (Hi & HF & HA & Hr & Hst).
    rewrite Hr. unfold catch_events. rewrite Hrun by discriminate.
    apply moves_failed. left. now rewrite Hat.
  - destruct (reading_error_at _ _ _ E Hen) as [i Hat]. rewrite Hat in *.
    destruct Hshape as (Hi & HF & HA & Hr & Hst).
    rewrite Hr. unfold catch_events. rewrite Hrun by discriminate.
    apply moves_failed. right. now rewrite Hat.
  - destruct (is_playing_lookup _ _ _ Hen) as (v0 & a & Hv0 & Ha & Hplay).
    assert (v0 = v) by congruence. subst v0.
    destruct (Hwait j a Ha (or_introl Hplay)) as [i Hat].
    now apply (moves_resolved k v _ i j).
  - destruct (is_playing_lookup _ _ _ Hen) as (v0 & a & Hv0 & Ha & Hplay).
    assert (v0 = v) by congruence. subst v0.
    destruct (Hwait j a Ha (or_introl Hplay)) as [i Hat].
    now apply (moves_resolved k v _ i j).
  - apply moves_element. now left.
  - destruct (at_await v) as [i|i|i|i j'|] eqn:Hat;
      try (unfold resolve_local, resolve_events; cbn [at_await with_audios];
           rewrite Hat; apply moves_element; now right).
    destruct (decide (j = j')) as [->|Hne].
    + now apply (moves_resolved k v _ i j').
    + unfold resolve_local, resolve_events. cbn [at_await with_audios]. rewrite Hat.
      replace (j =? j')%nat with false by (symmetry; now apply Nat.eqb_neq).
      apply moves_element. now right.
Qed.

(** *** The order of the calls *)

Lemma before_app e1 e2 tr es :
  before e1 e2 tr -> before e1 e2 es -> before e1 e2 (tr ++ es).
Proof.
  intros Ht He p Hp. apply lookup_app_Some in Hp.
  destruct Hp as [Hp|[Hge Hp]].
  - destruct (Ht p Hp) as (q & Hq & Hq'). exists q. split; [assumption|].
    now apply lookup_app_l_Some.
  - destruct (He _ Hp) as (q & Hq & Hq'). exists (length tr + q)%nat.
    split; [lia|]. rewrite lookup_app_r by lia.
    now replace (length tr + q - length tr)%nat with q by lia.
Qed.

Lemma before_absent e1 e2 es : ~ In e2 es -> before e1 e2 es.
Proof.
  intros Hno p Hp. exfalso. apply Hno.
  apply list_elem_of_In. eapply list_elem_of_lookup_2. exact Hp.
Qed.

Lemma before_present e1 e2 tr es :
  In e1 tr -> before e1 e2 tr -> before e1 e2 (tr ++ es).
Proof.
  intros Hin Ht p Hp. apply lookup_app_Some in Hp.
  destruct Hp as [Hp|[Hge Hp]].
  - destruct (Ht p Hp) as (q & Hq & Hq'). exists q. split; [assumption|].
    now apply lookup_app_l_Some.
  - apply list_elem_of_In, list_elem_of_lookup_1 in Hin. destruct Hin as [q Hq].
    exists q. split.
    + pose proof (lookup_lt_Some _ _ _ Hq). lia.
    + now apply lookup_app_l_Some.
Qed.

Lemma before_pair e1 e2 : e1 <> e2 -> before e1 e2 [e1; e2].
Proof.
  intros Hne [|[|p]] Hp; simpl in Hp.
  - congruence.
  - exists 0%nat. split; [lia | reflexivity].
  - rewrite lookup_nil in Hp. discriminate.
Qed.

Lemma first_kept k tr es :
  (In (EFetch k 0) tr /\
   forall i, before (EFetch k 0) (EFetch k (S i)) tr /\
             before (EFetch k 0) (EBlob k i) tr /\
             forall j, before (EFetch k 0) (EPlay k i j) tr) ->
  In (EFetch k 0) (tr ++ es) /\
  forall i, before (EFetch k 0) (EFetch k (S i)) (tr ++ es) /\
            before (EFetch k 0) (EBlob k i) (tr ++ es) /\
            forall j, before (EFetch k 0) (EPlay k i j) (tr ++ es).
Proof.
  intros [Hin H]. split; [apply in_app_iff; now left|].
  intros i. destruct (H i) as (Hf & Hb & Hp).
  split; [|split; [|intros j]]; apply before_present; auto.
Qed.

(** Calls that are not those of invocation [k] leave its chronicle as it
    is, whatever happens to the rest of its record. *)
Lemma chronicled_intro k v v' tr es :
  chronicled k v tr -> Forall (foreign k) es ->
  chunks v' = chunks v -> length (fetched v') = length (fetched v) ->
  length (audios v') = length (audios v) ->
  (at_await v' = Returned -> aborted v' = false ->
   (forall j t, state_at v' j = Some t -> t = Complete true) \/
   In (EConsoleError k) (tr ++ es)) ->
  chronicled k v' (tr ++ es).
Proof.
  intros [H1 H2 H3 H4 H5] Hes Hc HF HA Hrep.
  assert (Hno : forall e, In e es -> foreign k e)
    by (intros e He; rewrite Forall_forall in Hes; apply Hes; now apply list_elem_of_In).
  split.
  - intros i. rewrite in_app_iff, HF, <- H1. split; [|auto].
    intros [H|H]; [assumption|]. now destruct (Hno _ H).
  - intros i j Hin. rewrite HA. apply in_app_iff in Hin.
    destruct Hin as [H|H]; [eauto|]. now destruct (Hno _ H).
  - intros i Hi. rewrite Hc in Hi. destruct (H3 i Hi) as [Hb Hp]. split.
    + apply before_app; [assumption|]. apply before_absent.
      intros H. now destruct (Hno _ H).
    + intros j. apply before_app; [apply Hp|]. apply before_absent.
      intros H. now destruct (Hno _ H).
  - exact Hrep.
  - now apply first_kept.
Qed.

Lemma chronicled_same k v v' tr :
  chronicled k v tr ->
  chunks v' = chunks v -> length (fetched v') = length (fetched v) ->
  length (audios v') = length (audios v) -> at_await v' <> Returned ->
  chronicled k v' tr.
Proof.
  intros H Hc HF HA Hat. rewrite <- (app_nil_r tr).
  apply (chronicled_intro k v); try assumption; [constructor|].
  intros Hret. contradiction.
Qed.

Lemma chronicled_on_response k v i tr :
  chronicled k v tr -> length (fetched v) = S i ->
  chronicled k (on_response_local i v) (tr ++ on_response_events k i v).
Proof.
  intros [H1 H2 H3 H4 H5] HF.
  pose proof (first_kept k tr (on_response_events k i v) H5) as H5'.
  revert H5'.
  unfold on_response_local, on_response_events, issue_local.
  destruct (S i <? length (chunks v))%nat eqn:Hn.
  - intros H5'. apply Nat.ltb_lt in Hn. split;
      cbn [chunks fetched audios at_await set_at set_resp with_fetched app].
    + intros i'. rewrite in_app_iff, length_app, HF, H1, HF. simpl. split.
      * intros [H|[[= <-]|[H|[]]]]; [lia | lia | discriminate].
      * intros H. destruct (decide (i' = S i)) as [->|Hne]; [auto|]. left. lia.
    + intros i' j Hin. apply in_app_iff in Hin.
      destruct Hin as [H|[H|[H|[]]]]; [eauto | discriminate..].
    + intros i' Hi'. destruct (H3 i' Hi') as [Hb Hp]. split.
      * apply before_app; [assumption|].
        destruct (decide (i' = i)) as [->|Hne]; [now apply before_pair|].
        apply before_absent. intros [H|[[= H]|[]]]; [discriminate | congruence].
      * intros j. apply before_app; [apply Hp|]. apply before_absent.
        intros [H|[H|[]]]; discriminate.
    + discriminate.
    + exact H5'.
  - intros H5'. apply Nat.ltb_ge in Hn. split;
      cbn [chunks fetched audios at_await set_at set_resp with_fetched app].
    + intros i'. rewrite in_app_iff, H1. split; [|auto].
      intros [H|[H|[]]]; [assumption | discriminate].
    + intros i' j Hin. apply in_app_iff in Hin.
      destruct Hin as [H|[H|[]]]; [eauto | discriminate].
    + intros i' Hi'. destruct (H3 i' Hi') as [Hb Hp]. split.
      * apply before_app; [assumption|]. apply before_absent.
        intros [[= H]|[]]. lia.
      * intros j. apply before_app; [apply Hp|]. apply before_absent.
        intros [H|[]]; discriminate.
    + discriminate.
    + exact H5'.
Qed.

Lemma chronicled_resumes k v i v' es tr :
  chronicled k v tr ->
  ((i < length (chunks v))%nat -> length (fetched v) = S i) ->
  ((length (chunks v) <= i)%nat ->
   forall j t, state_at v j = Some t -> t = Complete true) ->
  resumes k v i v' es ->
  chronicled k v' (tr ++ es).
Proof.
  intros Hchr HF Hdone Hres.
  destruct Hres as [Hn|Hn Hst|Hn Hst|Hn Hst|Hn Hst].
  - apply (chronicled_intro k v); try reflexivity; try assumption.
    + repeat constructor.
    + intros _ _. left. exact (Hdone Hn).
  - apply (chronicled_intro k v); try reflexivity; try assumption;
      [constructor | discriminate].
  - apply chronicled_on_response; auto.
  - apply (chronicled_intro k v); try reflexivity; try assumption;
      [constructor | discriminate].
  - apply (chronicled_intro k v); try reflexivity; try assumption.
    + repeat constructor.
    + intros _ _. right. apply in_app_iff. right. now left.
Qed.

Lemma chronicled_moves k v v' es tr :
  wf v -> chronicled k v tr -> moves k v v' es -> chronicled k v' (tr ++ es).
Proof.
  intros [Hreq Hwait] Hchr Hmv.
  pose proof (wf_shape _ Hreq) as Hshape. unfold at_shape in Hshape.
  destruct Hmv as [j t Hp Hat Ht|i t v' es Hat Ht Hne Hres|i Hat|i t Hor
                  |i j g v' es Hat Hres|g j es Hes|].
  - apply (chronicled_intro k v); try assumption; try reflexivity; [constructor| |].
    + unfold mark. cbn [fetched with_fetched]. now rewrite length_alter.
    + cbn [at_await mark with_fetched aborted]. intros Hret Hab. right.
      rewrite app_nil_r.
      destruct (chr_reported _ _ _ Hchr Hret Hab) as [Hall|Hin]; [|assumption].
      specialize (Hall j _ Hp). discriminate.
  - rewrite Hat in Hshape. destruct Hshape as (Hi & HF & HA & Hst).
    apply (chronicled_resumes k (mark i t v) i); try assumption.
    + apply (chronicled_same k v); try assumption; try reflexivity.
      * unfold mark. cbn [fetched with_fetched]. now rewrite length_alter.
      * cbn [at_await mark with_fetched]. rewrite Hat. discriminate.
    + intros _. unfold mark. cbn [fetched with_fetched]. now rewrite length_alter.
    + cbn [chunks mark with_fetched]. lia.
  - rewrite Hat in Hshape. destruct Hshape as (Hi & HF & HA & Hr & Hst).
    destruct Hchr as [H1 H2 H3 H4 H5].
    assert (Hes : forall e,
              In e ((if (i =? 0)%nat then [EPlaying (btn v)] else []) ++ [EPlay k i i]) ->
              e = EPlaying (btn v) \/ e = EPlay k i i).
    { intros e He. destruct (i =? 0)%nat; simpl in He;
        intuition (subst; auto). }
    split; cbn [chunks fetched audios at_await set_at with_audios mark with_fetched].
    + intros i'. rewrite in_app_iff, length_alter, <- H1. split; [|auto].
      intros [H|H]; [assumption|]. destruct (Hes _ H); discriminate.
    + intros i' j' Hin. rewrite length_app. simpl. apply in_app_iff in Hin.
      destruct Hin as [H|H]; [specialize (H2 _ _ H); lia|].
      destruct (Hes _ H) as [[=]|[= -> ->]]. lia.
    + intros i' Hi'. destruct (H3 i' Hi') as [Hb Hp]. split.
      * apply before_app; [assumption|]. apply before_absent.
        intros H. destruct (Hes _ H); discriminate.
      * intros j'. destruct (decide (i' = i)) as [->|Hne].
        -- apply before_present; [|apply Hp]. apply H1. rewrite HF.
           destruct (S i <? length (chunks v))%nat eqn:E; [lia|].
           apply Nat.ltb_ge in E. lia.
        -- apply before_app; [apply Hp|]. apply before_absent.
           intros H. destruct (Hes _ H) as [[=]|[=]]. congruence.
    + discriminate.
    + now apply first_kept.
  - apply (chronicled_intro k v); try assumption; try reflexivity.
    + repeat constructor.
    + unfold mark. cbn [fetched set_at with_fetched]. now rewrite length_alter.
    + intros _ _. right. apply in_app_iff. right. now left.
  - rewrite Hat in Hshape. destruct Hshape as (Hi & -> & HF & HA).
    replace (tr ++ ERevoke k i :: es) with ((tr ++ [ERevoke k i]) ++ es)
      by now rewrite <- app_assoc.
    assert (Hlen : (S i < length (chunks v))%nat -> length (fetched v) = S (S i)).
    { intros Hn. rewrite HF.
      destruct (S i <? length (chunks v))%nat eqn:E; [reflexivity|].
      apply Nat.ltb_ge in E. lia. }
    apply (chronicled_resumes k (with_audios (alter g i) v) (S i)); try assumption.
    + apply (chronicled_intro k v); try assumption; try reflexivity.
      * repeat constructor.
      * cbn [audios with_audios]. now rewrite length_alter.
      * cbn [at_await with_audios]. rewrite Hat. discriminate.
    + cbn [chunks fetched with_audios]. intros Hn j t Hst.
      change (state_at v j = Some t) in Hst.
      assert (HF' : length (fetched v) = S i).
      { rewrite HF. destruct (S i <? length (chunks v))%nat eqn:E; [|reflexivity].
        apply Nat.ltb_lt in E. lia. }
      pose proof (state_at_length _ _ _ Hst) as Hj.
      rewrite (ok_played _ (wf_lists _ Hreq) j) in Hst by lia.
      congruence.
  - apply (chronicled_intro k v); try assumption; try reflexivity.
    + destruct Hes as [->| ->]; repeat constructor.
    + cbn [audios with_audios]. now rewrite length_alter.
    + cbn [at_await aborted with_audios]. intros Hret Hab.
      change (forall j t, state_at (with_audios (alter g j) v) j = Some t -> t = Complete true)
        with (forall j t, state_at v j = Some t -> t = Complete true).
      destruct (chr_reported _ _ _ Hchr Hret Hab) as [Hall|Hin]; [now left|].
      right. apply in_app_iff. now left.
  - rewrite app_nil_r. assumption.
Qed.

Lemma chronicled_elsewhere k v tr es :
  chronicled k v tr -> Forall (foreign k) es -> chronicled k v (tr ++ es).
Proof.
  intros Hchr Hes. apply (chronicled_intro k v); try assumption; try reflexivity.
  intros Hret Hab. destruct (chr_reported _ _ _ Hchr Hret Hab) as [H|H]; [now left|].
  right. apply in_app_iff. now left.
Qed.

Lemma unread_audios v g j : unread v -> unread (with_audios (alter g j) v).
Proof.
  intros H j' t Hst Hat Hlen. cbn [audios at_await with_audios] in *.
  rewrite length_alter in Hlen. exact (H j' t Hst Hat Hlen).
Qed.

Lemma unread_mark v j t : unsettled t -> unread v -> unread (mark j t v).
Proof.
  intros Ht H j' t' Hst Hat Hlen. rewrite state_at_mark in Hst.
  cbn [audios at_await mark with_fetched] in *.
  destruct (decide (j = j')) as [->|Hne]; [|exact (H j' t' Hst Hat Hlen)].
  destruct (state_at v j'); simpl in Hst; [|discriminate]. now injection Hst as <-.
Qed.

Lemma unread_resumes k v i v' es :
  unread v -> at_await v <> Returned -> aborted v = false ->
  resumes k v i v' es -> unread v'.
Proof.
  intros H Hne Hab Hres.
  destruct Hres as [Hn|Hn Hst|Hn Hst|Hn Hst|Hn Hst];
    try (intros j t _ Hat; now destruct Hat);
    try (intros j t Hj _ Hlen; exact (H j t Hj Hne Hlen)).
  intros j t Hj _ Hlen. rewrite audios_on_response in Hlen.
  unfold on_response_local, issue_local, state_at in Hj.
  destruct (S i <? length (chunks v))%nat;
    cbn [fetched set_at set_resp with_fetched] in Hj;
    [|exact (H j t Hj Hne Hlen)].
  destruct (decide (j < length (fetched v))%nat) as [Hlt|Hge].
  - rewrite lookup_app_l in Hj by assumption. exact (H j t Hj Hne Hlen).
  - rewrite lookup_app_r in Hj by lia.
    cbn [aborted set_resp] in Hj. rewrite Hab in Hj.
    destruct (j - length (fetched v))%nat; simpl in Hj; [|discriminate].
    injection Hj as <-. exact I.
Qed.

Lemma unread_moves k v v' es : wf v -> unread v -> moves k v v' es -> unread v'.
Proof.
  intros [Hreq Hwait] H Hmv.
  pose proof (wf_shape _ Hreq) as Hshape. unfold at_shape in Hshape.
  pose proof (wf_running _ Hreq) as Hrun. unfold running_ok in Hrun.
  destruct Hmv as [j t Hp Hat Ht|i t v' es Hat Ht Hne Hres|i Hat|i t Hor
                  |i j g v' es Hat Hres|g j es Hes|].
  - now apply unread_mark.
  - apply (unread_resumes k (mark i t v) i v' es); try assumption.
    + now apply unread_mark.
    + cbn [at_await mark with_fetched]. rewrite Hat. discriminate.
    + cbn [aborted mark with_fetched]. apply Hrun. rewrite Hat. discriminate.
  - rewrite Hat in Hshape. destruct Hshape as (Hi & HF & HA & Hr & Hst).
    intros j t Hj _ Hlen.
    cbn [audios set_at with_audios mark with_fetched] in Hlen.
    rewrite length_app in Hlen. simpl in Hlen.
    change (state_at (mark i (Complete true) v) j = Some t) in Hj.
    rewrite state_at_mark_ne in Hj by lia.
    apply (H j t Hj); [rewrite Hat; discriminate | lia].
  - intros j t' _ Hne. now destruct Hne.
  - apply (unread_resumes k (with_audios (alter g j) v) (S i) v' es); try assumption.
    + now apply unread_audios.
    + cbn [at_await with_audios]. rewrite Hat. discriminate.
    + cbn [aborted with_audios]. apply Hrun. rewrite Hat. discriminate.
  - now apply unread_audios.
  - assumption.
Qed.

Lemma moves_foreign k k' v v' es :
  moves k v v' es -> k' <> k -> Forall (foreign k') es.
Proof.
  intros Hmv Hne.
  assert (Hres : forall v i v' es, resumes k v i v' es -> Forall (foreign k') es).
  { intros v0 i v0' es0 [Hn|Hn Hst|Hn Hst|Hn Hst|Hn Hst]; repeat constructor.
    unfold on_response_events. destruct (S i <? length (chunks v0))%nat;
      repeat constructor; simpl; congruence. }
  destruct Hmv as [j t Hp Hat Ht|i t v' es Hat Ht Hne' Hr|i Hat|i t Hor
                  |i j g v' es Hat Hr|g j es Hes|].
  - constructor.
  - eauto.
  - destruct (i =? 0)%nat; repeat constructor; simpl; congruence.
  - repeat constructor.
  - constructor; [exact I | eauto].
  - destruct Hes as [->| ->]; repeat constructor.
  - constructor.
Qed.

Lemma moves_owned k n v v' es :
  moves k v v' es -> (k < n)%nat -> Forall (owned n) es.
Proof.
  intros Hmv Hlt.
  assert (Hres : forall v i v' es, resumes k v i v' es -> Forall (owned n) es).
  { intros v0 i v0' es0 [Hn|Hn Hst|Hn Hst|Hn Hst|Hn Hst]; repeat constructor.
    unfold on_response_events. destruct (S i <? length (chunks v0))%nat;
      repeat constructor; simpl; assumption. }
  destruct Hmv as [j t Hp Hat Ht|i t v' es Hat Ht Hne' Hr|i Hat|i t Hor
                  |i j g v' es Hat Hr|g j es Hes|].
  - constructor.
  - eauto.
  - destruct (i =? 0)%nat; repeat constructor; simpl; assumption.
  - repeat constructor.
  - constructor; [exact I | eauto].
  - destruct Hes as [->| ->]; repeat constructor.
  - constructor.
Qed.

Lemma moves_aborted k v v' es : moves k v v' es -> aborted v' = aborted v.
Proof.
  assert (Hres : forall v i v' es, resumes k v i v' es -> aborted v' = aborted v).
  { intros v0 i v0' es0 [Hn|Hn Hst|Hn Hst|Hn Hst|Hn Hst]; try reflexivity.
    unfold on_response_local, issue_local.
    now destruct (S i <? length (chunks v0))%nat. }
  intros [j t Hp Hat Ht|i t v1 es1 Hat Ht Hne' Hr|i Hat|i t Hor
         |i j g v1 es1 Hat Hr|g j es1 Hes|]; try reflexivity.
  - now rewrite (Hres _ _ _ _ Hr).
  - now rewrite (Hres _ _ _ _ Hr).
Qed.

(** *** The calls of [stopTTS] and of the continuations it resumes *)

Lemma reset_from_events bs : forall i e,
  In e (reset_from i bs).2 -> exists b, e = EReset b.
Proof.
  induction bs as [|b bs IH]; intros i e; simpl; [intros []|].
  destruct (reset_from (S i) bs) as [bs' es] eqn:E.
  specialize (IH (S i) e). rewrite E in IH. simpl in IH.
  destruct (selected b); simpl; [|exact IH].
  intros [<-|H]; eauto.
Qed.

Lemma stop_events_kind s e :
  In e (stop_events s) ->
  match e with
  | EFetch _ _ | EBlob _ _ | EPlay _ _ _ | EConsoleError _ => False
  | _ => True
  end.
Proof.
  unfold stop_events. rewrite !in_app_iff. intros [H|[H|H]].
  - destruct (ttsAbort s) as [a|]; [|destruct H].
    destruct (invocations s !! a) as [v|]; [|destruct H].
    unfold abort_events in H. destruct (aborted v); [destruct H|].
    destruct H as [<-|H]; [exact I|].
    apply in_flat_map in H. destruct H as (j & _ & [<-|[<-|[]]]); exact I.
  - destruct (currentAudio s) as [[k j]|]; [|destruct H].
    destruct H as [<-|[]]. exact I.
  - destruct (reset_from_events _ _ _ H) as [b ->]. exact I.
Qed.

Lemma resumed_events_kind s e :
  In e (resumed_events s) -> exists a, e = EConsoleError a.
Proof.
  unfold resumed_events.
  destruct (made_ready_cases s) as [->|(a & v & -> & Ha & Hv & Hab)]; [intros []|].
  cbn [flat_map]. rewrite app_nil_r, (stopped_current s a v Ha Hv Hab).
  cbn [from_option]. rewrite abort_local_eq by assumption.
  unfold resume_events, catch_events, loop_top_events, after_loop_events.
  cbn [at_await aborted chunks].
  destruct (at_await v) as [i|i|i|i j|]; simpl;
    try (destruct (S i <? length (chunks v))%nat); simpl.
  all: intros H; intuition (subst; eauto).
Qed.

Lemma call_events_foreign s k e :
  In e (stop_events s ++ resumed_events s) -> foreign k e /\ forall n, owned n e.
Proof.
  rewrite in_app_iff. intros [H|H].
  - apply stop_events_kind in H. destruct e; try contradiction; split; intros; exact I.
  - destruct (resumed_events_kind _ _ H) as [a ->]. split; intros; exact I.
Qed.

(** What the teardown keeps of each record. *)
Lemma settled_view s k v' :
  invariant s -> settled s !! k = Some v' ->
  exists v, invocations s !! k = Some v /\ chunks v' = chunks v /\
    length (fetched v') = length (fetched v) /\
    length (audios v') = length (audios v) /\
    (aborted v' = false ->
     aborted v = false /\ at_await v = Returned /\
     forall j, state_at v' j = state_at v j).
Proof.
  intros Hinv Hk. destruct (settled_returned s k v' Hinv Hk) as [_ Hret].
  unfold settled, made_ready, stopped in Hk.
  assert (Hplain : forall v, invocations s !! k = Some v ->
            (v' = v \/ exists j, v' = with_audios (alter stop_playing j) v) ->
            exists v, invocations s !! k = Some v /\ chunks v' = chunks v /\
              length (fetched v') = length (fetched v) /\
              length (audios v') = length (audios v) /\
              (aborted v' = false ->
               aborted v = false /\ at_await v = Returned /\
               forall j, state_at v' j = state_at v j)).
  { intros v Hv [->|[j ->]]; exists v.
    - repeat split; auto.
    - cbn [at_await with_audios] in Hret.
      split; [assumption|]. split; [reflexivity|]. split; [reflexivity|].
      split; [cbn [audios with_audios]; now rewrite length_alter|].
      intros Hab. repeat split; auto. }
  destruct (ttsAbort s) as [a|] eqn:Ha.
  2:{ simpl in Hk. destruct (lookup_paused _ _ _ _ Hk) as (v & Hv & Hor). eauto. }
  destruct (invocations s !! a) as [va|] eqn:Hva.
  2:{ simpl in Hk. rewrite (alter_absent _ _ _ Hva) in Hk.
      destruct (lookup_paused _ _ _ _ Hk) as (v & Hv & Hor). eauto. }
  destruct (aborted va) eqn:Hab.
  - simpl in Hk.
    rewrite (alter_self abort_local _ _ va Hva) in Hk
      by (unfold abort_local; now rewrite Hab).
    destruct (lookup_paused _ _ _ _ Hk) as (v & Hv & Hor). eauto.
  - simpl in Hk.
    destruct (lookup_alter_inv _ _ _ _ _ Hk) as [[Hne Hk']|[<- (x & Hx & ->)]].
    + destruct (lookup_paused _ _ _ _ Hk') as (v & Hv & Hor).
      rewrite list_lookup_alter_ne in Hv by assumption. eauto.
    + destruct (lookup_paused _ _ _ _ Hx) as (v & Hv & Hor).
      rewrite list_lookup_alter_eq, Hva in Hv. injection Hv as <-.
      assert (x = abort_local va) as ->.
      { destruct Hor as [->|[j ->]]; [reflexivity | now apply paused_aborted]. }
      exists va. rewrite resume_abort_eq, abort_local_eq by assumption.
      cbn [chunks fetched audios aborted set_at].
      rewrite length_map, length_fmap. repeat split; auto; discriminate.
Qed.

(** *** The text and its chunks *)

Lemma segmented_loop_top i v : segmented v -> segmented (loop_top_local i v).
Proof.
  unfold segmented, loop_top_local, await_next_local, on_response_local, issue_local.
  intros H.
  destruct (i <? length (chunks v))%nat; [|exact H].
  destruct (aborted v); [exact H|].
  destruct (f_state <$> fetched v !! nextResp v) as [[|[|]|ok| | |]|]; try exact H.
  cbn [chunks set_resp]. destruct (S i <? length (chunks v))%nat; exact H.
Qed.

Lemma segmented_resume v : segmented v -> segmented (resume_local v).
Proof.
  intros H. unfold resume_local.
  destruct (at_await v) as [i|i|i|i j|]; try exact H. now apply segmented_loop_top.
Qed.

Lemma segmented_abort v : segmented v -> segmented (abort_local v).
Proof.
  intros H. destruct (aborted v) eqn:Hab.
  - unfold abort_local. now rewrite Hab.
  - rewrite abort_local_eq by assumption. exact H.
Qed.

Lemma segmented_moves k v v' es : moves k v v' es -> segmented v -> segmented v'.
Proof.
  assert (Hres : forall v i v' es, resumes k v i v' es -> segmented v -> segmented v').
  { intros v0 i v0' es0 [Hn|Hn Hst|Hn Hst|Hn Hst|Hn Hst] H; try exact H.
    unfold segmented, on_response_local, issue_local. cbn [chunks set_resp].
    destruct (S i <? length (chunks v0))%nat; exact H. }
  intros [j t Hp Hat Ht|i t v1 es1 Hat Ht Hne' Hr|i Hat|i t Hor
         |i j g v1 es1 Hat Hr|g j es1 Hes|] H; try exact H.
  - exact (Hres _ _ _ _ Hr H).
  - exact (Hres _ _ _ _ Hr H).
Qed.

Lemma segmented_alter g a (l : list invocation) :
  (forall v, segmented v -> segmented (g v)) ->
  (forall k v, l !! k = Some v -> segmented v) ->
  forall k v, alter g a l !! k = Some v -> segmented v.
Proof.
  intros Hg Hl k v Hk.
  destruct (lookup_alter_inv _ _ _ _ _ Hk) as [[_ Hk']|[<- (x & Hx & ->)]]; eauto.
Qed.

Lemma segmented_settled s :
  (forall k v, invocations s !! k = Some v -> segmented v) ->
  forall k v, settled s !! k = Some v -> segmented v.
Proof.
  intros Hall.
  assert (Hstopped : forall k v, stopped s !! k = Some v -> segmented v).
  { unfold stopped.
    assert (Hfirst : forall k v,
              match ttsAbort s with
              | Some a => alter abort_local a (invocations s)
              | None => invocations s
              end !! k = Some v -> segmented v).
    { destruct (ttsAbort s) as [a|]; [|exact Hall].
      apply segmented_alter; [apply segmented_abort | exact Hall]. }
    destruct (currentAudio s) as [[kc j]|]; [|exact Hfirst].
    apply segmented_alter; [|exact Hfirst]. intros v0 H0. exact H0. }
  unfold settled.
  destruct (made_ready_cases s) as [->|(a & va & -> & _)]; [exact Hstopped|].
  cbn [fold_left]. apply segmented_alter; [apply segmented_resume | exact Hstopped].
Qed.

(** *** The history under every task *)

Lemma history_local l s :
  invariant s -> history s -> is_call l = false -> enabled l s = true ->
  history (run l s).
Proof.
  intros Hinv [Hown Heach Hcur Htext] Hl Hen.
  pose proof (inv_queue _ Hinv) as Hq.
  destruct (handle_quiet l Hl s) as [Htts Hmicro].
  assert (Hrec : invocations (run l s) =
                 alter (local_effect l) (subject l) (invocations s)).
  { unfold run. rewrite invocations_drain, Hmicro, Hq. simpl.
    now apply handle_invocations. }
  assert (Htr : trace (run l s) =
                trace s ++ from_option (label_events l) [] (invocations s !! subject l)).
  { rewrite trace_run by auto. destruct l; try discriminate; reflexivity. }
  assert (Hab : ttsAbort (run l s) = ttsAbort s).
  { unfold run. now rewrite ttsAbort_drain. }
  destruct (invocations s !! subject l) as [v|] eqn:E.
  2:{ rewrite (alter_absent _ _ _ E) in Hrec. cbn [from_option] in Htr.
      rewrite app_nil_r in Htr.
      split; rewrite ?Hrec, ?Htr, ?Hab; assumption. }
  destruct (Heach _ _ E) as [Hchr Hunread].
  pose proof (inv_wf _ Hinv _ _ E) as Hwf.
  pose proof (label_moves l s v Hl Hen E Hwf Hunread) as Hmv.
  cbn [from_option] in Htr.
  split; rewrite ?Hrec, ?Htr, ?Hab.
  - rewrite length_alter. apply Forall_app. split; [assumption|].
    apply (moves_owned _ _ _ _ _ Hmv). apply lookup_lt_is_Some. eauto.
  - intros k v' Hk.
    destruct (lookup_alter_inv _ _ _ _ _ Hk) as [[Hne Hk']|[<- (x & Hx & ->)]].
    + destruct (Heach _ _ Hk') as [Hc Hf]. split; [|assumption].
      apply chronicled_elsewhere; [assumption|].
      apply (moves_foreign _ _ _ _ _ Hmv). congruence.
    + assert (x = v) by congruence. subst x. split.
      * now apply (chronicled_moves _ v).
      * now apply (unread_moves _ _ _ _ Hwf Hunread Hmv).
  - intros a Ha. destruct (Hcur a Ha) as (va & Hva & Hnot).
    destruct (decide (a = subject l)) as [->|Hne].
    + assert (va = v) by congruence. subst va.
      exists (local_effect l v). rewrite list_lookup_alter_eq, E. split; [reflexivity|].
      now rewrite (moves_aborted _ _ _ _ Hmv).
    + exists va. now rewrite list_lookup_alter_ne by congruence.
  - intros k v' Hk.
    destruct (lookup_alter_inv _ _ _ _ _ Hk) as [[Hne Hk']|[<- (x & Hx & ->)]]; [eauto|].
    assert (x = v) by congruence. subst x.
    exact (segmented_moves _ _ _ _ Hmv (Htext _ _ E)).
Qed.

Lemma chronicled_settled s k v' es :
  invariant s -> history s -> settled s !! k = Some v' ->
  Forall (foreign k) es ->
  chronicled k v' (trace s ++ es) /\ unread v'.
Proof.
  intros Hinv Hhist Hk Hes.
  destruct (settled_returned s k v' Hinv Hk) as [_ Hret].
  destruct (settled_view s k v' Hinv Hk) as (v & Hv & Hc & HF & HA & Hkeep).
  destruct (hist_each _ Hhist _ _ Hv) as [Hchr _].
  split; [|intros j t _ Hne; contradiction].
  apply (chronicled_intro k v); try assumption.
  intros _ Hab. destruct (Hkeep Hab) as (Hab' & Hret' & Hst).
  destruct (chr_reported _ _ _ Hchr Hret' Hab') as [Hall|Hin].
  - left. intros j t Hj. rewrite Hst in Hj. eauto.
  - right. apply in_app_iff. now left.
Qed.

Lemma history_stop s : invariant s -> history s -> history (run StopTTS s).
Proof.
  intros Hinv Hhist. pose proof (inv_queue _ Hinv) as Hq.
  assert (Hrec : invocations (run StopTTS s) = settled s).
  { unfold run. cbn [handle]. rewrite invocations_drain, stopTTS_microtasks,
      stopTTS_invocations, Hq. reflexivity. }
  assert (Htr : trace (run StopTTS s) =
                trace s ++ (stop_events s ++ resumed_events s)).
  { rewrite trace_run by auto. reflexivity. }
  assert (Hes : forall k, Forall (foreign k) (stop_events s ++ resumed_events s)).
  { intros k. apply Forall_forall. intros e He. apply list_elem_of_In in He.
    exact (proj1 (call_events_foreign s k e He)). }
  split; rewrite ?Hrec, ?Htr.
  - rewrite length_settled. apply Forall_app. split; [exact (hist_owned _ Hhist)|].
    apply Forall_forall. intros e He. apply list_elem_of_In in He.
    exact (proj2 (call_events_foreign s 0%nat e He) _).
  - intros k v Hk. now apply chronicled_settled.
  - unfold run. cbn [handle]. rewrite ttsAbort_drain, stopTTS_ttsAbort. discriminate.
  - apply segmented_settled. exact (hist_text _ Hhist).
Qed.

Lemma unread_started t b : unread (started t b).
Proof.
  rewrite started_eq. intros j st Hst _ _. unfold state_at in Hst.
  cbn [fetched] in Hst. destruct j; simpl in Hst; [|discriminate].
  injection Hst as <-. exact I.
Qed.

Lemma history_play t b s :
  invariant s -> history s -> history (run (PlayTTS t b) s).
Proof.
  intros Hinv Hhist. pose proof (inv_queue _ Hinv) as Hq.
  pose proof (run_play_invocations t b s Hq) as Hrec.
  set (n := length (invocations s)).
  assert (Htr : trace (run (PlayTTS t b) s) =
                trace s ++ (stop_events s ++ [ELoading b; EFetch n 0] ++ resumed_events s)).
  { rewrite trace_run by auto. reflexivity. }
  assert (Htts : ttsAbort (run (PlayTTS t b) s) = Some n).
  { unfold run. cbn [handle]. now rewrite ttsAbort_drain, playTTS_ttsAbort. }
  assert (Hes : forall e,
            In e (stop_events s ++ [ELoading b; EFetch n 0] ++ resumed_events s) ->
            e = EFetch n 0 \/
            ((forall k, foreign k e) /\ (forall m, owned m e))).
  { intros e He. rewrite !in_app_iff in He. simpl in He.
    assert (Hcall : In e (stop_events s ++ resumed_events s) ->
              (forall k, foreign k e) /\ (forall m, owned m e)).
    { intros Hin. split; [intros k | intros m].
      - exact (proj1 (call_events_foreign s k e Hin)).
      - exact (proj2 (call_events_foreign s 0%nat e Hin) m). }
    destruct He as [H|[[<-|[<-|[]]]|H]]; auto.
    - right. apply Hcall, in_app_iff. now left.
    - right. split; intros; exact I.
    - right. apply Hcall, in_app_iff. now right. }
  assert (Hold : forall e, In e (trace s) -> foreign n e /\ owned (S n) e).
  { intros e He. pose proof (hist_owned _ Hhist) as Hown.
    rewrite Forall_forall in Hown. apply list_elem_of_In in He.
    specialize (Hown e He). fold n in Hown.
    destruct e; simpl in *; split; try exact I; lia. }
  split; rewrite ?Hrec, ?Htr, ?Htts.
  - rewrite length_app, length_settled. fold n. simpl.
    replace (n + 1)%nat with (S n) by lia.
    apply Forall_app. split; apply Forall_forall; intros e He;
      apply list_elem_of_In in He.
    + exact (proj2 (Hold e He)).
    + destruct (Hes e He) as [->|[_ H]]; [simpl; lia | apply H].
  - intros k v Hk. apply lookup_app_Some in Hk. destruct Hk as [Hk|[Hge Hk]].
    + apply chronicled_settled; try assumption.
      apply Forall_forall. intros e He. apply list_elem_of_In in He.
      destruct (Hes e He) as [->|[H _]]; [|apply H].
      simpl. apply lookup_lt_Some in Hk. rewrite length_settled in Hk. fold n in Hk. lia.
    + rewrite length_settled in Hge, Hk. fold n in Hge, Hk.
      destruct (k - n)%nat eqn:Hkn; simpl in Hk; [|discriminate].
      injection Hk as <-. assert (k = n) by lia. subst k.
      split; [|apply unread_started].
      assert (Hno : forall e, In e (trace s ++
                      (stop_events s ++ [ELoading b; EFetch n 0] ++ resumed_events s)) ->
                    e = EFetch n 0 \/ foreign n e).
      { intros e He. apply in_app_iff in He. destruct He as [He|He].
        - right. exact (proj1 (Hold e He)).
        - destruct (Hes e He) as [->|[H _]]; auto. }
      split.
      * intros i. rewrite started_eq. cbn [fetched length]. split.
        -- intros Hin. destruct (Hno _ Hin) as [[= ->]|H]; [lia | now destruct H].
        -- intros Hi. assert (i = 0%nat) by lia. subst i.
           rewrite !in_app_iff. simpl. auto 10.
      * intros i j Hin. destruct (Hno _ Hin) as [[=]|H]. now destruct H.
      * intros i _. split; [|intros j]; apply before_absent; intros Hin;
          destruct (Hno _ Hin) as [[=]|H]; now destruct H.
      * rewrite started_eq. discriminate.
      * split; [rewrite !in_app_iff; simpl; auto 10|].
        intros i. split; [|split; [|intros j]]; apply before_absent; intros Hin;
          destruct (Hno _ Hin) as [[=]|H]; now destruct H.
  - intros a [= <-]. exists (started t b). split.
    + rewrite lookup_app_r by (rewrite length_settled; fold n; lia).
      rewrite length_settled. fold n. now rewrite Nat.sub_diag.
    + now rewrite started_eq.
  - intros k v Hk. apply lookup_app_Some in Hk. destruct Hk as [Hk|[Hge Hk]].
    + exact (segmented_settled s (hist_text _ Hhist) k v Hk).
    + destruct (k - length (settled s))%nat; simpl in Hk; [|discriminate].
      injection Hk as <-. rewrite started_eq. reflexivity.
Qed.

Lemma history_init : history init.
Proof.
  split.
  - constructor.
  - intros k v H. cbn in H. rewrite lookup_nil in H. discriminate.
  - discriminate.
  - intros k v H. cbn in H. rewrite lookup_nil in H. discriminate.
Qed.

Lemma history_step s s' : invariant s -> history s -> step s s' -> history s'.
Proof.
  intros Hinv Hhist Hstep. destruct Hstep as [l s Hen].
  destruct (is_call l) eqn:Hl; [|apply history_local; assumption].
  destruct l; try discriminate; [now apply history_play | now apply history_stop].
Qed.

Lemma reachable_history s : reachable s -> history s.
Proof.
  induction 1 as [|s s' Hs IH Hstep]; [apply history_init|].
  apply (history_step s); [now apply reachable_invariant | assumption..].
Qed.

Lemma reachable_from s ls :
  reachable s -> all_enabled ls s = true ->
  reachable (fold_left (fun s l => run l s) ls s).
Proof.
  revert s. induction ls as [|l ls IH]; intros s Hs Hen; [exact Hs|].
  simpl in Hen. apply andb_true_iff in Hen. destruct Hen as [Hl Hls].
  simpl. apply IH; [|assumption].
  apply (reachable_step s); [assumption | now constructor].
Qed.

Lemma reachable_runs ls : all_enabled ls init = true -> reachable (runs ls).
Proof. apply reachable_from. constructor. Qed.

Lemma run_local_invocations l s :
  invariant s -> is_call l = false ->
  invocations (run l s) = alter (local_effect l) (subject l) (invocations s).
Proof.
  intros Hinv Hl. unfold run.
  rewrite invocations_drain, (proj2 (handle_quiet l Hl s)), (inv_queue _ Hinv).
  simpl. now apply handle_invocations.
Qed.

(** *** Requests under way *)

Lemma filter_none {A} (P : A -> bool) (l : list A) :
  (forall j x, l !! j = Some x -> P x = false) -> List.filter P l = [].
Proof.
  induction l as [|x l IH]; intros H; [reflexivity|]. simpl.
  rewrite (H 0%nat x eq_refl). apply IH. intros j y Hy. exact (H (S j) y Hy).
Qed.

Lemma filter_last_two {A} (P : A -> bool) (l : list A) :
  (forall j x, l !! j = Some x -> P x = true -> (length l <= j + 2)%nat) ->
  (length (List.filter P l) <= 2)%nat.
Proof.
  intros H. rewrite <- (take_drop (length l - 2) l), List.filter_app.
  rewrite (filter_none P (take (length l - 2) l)).
  - simpl. etransitivity; [apply List.filter_length_le|].
    rewrite length_drop. lia.
  - intros j x Hj. destruct (P x) eqn:E; [|reflexivity]. exfalso.
    apply lookup_take_Some in Hj. destruct Hj as [Hj Hlt].
    specialize (H j x Hj E). lia.
Qed.

Lemma in_flight_bound v :
  wf_requests v -> (length (List.filter in_flight (fetched v)) <= 2)%nat.
Proof.
  intros Hwf. apply filter_last_two. intros j f Hj Hf.
  destruct (wf_in_flight _ Hwf j f Hj Hf) as [H|[H _]]; lia.
Qed.

(** *** The state that [stopTTS] leaves *)

Lemma reset_from_lookup bs : forall i n,
  (reset_from i bs).1 !! n =
  (fun b => if selected b then idle (ttsText b) b else b) <$> bs !! n.
Proof.
  induction bs as [|b bs IH]; intros i n; [reflexivity|]. simpl.
  specialize (IH (S i)). destruct (reset_from (S i) bs) as [bs' es].
  simpl in IH. destruct n as [|n]; destruct (selected b) eqn:E; simpl;
    rewrite ?E; auto.
Qed.

Lemma buttons_stopTTS s : buttons (stopTTS s) = (reset_from 0 (buttons s)).1.
Proof.
  unfold stopTTS, reset_selected.
  assert (H : buttons
            match currentAudio match ttsAbort s with
                               | Some k => set_ttsAbort None (abort k s)
                               | None => s
                               end with
            | Some (k, j) =>
                set_currentAudio None
                  (pause k j match ttsAbort s with
                             | Some k => set_ttsAbort None (abort k s)
                             | None => s
                             end)
            | None => match ttsAbort s with
                      | Some k => set_ttsAbort None (abort k s)
                      | None => s
                      end
            end = buttons s).
  { destruct (ttsAbort s) as [a|].
    - cbn [currentAudio set_ttsAbort]. rewrite currentAudio_abort.
      destruct (currentAudio s) as [[k j]|]; cbn; apply buttons_abort.
    - destruct (currentAudio s) as [[k j]|]; reflexivity. }
  rewrite H. now destruct (reset_from 0 (buttons s)).
Qed.

Lemma selected_idle t b : selected (idle t b) = false.
Proof. unfold selected, idle. simpl. apply andb_false_r. Qed.

Lemma not_playing_stopped a : a_state (stop_playing a) <> Playing.
Proof.
  unfold stop_playing. destruct (a_state a) eqn:E; simpl; rewrite ?E; discriminate.
Qed.

(** Once [stopTTS] has run no element plays. *)
Lemma stopped_silent s k v' j a :
  invariant s -> history s ->
  stopped s !! k = Some v' -> audios v' !! j = Some a -> a_state a <> Playing.
Proof.
  intros Hinv Hhist Hk Ha.
  assert (Hquiet : forall v, invocations s !! k = Some v -> at_await v = Returned ->
            (v' = v \/ exists j0, v' = with_audios (alter stop_playing j0) v) ->
            a_state a <> Playing).
  { intros v Hv Hret Hor Hplay.
    pose proof (proj2 (inv_wf _ Hinv _ _ Hv)) as Hwait.
    destruct Hor as [->|[j0 ->]].
    - destruct (Hwait j a Ha (or_introl Hplay)) as [i Hi]. congruence.
    - cbn [audios with_audios] in Ha.
      destruct (lookup_alter_inv _ _ _ _ _ Ha) as [[_ Ha']|[<- (x & Hx & ->)]].
      + destruct (Hwait j a Ha' (or_introl Hplay)) as [i Hi]. congruence.
      + now apply not_playing_stopped in Hplay. }
  unfold stopped in Hk.
  destruct (ttsAbort s) as [c|] eqn:Hc.
  2:{ destruct (lookup_paused _ _ _ _ Hk) as (v & Hv & Hor).
      apply (Hquiet v Hv); [|exact Hor].
      apply (returned_unless_current s k v Hinv Hv). rewrite Hc. discriminate. }
  destruct (hist_current _ Hhist c Hc) as (vc & Hvc & Hab).
  destruct (lookup_paused _ _ _ _ Hk) as (x & Hx & Hor).
  destruct (lookup_alter_inv _ _ _ _ _ Hx) as [[Hne Hx']|[<- (y & Hy & ->)]].
  - apply (Hquiet x Hx'); [|exact Hor].
    apply (returned_unless_current s k x Hinv Hx'). rewrite Hc. congruence.
  - assert (y = vc) by congruence. subst y.
    assert (v' = abort_local vc) as ->.
    { destruct Hor as [->|[j0 ->]]; [reflexivity | now apply paused_aborted]. }
    rewrite abort_local_eq in Ha by assumption. cbn [audios] in Ha.
    rewrite list_lookup_fmap in Ha. destruct (audios vc !! j) as [x|]; [|discriminate].
    injection Ha as <-. apply not_playing_stopped.
Qed.

Lemma is_playing_stopTTS s k j :
  invariant s -> history s -> is_playing k j (stopTTS s) = false.
Proof.
  intros Hinv Hhist. destruct (is_playing k j (stopTTS s)) eqn:E; [|reflexivity].
  destruct (is_playing_lookup _ _ _ E) as (v & a & Hv & Ha & Hplay).
  rewrite stopTTS_invocations in Hv.
  now destruct (stopped_silent s k v j a Hinv Hhist Hv Ha).
Qed.

(** At most one element plays, that of the invocation [_ttsAbort] refers
    to. *)
Lemma playing_is_current s k j :
  invariant s -> is_playing k j s = true ->
  ttsAbort s = Some k /\
  exists v i, invocations s !! k = Some v /\ at_await v = AwaitPlayback i j.
Proof.
  intros Hinv Hplay.
  destruct (is_playing_lookup _ _ _ Hplay) as (v & a & Hv & Ha & Hst).
  destruct (proj2 (inv_wf _ Hinv _ _ Hv) j a Ha (or_introl Hst)) as [i Hi].
  split; [|eauto].
  apply (inv_current _ Hinv k v Hv). rewrite Hi. discriminate.
Qed.

(** *** Starting a narration over another *)



(** *** Requests ahead of the playback *)

Lemma awaited_events k i t v :
  wf_requests v -> at_await v = AwaitFetch i ->
  match at_await v with
  | AwaitFetch i' =>
      if (nextResp v =? i)%nat then await_next_events k i' (mark i t v) else []
  | _ => []
  end =
  match t with
  | Responded true => on_response_events k i v
  | Rejected => catch_events k false v
  | Cancelled => catch_events k true v
  | _ => []
  end.
Proof.
  intros Hreq Hat. pose proof (wf_shape _ Hreq) as Hshape.
  unfold at_shape in Hshape. rewrite Hat in *.
  destruct Hshape as (Hi & HF & HA & Hst).
  replace (nextResp v =? i)%nat with true
    by (symmetry; apply Nat.eqb_eq; unfold nextResp; rewrite HF; reflexivity).
  unfold await_next_events.
  replace (nextResp (mark i t v)) with i
    by (unfold nextResp, mark; cbn [fetched with_fetched]; rewrite length_alter, HF;
        reflexivity).
  fold (state_at (mark i t v) i).
  rewrite state_at_mark, decide_True, Hst by reflexivity. reflexivity.
Qed.

(** The end of a playback, whatever ended it: the URL is revoked and the
    loop takes the next index. *)
Lemma trace_playback_over s k v i j l :
  invariant s -> invocations s !! k = Some v -> at_await v = AwaitPlayback i j ->
  l = AudioEnded k j \/ l = AudioError k j \/ l = PlayRejected k j ->
  trace (run l s) = trace s ++ ERevoke k j :: loop_top_events k (S i) v.
Proof.
  intros Hinv Hv Hat Hl.
  assert (Hcall : is_call l = false) by (destruct Hl as [->|[->| ->]]; reflexivity).
  unfold run. rewrite trace_drain_nil
    by (rewrite (proj2 (handle_quiet l Hcall s)); exact (inv_queue _ Hinv)).
  assert (Hres : resolve_events k j v = loop_top_events k (S i) v)
    by (unfold resolve_events; now rewrite Hat, Nat.eqb_refl).
  rewrite <- Hres.
  destruct Hl as [->|[->| ->]]; cbn [handle]; now apply trace_revoke_resolve.
Qed.

(** C2: the chunks of an invocation are the sentences of its text.  The
    request for chunk 0 is made before [playTTS] reaches its
    first [await], and comes before every other request, body read and
    playback of the invocation.  Where chunk [i + 1] exists, its request
    comes before the body of chunk [i] is read and before chunk [i] is
    played; it is made as soon as [await nextResp] gives the response for
    chunk [i]: in the very task that delivers the response when the
    invocation awaits it, and at the end of the playback before when the
    response was there already.  At most two requests of an invocation are
    under way. *)
Theorem next_chunk_is_requested_ahead s k v :
  reachable s -> invocations s !! k = Some v ->
  chunks v = splitBySentence (text v) /\
  (forall t b,
     invocations (handle (PlayTTS t b) s) !! length (invocations s) =
       Some (started t b) /\
     started t b =
       mkInvocation t (splitBySentence t) b false (AwaitFetch 0)
                    [mkFetch 0 Pending] 0 []) /\
  (In (EFetch k 0) (trace s) /\
   forall i, before (EFetch k 0) (EFetch k (S i)) (trace s) /\
             before (EFetch k 0) (EBlob k i) (trace s) /\
             forall j, before (EFetch k 0) (EPlay k i j) (trace s)) /\
  (forall i, (S i < length (chunks v))%nat ->
     before (EFetch k (S i)) (EBlob k i) (trace s) /\
     forall j, before (EFetch k (S i)) (EPlay k i j) (trace s)) /\
  (forall i, at_await v = AwaitFetch i ->
     enabled (FetchResponds k i true) s = true ->
     trace (run (FetchResponds k i true) s) =
     trace s ++ (if (S i <? length (chunks v))%nat then [EFetch k (S i)] else []) ++
                [EBlob k i]) /\
  (forall i j, at_await v = AwaitPlayback i j ->
     (S i < length (chunks v))%nat -> state_at v (S i) = Some (Responded true) ->
     trace (run (AudioEnded k j) s) =
     trace s ++ ERevoke k j ::
       (if (S (S i) <? length (chunks v))%nat then [EFetch k (S (S i))] else []) ++
       [EBlob k (S i)]) /\
  (length (List.filter in_flight (fetched v)) <= 2)%nat.
Proof.
  intros Hreach Hv.
  pose proof (reachable_invariant s Hreach) as Hinv.
  pose proof (reachable_history s Hreach) as Hhist.
  destruct (hist_each _ Hhist _ _ Hv) as [Hchr _].
  pose proof (inv_wf _ Hinv _ _ Hv) as [Hreq _].
  split; [exact (hist_text _ Hhist _ _ Hv)|].
  split; [|split; [|split; [|split; [|split]]]].
  - intros t b. split; [|apply started_eq].
    cbn [handle]. rewrite playTTS_invocations.
    rewrite lookup_app_r by (rewrite length_stopped; lia).
    now rewrite length_stopped, Nat.sub_diag.
  - exact (chr_first _ _ _ Hchr).
  - exact (chr_ahead _ _ _ Hchr).
  - intros i Hat Hen. rewrite trace_run by auto.
    cbn [task_events subject]. rewrite Hv. cbn [from_option label_events].
    now rewrite (awaited_events k i (Responded true) v Hreq Hat).
  - intros i j Hat Hn Hst.
    rewrite (trace_playback_over s k v i j _ Hinv Hv Hat) by auto.
    pose proof (wf_shape _ Hreq) as Hshape. unfold at_shape in Hshape.
    rewrite Hat in Hshape. destruct Hshape as (Hi & -> & HF & HA).
    unfold loop_top_events, await_next_events, nextResp.
    rewrite (wf_running _ Hreq) by (rewrite Hat; discriminate).
    replace (S i <? length (chunks v))%nat with true in *
      by (symmetry; now apply Nat.ltb_lt).
    rewrite HF. cbn [pred]. fold (state_at v (S i)). now rewrite Hst.
  - now apply in_flight_bound.
Qed.

Lemma next_chunk_is_requested_ahead_witness :
  exists v,
    reachable (runs first_is_read) /\
    invocations (runs first_is_read) !! 0%nat = Some v /\
    length (chunks v) = 2%nat /\
    List.map f_state (fetched v) = [Responded true; Pending] /\
    before (EFetch 0 1) (EBlob 0 0) (trace (runs first_is_read)) /\
    (length (List.filter in_flight (fetched v)) <= 2)%nat.
Proof.
  exists (default (started [] 0) (invocations (runs first_is_read) !! 0%nat)).
  assert (H : reachable (runs first_is_read))
    by (apply reachable_runs; vm_compute; reflexivity).
  assert (Hv : invocations (runs first_is_read) !! 0%nat =
               Some (default (started [] 0) (invocations (runs first_is_read) !! 0%nat)))
    by (vm_compute; reflexivity).
  destruct (next_chunk_is_requested_ahead _ 0%nat _ H Hv)
    as (_ & _ & _ & Hahead & _ & _ & Hbound).
  split; [exact H|]. split; [exact Hv|].
  split; [vm_compute; reflexivity|]. split; [vm_compute; reflexivity|].
  split; [|exact Hbound].
  apply (Hahead 0%nat). vm_compute. lia.
Defined.

(** *** Failures *)

Lemma failed_is_last v j t :
  lists_ok v -> state_at v j = Some t -> fetch_failed t ->
  S j = length (fetched v).
Proof.
  intros Hl Hst Hf. pose proof (state_at_length _ _ _ Hst) as Hlt.
  apply state_at_Some in Hst. destruct Hst as (f & Hj & <-).
  destruct (decide (S j < length (fetched v))%nat) as [Hearly|]; [|lia].
  pose proof (ok_earlier _ Hl j f Hj Hearly) as Hok.
  destruct (f_state f) as [|[|]|[|]| | |]; contradiction.
Qed.

Lemma loop_top_audios i f v :
  loop_top_local i (with_audios f v) = with_audios f (loop_top_local i v).
Proof.
  unfold loop_top_local, await_next_local, on_response_local, issue_local, nextResp.
  cbn [chunks aborted fetched with_audios].
  destruct (i <? length (chunks v))%nat; [|reflexivity].
  destruct (aborted v) eqn:Hab; [reflexivity|].
  destruct (f_state <$> fetched v !! pred (length (fetched v))) as [[|[|]|ok| | |]|];
    try reflexivity.
  cbn [chunks aborted set_resp with_audios].
  destruct (S i <? length (chunks v))%nat; reflexivity.
Qed.

Lemma awaited_local i t v :
  wf_requests v -> at_await v = AwaitFetch i ->
  match at_await v with
  | AwaitFetch i' =>
      if (nextResp v =? i)%nat then await_next_local i' (mark i t v) else mark i t v
  | _ => mark i t v
  end =
  match t with
  | Pending => set_at (AwaitFetch i) (mark i t v)
  | Responded true => on_response_local i (mark i t v)
  | Responded false => set_at (AwaitErrorBody i) (set_resp i (mark i t v))
  | Rejected | Cancelled => set_at Returned (mark i t v)
  | _ => mark i t v
  end.
Proof.
  intros Hreq Hat. pose proof (wf_shape _ Hreq) as Hshape.
  unfold at_shape in Hshape. rewrite Hat in *.
  destruct Hshape as (Hi & HF & HA & Hst).
  replace (nextResp v =? i)%nat with true
    by (symmetry; apply Nat.eqb_eq; unfold nextResp; rewrite HF; reflexivity).
  unfold await_next_local.
  replace (nextResp (mark i t v)) with i
    by (unfold nextResp, mark; cbn [fetched with_fetched]; rewrite length_alter, HF;
        reflexivity).
  fold (state_at (mark i t v) i).
  rewrite state_at_mark, decide_True, Hst by reflexivity. reflexivity.
Qed.

(** C3: a request that failed is the last one the invocation ever makes,
    and its chunk and the later ones are never played; unless the narration
    was cancelled, the invocation has returned and the error is on the
    console, or it has not come to that response yet: it still reads or
    plays the chunk before, or reads the body of the error.  A rejected
    request that is awaited is reported in the task that delivers it, and
    the invocation returns; a body that cannot be read to its end does the
    same.  The [error] event of an element and a rejected [play()] go on
    exactly as the end of the playback does: the URL is revoked and the loop
    takes the next index, whose request it awaits if the chunk exists. *)
Theorem fetch_failure_ends_the_narration s k v :
  reachable s -> invocations s !! k = Some v ->
  (forall j t, state_at v j = Some t -> fetch_failed t ->
     (forall i, In (EFetch k i) (trace s) -> (i <= j)%nat) /\
     (forall i j', In (EPlay k i j') (trace s) -> (i < j)%nat) /\
     (aborted v = false ->
      match at_await v with
      | Returned => In (EConsoleError k) (trace s)
      | AwaitErrorBody i => j = i
      | AwaitBlob i | AwaitPlayback i _ => j = S i
      | AwaitFetch _ => False
      end)) /\
  (forall l,
     (exists i, at_await v = AwaitFetch i /\ l = FetchFails k i) \/
     (exists i, at_await v = AwaitErrorBody i /\ l = ErrorBodyRead k) \/
     (exists i, at_await v = AwaitBlob i /\ l = BodyFails k) ->
     enabled l s = true ->
     trace (run l s) = trace s ++ [EConsoleError k; EReset (btn v)] /\
     at_await <$> invocations (run l s) !! k = Some Returned) /\
  (forall i j l, at_await v = AwaitPlayback i j ->
     l = AudioEnded k j \/ l = AudioError k j \/ l = PlayRejected k j ->
     trace (run l s) = trace s ++ ERevoke k j :: loop_top_events k (S i) v /\
     exists v', invocations (run l s) !! k = Some v' /\
       at_await v' = at_await (loop_top_local (S i) v) /\
       fetched v' = fetched (loop_top_local (S i) v)) /\
  (forall i j, at_await v = AwaitPlayback i j -> (S i < length (chunks v))%nat ->
     exists t, state_at v (S i) = Some t /\ unsettled t /\
       at_await (loop_top_local (S i) v) =
       match t with
       | Pending => AwaitFetch (S i)
       | Responded true => AwaitBlob (S i)
       | Responded false => AwaitErrorBody (S i)
       | _ => Returned
       end).
Proof.
  intros Hreach Hv.
  pose proof (reachable_invariant s Hreach) as Hinv.
  pose proof (reachable_history s Hreach) as Hhist.
  destruct (hist_each _ Hhist _ _ Hv) as [Hchr Hunread].
  pose proof (inv_wf _ Hinv _ _ Hv) as [Hreq Hwait].
  pose proof (wf_lists _ Hreq) as Hl.
  pose proof (wf_shape _ Hreq) as Hshape. unfold at_shape in Hshape.
  assert (Hrun : at_await v <> Returned -> aborted v = false)
    by exact (wf_running _ Hreq).
  split; [|split; [|split]].
  - intros j t Hst Hf. pose proof (failed_is_last v j t Hl Hst Hf) as Hlast.
    assert (Hnot : forall j', state_at v j' = Some t -> t <> Complete true /\
                     t <> Responded true /\ t <> Pending).
    { intros j' _. destruct t as [|[|]|[|]| | |]; try contradiction;
        repeat split; discriminate. }
    split; [|split].
    + intros i Hin. apply (chr_fetch _ _ _ Hchr) in Hin. lia.
    + intros i j' Hin. apply (chr_play _ _ _ Hchr) in Hin.
      destruct (decide (j < length (audios v))%nat) as [Hlt|]; [|lia].
      rewrite (ok_played _ Hl j Hlt) in Hst. injection Hst as <-. contradiction.
    + intros Hab. destruct (at_await v) as [i|i|i|i j'|] eqn:Hat.
      * destruct Hshape as (Hi & HF & HA & Hst').
        assert (j = i) by lia. subst j. rewrite Hst in Hst'. injection Hst' as ->.
        contradiction.
      * destruct Hshape as (Hi & HF & HA & Hr & Hst'). lia.
      * destruct Hshape as (Hi & HF & HA & Hr & Hst').
        destruct (S i <? length (chunks v))%nat; [lia|].
        assert (j = i) by lia. subst j. rewrite Hst in Hst'. injection Hst' as ->.
        contradiction.
      * destruct Hshape as (Hi & -> & HF & HA).
        destruct (S i <? length (chunks v))%nat; [lia|].
        assert (j = i) by lia. subst j.
        rewrite (ok_played _ Hl i ltac:(lia)) in Hst. injection Hst as <-.
        contradiction.
      * destruct (chr_reported _ _ _ Hchr Hat Hab) as [Hall|Hin]; [|assumption].
        rewrite (Hall j t Hst) in Hf. contradiction.
  - intros l Hl' Hen.
    assert (Hcall : is_call l = false)
      by (destruct Hl' as [(i & _ & ->)|[(i & _ & ->)|(i & _ & ->)]]; reflexivity).
    assert (Hsub : subject l = k)
      by (destruct Hl' as [(i & _ & ->)|[(i & _ & ->)|(i & _ & ->)]]; reflexivity).
    rewrite trace_run, run_local_invocations by auto.
    rewrite Hsub, list_lookup_alter_eq, Hv.
    assert (Htask : task_events l s = label_events l v).
    { destruct l; try discriminate; cbn [task_events]; rewrite Hsub, Hv; reflexivity. }
    rewrite Htask. cbn [fmap option_fmap option_map].
    destruct Hl' as [(i & Hat & ->)|[(i & Hat & ->)|(i & Hat & ->)]];
      cbn [label_events local_effect].
    + rewrite (awaited_events k i Rejected v Hreq Hat).
      rewrite (awaited_local i Rejected v Hreq Hat).
      unfold catch_events. rewrite Hrun by (rewrite Hat; discriminate). split; reflexivity.
    + unfold catch_events. rewrite Hrun by (rewrite Hat; discriminate). split; reflexivity.
    + unfold catch_events. rewrite Hrun by (rewrite Hat; discriminate). split; reflexivity.
  - intros i j l Hat Hl'.
    assert (Hcall : is_call l = false) by (destruct Hl' as [->|[->| ->]]; reflexivity).
    assert (Hsub : subject l = k) by (destruct Hl' as [->|[->| ->]]; reflexivity).
    split.
    + now apply trace_playback_over.
    + rewrite run_local_invocations, Hsub, list_lookup_alter_eq, Hv by assumption.
      cbn [fmap option_fmap option_map]. eexists. split; [reflexivity|].
      destruct Hl' as [->|[->| ->]]; cbn [local_effect]; unfold resolve_local;
        cbn [at_await with_audios]; rewrite Hat, Nat.eqb_refl, loop_top_audios;
        split; reflexivity.
  - intros i j Hat Hn. rewrite Hat in Hshape. destruct Hshape as (Hi & -> & HF & HA).
    assert (HF' : length (fetched v) = S (S i)).
    { rewrite HF. destruct (S i <? length (chunks v))%nat eqn:E; [reflexivity|].
      apply Nat.ltb_ge in E. lia. }
    destruct (lookup_lt_is_Some_2 (fetched v) (S i) ltac:(lia)) as [f Hf].
    assert (Hst : state_at v (S i) = Some (f_state f))
      by (unfold state_at; now rewrite Hf).
    assert (Hun : unsettled (f_state f)).
    { apply (Hunread (S i) _ Hst); [rewrite Hat; discriminate | lia]. }
    exists (f_state f). split; [assumption|]. split; [assumption|].
    unfold loop_top_local, await_next_local, nextResp.
    rewrite Hrun by (rewrite Hat; discriminate).
    replace (S i <? length (chunks v))%nat with true
      by (symmetry; now apply Nat.ltb_lt).
    rewrite HF'. cbn [pred]. fold (state_at v (S i)). rewrite Hst.
    destruct (f_state f) as [|[|]|ok| | |]; try contradiction; reflexivity.
Qed.

Lemma fetch_failure_ends_the_narration_witness :
  exists v,
    reachable (runs second_fails) /\
    invocations (runs second_fails) !! 0%nat = Some v /\
    state_at v 1 = Some Rejected /\
    (forall i, In (EFetch 0 i) (trace (runs second_fails)) -> (i <= 1)%nat) /\
    (forall i j', In (EPlay 0 i j') (trace (runs second_fails)) -> (i < 1)%nat) /\
    trace (run (AudioError 0 0) (runs second_fails)) =
      trace (runs second_fails) ++ [ERevoke 0 0; EConsoleError 0; EReset 0].
Proof.
  exists (default (started [] 0) (invocations (runs second_fails) !! 0%nat)).
  assert (H : reachable (runs second_fails))
    by (apply reachable_runs; vm_compute; reflexivity).
  assert (Hv : invocations (runs second_fails) !! 0%nat =
               Some (default (started [] 0) (invocations (runs second_fails) !! 0%nat)))
    by (vm_compute; reflexivity).
  destruct (fetch_failure_ends_the_narration _ 0%nat _ H Hv)
    as (Hfail & _ & Hover & _).
  split; [exact H|]. split; [exact Hv|]. split; [vm_compute; reflexivity|].
  destruct (Hfail 1%nat Rejected ltac:(vm_compute; reflexivity) I) as (Hf & Hp & _).
  split; [exact Hf|]. split; [exact Hp|].
  exact (proj1 (Hover 0%nat 0%nat (AudioError 0 0) ltac:(vm_compute; reflexivity)
                  ltac:(auto))).
Defined.

(** *** Object URLs *)

Lemma audios_resolve j v : audios (resolve_local j v) = audios v.
Proof.
  unfold resolve_local. destruct (at_await v) as [i|i|i|i j'|]; try reflexivity.
  destruct (j =? j')%nat; [apply audios_loop_top | reflexivity].
Qed.

Lemma settled_current s a v :
  ttsAbort s = Some a -> invocations s !! a = Some v -> aborted v = false ->
  settled s !! a = Some (set_at Returned (abort_local v)).
Proof.
  intros Ha Hv Hab. unfold settled, made_ready. rewrite Ha, Hv, Hab.
  cbn [fold_left]. rewrite list_lookup_alter_eq, (stopped_current s a v Ha Hv Hab).
  simpl. now rewrite resume_abort_eq.
Qed.

(** C4, as the code has it: the URL of an element has not been revoked
    only while the invocation waits for the end of that element, so none is
    left behind on any way out of the wait.  The end of the playback, the
    [error] event and a rejected [play()] each revoke the URL of their
    element, and so does the abort of the signal, for every element of the
    invocation, revoked before or not: the count goes up each time.  To
    revoke a URL again changes nothing: it stays out of the store. *)
Theorem every_url_is_revoked s k v j a :
  reachable s -> invocations s !! k = Some v -> audios v !! j = Some a ->
  (revoked a = 0%nat -> exists i, at_await v = AwaitPlayback i j) /\
  (forall l, l = AudioEnded k j \/ l = AudioError k j \/ l = PlayRejected k j ->
     revoked <$> audio_at k j (run l s) = Some (S (revoked a))) /\
  (ttsAbort s = Some k ->
   forall l, l = StopTTS \/ (exists t b, l = PlayTTS t b) ->
     revoked <$> audio_at k j (run l s) = Some (S (revoked a))) /\
  (live (count_revoke a) = false /\
   (live a = false -> live (count_revoke a) = live a)).
Proof.
  intros Hreach Hv Ha.
  pose proof (reachable_invariant s Hreach) as Hinv.
  pose proof (reachable_history s Hreach) as Hhist.
  pose proof (inv_wf _ Hinv _ _ Hv) as [Hreq Hwait].
  split; [|split; [|split]].
  - intros Hzero. exact (Hwait j a Ha (or_intror Hzero)).
  - intros l Hl.
    assert (Hcall : is_call l = false) by (destruct Hl as [->|[->| ->]]; reflexivity).
    assert (Hsub : subject l = k) by (destruct Hl as [->|[->| ->]]; reflexivity).
    unfold audio_at. rewrite run_local_invocations, Hsub, list_lookup_alter_eq, Hv
      by assumption.
    cbn [fmap option_fmap option_map mbind option_bind].
    destruct Hl as [->|[->| ->]]; cbn [local_effect];
      rewrite audios_resolve; cbn [audios with_audios];
      rewrite list_lookup_alter_eq, Ha; try reflexivity.
    cbn. unfold stop_playing. cbn. now destruct (a_state a).
  - intros Hcur l Hl.
    destruct (hist_current _ Hhist k Hcur) as (v0 & Hv0 & Hab).
    assert (v0 = v) by congruence. subst v0.
    pose proof (settled_current s k v Hcur Hv Hab) as Hset.
    assert (Hrec : invocations (run l s) !! k = Some (set_at Returned (abort_local v))).
    { destruct Hl as [->|(t & b & ->)].
      - unfold run. cbn [handle].
        rewrite invocations_drain, stopTTS_microtasks, stopTTS_invocations,
          (inv_queue _ Hinv).
        exact Hset.
      - rewrite run_play_invocations by exact (inv_queue _ Hinv).
        now apply lookup_app_l_Some. }
    unfold audio_at. rewrite Hrec. cbn [mbind option_bind].
    rewrite abort_local_eq by assumption. cbn [audios set_at].
    rewrite list_lookup_fmap, Ha. cbn. unfold stop_playing.
    now destruct (a_state a).
  - split; [reflexivity|]. intros Hout. now rewrite Hout.
Qed.

Lemma every_url_is_revoked_witness :
  exists v a,
    reachable (runs first_plays) /\
    invocations (runs first_plays) !! 0%nat = Some v /\
    audios v !! 0%nat = Some a /\ revoked a = 0%nat /\
    (exists i, at_await v = AwaitPlayback i 0) /\
    revoked <$> audio_at 0 0 (run (AudioEnded 0 0) (runs first_plays)) = Some 1%nat /\
    revoked <$> audio_at 0 0 (run StopTTS (runs first_plays)) = Some 1%nat.
Proof.
  exists (default (started [] 0) (invocations (runs first_plays) !! 0%nat)).
  exists (mkAudio 0 Playing true 0).
  assert (H : reachable (runs first_plays))
    by (apply reachable_runs; vm_compute; reflexivity).
  assert (Hv : invocations (runs first_plays) !! 0%nat =
               Some (default (started [] 0) (invocations (runs first_plays) !! 0%nat)))
    by (vm_compute; reflexivity).
  destruct (every_url_is_revoked _ 0%nat _ 0%nat (mkAudio 0 Playing true 0) H Hv
              ltac:(vm_compute; reflexivity))
    as (Hkept & Hexit & Habort & _).
  split; [exact H|]. split; [exact Hv|]. split; [vm_compute; reflexivity|].
  split; [reflexivity|]. split; [exact (Hkept eq_refl)|].
  split; [exact (Hexit (AudioEnded 0 0) ltac:(auto))|].
  exact (Habort ltac:(vm_compute; reflexivity) StopTTS ltac:(auto)).
Defined.

(** C4 as stated fails on the code.  A narration of one chunk plays to
    its end, which revokes the URL; the listener that the iteration added to
    the signal stays, and [_ttsAbort] still refers to the controller.  The
    next [playTTS] aborts it on its way in, and the listener revokes the
    same URL a second time. *)
Lemma url_revoked_twice :
  all_enabled played_then_replayed init = true /\
  revoked <$> audio_at 0 0 (runs played_then_replayed) = Some 2%nat /\
  trace (runs played_then_replayed) =
    [ELoading 0; EFetch 0 0; EBlob 0 0; EPlaying 0; EPlay 0 0 0;
     ERevoke 0 0; EReset 0;
     EAbort 0; EPause 0 0; ERevoke 0 0; ELoading 0; EFetch 1 0].
Proof. repeat split; vm_compute; reflexivity. Qed.

End NarrationProofs.

(** ** More on the sentence segmenter *)

Module SentencesProofs.
Import Segmenter Sentences SegmenterProofs.

Lemma ink_app a b : ink (a ++ b) = ink a ++ ink b.
Proof. apply List.filter_app. Qed.

Lemma ink_trimStart s : ink (trimStart s) = ink s.
Proof.
  induction s as [|c s IH]; [reflexivity|]. cbn [trimStart].
  destruct (is_space c) eqn:E; [|reflexivity].
  rewrite IH. unfold ink. cbn [List.filter]. now rewrite E.
Qed.

Lemma ink_trimEnd s : ink (trimEnd s) = ink s.
Proof.
  unfold trimEnd, ink. rewrite List.filter_rev.
  fold (ink (trimStart (rev s))). rewrite ink_trimStart. unfold ink.
  now rewrite List.filter_rev, rev_involutive.
Qed.

Lemma ink_trim s : ink (trim s) = ink s.
Proof. unfold trim. now rewrite ink_trimEnd, ink_trimStart. Qed.

Lemma ink_blank s : ink s = [] <-> blank s.
Proof.
  unfold blank. induction s as [|c s IH].
  - split; [constructor | reflexivity].
  - unfold ink in *. cbn [List.filter]. destruct (is_space c) eqn:E; cbn [negb].
    + rewrite IH. split; [now constructor|]. now inversion 1.
    + split; [discriminate|]. inversion 1; congruence.
Qed.

(** What [trimStart] removes is white space at the front. *)
Lemma trimStart_suffix s : exists a, s = a ++ trimStart s /\ blank a.
Proof.
  induction s as [|c s (a & Ha & Hb)]; [exists []; split; [reflexivity | constructor]|].
  simpl. destruct (is_space c) eqn:E.
  - exists (c :: a). simpl. split; [now f_equal | now constructor].
  - exists []. split; [reflexivity | constructor].
Qed.

Lemma blank_rev a : blank a -> blank (rev a).
Proof. unfold blank. intros H. now apply Forall_rev. Qed.

Lemma trimEnd_prefix s : exists b, s = trimEnd s ++ b /\ blank b.
Proof.
  destruct (trimStart_suffix (rev s)) as (a & Ha & Hb).
  exists (rev a). split; [|now apply blank_rev].
  unfold trimEnd. rewrite <- rev_app_distr, <- Ha. now rewrite rev_involutive.
Qed.

(** A text that [trimStart] leaves alone is empty or starts with something
    to read. *)
Lemma trimStart_fixed s :
  trimStart s = s <-> match s with [] => True | c :: _ => is_space c = false end.
Proof.
  destruct s as [|c s]; simpl; [tauto|].
  destruct (is_space c) eqn:E; split; try reflexivity; try discriminate.
  intros H. exfalso.
  destruct (trimStart_suffix s) as (a & Ha & _).
  apply (f_equal (@length N)) in H. apply (f_equal (@length N)) in Ha.
  rewrite length_app in Ha. simpl in H. lia.
Qed.

Lemma trimStart_idem s : trimStart (trimStart s) = trimStart s.
Proof.
  induction s as [|c s IH]; [reflexivity|]. simpl.
  destruct (is_space c) eqn:E; [exact IH|]. simpl. now rewrite E.
Qed.

Lemma trim_front s : trimStart (trim s) = trim s.
Proof.
  apply trimStart_fixed. unfold trim.
  destruct (trimEnd_prefix (trimStart s)) as (b & Hb & _).
  pose proof (proj1 (trimStart_fixed (trimStart s)) (trimStart_idem s)) as Hu.
  rewrite Hb in Hu.
  destruct (trimEnd (trimStart s)) as [|c w]; [exact I | exact Hu].
Qed.

Lemma trim_idem s : trim (trim s) = trim s.
Proof.
  unfold trim at 1. rewrite trim_front. unfold trim, trimEnd.
  now rewrite rev_involutive, trimStart_idem.
Qed.

Lemma ink_head c s : is_space c = false -> ink (c :: s) <> [].
Proof. intros E. unfold ink. cbn [List.filter]. rewrite E. discriminate. Qed.

Lemma trim_blank s : trim s = [] <-> blank s.
Proof.
  rewrite <- ink_blank. split; intros H.
  - rewrite <- ink_trim, H. reflexivity.
  - pose proof (proj1 (trimStart_fixed (trim s)) (trim_front s)) as Hf.
    destruct (trim s) as [|c w] eqn:E; [reflexivity|]. exfalso.
    rewrite <- ink_trim, E in H. exact (ink_head c w Hf H).
Qed.

(** What [splitBySentence] returns, from the segments of the text. *)
Lemma split_shape text :
  exists segs rest,
    text = concat segs ++ rest /\
    Forall closed_segment segs /\
    Forall (fun c => is_terminator c = false) rest /\
    splitBySentence text =
      (if truthy_chunks (kept (List.map trim (segs ++ [rest])))
       then kept (List.map trim (segs ++ [rest])) else [text]).
Proof.
  destruct (scan_segments text [] [] ltac:(constructor))
    as (segs & rest & Heq & Hsegs & Hrest & Hscan).
  exists segs, rest. simpl in Heq, Hscan. repeat split; auto.
  unfold splitBySentence. rewrite Hscan, push_if_kept.
  now rewrite List.map_app, kept_app.
Qed.

Lemma truthy_iff (s : jsstring) : truthy s = true <-> s <> [].
Proof. destruct s; simpl; split; congruence. Qed.

Lemma ink_kept l : ink (concat (kept (List.map trim l))) = ink (concat l).
Proof.
  induction l as [|x l IH]; [reflexivity|].
  cbn [List.map kept List.filter concat]. fold (kept (List.map trim l)).
  rewrite ink_app, <- IH, <- (ink_trim x).
  destruct (trim x) as [|c w]; cbn [truthy concat]; [reflexivity|].
  now rewrite ink_app.
Qed.

Lemma kept_in l c : In c (kept l) <-> In c l /\ c <> [].
Proof. unfold kept. rewrite filter_In, truthy_iff. tauto. Qed.

(** A text that is not blank always gives chunks of its own. *)
Lemma split_kept text segs rest :
  text = concat segs ++ rest -> ~ blank text ->
  truthy_chunks (kept (List.map trim (segs ++ [rest]))) = true.
Proof.
  intros Heq Hnb. unfold truthy_chunks. apply Nat.ltb_lt.
  destruct (kept (List.map trim (segs ++ [rest]))) as [|c l] eqn:E; [|simpl; lia].
  exfalso. apply Hnb. apply ink_blank.
  pose proof (ink_kept (segs ++ [rest])) as H. rewrite E in H. simpl in H.
  rewrite concat_app in H. simpl in H. rewrite app_nil_r, <- Heq in H. now symmetry.
Qed.

Lemma Forall_removelast {A} (P : A -> Prop) (m : list A) :
  Forall P m -> Forall P (removelast m).
Proof.
  induction 1 as [|x m Hx Hm IH]; [constructor|]. simpl.
  destruct m; [constructor | now constructor].
Qed.

Lemma removelast_suffix {A} (P : A -> Prop) (a m : list A) :
  Forall P (removelast (a ++ m)) -> Forall P (removelast m).
Proof.
  destruct m as [|x m]; [constructor|].
  rewrite removelast_app by discriminate. intros H.
  now apply Forall_app in H.
Qed.

Lemma removelast_prefix {A} (P : A -> Prop) (m b : list A) :
  Forall P (removelast (m ++ b)) -> Forall P (removelast m).
Proof.
  destruct b as [|x b]; [now rewrite app_nil_r|].
  rewrite removelast_app by discriminate. intros H.
  apply Forall_app in H. now apply Forall_removelast.
Qed.

Lemma removelast_trim (P : N -> Prop) x :
  Forall P (removelast x) -> Forall P (removelast (trim x)).
Proof.
  intros H. unfold trim.
  destruct (trimStart_suffix x) as (a & Ha & _).
  destruct (trimEnd_prefix (trimStart x)) as (b & Hb & _).
  rewrite Ha in H. apply removelast_suffix in H.
  rewrite Hb in H. now apply removelast_prefix in H.
Qed.

Lemma segment_inside x segs rest :
  Forall closed_segment segs ->
  Forall (fun c => is_terminator c = false) rest ->
  In x (segs ++ [rest]) ->
  Forall (fun c => is_terminator c = false) (removelast x).
Proof.
  intros Hsegs Hrest Hin. apply in_app_iff in Hin. destruct Hin as [Hin|[<-|[]]].
  - rewrite Forall_forall in Hsegs. apply list_elem_of_In in Hin.
    destruct (Hsegs x Hin) as (body & t & -> & _ & Hbody).
    now rewrite removelast_last.
  - now apply Forall_removelast.
Qed.

Lemma well_cut_chunks text :
  ~ blank text -> Forall well_cut (splitBySentence text).
Proof.
  intros Hnb. destruct (split_shape text) as (segs & rest & Heq & Hsegs & Hrest & ->).
  rewrite (split_kept text segs rest Heq Hnb).
  apply Forall_forall. intros c Hc. apply list_elem_of_In, kept_in in Hc.
  destruct Hc as [Hc Hne]. apply in_map_iff in Hc. destruct Hc as (x & <- & Hx).
  split; [assumption|]. split; [apply trim_idem|].
  apply removelast_trim. exact (segment_inside x segs rest Hsegs Hrest Hx).
Qed.

(** X1: segmentation loses nothing but white space: the code units of the
    chunks that are not white space are those of the text, in the same
    order. *)
Theorem segmenting_keeps_the_ink text :
  ink (concat (splitBySentence text)) = ink text.
Proof.
  destruct (split_shape text) as (segs & rest & Heq & _ & _ & ->).
  destruct (truthy_chunks (kept (List.map trim (segs ++ [rest])))).
  - rewrite ink_kept, concat_app. simpl. now rewrite app_nil_r, <- Heq.
  - simpl. now rewrite app_nil_r.
Qed.

Lemma trim_back s : trimStart (rev (trim s)) = rev (trim s).
Proof.
  unfold trim, trimEnd. now rewrite rev_involutive, trimStart_idem.
Qed.

Lemma well_cut_no_line_feed c : well_cut c -> ~ In 0x0A c.
Proof.
  intros (Hne & Htrim & Hin) Hlf.
  pose proof (trim_back c) as Hback. rewrite Htrim in Hback.
  apply trimStart_fixed in Hback.
  rewrite (app_removelast_last 0 Hne) in Hlf, Hback.
  rewrite rev_app_distr in Hback. simpl in Hback.
  apply in_app_iff in Hlf. destruct Hlf as [Hlf|[Hlf|[]]].
  - rewrite Forall_forall in Hin. apply list_elem_of_In in Hlf.
    specialize (Hin _ Hlf). discriminate.
  - rewrite Hlf in Hback. discriminate.
Qed.

(** X2: when the text is not blank, every chunk has something to read, no
    white space at either end, and a terminator at most at its end; so no
    chunk holds a line feed. *)
Theorem chunks_are_trimmed_sentences text :
  ~ blank text ->
  Forall well_cut (splitBySentence text) /\
  Forall (fun c => ~ In 0x0A c) (splitBySentence text).
Proof.
  intros Hnb. pose proof (well_cut_chunks text Hnb) as H.
  split; [exact H|]. eapply Forall_impl; [exact H|].
  intros c. apply well_cut_no_line_feed.
Qed.

Lemma chunks_are_trimmed_sentences_witness :
  ~ blank (lit " Hi!  Yo ") /\
  Forall well_cut (splitBySentence (lit " Hi!  Yo ")) /\
  splitBySentence (lit " Hi!  Yo ") = [lit "Hi!"; lit "Yo"].
Proof.
  assert (H : ~ blank (lit " Hi!  Yo ")).
  { intros Hb. apply ink_blank in Hb. vm_compute in Hb. discriminate. }
  split; [exact H|].
  split; [exact (proj1 (chunks_are_trimmed_sentences _ H)) | reflexivity].
Defined.

Lemma scan_app_plain a : forall b chunks current,
  Forall (fun c => is_terminator c = false) a ->
  scan (a ++ b) chunks current = scan b chunks (current ++ a).
Proof.
  induction a as [|c a IH]; intros b chunks current H; simpl.
  - now rewrite app_nil_r.
  - inversion H as [|? ? Hc Ha]; subst. rewrite Hc, IH by assumption.
    now rewrite <- app_assoc.
Qed.

(** A chunk is one sentence: segmented again it comes back as it is. *)
Lemma split_well_cut c : well_cut c -> splitBySentence c = [c].
Proof.
  intros (Hne & Htrim & Hin).
  pose proof (app_removelast_last 0 Hne) as Hc.
  assert (Hscan : scan c [] [] =
            if is_terminator (List.last c 0) then ([c], []) else ([], c)).
  { rewrite Hc at 1. rewrite (scan_app_plain _ _ _ _ Hin). cbn [scan app].
    rewrite <- Hc. destruct (is_terminator (List.last c 0)); [|reflexivity].
    unfold push_if. rewrite Htrim. destruct c; [congruence | reflexivity]. }
  unfold splitBySentence. rewrite Hscan.
  destruct (is_terminator (List.last c 0)).
  - reflexivity.
  - unfold push_if. rewrite Htrim. destruct c; [congruence | reflexivity].
Qed.

(** X3: segmenting the chunks again changes nothing. *)
Theorem segmenting_twice text :
  flat_map splitBySentence (splitBySentence text) = splitBySentence text.
Proof.
  destruct (trim text) as [|c w] eqn:E.
  - apply trim_blank in E.
    assert (H : splitBySentence text = [text]).
    { unfold splitBySentence.
      destruct (scan_spaces text [] [] E ltac:(constructor)) as (cur & -> & Hcur).
      unfold push_if. now rewrite (trim_spaces _ Hcur). }
    rewrite H. simpl. now rewrite H.
  - assert (Hnb : ~ blank text) by (intros Hb; apply trim_blank in Hb; congruence).
    pose proof (well_cut_chunks text Hnb) as H.
    induction H as [|x l Hx _ IH]; [reflexivity|].
    simpl. now rewrite (split_well_cut x Hx), IH.
Qed.

Lemma one_terminator seg :
  closed_segment seg -> List.filter is_terminator seg = [List.last seg 0].
Proof.
  intros (body & t & -> & Ht & Hbody).
  rewrite List.filter_app, List.last_last. simpl. rewrite Ht.
  replace (List.filter is_terminator body) with (@nil N); [reflexivity|].
  symmetry. induction Hbody as [|x l Hx _ IH]; [reflexivity|].
  simpl. now rewrite Hx.
Qed.

Lemma terminators_segments segs :
  Forall closed_segment segs -> terminators (concat segs) = length segs.
Proof.
  unfold terminators. induction 1 as [|seg segs Hseg _ IH]; [reflexivity|].
  simpl. rewrite List.filter_app, length_app, IH, (one_terminator seg Hseg).
  reflexivity.
Qed.

(** X4: there is at most one chunk more than the text has terminators. *)
Theorem chunks_bounded_by_terminators text :
  (length (splitBySentence text) <= S (terminators text))%nat.
Proof.
  destruct (split_shape text) as (segs & rest & Heq & Hsegs & Hrest & ->).
  destruct (truthy_chunks (kept (List.map trim (segs ++ [rest])))); [|simpl; lia].
  unfold kept. etransitivity; [apply List.filter_length_le|].
  rewrite length_map, length_app. simpl.
  rewrite Heq. unfold terminators. rewrite List.filter_app, length_app.
  fold (terminators (concat segs)). rewrite (terminators_segments segs Hsegs).
  rewrite Nat.add_1_r. apply le_n_S, Nat.le_add_r.
Qed.

End SentencesProofs.

(** ** More on the turn stream *)

Module StreamNotionsProofs.
Import Stream StreamNotions StreamProofs.
Local Open Scope js_scope.

Section Turn.

Variable JSON_parse : jsstring -> option json.

(** A property kept by the handlers of the events is kept by the handling
    of a line and of a read. *)
Lemma kept_by_line (I : state -> Prop) :
  (forall s e, I s -> I (set_currentEvent e s)) ->
  (forall s e data, I s -> I (dispatch e data (deliver e data s)).2) ->
  forall s line, I s -> I (on_line JSON_parse s line).
Proof.
  intros Hev Hdis s line Hs. unfold on_line.
  destruct (startsWith line (lit "event: ")); [auto|].
  destruct (startsWith line (lit "data: ")); [|assumption].
  unfold on_data, try_catch. apply Hev.
  destruct (JSON_parse (slice line 6)) as [data|]; [|assumption].
  unfold bind, exec. specialize (Hdis s (currentEvent s) data Hs).
  destruct (dispatch (currentEvent s) data (deliver (currentEvent s) data s))
    as [[a|] s2]; exact Hdis.
Qed.

Lemma kept_by_chunk (I : state -> Prop) :
  (forall s d b, I s -> I (set_input d b s)) ->
  (forall s e, I s -> I (set_currentEvent e s)) ->
  (forall s e data, I s -> I (dispatch e data (deliver e data s)).2) ->
  forall s value, I s -> I (on_chunk JSON_parse s value).
Proof.
  intros Hin Hev Hdis.
  assert (Hlines : forall lines s, I s -> I (fold_left (on_line JSON_parse) lines s)).
  { induction lines as [|line lines IH]; intros s Hs; [exact Hs|].
    cbn [fold_left]. apply IH, kept_by_line; assumption. }
  intros s value Hs. unfold on_chunk.
  destruct (TextDecoder.decode (Stream.decoder s) value) as [d' text]. auto.
Qed.

(** If the [catch] block keeps it too, it is kept by all the steps of the
    loop. *)
Lemma kept_by_steps (I : state -> Prop) :
  (forall s d b, I s -> I (set_input d b s)) ->
  (forall s e, I s -> I (set_currentEvent e s)) ->
  (forall s b, I s -> I (mark b s)) ->
  (forall s e data, I s -> I (dispatch e data (deliver e data s)).2) ->
  (forall s message, I s -> I (on_failure message s).2) ->
  forall s s', steps JSON_parse s s' -> I s -> I s'.
Proof.
  intros Hin Hev Hmark Hdis Hfail s s' Hsteps Hs.
  induction Hsteps as [s|s s' s'' _ IH Hstep]; [assumption|].
  specialize (IH Hs). destruct Hstep as [s' d b|s' line|s' h|s' message]; auto.
  apply kept_by_line; assumption.
Qed.

(** What is kept by a reset of the chat as well is kept whatever happens
    while the stream is read; without it, as long as the chat is not
    reset. *)
Lemma kept_by_happenings (I : state -> Prop) :
  (forall s d b, I s -> I (set_input d b s)) ->
  (forall s e, I s -> I (set_currentEvent e s)) ->
  (forall s b, I s -> I (mark b s)) ->
  (forall s e data, I s -> I (dispatch e data (deliver e data s)).2) ->
  (forall s, I s -> I (resetMemory s)) ->
  forall hs s, I s -> I (fold_left (happen JSON_parse) hs s).
Proof.
  intros Hin Hev Hmark Hdis Hreset.
  induction hs as [|h hs IH]; intros s Hs; [exact Hs|].
  cbn [fold_left]. apply IH.
  destruct h as [value|h|]; cbn [happen]; auto.
  apply kept_by_chunk; assumption.
Qed.

Lemma kept_while_calm (I : state -> Prop) :
  (forall s d b, I s -> I (set_input d b s)) ->
  (forall s e, I s -> I (set_currentEvent e s)) ->
  (forall s b, I s -> I (mark b s)) ->
  (forall s e data, I s -> I (dispatch e data (deliver e data s)).2) ->
  forall hs s, calm hs -> I s -> I (fold_left (happen JSON_parse) hs s).
Proof.
  intros Hin Hev Hmark Hdis. unfold calm.
  induction hs as [|h hs IH]; intros s Hc Hs; [exact Hs|].
  cbn [existsb] in Hc. apply orb_false_iff in Hc. destruct Hc as [Hh Hc].
  cbn [fold_left]. apply IH; [exact Hc|].
  destruct h as [value|h|]; cbn [happen]; auto; [|discriminate].
  apply kept_by_chunk; assumption.
Qed.

(** The turn ends after the fallback and the clean-up, or in the [catch]
    block. *)
Lemma settle_cases e s :
  settle e s = cleanup (fallback (finish e s)) \/ settle e s = finish e s.
Proof.
  unfold settle, finish. destruct (leave e s) as [[[]|] s']; auto.
Qed.

(** *** The accumulated text *)

(** One statement of a handler that keeps [P]. *)
Ltac kept_step P :=
  first
    [ eapply triple_bind with (R := fun _ s => P s); [|intros ?]
    | apply triple_ret; intros; assumption
    | apply triple_field; intros; assumption
    | apply triple_convert; intros; assumption
    | apply triple_read; intros; assumption
    | apply triple_exec; intros ? H; exact H
    | (intros ? H; exact H)
    | match goal with |- triple _ (match ?x with _ => _ end) _ _ => destruct x end
    | match goal with |- triple _ (if ?x then _ else _) _ _ => destruct x end ].

Lemma rawText_dispatch R e data :
  triple (fun s => rawText s = R /\ string_of (currentMode s) <> None)
         (dispatch e data)
         (fun _ s => rawText s = R ++ token_text (e, data))
         (fun s => rawText s = R ++ token_text (e, data)).
Proof.
  unfold token_text. cbn [fst snd].
  destruct (is_event e "token") eqn:Ht.
  - apply eqb_eq in Ht. subst e. unfold dispatch.
    change (is_event (lit "token") "tool_start") with false.
    change (is_event (lit "token") "tool_done") with false.
    change (is_event (lit "token") "token") with true. cbn iota.
    intros s [Hs Hm]. unfold on_token, bind, exec.
    destruct (ensure_cases s) as [(i & _ & ->)|[(_ & Hn & _)|(_ & _ & ->)]];
      [|contradiction|];
      unfold field, convert;
      (destruct (prop data (lit "token")) as [v|]; cbn;
       [destruct (string_of v) as [t|]; cbn|]);
      rewrite ?Hs, ?app_nil_r; reflexivity.
  - rewrite app_nil_r. unfold dispatch. rewrite Ht.
    apply triple_weaken with (P := fun s => rawText s = R); [tauto|].
    unfold on_tool_start, on_tool_done, on_done, on_error, ensureStreamBody,
      createStreamingMessage, addButtonAndPlay.
    repeat kept_step (fun s => rawText s = R).
Qed.

(** The current mode keeps a string conversion through the events that
    set a proper mode. *)
Lemma mode_dispatch e data :
  triple (fun s => string_of (currentMode s) <> None) (dispatch e data)
    (fun _ s => sets_a_proper_mode (e, data) -> string_of (currentMode s) <> None)
    (fun s => sets_a_proper_mode (e, data) -> string_of (currentMode s) <> None).
Proof.
  destruct (is_event e "done") eqn:Hd.
  - apply eqb_eq in Hd. subst e.
    change (dispatch (lit "done") data) with (on_done data). unfold on_done.
    eapply triple_bind with (R := fun _ s => string_of (currentMode s) <> None);
      [apply triple_exec; intros s H; exact H|].
    intros _. destruct (prop data (lit "mode")) as [v|] eqn:Hv.
    + apply (triple_bind_field _ _ _ v); [exact Hv|].
      eapply triple_bind with (R := fun _ _ => True); [apply triple_exec; auto|].
      intros _.
      eapply triple_bind with (R := fun _ s => currentMode s = v);
        [apply triple_exec; reflexivity|].
      intros _.
      apply triple_post with (Q := fun _ s => currentMode s = v)
                             (E := fun s => currentMode s = v).
      * intros _ s H Hset. rewrite H. exact (Hset eq_refl v Hv).
      * intros s H Hset. rewrite H. exact (Hset eq_refl v Hv).
      * unfold addButtonAndPlay. repeat kept_step (fun s => currentMode s = v).
    + intros s Hs. unfold bind, field. rewrite Hv. cbn. intros _. exact Hs.
  - apply triple_post with (Q := fun _ s => string_of (currentMode s) <> None)
                           (E := fun s => string_of (currentMode s) <> None);
      [auto | auto |].
    unfold dispatch. rewrite Hd.
    unfold on_tool_start, on_tool_done, on_token, on_error, ensureStreamBody,
      createStreamingMessage.
    repeat kept_step (fun s => string_of (currentMode s) <> None).
Qed.

Lemma spoken_snoc D ev : spoken (D ++ [ev]) = spoken D ++ token_text ev.
Proof. unfold spoken. rewrite flat_map_app. simpl. now rewrite app_nil_r. Qed.

Lemma currentMode_on_failure message s :
  currentMode (on_failure message s).2 = currentMode s.
Proof.
  assert (H : triple (fun s' => currentMode s' = currentMode s) (on_failure message)
                (fun _ s' => currentMode s' = currentMode s)
                (fun s' => currentMode s' = currentMode s)).
  { unfold on_failure, ensureStreamBody, createStreamingMessage.
    repeat kept_step (fun s' => currentMode s' = currentMode s). }
  specialize (H s eq_refl). destruct (on_failure message s) as [[a|] s']; exact H.
Qed.

Lemma in_tune_dispatch s e data :
  in_tune s -> in_tune (dispatch e data (deliver e data s)).2.
Proof.
  intros H0 Hall.
  pose proof (dispatched_dispatch (dispatched s ++ [(e, data)]) e data
                (deliver e data s) eq_refl) as Hd.
  assert (Hpre : Forall sets_a_proper_mode (dispatched s) /\
                 sets_a_proper_mode (e, data) /\
                 dispatched (dispatch e data (deliver e data s)).2 =
                   dispatched s ++ [(e, data)]).
  { destruct (dispatch e data (deliver e data s)) as [[a|] s1]; cbn [snd] in *;
      rewrite Hd in Hall; apply Forall_app in Hall; destruct Hall as [Hall He];
      inversion He; subst; auto. }
  destruct Hpre as (Hall0 & He & ->). destruct (H0 Hall0) as [Hm Hr].
  pose proof (rawText_dispatch (rawText s) e data (deliver e data s)
                (conj eq_refl Hm)) as Hraw.
  pose proof (mode_dispatch e data (deliver e data s) Hm) as Hmode.
  destruct (dispatch e data (deliver e data s)) as [[a|] s1]; cbn [snd];
    (split; [exact (Hmode He) | now rewrite Hraw, spoken_snoc, Hr]).
Qed.

Lemma in_tune_on_failure s message : in_tune s -> in_tune (on_failure message s).2.
Proof.
  unfold in_tune.
  rewrite currentMode_on_failure, rawText_on_failure, dispatched_on_failure. auto.
Qed.

Lemma in_tune_enter page d mode :
  string_of mode <> None -> in_tune (enter page d mode).
Proof. intros Hm _. split; [exact Hm | reflexivity]. Qed.

(** X5: the accumulated text of a turn is the concatenation, in the order
    of arrival, of the string conversions of the [token] fields of the
    [token] events delivered, as long as the mode at the start and the modes
    set by the [done] events delivered have a string conversion, whatever
    else happens while the stream is read.  No other event changes the text;
    a [token] event whose payload lacks the field adds the text of
    [undefined]; one whose payload is [null], or whose token has no string
    conversion, adds nothing. *)
Theorem rawText_is_the_tokens page d mode :
  string_of mode <> None ->
  (forall s, steps JSON_parse (enter page d mode) s ->
     Forall sets_a_proper_mode (dispatched s) ->
     rawText s = spoken (dispatched s)) /\
  (forall hs e,
     Forall sets_a_proper_mode
            (dispatched (turn_amid JSON_parse page d mode hs e)) ->
     rawText (turn_amid JSON_parse page d mode hs e) =
     spoken (dispatched (turn_amid JSON_parse page d mode hs e))).
Proof.
  intros Hmode. split.
  - intros s Hsteps Hall.
    apply (kept_by_steps in_tune) with (s := enter page d mode); auto.
    + intros s0 e data. apply in_tune_dispatch.
    + intros s0 message. apply in_tune_on_failure.
    + now apply in_tune_enter.
  - intros hs e. unfold turn_amid.
    set (s0 := fold_left (happen JSON_parse) hs (enter page d mode)).
    assert (H0 : in_tune s0).
    { apply kept_by_happenings; auto.
      - intros s e' data. apply in_tune_dispatch.
      - intros s H Hall. destruct (H Hall) as [_ Hr]. split; [discriminate | exact Hr].
      - now apply in_tune_enter. }
    destruct (settle_keeps e s0) as [-> ->]. intros Hall. exact (proj2 (H0 Hall)).
Qed.

(** *** The messages of the chat *)

Lemma extends_same d s s' :
  dom s' = dom s -> streamBody s' = streamBody s -> extends d s -> extends d s'.
Proof. unfold extends. intros -> ->. auto. Qed.

Lemma extends_update d i f s :
  free d i -> extends d s -> extends d (with_dom (update i f) s).
Proof.
  intros Hi (H1 & H2 & H3). unfold extends. cbn [dom streamBody with_dom].
  rewrite length_update. split; [|auto].
  intros j m Hj Hid. rewrite lookup_update_ne; [auto|].
  intros ->. specialize (Hi m Hj). congruence.
Qed.

Lemma free_streamBody d s :
  extends d s -> forall i, streamBody s = Some i -> free d i.
Proof.
  intros (_ & _ & H3) i Hb m Hm. rewrite (H3 i Hb) in Hm.
  apply lookup_lt_Some in Hm. lia.
Qed.

Lemma free_getStreamingMsg d s :
  extends d s -> forall j, getStreamingMsg s = Some j -> free d j.
Proof.
  intros (H1 & _ & _) j Hg m Hm.
  destruct (getStreamingMsg_Some _ _ Hg) as (m' & Hj & Hid).
  destruct (has_id m) eqn:E; [reflexivity|].
  rewrite (H1 j m Hm E) in Hj. congruence.
Qed.

Lemma triple_read_bind {A B} (phi : A -> Prop) P (f : state -> A) (k : A -> M B) Q E :
  (forall s, P s -> phi (f s)) -> (forall a, phi a -> triple P (k a) Q E) ->
  triple P (bind (read f) k) Q E.
Proof. intros Hphi Hk s Hs. unfold bind, read. apply Hk; auto. Qed.

Lemma extends_ensure_bind {B} d (k : nat -> M B) Q (E : state -> Prop) :
  (forall s, extends d s -> E s) ->
  (forall i, free d i -> triple (extends d) (k i) Q E) ->
  triple (extends d) (bind ensureStreamBody k) Q E.
Proof.
  intros HE Hk s Hs. unfold bind.
  destruct (ensure_cases s) as [(i & Hb & ->)|[(_ & _ & ->)|(Hb & _ & ->)]].
  - apply Hk; [exact (free_streamBody d s Hs i Hb) | exact Hs].
  - now apply HE.
  - destruct Hs as (H1 & H2 & H3). rewrite Hb in H2. apply Hk.
    + intros m Hm. apply lookup_lt_Some in Hm. lia.
    + unfold extends. cbn [dom streamBody with_dom set_streamBody new_message].
      rewrite length_app. cbn [length]. split; [|split; [lia|]].
      * intros j m Hj Hid. apply lookup_app_l_Some. auto.
      * intros i [= <-]. lia.
Qed.

Lemma extends_mark d b s : extends d s -> extends d (mark b s).
Proof. intros H. exact H. Qed.

Ltac extends_step d :=
  first
    [ apply extends_ensure_bind; [intros; assumption | intros ? ?]
    | apply (triple_read_bind (fun b => forall i, b = Some i -> free d i));
      [ intros ? ?; first [ now apply free_streamBody | now apply free_getStreamingMsg ]
      | intros ? ? ]
    | eapply triple_bind with (R := fun _ s => extends d s); [|intros ?]
    | apply triple_ret; intros; assumption
    | apply triple_field; intros; assumption
    | apply triple_convert; intros; assumption
    | apply triple_read; intros; assumption
    | apply triple_exec; let K := fresh "K" in intros ? K; cbv beta;
      first [ apply extends_update;
              [ first [ assumption
                      | match goal with
                        | F : forall i, Some _ = Some i -> free d i |- _ =>
                            apply F; reflexivity
                        end ]
              | exact K ]
            | apply extends_mark, extends_update;
              [ first [ assumption
                      | match goal with
                        | F : forall i, Some _ = Some i -> free d i |- _ =>
                            apply F; reflexivity
                        end ]
              | exact K ]
            | exact K ]
    | match goal with |- triple _ (match ?x with _ => _ end) _ _ => destruct x end
    | match goal with |- triple _ (if ?x then _ else _) _ _ => destruct x end ].

Lemma extends_dispatch d e data :
  triple (extends d) (dispatch e data) (fun _ => extends d) (extends d).
Proof.
  unfold dispatch, on_tool_start, on_tool_done, on_token, on_done, on_error,
    addButtonAndPlay.
  repeat extends_step d.
Qed.

Lemma extends_on_failure d message :
  triple (extends d) (on_failure message) (fun _ => extends d) (extends d).
Proof. unfold on_failure. repeat extends_step d. Qed.

Lemma extends_fallback d s : extends d s -> extends d (fallback s).
Proof.
  intros Hs.
  assert (H : triple (extends d) fallback_body (fun _ => extends d) (extends d)).
  { unfold fallback_body, addButtonAndPlay. repeat extends_step d. }
  specialize (H s Hs). unfold fallback.
  destruct (fallback_body s) as [[a|] s']; exact H.
Qed.

Lemma extends_steps page d mode s :
  steps JSON_parse (enter page d mode) s -> extends d s.
Proof.
  intros Hsteps.
  apply (kept_by_steps (extends d)) with (s := enter page d mode); auto.
  - intros s0 e data H0.
    pose proof (extends_dispatch d e data (deliver e data s0) H0) as H.
    destruct (dispatch e data (deliver e data s0)) as [[a|] s1]; exact H.
  - intros s0 message H0.
    pose proof (extends_on_failure d message s0 H0) as H.
    destruct (on_failure message s0) as [[a|] s1]; exact H.
  - unfold extends, enter. cbn. split; [auto|]. split; [lia|discriminate].
Qed.


(** *** The text after the last line feed *)

Lemma land_low b n : N.land b (N.ones n) = b mod 2 ^ n.
Proof. apply N.land_ones. Qed.

Lemma continuation_value c b :
  N.lor (N.shiftl c 6) (N.land b 0x3F) = c * 64 + b mod 64.
Proof.
  change 0x3F with (N.ones 6). rewrite land_low. change (2 ^ 6) with 64.
  rewrite N.shiftl_mul_pow2. change (2 ^ 6) with 64.
  assert (Hd : N.land (c * 64) (b mod 64) = 0).
  { apply N.bits_inj. intros k. rewrite N.land_spec, N.bits_0.
    destruct (N.lt_ge_cases k 6) as [Hk|Hk].
    - replace (N.testbit (c * 64) k) with false; [reflexivity|].
      symmetry. change 64 with (2 ^ 6). apply N.mul_pow2_bits_low. exact Hk.
    - replace (N.testbit (b mod 64) k) with false; [apply andb_false_r|].
      symmetry. change 64 with (2 ^ 6). apply N.mod_pow2_bits_high. exact Hk. }
  rewrite <- (N.lxor_lor _ _ Hd). symmetry. now apply N.add_nocarry_lxor.
Qed.

Lemma low_bits b k m : k * m <= b < k * m + m -> 0 < m -> b mod m = b - k * m.
Proof.
  intros Hb Hm. symmetry. apply (N.mod_unique b m k); [lia|]. lia.
Qed.

Import TextDecoder.

Lemma between_spec lo b hi : between lo b hi = true <-> lo <= b <= hi.
Proof. unfold between. rewrite andb_true_iff, !N.leb_le. tauto. Qed.

Lemma lead_not_overlong bom b : not_overlong (lead bom b).1.
Proof.
  unfold lead, not_overlong.
  destruct (b <=? 0x7F); [left; reflexivity|].
  destruct (between 0xC2 b 0xDF) eqn:H2.
  { apply between_spec in H2. right. left. cbn [fst code_point].
    change 0x1F with (N.ones 5). rewrite land_low. change (2 ^ 5) with 32.
    rewrite (low_bits b 6 32) by lia. lia. }
  destruct (between 0xE0 b 0xEF) eqn:H3.
  { apply between_spec in H3. right. cbn [fst code_point lower upper].
    change 0xF with (N.ones 4). rewrite land_low. change (2 ^ 4) with 16.
    rewrite (low_bits b 14 16) by lia.
    destruct (N.eqb_spec b 0xE0) as [->|Hb]; [right|left; lia].
    change (0xE0 =? 0xED) with false. cbv iota. lia. }
  destruct (between 0xF0 b 0xF4) eqn:H4.
  { apply between_spec in H4. right. cbn [fst code_point lower upper].
    change 0x7 with (N.ones 3). rewrite land_low. change (2 ^ 3) with 8.
    rewrite (low_bits b 30 8) by lia.
    destruct (N.eqb_spec b 0xF0) as [->|Hb]; [right|left; lia].
    change (0xF0 =? 0xF4) with false. cbv iota. lia. }
  left. reflexivity.
Qed.

Lemma lead_plain bom b : b <> LF -> Forall (fun c => c <> LF) (lead bom b).2.
Proof.
  intros Hb. unfold lead.
  destruct (b <=? 0x7F); [repeat constructor; exact Hb|].
  destruct (between 0xC2 b 0xDF); [constructor|].
  destruct (between 0xE0 b 0xEF); [constructor|].
  destruct (between 0xF0 b 0xF4); [constructor|].
  repeat constructor. discriminate.
Qed.

Lemma continuation_large st b :
  not_overlong st -> bytes_needed st <> 0 ->
  between (lower st) b (upper st) = true ->
  16 <= N.lor (N.shiftl (code_point st) 6) (N.land b 0x3F).
Proof.
  intros [H|[H|[Hl Hu]]] Hn Hb; [congruence| |]; rewrite continuation_value.
  - apply N.le_trans with (code_point st * 64); [lia | apply N.le_add_r].
  - apply between_spec in Hb. rewrite (low_bits b 2 64) by lia. lia.
Qed.

Lemma handler_not_overlong st b : not_overlong st -> not_overlong (handler st b).1.
Proof.
  intros Hst. unfold handler.
  destruct (N.eqb_spec (bytes_needed st) 0) as [_|Hn]; [apply lead_not_overlong|].
  destruct (between (lower st) b (upper st)) eqn:Hb; cbn [negb].
  - pose proof (continuation_large st b Hst Hn Hb) as Hcp.
    destruct (bytes_seen st + 1 =? bytes_needed st).
    + left. reflexivity.
    + right. left. cbn [fst code_point]. lia.
  - pose proof (lead_not_overlong (bom_seen st) b) as H.
    destruct (lead (bom_seen st) b). exact H.
Qed.

Lemma handler_plain st b :
  not_overlong st -> b <> LF -> Forall (fun c => c <> LF) (handler st b).2.
Proof.
  intros Hst Hne. unfold handler.
  destruct (N.eqb_spec (bytes_needed st) 0) as [_|Hn]; [now apply lead_plain|].
  destruct (between (lower st) b (upper st)) eqn:Hb; cbn [negb].
  - pose proof (continuation_large st b Hst Hn Hb) as Hcp.
    destruct (bytes_seen st + 1 =? bytes_needed st); [|constructor].
    repeat constructor. unfold LF. cbn [snd]. lia.
  - pose proof (lead_plain (bom_seen st) b Hne) as H.
    destruct (lead (bom_seen st) b). constructor; [discriminate | exact H].
Qed.

Lemma utf16_plain cp : cp <> LF -> Forall (fun c => c <> LF) (utf16 cp).
Proof.
  intros H. unfold utf16. destruct (cp <? 0x10000).
  - repeat constructor. exact H.
  - repeat constructor; unfold LF; lia.
Qed.

Lemma emit_all_plain cps : forall st,
  Forall (fun c => c <> LF) cps ->
  Forall (fun c => c <> LF) (emit_all st cps).2 /\
  (not_overlong st -> not_overlong (emit_all st cps).1).
Proof.
  induction cps as [|cp cps IH]; intros st Hc; [split; [constructor|auto]|].
  inversion Hc as [|? ? Hcp Hcps]; subst. cbn [emit_all].
  assert (He : Forall (fun c => c <> LF) (emit st cp).2 /\
               (not_overlong st -> not_overlong (emit st cp).1)).
  { unfold emit. destruct (bom_seen st); [split; [now apply utf16_plain|auto]|].
    destruct (cp =? 0xFEFF); (split; [first [constructor | now apply utf16_plain]|]);
      intros H; exact H. }
  destruct (emit st cp) as [st1 o1]. destruct He as [He1 He2].
  destruct (IH st1 Hcps) as [H1 H2]. destruct (emit_all st1 cps) as [st2 o2].
  split; [apply Forall_app; auto | auto].
Qed.

Lemma emit_all_not_overlong cps : forall st,
  not_overlong st -> not_overlong (emit_all st cps).1.
Proof.
  induction cps as [|cp cps IH]; intros st Hst; [exact Hst|].
  cbn [emit_all].
  assert (He : not_overlong (emit st cp).1).
  { unfold emit. destruct (bom_seen st); [exact Hst|].
    destruct (cp =? 0xFEFF); exact Hst. }
  destruct (emit st cp) as [st1 o1]. specialize (IH st1 He).
  destruct (emit_all st1 cps) as [st2 o2]. exact IH.
Qed.

Lemma decode_not_overlong bytes : forall st,
  not_overlong st -> not_overlong (decode st bytes).1.
Proof.
  induction bytes as [|b bytes IH]; intros st Hst; [exact Hst|].
  cbn [decode]. unfold step.
  pose proof (handler_not_overlong st b Hst) as Hh.
  destruct (handler st b) as [st0 cps].
  pose proof (emit_all_not_overlong cps st0 Hh) as He.
  destruct (emit_all st0 cps) as [st1 o1]. specialize (IH st1 He).
  destruct (decode st1 bytes) as [st2 o2]. exact IH.
Qed.

Lemma decode_plain bytes : forall st,
  not_overlong st -> Forall (fun b => b <> LF) bytes ->
  Forall (fun c => c <> LF) (decode st bytes).2.
Proof.
  induction bytes as [|b bytes IH]; intros st Hst Hb; [constructor|].
  inversion Hb as [|? ? Hb1 Hb2]; subst. cbn [decode]. unfold step.
  pose proof (handler_not_overlong st b Hst) as Hh.
  pose proof (handler_plain st b Hst Hb1) as Hp.
  destruct (handler st b) as [st0 cps].
  destruct (emit_all_plain cps st0 Hp) as [He1 He2]. specialize (He2 Hh).
  destruct (emit_all st0 cps) as [st1 o1]. specialize (IH st1 He2 Hb2).
  destruct (decode st1 bytes) as [st2 o2]. apply Forall_app. auto.
Qed.

Lemma split_lf_plain x : Forall (fun c => c <> LF) x -> split_lf x = [x].
Proof.
  induction 1 as [|c x Hc _ IH]; [reflexivity|].
  rewrite split_lf_cons, IH. apply N.eqb_neq in Hc. now rewrite Hc.
Qed.

Lemma reads_reader d mode chunks :
  not_overlong (Stream.decoder (reads JSON_parse (start d mode) chunks)) /\
  Forall (fun c => c <> LF) (buffer (reads JSON_parse (start d mode) chunks)).
Proof.
  rewrite (reads_concat JSON_parse) by apply on_chunk_start_nil.
  pose proof (on_chunk_input JSON_parse (start d mode) (concat chunks)) as H.
  pose proof (decode_not_overlong (concat chunks) (Stream.decoder (start d mode))) as Hd.
  destruct (decode (Stream.decoder (start d mode)) (concat chunks)) as [d' text].
  destruct H as [-> ->]. split; [|apply last_split_lf_plain].
  apply Hd. left. reflexivity.
Qed.

Ltac framed :=
  first
    [ apply frames_create
    | apply frames_convert
    | apply frames_bind; [|intros ?]
    | apply frames_ret
    | apply frames_throw
    | apply frames_field
    | apply frames_exec; intros; reflexivity
    | apply frames_read; intros; reflexivity
    | match goal with |- frames (match ?x with _ => _ end) => destruct x end
    | match goal with |- frames (if ?x then _ else _) => destruct x end ].

Lemma leave_frames e : frames (leave e).
Proof.
  destruct e as [|message]; [apply frames_ret|].
  unfold leave, on_failure, ensureStreamBody. repeat framed.
Qed.

Lemma fallback_set_input d b s :
  fallback (set_input d b s) = set_input d b (fallback s).
Proof.
  unfold fallback.
  assert (H : frames fallback_body).
  { unfold fallback_body, addButtonAndPlay. repeat framed. }
  now rewrite H.
Qed.

Lemma settle_set_input e d b s :
  settle e (set_input d b s) = set_input d b (settle e s).
Proof.
  unfold settle. rewrite (leave_frames e).
  destruct (leave e s) as [[[]|] s']; cbn [fst snd]; [|reflexivity].
  unfold cleanup. now rewrite fallback_set_input.
Qed.

(** X7: the bytes that follow the last line feed of a stream are never
    acted upon.  When the last read brings no byte [0x0A], the turn ends as
    it does without that read, up to what the reader holds: the same
    messages, calls, accumulated text and delivered events, whether the
    stream then closes or fails. *)
Theorem unterminated_line_is_dropped d mode chunks tail e :
  Forall (fun b => b <> LF) tail ->
  same_page (turn JSON_parse d mode chunks e)
            (turn JSON_parse d mode (chunks ++ [tail]) e).
Proof.
  intros Htail. unfold turn, reads. rewrite fold_left_app. cbn [fold_left].
  fold (reads JSON_parse (start d mode) chunks).
  destruct (reads_reader d mode chunks) as [Hd Hb].
  set (s := reads JSON_parse (start d mode) chunks) in *.
  unfold on_chunk.
  pose proof (decode_plain tail (Stream.decoder s) Hd Htail) as Ht.
  destruct (decode (Stream.decoder s) tail) as [d' text]. cbn [snd] in Ht.
  rewrite split_lf_plain by (apply Forall_app; auto).
  cbn [removelast List.last fold_left].
  exists d', (buffer s ++ text).
  now rewrite settle_set_input.
Qed.

(** *** Turns that show nothing *)

Lemma silent_call d c s : quiet c -> silent d s -> silent d (do_call c s).
Proof.
  intros Hc (H1 & H2 & H3 & H4). repeat split; try assumption.
  intros text i Hin. cbn [calls do_call] in Hin. apply in_app_or in Hin.
  destruct Hin as [Hin|[E|[]]]; [exact (H4 text i Hin) | subst c; exact Hc].
Qed.

Lemma silent_no_id d s : fresh d -> silent d s -> getStreamingMsg s = None.
Proof.
  intros Hd (H1 & _). unfold getStreamingMsg. rewrite H1.
  apply getStreamingMsg_from_None. exact Hd.
Qed.

Ltac silent_step d Hd :=
  first
    [ apply (triple_read_bind (fun b : option nat => b = None));
      [ let K := fresh "K" in
        intros ? K; first [ now apply (silent_no_id d) | exact (proj1 (proj2 K)) ]
      | intros ? -> ]
    | eapply triple_bind with (R := fun _ s => silent d s); [|intros ?]
    | apply triple_ret; intros; assumption
    | apply triple_field; intros; assumption
    | apply triple_convert; intros; assumption
    | apply triple_read; intros; assumption
    | apply triple_exec; let K := fresh "K" in intros ? K; cbv beta;
      first [ apply silent_call; [exact I | exact K] | exact K ]
    | match goal with |- triple _ (match ?x with _ => _ end) _ _ => destruct x end
    | match goal with |- triple _ (if ?x then _ else _) _ _ => destruct x end ].

Lemma silent_dispatch d e data :
  fresh d -> makes_message e = false ->
  triple (silent d) (dispatch e data) (fun _ => silent d) (silent d).
Proof.
  intros Hd He. apply orb_false_iff in He. destruct He as [Ht Herr].
  unfold dispatch. rewrite Ht, Herr.
  unfold on_tool_start, on_tool_done, on_done.
  repeat silent_step d Hd.
Qed.


End Turn.

(** A turn that starts from the usual mode and holds a token and a [done]
    event. *)
Lemma rawText_is_the_tokens_witness :
  string_of ANGEL <> None /\
  rawText (turn_amid sample_parse [] [] ANGEL [Read stream_hi_done] Closed) =
  spoken (dispatched (turn_amid sample_parse [] [] ANGEL [Read stream_hi_done] Closed)).
Proof.
  assert (H : string_of ANGEL <> None) by discriminate.
  split; [exact H|].
  apply (proj2 (rawText_is_the_tokens sample_parse [] [] ANGEL H)
           [Read stream_hi_done] Closed).
  vm_compute. repeat constructor.
  - intros E. discriminate E.
  - intros _ v E. injection E as <-. discriminate.
Defined.



(** The stream [event: token], [data: {"token":"hi"}] read whole, then the
    start of another event without its line feed. *)
Lemma unterminated_line_is_dropped_witness :
  Forall (fun b => b <> LF) (lit "event: done") /\
  same_page (turn sample_parse [] None [stream_hi] Closed)
            (turn sample_parse [] None ([stream_hi] ++ [lit "event: done"]) Closed).
Proof.
  assert (H : Forall (fun b => b <> LF) (lit "event: done")).
  { repeat constructor; discriminate. }
  split; [exact H|].
  exact (unterminated_line_is_dropped sample_parse [] None [stream_hi]
           (lit "event: done") Closed H).
Defined.

End StreamNotionsProofs.

(** ** The order of the calls of a narration *)

Module ScheduleProofs.
Import Segmenter Narration Schedule NarrationProofs.

Lemma logged_quiet k f b p tr es :
  Forall (foreign k) es -> logged k f b p tr -> logged k f b p (tr ++ es).
Proof.
  intros Hes (H1 & H2 & H3).
  assert (Hnone : List.filter (is_fetch k) es = [] /\
                  List.filter (is_blob k) es = [] /\
                  List.filter (is_play k) es = []).
  { induction Hes as [|e es He _ IH]; [auto|].
    destruct IH as (I1 & I2 & I3).
    destruct e; cbn [List.filter is_fetch is_blob is_play]; auto;
      cbn [foreign] in He; apply Nat.eqb_neq in He; rewrite He; auto. }
  destruct Hnone as (N1 & N2 & N3).
  unfold logged. rewrite !List.filter_app, N1, N2, N3, !app_nil_r. auto.
Qed.

Lemma logged_fetch k f b p tr :
  logged k f b p tr -> logged k (S f) b p (tr ++ [EFetch k f]).
Proof.
  intros (H1 & H2 & H3). unfold logged. rewrite !List.filter_app.
  cbn [List.filter is_fetch is_blob is_play]. rewrite Nat.eqb_refl.
  rewrite H1, H2, H3, seq_S, List.map_app, !app_nil_r. auto.
Qed.

Lemma logged_blob k f b p tr :
  logged k f b p tr -> logged k f (S b) p (tr ++ [EBlob k b]).
Proof.
  intros (H1 & H2 & H3). unfold logged. rewrite !List.filter_app.
  cbn [List.filter is_fetch is_blob is_play]. rewrite Nat.eqb_refl.
  rewrite H1, H2, H3, seq_S, List.map_app, !app_nil_r. auto.
Qed.

Lemma logged_play k f b p tr :
  logged k f b p tr -> logged k f b (S p) (tr ++ [EPlay k p p]).
Proof.
  intros (H1 & H2 & H3). unfold logged. rewrite !List.filter_app.
  cbn [List.filter is_fetch is_blob is_play]. rewrite Nat.eqb_refl.
  rewrite H1, H2, H3, seq_S, List.map_app, !app_nil_r. auto.
Qed.

Lemma logged_other k f b p tr e :
  foreign k e -> logged k f b p tr -> logged k f b p (tr ++ [e]).
Proof. intros He. apply logged_quiet. now constructor. Qed.

(** The head of the loop for index [i], reached with [i] elements and,
    when chunk [i] exists, its request as the last one. *)
Lemma ordered_resumes k v i v' es tr :
  resumes k v i v' es ->
  ((i < length (chunks v))%nat -> length (fetched v) = S i) ->
  length (audios v) = i ->
  (length (audios v) <= length (fetched v) <= length (chunks v))%nat ->
  logged k (length (fetched v)) i i tr ->
  ordered k v' (tr ++ es).
Proof.
  intros Hres Hf Ha Hb Hlog.
  destruct Hres as [Hn|Hn Hst|Hn Hst|Hn Hst|Hn Hst].
  - split; [|exact Hb]. exists i. unfold body_reads; cbn [fetched audios at_await set_at].
    rewrite Ha. split; [|repeat split; lia].
    apply logged_other; [exact I | exact Hlog].
  - rewrite app_nil_r. split; [|exact Hb]. exists i.
    unfold body_reads; cbn [fetched audios at_await set_at]. rewrite Ha.
    split; [exact Hlog | repeat split; lia].
  - specialize (Hf Hn). unfold on_response_local, on_response_events.
    destruct (S i <? length (chunks v))%nat eqn:E.
    + apply Nat.ltb_lt in E. unfold issue_local, ordered, body_reads.
      cbn [fetched audios at_await chunks set_at set_resp with_fetched].
      rewrite length_app, Hf, Ha. cbn [length].
      replace (S i + 1)%nat with (S (S i)) by lia.
      split; [|lia]. exists (S i). split; [|repeat split; lia].
      change ([EFetch k (S i)] ++ [EBlob k i]) with ([EFetch k (S i); EBlob k i]).
      replace (tr ++ [EFetch k (S i); EBlob k i])
        with ((tr ++ [EFetch k (S i)]) ++ [EBlob k i])
        by (now rewrite <- app_assoc).
      apply logged_blob, logged_fetch. rewrite <- Hf. exact Hlog.
    + unfold ordered, body_reads.
      cbn [fetched audios at_await chunks set_at set_resp app].
      rewrite Ha. split; [|lia]. exists (S i). split; [|repeat split; lia].
      apply logged_blob. exact Hlog.
  - rewrite app_nil_r. split; [|exact Hb]. exists i.
    unfold body_reads; cbn [fetched audios at_await set_at set_resp]. rewrite Ha.
    split; [exact Hlog | repeat split; lia].
  - split; [|exact Hb]. exists i. unfold body_reads; cbn [fetched audios at_await set_at].
    rewrite Ha. split; [|repeat split; lia].
    apply logged_quiet; [repeat constructor | exact Hlog].
Qed.

Lemma ordered_moves k v v' es tr :
  wf v -> ordered k v tr -> moves k v v' es -> ordered k v' (tr ++ es).
Proof.
  intros [Hreq _] [(b & Hlog & Hb1 & Hb2 & Hb3) Hbound] Hmv.
  pose proof (wf_shape _ Hreq) as Hshape. unfold at_shape in Hshape.
  destruct Hmv as [j t Hp Hat Ht|i t v' es Hat Ht Hne' Hr|i Hat|i t Hor
                  |i j g v' es Hat Hr|g j es Hes|].
  - rewrite app_nil_r. unfold mark, ordered, body_reads.
    cbn [fetched audios at_await chunks with_fetched]. rewrite ?length_alter.
    split; [|exact Hbound]. exists b. auto.
  - rewrite Hat in Hshape, Hb3. destruct Hshape as (Hi & Hf & Ha & _).
    apply (ordered_resumes k (mark i t v) i v' es tr Hr); unfold mark;
      cbn [fetched audios chunks with_fetched]; rewrite ?length_alter; auto.
    rewrite Hb3, Ha in Hlog. exact Hlog.
  - rewrite Hat in Hshape, Hb3. destruct Hshape as (Hi & Hf & Ha & _).
    unfold mark, ordered, body_reads.
    cbn [fetched audios at_await chunks set_at with_audios with_fetched].
    rewrite ?length_alter, ?length_app. cbn [length].
    replace (length (audios v) + 1)%nat with (S (length (audios v))) by lia.
    assert (Hlt : (S i <= length (fetched v))%nat).
    { destruct (S i <? length (chunks v))%nat; lia. }
    split; [|lia]. exists b. split; [|lia].
    rewrite Ha in Hlog |- *. destruct (i =? 0)%nat; cbn [app].
    + replace (tr ++ [EPlaying (btn v); EPlay k i i])
        with ((tr ++ [EPlaying (btn v)]) ++ [EPlay k i i])
        by (now rewrite <- app_assoc).
      apply logged_play, logged_other; [exact I | exact Hlog].
    + apply logged_play. exact Hlog.
  - unfold mark, ordered, body_reads.
    cbn [fetched audios at_await chunks set_at with_fetched].
    rewrite ?length_alter. split; [|exact Hbound].
    exists b. split; [|auto].
    apply logged_quiet; [repeat constructor | exact Hlog].
  - rewrite Hat in Hshape, Hb3. destruct Hshape as (Hi & -> & Hf & Ha).
    replace (tr ++ ERevoke k i :: es) with ((tr ++ [ERevoke k i]) ++ es)
      by (now rewrite <- app_assoc).
    apply (ordered_resumes k (with_audios (alter g i) v) (S i) v' es _ Hr);
      cbn [fetched audios chunks with_audios]; rewrite ?length_alter; auto.
    + intros Hlt. apply Nat.ltb_lt in Hlt. now rewrite Hlt in Hf.
    + apply logged_other; [exact I|]. rewrite Hb3, Ha in Hlog. exact Hlog.
  - unfold ordered, body_reads.
    cbn [fetched audios at_await chunks with_audios]. rewrite ?length_alter.
    split; [|exact Hbound]. exists b. split; [|auto].
    apply logged_quiet; [|exact Hlog].
    destruct Hes as [->| ->]; repeat constructor.
  - rewrite app_nil_r. split; [|exact Hbound]. exists b.
    exact (conj Hlog (conj Hb1 (conj Hb2 Hb3))).
Qed.

Lemma ordered_elsewhere k v tr es :
  Forall (foreign k) es -> ordered k v tr -> ordered k v (tr ++ es).
Proof.
  intros Hes [(b & Hlog & Hb) Hbound]. split; [|exact Hbound].
  exists b. split; [now apply logged_quiet | exact Hb].
Qed.

Lemma annals_local l s :
  invariant s -> history s -> annals s -> is_call l = false -> enabled l s = true ->
  annals (run l s).
Proof.
  intros Hinv Hhist Hann Hl Hen.
  pose proof (inv_queue _ Hinv) as Hq.
  destruct (handle_quiet l Hl s) as [Htts Hmicro].
  assert (Hrec : invocations (run l s) =
                 alter (local_effect l) (subject l) (invocations s)).
  { unfold run. rewrite invocations_drain, Hmicro, Hq. simpl.
    now apply handle_invocations. }
  assert (Htr : trace (run l s) =
                trace s ++ from_option (label_events l) [] (invocations s !! subject l)).
  { rewrite trace_run by auto. destruct l; try discriminate; reflexivity. }
  unfold annals. rewrite Hrec, Htr.
  destruct (invocations s !! subject l) as [v|] eqn:E.
  2:{ rewrite (alter_absent _ _ _ E). cbn [from_option]. rewrite app_nil_r.
      exact Hann. }
  destruct (hist_each _ Hhist _ _ E) as [_ Hunread].
  pose proof (inv_wf _ Hinv _ _ E) as Hwf.
  pose proof (label_moves l s v Hl Hen E Hwf Hunread) as Hmv.
  cbn [from_option]. intros k v' Hk.
  destruct (lookup_alter_inv _ _ _ _ _ Hk) as [[Hne Hk']|[<- (x & Hx & ->)]].
  - apply ordered_elsewhere; [|now apply Hann].
    apply (moves_foreign _ _ _ _ _ Hmv). congruence.
  - assert (x = v) by congruence. subst x.
    apply (ordered_moves _ v); auto.
Qed.

Lemma ordered_settled s k v' es :
  invariant s -> annals s -> settled s !! k = Some v' ->
  Forall (foreign k) es -> ordered k v' (trace s ++ es).
Proof.
  intros Hinv Hann Hk Hes.
  destruct (settled_returned s k v' Hinv Hk) as [_ Hret].
  destruct (settled_view s k v' Hinv Hk) as (v & Hv & Hc & HF & HA & _).
  destruct (Hann _ _ Hv) as [(b & Hlog & Hb1 & Hb2 & _) Hbound].
  split; rewrite ?HF, ?HA, ?Hc; [|exact Hbound].
  exists b. split; [now apply logged_quiet|].
  unfold body_reads. rewrite HF, HA, Hret. auto.
Qed.

Lemma annals_stop s : invariant s -> annals s -> annals (run StopTTS s).
Proof.
  intros Hinv Hann. pose proof (inv_queue _ Hinv) as Hq.
  assert (Hrec : invocations (run StopTTS s) = settled s).
  { unfold run. cbn [handle]. rewrite invocations_drain, stopTTS_microtasks,
      stopTTS_invocations, Hq. reflexivity. }
  assert (Htr : trace (run StopTTS s) =
                trace s ++ (stop_events s ++ resumed_events s)).
  { rewrite trace_run by auto. reflexivity. }
  unfold annals. rewrite Hrec, Htr. intros k v Hk.
  apply ordered_settled; try assumption.
  apply Forall_forall. intros e He. apply list_elem_of_In in He.
  exact (proj1 (call_events_foreign s k e He)).
Qed.

Lemma logged_none k tr :
  Forall (owned k) tr -> logged k 0 0 0 tr.
Proof.
  intros Hown.
  assert (H : Forall (foreign k) tr).
  { apply (Forall_impl _ _ _ Hown). intros e He.
    destruct e; cbn [owned foreign] in *; try exact I; lia. }
  apply (logged_quiet k 0 0 0 [] tr H). repeat split.
Qed.

Lemma annals_play t b s :
  invariant s -> history s -> annals s -> annals (run (PlayTTS t b) s).
Proof.
  intros Hinv Hhist Hann. pose proof (inv_queue _ Hinv) as Hq.
  pose proof (run_play_invocations t b s Hq) as Hrec.
  set (n := length (invocations s)).
  assert (Htr : trace (run (PlayTTS t b) s) =
                trace s ++ (stop_events s ++ [ELoading b; EFetch n 0] ++ resumed_events s)).
  { rewrite trace_run by auto. reflexivity. }
  assert (Hcall : forall k, Forall (foreign k) (stop_events s) /\
                            Forall (foreign k) (resumed_events s)).
  { intros k. split; apply Forall_forall; intros e He; apply list_elem_of_In in He;
      apply (call_events_foreign s k e), in_app_iff; auto. }
  unfold annals. rewrite Hrec, Htr. intros k v Hk.
  apply lookup_app_Some in Hk. destruct Hk as [Hk|[Hge Hk]].
  - apply ordered_settled; try assumption.
    destruct (Hcall k) as [H1 H2].
    apply Forall_app. split; [exact H1|]. apply Forall_app. split; [|exact H2].
    repeat constructor. cbn [foreign].
    apply lookup_lt_Some in Hk. rewrite length_settled in Hk. fold n in Hk. lia.
  - rewrite length_settled in Hge, Hk. fold n in Hge, Hk.
    destruct (k - n)%nat eqn:Hkn; simpl in Hk; [|discriminate].
    injection Hk as <-. assert (k = n) by lia. subst k.
    rewrite started_eq. destruct (Hcall n) as [H1 H2].
    pose proof (length_chunks_started t) as Hlen.
    split; cbn [fetched audios chunks length]; [|lia].
    exists 0%nat. split; [|repeat split; cbn [audios fetched length]; lia].
    rewrite !app_assoc. apply logged_quiet; [exact H2|].
    replace ((trace s ++ stop_events s) ++ [ELoading b; EFetch n 0])
      with (((trace s ++ stop_events s) ++ [ELoading b]) ++ [EFetch n 0])
      by (now rewrite <- !app_assoc).
    apply (logged_fetch n 0 0 0), logged_other; [exact I|].
    apply logged_quiet; [exact H1|].
    apply logged_none. exact (hist_owned _ Hhist).
Qed.

Lemma reachable_annals s : reachable s -> annals s.
Proof.
  induction 1 as [|s s' Hs IH Hstep].
  - intros k v H. cbn in H. rewrite lookup_nil in H. discriminate.
  - pose proof (reachable_invariant s Hs) as Hinv.
    pose proof (reachable_history s Hs) as Hhist.
    destruct Hstep as [l s Hen].
    destruct (is_call l) eqn:Hl; [|now apply annals_local].
    destruct l; try discriminate; [now apply annals_play | now apply annals_stop].
Qed.

(** X9: a narration requests, reads and plays its chunks in the order of
    the text, each one once and none skipped.  At any time the requests made
    for an invocation are those for the chunks [0] to [f - 1] in this order,
    [f] being the number of its requests; the playbacks are those of the
    chunks [0] to [p - 1] in this order, chunk [i] by element [i]; the bodies
    read are those of the chunks before [p] and at most one more; and no
    more requests are made than the text has chunks. *)
Theorem chunks_are_narrated_in_order s k v :
  reachable s -> invocations s !! k = Some v ->
  List.filter (is_fetch k) (trace s) =
    List.map (EFetch k) (seq 0 (length (fetched v))) /\
  List.filter (is_play k) (trace s) =
    List.map (fun i => EPlay k i i) (seq 0 (length (audios v))) /\
  (exists b, List.filter (is_blob k) (trace s) = List.map (EBlob k) (seq 0 b) /\
             (length (audios v) <= b <= S (length (audios v)))%nat /\
             (b <= length (fetched v))%nat) /\
  (length (audios v) <= length (fetched v) <= length (chunks v))%nat.
Proof.
  intros Hreach Hv.
  destruct (reachable_annals s Hreach k v Hv)
    as [(b & (H1 & H2 & H3) & Hb1 & Hb2 & _) Hbound].
  split; [exact H1|]. split; [exact H3|]. split; [|exact Hbound].
  exists b. auto.
Qed.

Lemma chunks_are_narrated_in_order_witness :
  exists v,
    reachable (runs second_fails) /\
    invocations (runs second_fails) !! 0%nat = Some v /\
    List.filter (is_fetch 0) (trace (runs second_fails)) = [EFetch 0 0; EFetch 0 1] /\
    List.filter (is_play 0) (trace (runs second_fails)) = [EPlay 0 0 0].
Proof.
  exists (default (started [] 0) (invocations (runs second_fails) !! 0%nat)).
  assert (H : reachable (runs second_fails))
    by (apply reachable_runs; vm_compute; reflexivity).
  assert (Hv : invocations (runs second_fails) !! 0%nat =
               Some (default (started [] 0) (invocations (runs second_fails) !! 0%nat)))
    by (vm_compute; reflexivity).
  destruct (chunks_are_narrated_in_order _ 0%nat _ H Hv) as (Hf & Hp & _).
  split; [exact H|]. split; [exact Hv|].
  split; [rewrite Hf | rewrite Hp]; vm_compute; reflexivity.
Defined.

End ScheduleProofs.

(** ** The look of the buttons *)

Module ButtonsProofs.
Import Segmenter Narration Buttons NarrationProofs.

Lemma painted_app es1 : forall es2 b0 b1 b2,
  painted es1 b0 b1 -> painted es2 b1 b2 -> painted (es1 ++ es2) b0 b2.
Proof.
  induction es1 as [|e es1 IH]; intros es2 b0 b1 b2 H1 H2; cbn in *.
  - now subst b1.
  - destruct H1 as (bs1 & He & H1). exists bs1. split; [exact He | eauto].
Qed.

Lemma painted_after_loop k s :
  painted (from_option after_loop_events [] (invocations s !! k))
          (buttons s) (buttons (after_loop k s)).
Proof.
  unfold after_loop, after_loop_events.
  destruct (invocations s !! k) as [v|]; simpl; [|reflexivity].
  destruct (aborted v); simpl; [reflexivity|]. eexists. split; [eexists|]; reflexivity.
Qed.

Lemma painted_catch_block k e s :
  painted (from_option (catch_events k e) [] (invocations s !! k))
          (buttons s) (buttons (catch_block k e s)).
Proof.
  unfold catch_block, catch_events.
  destruct (invocations s !! k) as [v|]; simpl; [|reflexivity].
  destruct e, (aborted v); simpl; try reflexivity;
    repeat (eexists; split; [first [reflexivity | eexists; reflexivity]|]);
    reflexivity.
Qed.

Lemma painted_on_response k i s :
  painted (from_option (on_response_events k i) [] (invocations s !! k))
          (buttons s) (buttons (on_response k i s)).
Proof.
  unfold on_response, on_response_events.
  destruct (invocations s !! k) as [v|]; simpl; [|reflexivity].
  destruct (S i <? length (chunks v))%nat; simpl;
    repeat (eexists; split; [reflexivity|]); reflexivity.
Qed.

Lemma painted_await_next k i s :
  painted (from_option (await_next_events k i) [] (invocations s !! k))
          (buttons s) (buttons (await_next k i s)).
Proof.
  pose proof (painted_on_response k i s) as H1.
  pose proof (painted_catch_block k false s) as H2.
  pose proof (painted_catch_block k true s) as H3.
  unfold await_next, await_next_events.
  destruct (invocations s !! k) as [v|] eqn:E; simpl; [|reflexivity].
  cbn [from_option] in H1, H2, H3.
  destruct (f_state <$> fetched v !! nextResp v) as [[|[|]|ok| | |]|];
    try reflexivity; assumption.
Qed.

Lemma painted_loop_top k i s :
  painted (from_option (loop_top_events k i) [] (invocations s !! k))
          (buttons s) (buttons (loop_top k i s)).
Proof.
  pose proof (painted_after_loop k s) as H1.
  pose proof (painted_await_next k i s) as H2.
  unfold loop_top, loop_top_events.
  destruct (invocations s !! k) as [v|] eqn:E; simpl; [|reflexivity].
  cbn [from_option] in H1, H2.
  destruct (i <? length (chunks v))%nat; [destruct (aborted v)|]; assumption.
Qed.

Lemma painted_after_blob k i s :
  painted (from_option (after_blob_events k i) [] (invocations s !! k))
          (buttons s) (buttons (after_blob k i s)).
Proof.
  pose proof (painted_after_loop k s) as H1.
  unfold after_blob, after_blob_events.
  destruct (invocations s !! k) as [v|] eqn:E; simpl; [|reflexivity].
  cbn [from_option] in H1.
  destruct (aborted v); [assumption|].
  destruct (i =? 0)%nat; simpl;
    repeat (eexists; split; [reflexivity|]); reflexivity.
Qed.

Lemma painted_resolve k j s :
  painted (from_option (resolve_events k j) [] (invocations s !! k))
          (buttons s) (buttons (resolve k j s)).
Proof.
  unfold resolve, resolve_events.
  destruct (invocations s !! k) as [v|] eqn:E; simpl; [|reflexivity].
  destruct (at_await v) as [i|i|i|i j'|]; try reflexivity.
  destruct (j =? j')%nat; [|reflexivity].
  pose proof (painted_loop_top k (S i) s) as H. now rewrite E in H.
Qed.

Lemma painted_resume k s :
  painted (from_option (resume_events k) [] (invocations s !! k))
          (buttons s) (buttons (resume_aborted s k)).
Proof.
  pose proof (painted_catch_block k true s) as H1.
  pose proof (painted_catch_block k false s) as H2.
  unfold resume_aborted, resume_events.
  destruct (invocations s !! k) as [v|] eqn:E; simpl; [|reflexivity].
  cbn [from_option] in H1, H2.
  destruct (at_await v) as [i|i|i|i j'|]; try assumption; try reflexivity.
  pose proof (painted_loop_top k (S i) s) as H. now rewrite E in H.
Qed.

Lemma painted_revoke_resolve k j g s v :
  invocations s !! k = Some v ->
  painted (ERevoke k j :: resolve_events k j v) (buttons s)
          (buttons (resolve k j (revoke k j (with_audio k j g s)))).
Proof.
  intros E. exists (buttons s). split; [reflexivity|].
  pose proof (painted_resolve k j (revoke k j (with_audio k j g s))) as H.
  cbn [invocations buttons revoke log with_audio with_inv with_invocations] in H.
  rewrite !list_lookup_alter_eq, E in H. exact H.
Qed.

Lemma painted_handle l s :
  is_call l = false -> enabled l s = true ->
  (forall t, l <> MakeButton t) -> l <> ClearChat ->
  painted (from_option (label_events l) [] (invocations s !! subject l))
          (buttons s) (buttons (handle l s)).
Proof.
  intros Hl Hen Hmk Hcl.
  destruct l as [t|t b| | |k j ok|k j|k|k|k|k j|k j|k j|k j];
    try discriminate; try congruence; cbn [handle subject label_events].
  - unfold awaits_fetch. destruct (invocations s !! k) as [v|] eqn:E; simpl;
      [|reflexivity].
    destruct (at_await v) as [i|i|i|i j'|]; try reflexivity.
    destruct (nextResp v =? j)%nat; [|reflexivity].
    pose proof (painted_await_next k i (with_fetch k j (set_f_state (Responded ok)) s))
      as H.
    cbn [invocations buttons with_fetch with_inv with_invocations] in H.
    now rewrite list_lookup_alter_eq, E in H.
  - unfold awaits_fetch. destruct (invocations s !! k) as [v|] eqn:E; simpl;
      [|reflexivity].
    destruct (at_await v) as [i|i|i|i j'|]; try reflexivity.
    destruct (nextResp v =? j)%nat; [|reflexivity].
    pose proof (painted_await_next k i (with_fetch k j (set_f_state Rejected) s)) as H.
    cbn [invocations buttons with_fetch with_inv with_invocations] in H.
    now rewrite list_lookup_alter_eq, E in H.
  - unfold chunk_at, resp_of. destruct (invocations s !! k) as [v|] eqn:E; simpl;
      [|reflexivity].
    destruct (at_await v) as [i|i|i|i j'|]; try reflexivity.
    all: match goal with
         | |- context [after_blob ?k0 ?i ?s1] =>
             pose proof (painted_after_blob k0 i s1) as H
         end;
      cbn [invocations buttons with_fetch with_inv with_invocations] in H;
      now rewrite list_lookup_alter_eq, E in H.
  - pose proof (painted_catch_block k false
                  (with_fetch k (resp_of k s) (set_f_state BodyFailed) s)) as H.
    cbn [invocations buttons with_fetch with_inv with_invocations] in H.
    rewrite list_lookup_alter_eq in H. now destruct (invocations s !! k).
  - pose proof (painted_catch_block k false
                  (with_fetch k (resp_of k s) (set_f_state (Complete false)) s)) as H.
    cbn [invocations buttons with_fetch with_inv with_invocations] in H.
    rewrite list_lookup_alter_eq in H. now destruct (invocations s !! k).
  - destruct (is_playing_lookup _ _ _ Hen) as (v & a & E & _).
    rewrite E. now apply painted_revoke_resolve.
  - destruct (is_playing_lookup _ _ _ Hen) as (v & a & E & _).
    rewrite E. now apply painted_revoke_resolve.
  - cbn. now destruct (invocations s !! k).
  - destruct (play_pending_lookup _ _ _ Hen) as (v & a & E & _).
    rewrite E. now apply painted_revoke_resolve.
Qed.

Lemma resumes_paint k v i v' es bs bs' :
  resumes k v i v' es -> painted es bs bs' ->
  btn v' = btn v /\
  ((bs' = bs /\ at_await v' <> Returned) \/
   (exists t, bs' = alter (idle t) (btn v) bs)).
Proof.
  intros [Hn|Hn Hst|Hn Hst|Hn Hst|Hn Hst] Hp.
  - cbn in Hp. destruct Hp as (bs1 & Ht & ->). split; [reflexivity|]. now right.
  - cbn in Hp. subst bs'. split; [reflexivity|]. left.
    split; [reflexivity | discriminate].
  - assert (bs' = bs) as ->.
    { unfold on_response_events in Hp.
      destruct (S i <? length (chunks v))%nat; cbn in Hp;
        [destruct Hp as (b1 & -> & b2 & -> & ->) | destruct Hp as (b1 & -> & ->)];
        reflexivity. }
    unfold on_response_local, issue_local.
    split; [destruct (S i <? length (chunks v))%nat; reflexivity|].
    left. split; [reflexivity | discriminate].
  - cbn in Hp. subst bs'. split; [reflexivity|]. left.
    split; [reflexivity | discriminate].
  - cbn in Hp. destruct Hp as (b1 & -> & bs1 & Ht & ->).
    split; [reflexivity|]. now right.
Qed.

(** What a task of the network or of an element does to the buttons: it
    leaves them, and the invocation goes on if it was running; or it puts
    the button of the invocation back; or it shows that button as playing. *)
Lemma moves_paint k v v' es bs bs' :
  moves k v v' es -> painted es bs bs' ->
  btn v' = btn v /\
  (at_await v = Returned -> bs' = bs) /\
  ((bs' = bs /\ (at_await v <> Returned -> at_await v' <> Returned)) \/
   (exists t, bs' = alter (idle t) (btn v) bs) \/
   (bs' = alter now_playing (btn v) bs /\ at_await v' <> Returned)).
Proof.
  intros Hmv Hp.
  destruct Hmv as [j t Hpd Hat Ht|i t v' es Hat Ht Hne' Hr|i Hat|i t Hor
                  |i j g v' es Hat Hr|g j es Hes|].
  - cbn in Hp. subst bs'. split; [reflexivity|]. split; [reflexivity|]. left. auto.
  - destruct (resumes_paint _ _ _ _ _ _ _ Hr Hp) as [Hb Hor].
    split; [exact Hb|]. split; [congruence|].
    destruct Hor as [[-> Hne]|Hreset]; [left; auto | right; left; exact Hreset].
  - split; [reflexivity|]. split; [congruence|].
    destruct (i =? 0)%nat; cbn in Hp.
    + destruct Hp as (b1 & -> & b2 & -> & ->). right. right.
      split; [reflexivity | discriminate].
    + destruct Hp as (b1 & -> & ->). left. split; [reflexivity | discriminate].
  - cbn in Hp. destruct Hp as (b1 & -> & b2 & Ht & ->).
    split; [reflexivity|]. split; [destruct Hor as [[H _]|[H _]]; congruence|].
    right. left. exact Ht.
  - cbn in Hp. destruct Hp as (b1 & -> & Hp).
    destruct (resumes_paint _ _ _ _ _ _ _ Hr Hp) as [Hb Hor].
    split; [exact Hb|]. split; [congruence|].
    destruct Hor as [[-> Hne]|Hreset]; [left; auto | right; left; exact Hreset].
  - assert (bs' = bs) as ->
      by (destruct Hes as [->| ->]; cbn in Hp; [|destruct Hp as (b1 & -> & ->)];
          congruence).
    split; [reflexivity|]. split; [reflexivity|]. left. auto.
  - cbn in Hp. subst bs'. split; [reflexivity|]. split; [reflexivity|]. left. auto.
Qed.

Lemma buttons_drain_nil s : microtasks s = [] -> buttons (drain s) = buttons s.
Proof. intros H. unfold drain. now rewrite H. Qed.

Lemma idle_not_selected t j (bs : list button) i b :
  alter (idle t) j bs !! i = Some b -> selected b = true ->
  i <> j /\ bs !! i = Some b.
Proof.
  intros Hb Hsel.
  destruct (lookup_alter_inv _ _ _ _ _ Hb) as [[Hne Hb']|[<- (x & Hx & ->)]].
  - split; [congruence | exact Hb'].
  - rewrite selected_idle in Hsel. discriminate.
Qed.

Lemma buttons_ok_local l s :
  invariant s -> history s -> buttons_ok s ->
  is_call l = false -> enabled l s = true ->
  buttons_ok (run l s).
Proof.
  intros Hinv Hhist Hok Hl Hen.
  pose proof (inv_queue _ Hinv) as Hq.
  destruct (handle_quiet l Hl s) as [Htts Hmicro].
  pose proof (run_local_invocations l s Hinv Hl) as Hrec.
  assert (Hab : ttsAbort (run l s) = ttsAbort s).
  { unfold run. now rewrite ttsAbort_drain. }
  assert (Hbtn : buttons (run l s) = buttons (handle l s)).
  { unfold run. apply buttons_drain_nil. now rewrite Hmicro. }
  assert (Hkeep : forall i b, buttons (run l s) !! i = Some b -> selected b = true ->
            (exists b0, buttons s !! i = Some b0 /\ selected b0 = true) ->
            (forall v, invocations s !! subject l = Some v -> btn v = i ->
               at_await v <> Returned -> at_await (local_effect l v) <> Returned) ->
            (forall v, invocations s !! subject l = Some v ->
               btn (local_effect l v) = btn v) ->
            narrating (run l s) i).
  { intros i b Hb Hsel Hold Hgo Hsame.
    destruct (Hok i Hold) as (k0 & v0 & Hk0 & Hv0 & Hi & Hne).
    destruct (decide (k0 = subject l)) as [->|Hk].
    - exists (subject l), (local_effect l v0).
      rewrite Hab, Hrec, list_lookup_alter_eq, Hv0. cbn [fmap option_fmap option_map].
      split; [assumption|]. split; [reflexivity|].
      split; [now rewrite (Hsame v0 Hv0) | now apply Hgo].
    - exists k0, v0. rewrite Hab, Hrec, list_lookup_alter_ne by congruence. auto. }
  assert (Hplain : buttons (handle l s) = buttons s ->
            (forall v, invocations s !! subject l = Some v ->
               at_await v <> Returned -> at_await (local_effect l v) <> Returned) ->
            (forall v, invocations s !! subject l = Some v ->
               btn (local_effect l v) = btn v) ->
            buttons_ok (run l s)).
  { intros Heq Hgo Hsame i (b & Hb & Hsel). apply (Hkeep i b Hb Hsel); auto.
    rewrite Hbtn, Heq in Hb. eauto. }
  assert (Hcase : (exists t, l = MakeButton t) \/ l = ClearChat \/
                   ((forall t, l <> MakeButton t) /\ l <> ClearChat)).
  { destruct l; eauto; right; right; split; intros; discriminate. }
  destruct Hcase as [[t ->]|[->|[Hmk' Hcl]]].
  { intros i (b & Hb & Hsel). apply (Hkeep i b Hb Hsel); auto.
    rewrite Hbtn in Hb. cbn [handle makeTTSButton buttons with_buttons] in Hb.
    apply lookup_app_Some in Hb. destruct Hb as [Hb|[_ Hb]]; [eauto|].
    destruct (i - length (buttons s))%nat; [|discriminate].
    injection Hb as <-. discriminate. }
  { intros i (b & Hb & Hsel). exfalso.
    rewrite Hbtn in Hb. cbn [handle buttons with_buttons] in Hb.
    apply list_lookup_fmap_Some in Hb. destruct Hb as (b0 & -> & _). discriminate. }
  pose proof (painted_handle l s Hl Hen Hmk' Hcl) as Hpaint.
  destruct (invocations s !! subject l) as [v|] eqn:E.
  2:{ cbn in Hpaint. apply Hplain; [exact Hpaint | discriminate | discriminate]. }
  destruct (hist_each _ Hhist _ _ E) as [_ Hunread].
  pose proof (inv_wf _ Hinv _ _ E) as Hwf.
  pose proof (label_moves l s v Hl Hen E Hwf Hunread) as Hmv.
  cbn [from_option] in Hpaint.
  destruct (moves_paint _ _ _ _ _ _ Hmv Hpaint) as (Hsame & Hret & Hcases).
  destruct Hcases as [[Heq Hgo]|[[t Hreset]|[Hplay Hgo]]].
  - apply Hplain; [exact Heq| |]; intros v0 [= <-]; assumption.
  - intros i (b & Hb & Hsel). rewrite Hbtn, Hreset in Hb.
    destruct (idle_not_selected _ _ _ _ _ Hb Hsel) as [Hne Hb0].
    destruct (Hok i (ex_intro _ b (conj Hb0 Hsel))) as (k0 & v0 & Hk0 & Hv0 & Hi & Hgo).
    assert (Hk : k0 <> subject l) by (intros ->; congruence).
    exists k0, v0. rewrite Hab, Hrec, list_lookup_alter_ne by congruence. auto.
  - intros i (b & Hb & Hsel). rewrite Hbtn, Hplay in Hb.
    destruct (lookup_alter_inv _ _ _ _ _ Hb) as [[Hne Hb0]|[<- _]].
    + destruct (Hok i (ex_intro _ b (conj Hb0 Hsel)))
        as (k0 & v0 & Hk0 & Hv0 & Hi & Hgo0).
      assert (Hk : k0 <> subject l) by (intros ->; congruence).
      exists k0, v0. rewrite Hab, Hrec, list_lookup_alter_ne by congruence. auto.
    + exists (subject l), (local_effect l v).
      assert (Hv' : invocations (run l s) !! subject l = Some (local_effect l v))
        by (now rewrite Hrec, list_lookup_alter_eq, E).
      split; [|auto].
      exact (inv_current _ (invariant_local l s Hinv Hl Hen) _ _ Hv' Hgo).
Qed.

(** *** The buttons under [stopTTS] and [playTTS] *)

Lemma buttons_resume_aborted s a v :
  invocations s !! a = Some v -> aborted v = true ->
  buttons (resume_aborted s a) = buttons s.
Proof.
  intros Hv Hab. pose proof (painted_resume a s) as H.
  rewrite Hv in H. cbn [from_option] in H.
  unfold resume_events, catch_events, loop_top_events, after_loop_events in H.
  rewrite Hab in H.
  destruct (at_await v) as [i|i|i|i j|];
    try (destruct (S i <? length (chunks v))%nat);
    cbn in H;
    repeat match goal with
           | K : exists _, _ |- _ => destruct K as (? & -> & K)
           end;
    exact H.
Qed.

Lemma buttons_drain_ready s q :
  microtasks s = q ->
  (forall a, In a q -> exists v, invocations s !! a = Some v /\ aborted v = true) ->
  (length q <= 1)%nat ->
  buttons (drain s) = buttons s.
Proof.
  intros Hq Hall Hlen. unfold drain. rewrite Hq.
  destruct q as [|a [|a' q]]; [reflexivity| |simpl in Hlen; lia].
  destruct (Hall a (or_introl eq_refl)) as (v & Hv & Hab).
  cbn. now apply (buttons_resume_aborted s a v).
Qed.

Lemma nothing_selected_stopTTS s i b :
  buttons (stopTTS s) !! i = Some b -> selected b = false.
Proof.
  rewrite buttons_stopTTS, reset_from_lookup.
  destruct (buttons s !! i) as [b0|]; [|discriminate]. cbn.
  intros [= <-]. destruct (selected b0) eqn:E; [apply selected_idle | exact E].
Qed.

Lemma buttons_ok_stop s : invariant s -> buttons_ok (run StopTTS s).
Proof.
  intros Hinv. pose proof (inv_queue _ Hinv) as Hq.
  assert (Hbtn : buttons (run StopTTS s) = buttons (stopTTS s)).
  { unfold run. cbn [handle].
    apply (buttons_drain_ready _ (made_ready s)).
    - now rewrite stopTTS_microtasks, Hq.
    - intros a Ha. rewrite stopTTS_invocations.
      destruct (made_ready_cases s) as [E|(a0 & v & E & Ha0 & Hv & Hab)];
        rewrite E in Ha; [destruct Ha|].
      destruct Ha as [<-|[]]. exists (abort_local v).
      split; [now apply stopped_current|].
      now rewrite abort_local_eq.
    - destruct (made_ready_cases s) as [E|(a0 & v & E & _)]; rewrite E; simpl; lia. }
  intros i (b & Hb & Hsel). rewrite Hbtn in Hb.
  rewrite (nothing_selected_stopTTS s i b Hb) in Hsel. discriminate.
Qed.

Lemma buttons_playTTS t b s :
  buttons (playTTS t b s) = alter now_loading b (buttons (stopTTS s)).
Proof.
  unfold playTTS.
  match goal with
  | |- buttons (loop_top ?k 0 ?s1) = _ =>
      pose proof (painted_loop_top k 0 s1) as H;
      pose proof (acts_on_issue_fetch k 0) as Hrec
  end.
  unfold issue_fetch in H at 1. unfold acts_on in Hrec.
  cbn [invocations buttons log with_inv with_buttons set_ttsAbort with_invocations]
    in H.
  rewrite alter_last, stopTTS_invocations, length_stopped in H.
  rewrite lookup_app_r in H by (rewrite length_stopped; lia).
  rewrite length_stopped, Nat.sub_diag in H. cbn [lookup list_lookup from_option] in H.
  unfold loop_top_events, issue_local in H.
  cbn [chunks aborted fetched with_fetched app] in H.
  pose proof (length_chunks_started t) as Hn.
  destruct (0 <? length (splitBySentence t))%nat eqn:E;
    [|apply Nat.ltb_ge in E; lia].
  cbn in H. rewrite stopTTS_invocations, length_stopped. exact H.
Qed.

Lemma buttons_ok_play t b s : invariant s -> buttons_ok (run (PlayTTS t b) s).
Proof.
  intros Hinv. pose proof (inv_queue _ Hinv) as Hq.
  pose proof (run_play_invocations t b s Hq) as Hrec.
  set (n := length (invocations s)).
  assert (Htts : ttsAbort (run (PlayTTS t b) s) = Some n).
  { unfold run. cbn [handle]. now rewrite ttsAbort_drain, playTTS_ttsAbort. }
  assert (Hbtn : buttons (run (PlayTTS t b) s) = buttons (playTTS t b s)).
  { unfold run. cbn [handle].
    apply (buttons_drain_ready _ (made_ready s)).
    - now rewrite playTTS_microtasks, Hq.
    - intros a Ha. rewrite playTTS_invocations.
      destruct (made_ready_cases s) as [E|(a0 & v & E & Ha0 & Hv & Hab)];
        rewrite E in Ha; [destruct Ha|].
      destruct Ha as [<-|[]]. exists (abort_local v).
      split; [|now rewrite abort_local_eq].
      rewrite lookup_app_l
        by (rewrite length_stopped; apply lookup_lt_is_Some; eauto).
      now apply stopped_current.
    - destruct (made_ready_cases s) as [E|(a0 & v & E & _)]; rewrite E; simpl; lia. }
  intros i (b0 & Hb & Hsel). rewrite Hbtn, buttons_playTTS in Hb.
  destruct (lookup_alter_inv _ _ _ _ _ Hb) as [[Hne Hb0]|[<- _]].
  - rewrite (nothing_selected_stopTTS s i b0 Hb0) in Hsel. discriminate.
  - exists n, (started t b). rewrite Htts, Hrec.
    split; [reflexivity|]. split.
    + rewrite lookup_app_r by (rewrite length_settled; fold n; lia).
      rewrite length_settled. fold n. now rewrite Nat.sub_diag.
    + rewrite started_eq. split; [reflexivity | discriminate].
Qed.

Lemma reachable_buttons_ok s : reachable s -> buttons_ok s.
Proof.
  induction 1 as [|s s' Hs IH Hstep].
  - intros i (b & Hb & _). cbn in Hb. rewrite lookup_nil in Hb. discriminate.
  - pose proof (reachable_invariant s Hs) as Hinv.
    pose proof (reachable_history s Hs) as Hhist.
    destruct Hstep as [l s Hen].
    destruct (is_call l) eqn:Hl; [|now apply buttons_ok_local].
    destruct l; try discriminate; [now apply buttons_ok_play | now apply buttons_ok_stop].
Qed.

(** X11: a button of the page is never left showing a narration that is
    over.  Between two tasks, a button that is in the document and shown as
    loading or playing is the button of the invocation [_ttsAbort] refers
    to, and that invocation has not returned and its signal is not aborted;
    so at most one button is shown busy. *)
Theorem busy_button_is_narrating s :
  reachable s ->
  (forall i b, buttons s !! i = Some b -> selected b = true ->
     exists k v, ttsAbort s = Some k /\ invocations s !! k = Some v /\
       btn v = i /\ at_await v <> Returned /\ aborted v = false) /\
  (forall i1 i2 b1 b2,
     buttons s !! i1 = Some b1 -> buttons s !! i2 = Some b2 ->
     selected b1 = true -> selected b2 = true -> i1 = i2).
Proof.
  intros Hreach. pose proof (reachable_buttons_ok s Hreach) as Hok.
  pose proof (reachable_invariant s Hreach) as Hinv.
  assert (H : forall i b, buttons s !! i = Some b -> selected b = true ->
            exists k v, ttsAbort s = Some k /\ invocations s !! k = Some v /\
              btn v = i /\ at_await v <> Returned /\ aborted v = false).
  { intros i b Hb Hsel.
    destruct (Hok i (ex_intro _ b (conj Hb Hsel))) as (k & v & Hk & Hv & Hi & Hne).
    exists k, v. repeat split; try assumption.
    exact (wf_running _ (proj1 (inv_wf _ Hinv _ _ Hv)) Hne). }
  split; [exact H|].
  intros i1 i2 b1 b2 H1 H2 S1 S2.
  destruct (H i1 b1 H1 S1) as (k1 & v1 & K1 & V1 & <- & _).
  destruct (H i2 b2 H2 S2) as (k2 & v2 & K2 & V2 & <- & _).
  congruence.
Qed.

Lemma busy_button_is_narrating_witness :
  reachable (runs first_plays) /\
  exists k v, ttsAbort (runs first_plays) = Some k /\
    invocations (runs first_plays) !! k = Some v /\
    btn v = 0%nat /\ at_await v <> Returned /\ aborted v = false.
Proof.
  assert (H : reachable (runs first_plays))
    by (apply reachable_runs; vm_compute; reflexivity).
  split; [exact H|].
  assert (Hb : buttons (runs first_plays) !! 0%nat =
               Some (mkButton true false true false SVG_STOP (lit "Stop") Stop
                              two_sentences))
    by (vm_compute; reflexivity).
  exact (proj1 (busy_button_is_narrating (runs first_plays) H) 0%nat _ Hb eq_refl).
Defined.

(** *** [stopTTS] twice *)

Lemma reset_from_idle bs : forall i,
  (forall j b, bs !! j = Some b -> selected b = false) ->
  reset_from i bs = (bs, []).
Proof.
  induction bs as [|b bs IH]; intros i H; [reflexivity|].
  cbn [reset_from]. rewrite (IH (S i)) by (intros j b' Hj; exact (H (S j) b' Hj)).
  now rewrite (H 0%nat b eq_refl).
Qed.

(** X10: [stopTTS] called a second time changes nothing: no signal is left
    to abort, no element to pause, no button to put back, and no call is
    made. *)
Theorem stopTTS_twice s : stopTTS (stopTTS s) = stopTTS s.
Proof.
  unfold stopTTS at 1. rewrite stopTTS_ttsAbort, stopTTS_currentAudio.
  unfold reset_selected.
  rewrite (reset_from_idle (buttons (stopTTS s)) 0)
    by (intros j b; apply nothing_selected_stopTTS).
  destruct (stopTTS s) as [a c bs vs q tr]. unfold log, with_buttons. cbn.
  now rewrite app_nil_r.
Qed.

End ButtonsProofs.

(** ** The tool status panel *)

Module PanelProofs.
Import Panel.

Lemma find_item_shift id l : forall n,
  find_item id n l = (fun k => (n + k)%nat) <$> find_item id 0 l.
Proof.
  induction l as [|r l IH]; intros n; cbn [find_item]; [reflexivity|].
  destruct (eqb (item_id r) id).
  - cbn. now rewrite Nat.add_0_r.
  - rewrite (IH (S n)), (IH 1%nat).
    destruct (find_item id 0 l) as [k|]; cbn; [f_equal; lia | reflexivity].
Qed.

(** The item found is the first one with the id. *)
Lemma find_item_Some id l : forall n,
  find_item id 0 l = Some n ->
  exists r, l !! n = Some r /\ carries id r = true /\
    forall m r', (m < n)%nat -> l !! m = Some r' -> carries id r' = false.
Proof.
  induction l as [|r l IH]; intros n; cbn [find_item]; [discriminate|].
  change (eqb (item_id r) id) with (carries id r).
  destruct (carries id r) eqn:E.
  - intros [= <-]. exists r. split; [reflexivity|]. split; [exact E|]. intros; lia.
  - rewrite find_item_shift. destruct (find_item id 0 l) as [k|]; [|discriminate].
    cbn. intros [= <-]. destruct (IH k eq_refl) as (r0 & Hr0 & Hid & Hfirst).
    exists r0. split; [exact Hr0|]. split; [exact Hid|].
    intros [|m] r' Hm Hr'; cbn in Hr'; [injection Hr' as <-; exact E|].
    apply (Hfirst m); [lia | exact Hr'].
Qed.

Lemma find_item_None id l :
  find_item id 0 l = None -> List.filter (carries id) l = [].
Proof.
  induction l as [|r l IH]; cbn [find_item List.filter]; [reflexivity|].
  change (eqb (item_id r) id) with (carries id r).
  destruct (carries id r); [discriminate|].
  rewrite find_item_shift. destruct (find_item id 0 l); [discriminate|]. auto.
Qed.

Lemma filter_delete_first id l : forall n,
  find_item id 0 l = Some n ->
  List.filter (carries id) (delete n l) = tl (List.filter (carries id) l).
Proof.
  induction l as [|r l IH]; intros n; cbn [find_item]; [discriminate|].
  change (eqb (item_id r) id) with (carries id r).
  cbn [List.filter]. destruct (carries id r) eqn:E.
  - intros [= <-]. reflexivity.
  - rewrite find_item_shift. destruct (find_item id 0 l) as [k|]; [|discriminate].
    cbn [fmap option_fmap option_map Nat.add]. intros [= <-].
    change (delete (S k) (r :: l)) with (r :: delete k l).
    cbn [List.filter]. rewrite E. now apply IH.
Qed.

Lemma filter_alter_first id f l : forall n,
  (forall r, item_id (f r) = item_id r) ->
  find_item id 0 l = Some n ->
  List.filter (carries id) (alter f n l) =
  match List.filter (carries id) l with
  | r :: rs => f r :: rs
  | [] => []
  end.
Proof.
  intros n Hf. revert n.
  assert (Hid : forall r, carries id (f r) = carries id r)
    by (intros r; unfold carries; now rewrite Hf).
  induction l as [|r l IH]; intros n; cbn [find_item]; [discriminate|].
  change (eqb (item_id r) id) with (carries id r).
  cbn [List.filter]. destruct (carries id r) eqn:E.
  - intros [= <-]. change (alter f 0%nat (r :: l)) with (f r :: l).
    cbn [List.filter]. now rewrite Hid, E.
  - rewrite find_item_shift. destruct (find_item id 0 l) as [k|]; [|discriminate].
    cbn [fmap option_fmap option_map Nat.add]. intros [= <-].
    change (alter f (S k) (r :: l)) with (r :: alter f k l).
    cbn [List.filter]. rewrite E. now apply IH.
Qed.

Lemma filter_alter_other id f l n :
  (forall r, item_id (f r) = item_id r) ->
  length (List.filter (carries id) (alter f n l)) =
  length (List.filter (carries id) l).
Proof.
  intros Hf.
  assert (Hid : forall r, carries id (f r) = carries id r)
    by (intros r; unfold carries; now rewrite Hf).
  revert n. induction l as [|r l IH]; intros n; [reflexivity|].
  destruct n as [|n].
  - change (alter f 0%nat (r :: l)) with (f r :: l).
    cbn [List.filter]. rewrite Hid. destruct (carries id r); reflexivity.
  - change (alter f (S n) (r :: l)) with (r :: alter f n l).
    cbn [List.filter]. destruct (carries id r); cbn [length]; now rewrite (IH n).
Qed.

Lemma carrying_eq id p : carrying id p = List.filter (carries id) (items_of p).
Proof. destruct p; reflexivity. Qed.

Lemma tool_item_not_retry t : eqb (lit "tool-" ++ t) RETRY_ID = false.
Proof. reflexivity. Qed.

Lemma getElementById_retry c :
  getElementById RETRY_ID (Some c) = TheItem <$> find_item RETRY_ID 0 (items c).
Proof. reflexivity. Qed.

Lemma getToolStatusContainer_Some c : getToolStatusContainer (Some c) = c.
Proof. reflexivity. Qed.

Lemma items_of_container p : items (getToolStatusContainer p) = items_of p.
Proof. destruct p; reflexivity. Qed.

Lemma eqb_same (a : jsstring) : eqb a a = true.
Proof. induction a as [|c a IH]; [reflexivity|]. cbn. now rewrite N.eqb_refl. Qed.

Lemma eqb_differ (a b : jsstring) : a <> b -> eqb a b = false.
Proof.
  intros H. destruct (eqb a b) eqn:E; [|reflexivity].
  now apply StreamProofs.eqb_eq in E.
Qed.

Section Rendered.

Variable number_exceeds60 : jsstring -> bool.
Variable string_exceeds60 : jsstring -> bool.
Variable JSON_parse : jsstring -> option json.

Local Abbreviation exceeds60 := (Panel.exceeds60 number_exceeds60 string_exceeds60).
Local Abbreviation short := (Panel.short number_exceeds60 string_exceeds60).
Local Abbreviation detail := (Panel.detail number_exceeds60 string_exceeds60).
Local Abbreviation finish := (Panel.finish number_exceeds60 string_exceeds60).
Local Abbreviation addToolDone := (Panel.addToolDone number_exceeds60 string_exceeds60).
Local Abbreviation perform := (Panel.perform number_exceeds60 string_exceeds60).
Local Abbreviation after := (Panel.after number_exceeds60 string_exceeds60).

Lemma retries_addToolStart tool callId p :
  retries (addToolStart tool callId p) = retries p.
Proof.
  unfold retries, addToolStart, tool_id. rewrite !carrying_eq.
  destruct (string_of callId) as [t|];
    [destruct (labelled tool)|]; cbn [items_of append items];
    rewrite ?items_of_container; [|reflexivity|reflexivity].
  rewrite List.filter_app. cbn [List.filter].
  unfold carries at 2. cbn [item_id]. now rewrite tool_item_not_retry, app_nil_r.
Qed.

Lemma retries_addToolDone tool callId summary p :
  (retries (addToolDone tool callId summary p) <= retries p)%nat.
Proof.
  unfold retries, Panel.addToolDone. rewrite !carrying_eq.
  destruct (tool_id callId) as [id|]; [|reflexivity].
  destruct p as [c|]; [|reflexivity]. cbn [getElementById].
  destruct (eqb CONTAINER_ID id).
  - destruct (detail tool summary); cbn [items_of items List.filter length]; lia.
  - destruct (find_item id 0 (items c)) as [n|];
      cbn [fmap option_fmap option_map]; [|reflexivity].
    cbn [items_of items]. rewrite filter_alter_other; [reflexivity|].
    intros r. reflexivity.
Qed.

Lemma carrying_clearLLMRetryStatus p :
  carrying RETRY_ID (clearLLMRetryStatus p) = tl (carrying RETRY_ID p).
Proof.
  unfold clearLLMRetryStatus. destruct p as [c|]; [|reflexivity].
  rewrite getElementById_retry, !carrying_eq.
  destruct (find_item RETRY_ID 0 (items c)) as [n|] eqn:E;
    cbn [fmap option_fmap option_map items_of items].
  - now apply filter_delete_first.
  - now rewrite (find_item_None _ _ E).
Qed.

Lemma find_item_appended id r l :
  find_item id 0 l = None -> item_id r = id ->
  find_item id 0 (l ++ [r]) = Some (length l).
Proof.
  intros E <-. induction l as [|x l IH]; cbn [find_item app length].
  - now rewrite eqb_same.
  - cbn [find_item] in E. destruct (eqb (item_id x) (item_id r)); [discriminate|].
    rewrite find_item_shift in E. rewrite find_item_shift.
    destruct (find_item (item_id r) 0 l); [discriminate|].
    now rewrite IH.
Qed.

Lemma with_retry_found c :
  find_item RETRY_ID 0 (with_retry c).1 = Some (with_retry c).2 /\
  exists r, List.filter (carries RETRY_ID) (with_retry c).1 =
            r :: tl (List.filter (carries RETRY_ID) (items c)).
Proof.
  unfold with_retry.
  destruct (find_item RETRY_ID 0 (items c)) as [n|] eqn:E; cbn [fst snd].
  - split; [exact E|].
    destruct (find_item_Some _ _ _ E) as (r0 & Hr0 & Hid & _).
    destruct (List.filter (carries RETRY_ID) (items c)) as [|r rs] eqn:F; [|eauto].
    exfalso. assert (Hin : In r0 (List.filter (carries RETRY_ID) (items c))).
    { apply List.filter_In. split; [|exact Hid].
      apply list_elem_of_In, list_elem_of_lookup_2 with n. exact Hr0. }
    rewrite F in Hin. destruct Hin.
  - split; [now apply find_item_appended|].
    rewrite List.filter_app, (find_item_None _ _ E). cbn. eauto.
Qed.

Lemma showLLMRetryStatus_items data p :
  items_of (showLLMRetryStatus data p) =
  let c := getToolStatusContainer p in
  match notice data with
  | Some h => alter (set_inner h) (with_retry c).2 (with_retry c).1
  | None => (with_retry c).1
  end.
Proof.
  unfold showLLMRetryStatus, with_retry. cbv zeta.
  rewrite getElementById_retry.
  destruct (find_item RETRY_ID 0 (items (getToolStatusContainer p))) as [n|];
    cbn [fmap option_fmap option_map fst snd];
    destruct (notice data); reflexivity.
Qed.

(** After [showLLMRetryStatus] there is a retry item; it is the one there
    was, if any. *)
Lemma carrying_showLLMRetryStatus data p :
  exists r rs,
    carrying RETRY_ID (showLLMRetryStatus data p) = r :: rs /\
    rs = tl (carrying RETRY_ID p) /\
    (forall h, notice data = Some h -> inner r = h).
Proof.
  rewrite !carrying_eq, showLLMRetryStatus_items. cbv zeta.
  rewrite <- (items_of_container p).
  destruct (with_retry_found (getToolStatusContainer p)) as [E (r & F)].
  pose proof (fun h => filter_alter_first RETRY_ID (set_inner h) _ _
                         (fun r => eq_refl) E) as Halter.
  rewrite F in Halter.
  destruct (notice data) as [h|].
  - eexists. eexists. split; [apply Halter|]. split; [reflexivity|].
    intros h' [= <-]. reflexivity.
  - exists r. eexists. split; [exact F|]. split; [reflexivity|]. discriminate.
Qed.

Lemma retries_perform p c :
  (retries p <= 1)%nat -> (retries (perform p c) <= 1)%nat.
Proof.
  intros Hp. destruct c; cbn [Panel.perform]; try exact Hp.
  - now rewrite retries_addToolStart.
  - pose proof (retries_addToolDone tool call_id summary p). lia.
  - destruct (carrying_showLLMRetryStatus data p) as (r & rs & E & -> & _).
    unfold retries in *. rewrite E. cbn [length].
    destruct (carrying RETRY_ID p) as [|x [|y l]]; cbn in *; lia.
  - unfold retries in *. rewrite carrying_clearLLMRetryStatus.
    destruct (carrying RETRY_ID p); cbn in *; lia.
  - unfold clearToolStatus. destruct (getElementById CONTAINER_ID p); [cbn; lia | exact Hp].
Qed.

Lemma retries_after cs : forall p,
  (retries p <= 1)%nat -> (retries (after cs p) <= 1)%nat.
Proof.
  induction cs as [|c cs IH]; intros p Hp; [exact Hp|].
  cbn [Panel.after fold_left]. apply IH, retries_perform, Hp.
Qed.



Lemma take_all {A} (l : list A) n : (length l <= n)%nat -> take n l = l.
Proof. intros H. now apply take_ge. Qed.

(** X14: the detail that [addToolDone] prints.  For a summary that is a
    string it has at most 63 code units: the summary itself up to 60 code
    units, its first 60 followed by three dots beyond, and [done] for the
    empty string; it is [done] for every summary that is falsy (missing,
    [null], [false], [0]).  Computing or printing it throws for an array or
    an object only: for an array whose first 60 elements have no joint
    string conversion, and for an object that has a field [toString] or a
    field [length] whose comparison with 60 throws or holds. *)
Theorem detail_of_a_summary :
  (forall s, exists d,
     short (Some (JStr s)) = Some d /\
     (length d <= 63)%nat /\
     (s = [] -> d = lit "done") /\
     (s <> [] -> (length s <= 60)%nat -> d = s) /\
     ((60 < length s)%nat -> d = take 60 s ++ lit "...")) /\
  (forall v, truthy_value v = false -> short v = Some (lit "done")) /\
  (forall v, short v = None -> compound v) /\
  (forall l, short (Some (JArr l)) = None <-> to_string (JArr (take 60 l)) = None) /\
  (forall fields, short (Some (JObj fields)) = None <->
     (exceeds60 (assoc fields (lit "length")) <> Some false \/
      assoc fields (lit "toString") <> None)).
Proof.
  split; [|split; [|split; [|split]]].
  - intros s. unfold Panel.short. destruct s as [|c s]; cbn [truthy].
    + exists (lit "done"). split; [reflexivity|]. split; [cbn; lia|].
      split; [reflexivity|]. split; [congruence | cbn; lia].
    + destruct (60 <? length (c :: s))%nat eqn:E;
        [apply Nat.ltb_lt in E | apply Nat.ltb_ge in E];
        eexists; (split; [reflexivity|]).
      * split; [rewrite length_app, length_take;
                change (length (lit "...")) with 3%nat; lia|].
        split; [discriminate|]. split; [lia | reflexivity].
      * split; [lia|]. split; [discriminate|]. split; [reflexivity | lia].
  - intros [[|b|t|s|l|fields]|] H; cbn [truthy_value] in H; try discriminate;
      unfold Panel.short; cbn [truthy_value]; rewrite ?H; reflexivity.
  - intros [[|b|t|s|l|fields]|]; unfold Panel.short; cbn [truthy_value compound];
      try (destruct b); try (destruct (negb (eqb t (lit "0"))));
      try (destruct (truthy s)); try discriminate; auto.
  - intros l. unfold Panel.short.
    destruct (60 <? length l)%nat eqn:E.
    + destruct (to_string (JArr (take 60 l))); split; congruence.
    + apply Nat.ltb_ge in E. now rewrite take_all.
  - intros fields. unfold Panel.short.
    destruct (exceeds60 (assoc fields (lit "length"))) as [[|]|] eqn:E.
    + split; [left; discriminate | reflexivity].
    + cbn [to_string]. destruct (assoc fields (lit "toString")).
      * split; [right; discriminate | reflexivity].
      * split; [discriminate | intros [H|H]; congruence].
    + split; [left; discriminate | reflexivity].
Qed.

(** *** The panel through a turn *)

Lemma cleared_first s0 s :
  Stream.calls s = Stream.calls s0 ->
  cleared_since s0 (Stream.do_call Stream.ClearLLMRetryStatus s).
Proof. intros H. exists []. cbn. rewrite H. split; [reflexivity | constructor]. Qed.

Lemma cleared_call s0 c s :
  inert c -> cleared_since s0 s -> cleared_since s0 (Stream.do_call c s).
Proof.
  intros Hc (rest & E & Hrest). exists (rest ++ [c]). cbn [Stream.calls Stream.do_call].
  rewrite E, <- app_assoc. split; [reflexivity|].
  apply Forall_app. split; [exact Hrest | now constructor].
Qed.

Lemma after_inert rest : forall p,
  Forall inert rest -> after rest p = p.
Proof.
  induction rest as [|c rest IH]; intros p H; [reflexivity|].
  inversion H as [|? ? Hc Hrest]; subst. cbn [Panel.after fold_left].
  destruct c; try contradiction; cbn [Panel.perform]; now apply IH.
Qed.

Lemma cleared_no_notice s0 s :
  cleared_since s0 s ->
  carrying RETRY_ID (after (Stream.calls s) None) = [].
Proof.
  intros (rest & E & Hrest). rewrite E.
  assert (Hsplit : forall cs1 cs2 p,
            after (cs1 ++ cs2) p = after cs2 (after cs1 p))
    by (intros; apply fold_left_app).
  rewrite Hsplit.
  change (after (Stream.ClearLLMRetryStatus :: rest)
            (after (Stream.calls s0) None))
    with (after rest
            (clearLLMRetryStatus (after (Stream.calls s0) None))).
  rewrite after_inert by exact Hrest.
  rewrite carrying_clearLLMRetryStatus.
  pose proof (retries_after (Stream.calls s0) None) as H. unfold retries in H.
  specialize (H ltac:(cbn; lia)).
  destruct (carrying RETRY_ID (after (Stream.calls s0) None)) as [|x [|y l]];
    cbn in *; [reflexivity | reflexivity | lia].
Qed.

Import Stream StreamProofs.
Local Open Scope js_scope.

Ltac cleared_step s0 :=
  first
    [ eapply triple_bind with (R := fun _ s => cleared_since s0 s); [|intros ?]
    | apply triple_ret; intros; assumption
    | apply triple_field; intros; assumption
    | apply triple_convert; intros; assumption
    | apply triple_read; intros; assumption
    | apply triple_exec; let K := fresh "K" in intros ? K; cbv beta;
      first [ exact K | apply cleared_call; [exact I | exact K] ]
    | (let K := fresh "K" in intros ? K; exact K)
    | match goal with |- triple _ (match ?x with _ => _ end) _ _ => destruct x end
    | match goal with |- triple _ (if ?x then _ else _) _ _ => destruct x end ].

(** The message of the turn is there or can be created. *)
Lemma cleared_ensure s0 (E : state -> Prop) :
  triple (fun s => calls s = calls s0 /\
                   (streamBody s <> None \/ string_of (currentMode s) <> None))
         ensureStreamBody
         (fun _ s => calls s = calls s0) E.
Proof.
  intros s [Hs Hor].
  destruct (ensure_cases s) as [(i & _ & ->)|[(Hb & Hn & _)|(_ & _ & ->)]];
    [exact Hs | tauto | exact Hs].
Qed.

Lemma kept_ensure s0 :
  triple (fun s => cleared_since s0 s) ensureStreamBody
         (fun _ s => cleared_since s0 s) (fun s => cleared_since s0 s).
Proof.
  intros s Hs.
  destruct (ensure_cases s) as [(i & _ & ->)|[(_ & _ & ->)|(_ & _ & ->)]]; exact Hs.
Qed.

Lemma cleared_clear s0 :
  triple (fun s => calls s = calls s0) (exec (do_call ClearLLMRetryStatus))
         (fun _ s => cleared_since s0 s) (fun s => cleared_since s0 s).
Proof. apply triple_exec. intros s Hs. now apply cleared_first. Qed.

Lemma cleared_on_token s0 data :
  triple (fun s => calls s = calls s0 /\
                   (streamBody s <> None \/ string_of (currentMode s) <> None))
         (on_token data)
         (fun _ s => cleared_since s0 s) (fun s => cleared_since s0 s).
Proof.
  unfold on_token.
  eapply triple_bind; [apply cleared_ensure|]. intros i.
  eapply triple_bind; [apply cleared_clear|]. intros ?.
  repeat cleared_step s0.
Qed.

Lemma cleared_on_done s0 data :
  triple (fun s => calls s = calls s0) (on_done data)
         (fun _ s => cleared_since s0 s) (fun s => cleared_since s0 s).
Proof.
  unfold on_done, addButtonAndPlay.
  eapply triple_bind; [apply cleared_clear|]. intros ?.
  repeat cleared_step s0.
Qed.

Lemma cleared_on_error s0 data :
  triple (fun s => calls s = calls s0) (on_error data)
         (fun _ s => cleared_since s0 s) (fun s => cleared_since s0 s).
Proof.
  unfold on_error.
  eapply triple_bind; [apply cleared_clear|]. intros ?.
  eapply triple_bind; [apply kept_ensure|]. intros ?.
  repeat cleared_step s0.
Qed.

Lemma cleared_on_failure s0 message :
  triple (fun s => calls s = calls s0) (on_failure message)
         (fun _ s => cleared_since s0 s) (fun s => cleared_since s0 s).
Proof.
  unfold on_failure.
  eapply triple_bind; [apply cleared_clear|]. intros ?.
  eapply triple_bind; [apply kept_ensure|]. intros ?.
  repeat cleared_step s0.
Qed.


End Rendered.




End PanelProofs.

(** ** The confirmation card *)

Module ConfirmProofs.
Import Confirm.

Lemma replicate_snoc {A} n (x : A) : replicate n x ++ [x] = replicate (S n) x.
Proof. induction n as [|n IH]; [reflexivity|]. cbn. now rewrite IH. Qed.

Lemma asking_result o :
  match result_view o with Asking _ _ => true | _ => false end = false.
Proof.
  destruct o as [result|m]; [|reflexivity]. unfold result_view.
  destruct (prop result (lit "status")) as [status|]; [|reflexivity].
  destruct (prop result (lit "message")) as [m|]; [|reflexivity].
  destruct (string_of m); [|reflexivity].
  destruct status as [[| | |s| |]|]; try reflexivity.
  destruct (eqb s (lit "completed")); reflexivity.
Qed.

Lemma tidy_handle a t c : tidy a c -> enabled t c = true -> tidy a (handle t c).
Proof.
  intros [Ha Hsent] Hen. unfold tidy.
  destruct t as [| |o|]; cbn [handle enabled] in *; rewrite ?Ha;
    destruct a as [a|]; cbn [action sent shown]; (split; [reflexivity|]).
  - destruct Hsent as (n & [E|[_ Hno]]); [|congruence].
    exists n. right. split; [now rewrite E|].
    unfold asking in *. cbn [shown]. destruct (shown c); try discriminate. reflexivity.
  - exact Hsent.
  - destruct Hsent as (n & [E|[_ Hno]]); [|congruence].
    exists (S n). left. now rewrite E, replicate_snoc.
  - exact Hsent.
  - destruct Hsent as (n & [E|[E _]]); exists n; [now left|].
    right. split; [exact E|]. unfold asking. cbn [shown]. apply asking_result.
  - exact Hsent.
  - destruct Hsent as (n & [E|[E _]]); exists n; [now left|].
    right. split; [exact E | reflexivity].
  - exact Hsent.
Qed.

Lemma tidy_run a ts : forall c c', tidy a c -> run ts c = Some c' -> tidy a c'.
Proof.
  induction ts as [|t ts IH]; intros c c' Hc; cbn [run].
  - now intros [= <-].
  - destruct (enabled t c) eqn:Hen; [|discriminate].
    apply IH. now apply tidy_handle.
Qed.

Lemma filter_cancels n a :
  List.filter is_confirmation (replicate n (CancelAction a)) = [].
Proof. induction n as [|n IH]; [reflexivity | exact IH]. Qed.

(** X16: a card whose title and time hold no [<] confirms its action at
    most once, and never after the question has gone.  Whatever the user
    clicks and however the requests end, the requests the card has sent are
    cancellations followed by at most one confirmation, all for the text of
    the [action_id] of its payload, and none when that id has no string
    conversion; once a confirmation is sent, or the cancellation is shown, no
    button is left to click and no further request is sent. *)
Theorem card_confirms_at_most_once data c ts c' :
  showConfirmAction data = Some c -> stray c = false -> run ts c = Some c' ->
  (forall id, prop data (lit "action_id") = Some id -> action c' = string_of id) /\
  (confirmations c' <= 1)%nat /\
  match action c' with
  | Some a =>
      exists n, sent c' = replicate n (CancelAction a) \/
                sent c' = replicate n (CancelAction a) ++ [ConfirmAction a]
  | None => sent c' = []
  end /\
  ((1 <= confirmations c')%nat \/ shown c' = Cancelled ->
   enabled ClickYes c' = false /\ enabled ClickNo c' = false /\
   forall t, enabled t c' = true -> sent (handle t c') = sent c').
Proof.
  intros Hshow _ Hrun.
  assert (Hc : tidy (action c) c /\
               forall id, prop data (lit "action_id") = Some id ->
                          action c = string_of id).
  { unfold showConfirmAction in Hshow.
    destruct (prop data (lit "title")) as [title|]; [|discriminate].
    destruct (prop data (lit "time")) as [time|]; [|discriminate].
    destruct (prop data (lit "action_id")) as [id|]; [|discriminate].
    destruct (to_string (Panel.or_default title (JStr []))); [|discriminate].
    destruct (to_string (Panel.or_default time (JStr []))); [|discriminate].
    injection Hshow as <-. cbn [action]. split.
    - split; [reflexivity|]. destruct (string_of id); [exists 0%nat; now left | reflexivity].
    - now intros id' [= <-]. }
  destruct Hc as [Hc Hid].
  destruct (tidy_run _ ts c c' Hc Hrun) as [Ha Hsent].
  split; [intros id H; rewrite Ha; now apply Hid|]. rewrite Ha.
  assert (Hcount : (confirmations c' <= 1)%nat).
  { unfold confirmations. destruct (action c) as [a|].
    - destruct Hsent as (n & [->|[-> _]]);
        rewrite ?List.filter_app, filter_cancels; cbn; lia.
    - rewrite Hsent. cbn. lia. }
  split; [exact Hcount|]. split.
  { destruct (action c) as [a|]; [|exact Hsent].
    destruct Hsent as (n & [E|[E _]]); exists n; auto. }
  intros Hor.
  assert (Hno : asking c' = false).
  { destruct Hor as [H1|Hv]; [|unfold asking; now rewrite Hv].
    unfold confirmations in H1. destruct (action c) as [a|].
    - destruct Hsent as (n & [E|[_ E]]); [|exact E].
      rewrite E, filter_cancels in H1. cbn in H1. lia.
    - rewrite Hsent in H1. cbn in H1. lia. }
  split; [exact Hno|]. split; [exact Hno|].
  intros [| |o|] Hen; cbn [enabled] in Hen; try congruence; reflexivity.
Qed.

Lemma card_confirms_at_most_once_witness :
  exists c c',
    showConfirmAction sample_action = Some c /\
    stray c = false /\
    run cancel_then_confirm c = Some c' /\
    sent c' = [CancelAction (lit "a1"); ConfirmAction (lit "a1")] /\
    shown c' = Cancelled /\
    (confirmations c' <= 1)%nat.
Proof.
  eexists. eexists.
  assert (H1 : showConfirmAction sample_action =
               Some (mkCard (Some (lit "a1")) (Asking (lit "Lunch") (lit "noon"))
                            [] false 0 false))
    by reflexivity.
  assert (H2 : run cancel_then_confirm
                 (mkCard (Some (lit "a1")) (Asking (lit "Lunch") (lit "noon"))
                         [] false 0 false) =
               Some (mkCard (Some (lit "a1")) Cancelled
                       [CancelAction (lit "a1"); ConfirmAction (lit "a1")]
                       false 0 false))
    by reflexivity.
  split; [exact H1|]. split; [reflexivity|]. split; [exact H2|].
  split; [reflexivity|]. split; [reflexivity|].
  exact (proj1 (proj2 (card_confirms_at_most_once _ _ _ _ H1 eq_refl H2))).
Defined.

End ConfirmProofs.
